(** * Crypto service: a shallow embedding of the core and its properties

    The development follows the layout of the service:
    - common: bytes, sizes, [Result]/[Error], the input validator;
    - engine: the AES engine over a model of the OpenSSL EVP interface;
    - keys: [KeyId], key metadata, the key stores and the key service;
    - services: the file envelope codec;
    - metrics: W3C trace-context parsing.

    Integers of the C++ code are modelled in [Z]; fixed-width arithmetic
    has its wrap-around written out.  Byte buffers are [list byte],
    [std::string] is [string]. *)

From Stdlib Require Import ZArith NArith Lia Bool List Ascii String.
From Stdlib.Strings Require Import Byte.
From stdpp Require Import base option list gmap strings pretty.

Local Open Scope string_scope.
Local Open Scope list_scope.
Local Open Scope Z_scope.

(** ** Bytes and sizes *)

Abbreviation byte := Byte.byte.
Abbreviation bytes := (list Byte.byte).

(** [container.size()] as an integer. *)
Definition size {A} (l : list A) : Z := Z.of_nat (length l).

Definition byte_to_Z (b : byte) : Z := Z.of_N (Byte.to_N b).

(** [static_cast<uint8_t>(v)]: reduction modulo 256. *)
Definition u8 (v : Z) : byte :=
  match Byte.of_N (Z.to_N (v mod 256)) with
  | Some b => b
  | None => "000"%byte
  end.

(** [static_cast<uint16_t>], [static_cast<uint32_t>], [static_cast<uint64_t>]. *)
Definition u16 (v : Z) : Z := v mod 2 ^ 16.
Definition u32 (v : Z) : Z := v mod 2 ^ 32.
Definition u64 (v : Z) : Z := v mod 2 ^ 64.

Definition byte_eqb (a b : byte) : bool := Byte.eqb a b.

(** [std::vector::resize(n, v)]: truncate, or extend with copies of [v]. *)
Definition resize_with (l : bytes) (n : Z) (v : byte) : bytes :=
  if n <=? size l then take (Z.to_nat n) l
  else l ++ replicate (Z.to_nat (n - size l)) v.

(** [std::string] as the bytes it holds. *)
Definition string_bytes (s : string) : bytes := list_byte_of_string s.

(** ** result.h: error codes, errors and results *)

Inductive ErrorCode :=
  | OK | UNKNOWN_ERROR | INVALID_INPUT | INTERNAL_ERROR
  | CRYPTO_ERROR | INVALID_KEY_SIZE | INVALID_IV_SIZE | INVALID_TAG_SIZE
  | INTEGRITY_ERROR | PADDING_ERROR | KEY_GENERATION_FAILED | INVALID_KEY_TYPE
  | SIZE_LIMIT_EXCEEDED | SIGNATURE_INVALID | ENCRYPTION_FAILED | DECRYPTION_FAILED
  | KEY_NOT_FOUND | KEY_DEPRECATED | KEY_ROTATION_FAILED | KEY_EXPIRED
  | KEY_INVALID_STATE
  | AUTHENTICATION_FAILED | AUTHORIZATION_FAILED | PERMISSION_DENIED
  | SERVICE_UNAVAILABLE | TIMEOUT | NOT_FOUND | KMS_UNAVAILABLE
  | CACHE_MISS | CACHE_ERROR | CACHE_UNAVAILABLE
  | LOGGING_ERROR | LOGGING_UNAVAILABLE
  | CONFIG_ERROR | CONFIG_MISSING | CONFIG_INVALID
  | AUDIT_LOG_FAILED.

Record Error := mkError {
  code : ErrorCode;
  message : string;
  correlation_id : string
}.

(** [Error(c, msg)]: the correlation id defaults to the empty string. *)
Definition Error_ (c : ErrorCode) (msg : string) : Error := mkError c msg "".

Inductive Result (A : Type) :=
  | Ok (a : A)
  | Err (e : Error).
Arguments Ok {A} a.
Arguments Err {A} e.

(** [Err<T>(code, message)]. *)
Definition Err_ {A} (c : ErrorCode) (msg : string) : Result A := Err (Error_ c msg).

Definition has_value {A} (r : Result A) : bool :=
  match r with Ok _ => true | Err _ => false end.

Definition is_error {A} (r : Result A) : bool := negb (has_value r).

Definition error_code {A} (r : Result A) : option ErrorCode :=
  match r with Ok _ => None | Err e => Some (code e) end.

(** ** input_validation.h *)

Module limits.
Definition MAX_PLAINTEXT_SIZE : Z := 64 * 1024 * 1024.
Definition MAX_CIPHERTEXT_SIZE : Z := 64 * 1024 * 1024 + 1024.
Definition MAX_AAD_SIZE : Z := 64 * 1024.
End limits.

Definition validatePlaintextSize (sz : Z) : Result unit :=
  if sz >? limits.MAX_PLAINTEXT_SIZE
  then Err_ SIZE_LIMIT_EXCEEDED "Input exceeds maximum allowed size"
  else Ok tt.

Definition validateCiphertextSize (sz : Z) : Result unit :=
  if sz >? limits.MAX_CIPHERTEXT_SIZE
  then Err_ SIZE_LIMIT_EXCEEDED "Ciphertext exceeds maximum allowed size"
  else Ok tt.

Definition validateAADSize (sz : Z) : Result unit :=
  if sz >? limits.MAX_AAD_SIZE
  then Err_ SIZE_LIMIT_EXCEEDED "AAD exceeds maximum allowed size"
  else Ok tt.

Definition validateAESKeySize (sz : Z) : Result unit :=
  if negb (sz =? 16) && negb (sz =? 32)
  then Err_ INVALID_KEY_SIZE "AES key must be 128 or 256 bits"
  else Ok tt.

Definition validateGCMIVSize (sz : Z) : Result unit :=
  if negb (sz =? 12)
  then Err_ INVALID_IV_SIZE "GCM IV must be 96 bits"
  else Ok tt.

Definition validateGCMTagSize (sz : Z) : Result unit :=
  if negb (sz =? 16)
  then Err_ INVALID_TAG_SIZE "GCM tag must be 128 bits"
  else Ok tt.

Module safe_errors.
Definition ENCRYPTION_FAILED_MSG := "Encryption operation failed".
Definition DECRYPTION_FAILED_MSG := "Decryption operation failed".
Definition VERIFICATION_FAILED_MSG := "Signature verification failed".
Definition INTEGRITY_FAILED_MSG := "Data integrity verification failed".
End safe_errors.

Definition makeSafeError (c : ErrorCode) : Error :=
  match c with
  | ENCRYPTION_FAILED => Error_ c safe_errors.ENCRYPTION_FAILED_MSG
  | DECRYPTION_FAILED => Error_ c safe_errors.DECRYPTION_FAILED_MSG
  | SIGNATURE_INVALID => Error_ c safe_errors.VERIFICATION_FAILED_MSG
  | INTEGRITY_ERROR => Error_ c safe_errors.INTEGRITY_FAILED_MSG
  | _ => Error_ c "Operation failed"
  end.

(** ** hash_utils.h: AES constants *)

Module aes_gcm.
Definition IV_SIZE : Z := 12.
Definition TAG_SIZE : Z := 16.
Definition BLOCK_SIZE : Z := 16.
End aes_gcm.

Module aes_cbc.
Definition IV_SIZE : Z := 16.
Definition BLOCK_SIZE : Z := 16.
End aes_cbc.

(** ** The environment: randomness, clock and the log of primitive calls *)

(** Calls into OpenSSL, recorded in the order they are made. *)
Inductive PrimCall :=
  | RAND_bytes_call (n : Z)
  | EVP_CIPHER_CTX_new_call
  | EVP_EncryptInit_ex_call
  | EVP_DecryptInit_ex_call
  | EVP_CIPHER_CTX_ctrl_call
  | EVP_EncryptUpdate_call
  | EVP_DecryptUpdate_call
  | EVP_EncryptFinal_ex_call
  | EVP_DecryptFinal_ex_call.

(** Every call but the random generator works on a cipher context. *)
Definition is_cipher_call (c : PrimCall) : bool :=
  match c with
  | RAND_bytes_call _ => false
  | _ => true
  end.

(** What the code reads from outside itself.  [entropy] is the output the
    OpenSSL generator still has to give: a request for more bytes than are
    left is a failed [RAND_bytes].  [mt_draws] are the 64-bit values the
    Mersenne twisters of [UUID::generate] return, [mt_pos] of them used, [keypairs] the
    outcomes of the asymmetric key generators, [now] the system clock. *)
Record World := mkWorld {
  entropy : bytes;
  mt_draws : nat -> Z;
  mt_pos : nat;
  keypairs : list (Result bytes);
  now : Z;
  calls : list PrimCall
}.

Definition log_call (c : PrimCall) (w : World) : World :=
  mkWorld (entropy w) (mt_draws w) (mt_pos w) (keypairs w) (now w) (calls w ++ [c]).

Definition set_entropy (e : bytes) (w : World) : World :=
  mkWorld e (mt_draws w) (mt_pos w) (keypairs w) (now w) (calls w).

(** Computations over a state [St] that may fail: the state is threaded
    through, an error ends the computation at once. *)
Definition St_M (St A : Type) : Type := St -> Result A * St.

Definition ret {St A} (a : A) : St_M St A := fun s => (Ok a, s).

Definition fail {St A} (e : Error) : St_M St A := fun s => (Err e, s).

Definition bind {St A B} (m : St_M St A) (k : A -> St_M St B) : St_M St B :=
  fun s =>
    match m s with
    | (Ok a, s') => k a s'
    | (Err e, s') => (Err e, s')
    end.

(** The engines only touch the world. *)
Abbreviation M := (St_M World).

Notation "'let*' p ':=' c1 'in' c2" := (bind c1 (fun p => c2))
  (at level 10, p pattern, c1 at level 100, c2 at level 200, only parsing).

(** [if (auto r = f(); !r) return Err(r.error());] *)
Definition check {St A} (r : Result A) : St_M St A := fun s => (r, s).

(** Run a computation and hand its result, error or not, to the caller. *)
Definition attempt {St A} (m : St_M St A) : St_M St (Result A) :=
  fun s => let (r, s') := m s in (Ok r, s').

(** [openssl::random_bytes(buffer, size)] *)
Definition random_bytes (n : Z) (w : World) : option bytes * World :=
  let w' := log_call (RAND_bytes_call n) w in
  if n <=? size (entropy w)
  then (Some (take (Z.to_nat n) (entropy w)),
        set_entropy (drop (Z.to_nat n) (entropy w)) w')
  else (None, w').

(** ** A model of the OpenSSL EVP interface for AES-GCM

    The block cipher itself is a parameter: [gctr key iv] is the counter-mode
    keystream transformation and [gmac key iv aad ciphertext] the 16-byte
    authentication tag. *)

Class AESGCM := {
  gctr : bytes -> bytes -> bytes -> bytes;
  gmac : bytes -> bytes -> bytes -> bytes -> bytes
}.

Global Instance byte_eq_dec : EqDecision byte := Byte.byte_eq_dec.

Inductive EVP_CIPHER := EVP_aes_128_gcm | EVP_aes_256_gcm.

Record EVP_CIPHER_CTX := mkCtx {
  ctx_cipher : option EVP_CIPHER;
  ctx_ivlen : Z;
  ctx_key : bytes;
  ctx_iv : bytes;
  ctx_aad : bytes;
  ctx_text : bytes;   (* the ciphertext seen so far, which the tag covers *)
  ctx_tag : bytes     (* the tag to verify, once set *)
}.

Definition fresh_ctx : EVP_CIPHER_CTX := mkCtx None 12 [] [] [] [] [].

(** [vec.data() + off] written with [data]. *)
Definition write_at (buf : bytes) (off : Z) (data : bytes) : bytes :=
  take (Z.to_nat off) buf ++ data ++ drop (Z.to_nat (off + size data)) buf.

Section EVP.
Context {G : AESGCM}.

(** [openssl::make_cipher_ctx()]: a context, or null. *)
Definition make_cipher_ctx : M (option EVP_CIPHER_CTX) :=
  fun w => (Ok (Some fresh_ctx), log_call EVP_CIPHER_CTX_new_call w).

(** [EVP_EncryptInit_ex] and [EVP_DecryptInit_ex]: each argument that is
    not null is stored in the context. *)
Definition EVP_CipherInit_ex (ev : PrimCall) (ctx : EVP_CIPHER_CTX)
    (cipher : option EVP_CIPHER) (key iv : option bytes)
    : M (Z * EVP_CIPHER_CTX) :=
  fun w =>
    let ctx' :=
      mkCtx (match cipher with Some c => Some c | None => ctx_cipher ctx end)
            (ctx_ivlen ctx)
            (default (ctx_key ctx) key)
            (default (ctx_iv ctx) iv)
            (ctx_aad ctx) (ctx_text ctx) (ctx_tag ctx) in
    (Ok (1, ctx'), log_call ev w).

Definition EVP_EncryptInit_ex := EVP_CipherInit_ex EVP_EncryptInit_ex_call.
Definition EVP_DecryptInit_ex := EVP_CipherInit_ex EVP_DecryptInit_ex_call.

(** [EVP_CIPHER_CTX_ctrl(ctx, EVP_CTRL_GCM_SET_IVLEN, n, nullptr)] *)
Definition EVP_CTRL_GCM_SET_IVLEN (ctx : EVP_CIPHER_CTX) (n : Z)
    : M (Z * EVP_CIPHER_CTX) :=
  fun w =>
    let w' := log_call EVP_CIPHER_CTX_ctrl_call w in
    if 0 <? n
    then (Ok (1, mkCtx (ctx_cipher ctx) n (ctx_key ctx) (ctx_iv ctx)
                       (ctx_aad ctx) (ctx_text ctx) (ctx_tag ctx)), w')
    else (Ok (0, ctx), w').

(** [EVP_EncryptUpdate(ctx, nullptr, &len, aad, n)] and its decrypting
    twin: associated data is only authenticated. *)
Definition EVP_Update_aad (ev : PrimCall) (ctx : EVP_CIPHER_CTX) (aad : bytes)
    : M (Z * EVP_CIPHER_CTX) :=
  fun w =>
    (Ok (1, mkCtx (ctx_cipher ctx) (ctx_ivlen ctx) (ctx_key ctx) (ctx_iv ctx)
                  (ctx_aad ctx ++ aad) (ctx_text ctx) (ctx_tag ctx)),
     log_call ev w).

(** [EVP_EncryptUpdate(ctx, out, &len, in, n)]: the bytes written to [out];
    [len] is their number. *)
Definition EVP_EncryptUpdate (ctx : EVP_CIPHER_CTX) (input : bytes)
    : M (Z * (EVP_CIPHER_CTX * bytes)) :=
  fun w =>
    let out := gctr (ctx_key ctx) (ctx_iv ctx) input in
    (Ok (1, (mkCtx (ctx_cipher ctx) (ctx_ivlen ctx) (ctx_key ctx) (ctx_iv ctx)
                  (ctx_aad ctx) (ctx_text ctx ++ out) (ctx_tag ctx), out)),
     log_call EVP_EncryptUpdate_call w).

Definition EVP_DecryptUpdate (ctx : EVP_CIPHER_CTX) (input : bytes)
    : M (Z * (EVP_CIPHER_CTX * bytes)) :=
  fun w =>
    let out := gctr (ctx_key ctx) (ctx_iv ctx) input in
    (Ok (1, (mkCtx (ctx_cipher ctx) (ctx_ivlen ctx) (ctx_key ctx) (ctx_iv ctx)
                  (ctx_aad ctx) (ctx_text ctx ++ input) (ctx_tag ctx), out)),
     log_call EVP_DecryptUpdate_call w).

(** [EVP_EncryptFinal_ex]: GCM has no final block, nothing is written. *)
Definition EVP_EncryptFinal_ex (ctx : EVP_CIPHER_CTX)
    : M (Z * (EVP_CIPHER_CTX * bytes)) :=
  fun w => (Ok (1, (ctx, [])), log_call EVP_EncryptFinal_ex_call w).

(** [EVP_CIPHER_CTX_ctrl(ctx, EVP_CTRL_GCM_GET_TAG, n, buf)] *)
Definition EVP_CTRL_GCM_GET_TAG (ctx : EVP_CIPHER_CTX) (n : Z)
    : M (Z * bytes) :=
  fun w =>
    let w' := log_call EVP_CIPHER_CTX_ctrl_call w in
    if (0 <? n) && (n <=? 16)
    then (Ok (1, take (Z.to_nat n)
                   (gmac (ctx_key ctx) (ctx_iv ctx) (ctx_aad ctx) (ctx_text ctx))), w')
    else (Ok (0, []), w').

(** [EVP_CIPHER_CTX_ctrl(ctx, EVP_CTRL_GCM_SET_TAG, n, tag)] *)
Definition EVP_CTRL_GCM_SET_TAG (ctx : EVP_CIPHER_CTX) (tag : bytes)
    : M (Z * EVP_CIPHER_CTX) :=
  fun w =>
    let w' := log_call EVP_CIPHER_CTX_ctrl_call w in
    if (0 <? size tag) && (size tag <=? 16)
    then (Ok (1, mkCtx (ctx_cipher ctx) (ctx_ivlen ctx) (ctx_key ctx) (ctx_iv ctx)
                       (ctx_aad ctx) (ctx_text ctx) tag), w')
    else (Ok (0, ctx), w').

(** [EVP_DecryptFinal_ex]: positive exactly when the tag set in the context
    is the tag of what was processed. *)
Definition EVP_DecryptFinal_ex (ctx : EVP_CIPHER_CTX)
    : M (Z * (EVP_CIPHER_CTX * bytes)) :=
  fun w =>
    let w' := log_call EVP_DecryptFinal_ex_call w in
    if bool_decide
         (gmac (ctx_key ctx) (ctx_iv ctx) (ctx_aad ctx) (ctx_text ctx) = ctx_tag ctx)
    then (Ok (1, (ctx, [])), w')
    else (Ok (0, (ctx, [])), w').

(** ** aes_engine.cpp *)

Record EncryptResult := mkEncryptResult {
  ciphertext : bytes;
  iv : bytes;
  tag : bytes
}.

Definition getGCMCipher (key_size : Z) : option EVP_CIPHER :=
  if key_size =? 16 then Some EVP_aes_128_gcm
  else if key_size =? 32 then Some EVP_aes_256_gcm
  else None.

(** [if (call != 1) return Err(makeSafeError(code));] *)
Definition expect1 {A} (m : M (Z * A)) (c : ErrorCode) : M A :=
  let* (rc, a) := m in
  if negb (rc =? 1) then fail (makeSafeError c) else ret a.

(** [if (!ptr) return Err(makeSafeError(code));] *)
Definition nonnull {A} (o : option A) (c : ErrorCode) : M A :=
  match o with
  | Some a => ret a
  | None => fail (makeSafeError c)
  end.

Definition generateIV (sz : Z) : M bytes :=
  fun w =>
    match random_bytes sz w with
    | (Some v, w') => (Ok v, w')
    | (None, w') => (Err_ CRYPTO_ERROR "Failed to generate random IV", w')
    end.

Definition encryptGCMWithIV (plaintext key iv aad : bytes) : M EncryptResult :=
  let* _ := check (validatePlaintextSize (size plaintext)) in
  let* _ := check (validateAADSize (size aad)) in
  let* _ := check (validateAESKeySize (size key)) in
  let* _ := check (validateGCMIVSize (size iv)) in
  let* cipher := nonnull (getGCMCipher (size key)) ENCRYPTION_FAILED in
  let* octx := make_cipher_ctx in
  let* ctx := nonnull octx ENCRYPTION_FAILED in
  let* ctx := expect1 (EVP_EncryptInit_ex ctx (Some cipher) None None) ENCRYPTION_FAILED in
  let* ctx := expect1 (EVP_CTRL_GCM_SET_IVLEN ctx (size iv)) ENCRYPTION_FAILED in
  let* ctx := expect1 (EVP_EncryptInit_ex ctx None (Some key) (Some iv)) ENCRYPTION_FAILED in
  let* ctx := (if negb (bool_decide (aad = []))
          then expect1 (EVP_Update_aad EVP_EncryptUpdate_call ctx aad) ENCRYPTION_FAILED
          else ret ctx) in
  let buffer := replicate (Z.to_nat (size plaintext + aes_gcm.BLOCK_SIZE)) "000"%byte in
  let* (ctx, out) := expect1 (EVP_EncryptUpdate ctx plaintext) ENCRYPTION_FAILED in
  let len := size out in
  let buffer := write_at buffer 0 out in
  let ciphertext_len := len in
  let* (ctx, fin) := expect1 (EVP_EncryptFinal_ex ctx) ENCRYPTION_FAILED in
  let buffer := write_at buffer len fin in
  let len := size fin in
  let ciphertext_len := ciphertext_len + len in
  let buffer := resize_with buffer ciphertext_len "000"%byte in
  let* tag := expect1 (EVP_CTRL_GCM_GET_TAG ctx aes_gcm.TAG_SIZE) ENCRYPTION_FAILED in
  ret (mkEncryptResult buffer iv tag).

Definition encryptGCM (plaintext key aad : bytes) : M EncryptResult :=
  let* iv := generateIV aes_gcm.IV_SIZE in
  encryptGCMWithIV plaintext key iv aad.

Definition decryptGCM (ciphertext key iv tag aad : bytes) : M bytes :=
  let* _ := check (validateCiphertextSize (size ciphertext)) in
  let* _ := check (validateAADSize (size aad)) in
  let* _ := check (validateAESKeySize (size key)) in
  let* _ := check (validateGCMIVSize (size iv)) in
  let* _ := check (validateGCMTagSize (size tag)) in
  let* cipher := nonnull (getGCMCipher (size key)) DECRYPTION_FAILED in
  let* octx := make_cipher_ctx in
  let* ctx := nonnull octx DECRYPTION_FAILED in
  let* ctx := expect1 (EVP_DecryptInit_ex ctx (Some cipher) None None) DECRYPTION_FAILED in
  let* ctx := expect1 (EVP_CTRL_GCM_SET_IVLEN ctx (size iv)) DECRYPTION_FAILED in
  let* ctx := expect1 (EVP_DecryptInit_ex ctx None (Some key) (Some iv)) DECRYPTION_FAILED in
  let* ctx := (if negb (bool_decide (aad = []))
          then expect1 (EVP_Update_aad EVP_DecryptUpdate_call ctx aad) DECRYPTION_FAILED
          else ret ctx) in
  let buffer := replicate (Z.to_nat (size ciphertext + aes_gcm.BLOCK_SIZE)) "000"%byte in
  let* (ctx, out) := expect1 (EVP_DecryptUpdate ctx ciphertext) DECRYPTION_FAILED in
  let len := size out in
  let buffer := write_at buffer 0 out in
  let plaintext_len := len in
  let* ctx := expect1 (EVP_CTRL_GCM_SET_TAG ctx tag) DECRYPTION_FAILED in
  let* (rt, (_, fin)) := EVP_DecryptFinal_ex ctx in
  if rt <=? 0 then fail (makeSafeError INTEGRITY_ERROR)
  else
    let buffer := write_at buffer len fin in
    let len := size fin in
    let plaintext_len := plaintext_len + len in
    ret (resize_with buffer plaintext_len "000"%byte).

(** PKCS#7 padding of the CBC mode. *)
Definition addPKCS7Padding (data : bytes) : bytes :=
  let padding_len := aes_cbc.BLOCK_SIZE - (size data mod aes_cbc.BLOCK_SIZE) in
  let padded := data in
  resize_with padded (size data + padding_len) (u8 padding_len).

(** The loop [for (i = from; i < data.size(); ++i) if (data[i] != padding_len) return Err]:
    [true] when it runs to its end. *)
Fixpoint padding_bytes_ok (data : bytes) (padding_len : byte) (i : nat) (steps : nat) : bool :=
  match steps with
  | O => true
  | S steps' =>
      match data !! i with
      | Some b => if negb (byte_eqb b padding_len) then false
                  else padding_bytes_ok data padding_len (S i) steps'
      | None => false
      end
  end.

Definition removePKCS7Padding (data : bytes) : Result bytes :=
  match last data with
  | None => Err_ PADDING_ERROR "Empty data"
  | Some padding_len =>
      let n := byte_to_Z padding_len in
      if (n =? 0) || (n >? aes_cbc.BLOCK_SIZE) || (n >? size data)
      then Err_ PADDING_ERROR "Invalid padding length"
      else if padding_bytes_ok data padding_len
                (Z.to_nat (size data - n)) (Z.to_nat n)
      then Ok (take (Z.to_nat (size data - n)) data)
      else Err_ PADDING_ERROR "Invalid padding bytes"
  end.

End EVP.

(** A stand-in cipher for running the engine on examples: the keystream is
    the constant byte 0xA5 and the tag carries the exclusive-or of all
    authenticated bytes. *)
Definition xor_byte (m : Z) (b : byte) : byte := u8 (Z.lxor (byte_to_Z b) m).

Definition xor_fold (l : bytes) : Z :=
  fold_right (fun b acc => Z.lxor (byte_to_Z b) acc) 0 l.

Definition toy_gcm : AESGCM := {|
  gctr := fun _ _ data => map (xor_byte 165) data;
  gmac := fun key iv aad text =>
    u8 (Z.lxor (xor_fold iv) (Z.lxor (xor_fold aad) (xor_fold text)))
      :: replicate 15 "000"%byte
|}.

(** Flipping one bit of a buffer: bit [i mod 8] of byte [i / 8]. *)
Definition flip_bit (l : bytes) (i : nat) : bytes :=
  alter (xor_byte (2 ^ Z.of_nat (i mod 8))) (i / 8)%nat l.

(** What the engine needs of the cipher: the keystream transformation keeps
    the length and undoes itself, the tag has 16 bytes. *)
Class AESGCMLaws (G : AESGCM) : Prop := {
  gctr_length : forall key iv data, length (gctr key iv data) = length data;
  gctr_involutive : forall key iv data, gctr key iv (gctr key iv data) = data;
  gmac_length : forall key iv aad text, length (gmac key iv aad text) = 16%nat
}.

(** Authenticity against single-bit changes: the tag moves when one bit of
    the nonce, of the associated data or of the ciphertext is flipped. *)
Class AESGCMAuthentic (G : AESGCM) : Prop := {
  gmac_iv_bit : forall key iv aad text i,
    (i < 8 * length iv)%nat ->
    gmac key (flip_bit iv i) aad text <> gmac key iv aad text;
  gmac_aad_bit : forall key iv aad text i,
    (i < 8 * length aad)%nat ->
    gmac key iv (flip_bit aad i) text <> gmac key iv aad text;
  gmac_text_bit : forall key iv aad text i,
    (i < 8 * length text)%nat ->
    gmac key iv aad (flip_bit text i) <> gmac key iv aad text
}.

(** The error every failed authentication ends in. *)
Definition integrity_failure : Error :=
  mkError INTEGRITY_ERROR "Data integrity verification failed" "".

(** Sample data: the key of 32 zero bytes, a short plaintext, a world whose
    generator still holds 64 bytes, and one whose generator has failed. *)
Definition zero_key : bytes := replicate 32 "000"%byte.

Definition hello : bytes := string_bytes "hello world".

Definition sample_world : World :=
  mkWorld (string_bytes "0123456789abcdefghijklmnopqrstuvwxyzABCDEFGHIJKLMNOPQRSTUVWXYZ<>")
          (fun n => 0x0123456789abcdef * Z.of_nat (S n)) 0 [] 1700000000000000000 [].

Definition dry_world : World :=
  mkWorld [] (fun _ => 0) 0 [] 1700000000000000000 [].

(** A plaintext one byte over the limit. *)
Definition oversize_plaintext : bytes := replicate (Z.to_nat 67108865) "000"%byte.

(** ** uuid.h *)

(** The [i]-th byte, counted from the least significant, of [v]. *)
Definition byte_of (v : Z) (i : Z) : byte := u8 (Z.land (Z.shiftr v (8 * i)) 255).

(** The bytes of a [w]-byte integer in memory on a little-endian host. *)
Definition le_bytes (w : nat) (v : Z) : bytes :=
  map (fun i => byte_of v (Z.of_nat i)) (seq 0 w).

Definition next_u64 (w : World) : Z * World :=
  (u64 (mt_draws w (mt_pos w)),
   mkWorld (entropy w) (mt_draws w) (S (mt_pos w)) (keypairs w) (now w) (calls w)).

(** [UUID::generate()]: sixteen random bytes with the version and variant
    bits set. *)
Definition UUID_generate (w : World) : bytes * World :=
  let (r0, w1) := next_u64 w in
  let (r1, w2) := next_u64 w1 in
  let raw := le_bytes 8 r0 ++ le_bytes 8 r1 in
  let raw := alter (fun b => u8 (Z.lor (Z.land (byte_to_Z b) 15) 64)) 6%nat raw in
  let raw := alter (fun b => u8 (Z.lor (Z.land (byte_to_Z b) 63) 128)) 8%nat raw in
  (raw, w2).

Definition hex_digit (v : Z) : ascii :=
  if v <? 10 then ascii_of_nat (Z.to_nat (48 + v))
  else ascii_of_nat (Z.to_nat (87 + v)).

(** [oss << std::hex << std::setfill('0') << std::setw(2) << int(b)] *)
Definition hex2 (b : byte) : string :=
  String (hex_digit (byte_to_Z b / 16)) (String (hex_digit (byte_to_Z b mod 16)) "").

Fixpoint UUID_to_string_from (i : nat) (bs : bytes) : string :=
  match bs with
  | [] => ""
  | b :: bs' =>
      (if bool_decide (i = 4 \/ i = 6 \/ i = 8 \/ i = 10)%nat then "-" else "")
        +:+ hex2 b +:+ UUID_to_string_from (S i) bs'
  end.

Definition UUID_to_string (u : bytes) : string := UUID_to_string_from 0 u.

(** ** key_types.h, key_types.cpp *)

Inductive KeyAlgorithm :=
  | AES_128_GCM | AES_256_GCM | AES_128_CBC | AES_256_CBC
  | RSA_2048 | RSA_3072 | RSA_4096
  | ECDSA_P256 | ECDSA_P384 | ECDSA_P521.

Inductive KeyType := SYMMETRIC | ASYMMETRIC_PUBLIC | ASYMMETRIC_PRIVATE.

Inductive KeyState :=
  | PENDING_ACTIVATION | ACTIVE | DEPRECATED | PENDING_DESTRUCTION | DESTROYED.

Global Instance KeyAlgorithm_eq_dec : EqDecision KeyAlgorithm.
Proof. solve_decision. Defined.
Global Instance KeyType_eq_dec : EqDecision KeyType.
Proof. solve_decision. Defined.
Global Instance KeyState_eq_dec : EqDecision KeyState.
Proof. solve_decision. Defined.

Definition getKeySize (algo : KeyAlgorithm) : Z :=
  match algo with
  | AES_128_GCM | AES_128_CBC => 16
  | AES_256_GCM | AES_256_CBC => 32
  | RSA_2048 => 256
  | RSA_3072 => 384
  | RSA_4096 => 512
  | ECDSA_P256 => 32
  | ECDSA_P384 => 48
  | ECDSA_P521 => 66
  end.

Definition isSymmetricAlgorithm (algo : KeyAlgorithm) : bool :=
  match algo with
  | AES_128_GCM | AES_256_GCM | AES_128_CBC | AES_256_CBC => true
  | _ => false
  end.

(** [version] is a [uint32_t]: the constructors below keep it reduced. *)
Record KeyId := mkKeyId {
  namespace_prefix : string;
  kid : string;
  version : Z
}.

Global Instance KeyId_eq_dec : EqDecision KeyId.
Proof. solve_decision. Defined.

(** The default constructor [KeyId() : version(1) {}]. *)
Definition KeyId_default : KeyId := mkKeyId "" "" 1.

(** [std::to_string] of an unsigned value. *)
Definition to_string (v : Z) : string := pretty (Z.to_N v).

Definition KeyId_toString (k : KeyId) : string :=
  namespace_prefix k +:+ ":" +:+ kid k +:+ ":" +:+ to_string (version k).

Definition KeyId_isValid (k : KeyId) : bool :=
  negb (bool_decide (namespace_prefix k = "")) && negb (bool_decide (kid k = ""))
  && (version k >? 0).

(** The loop [while (std::getline(iss, part, ':')) parts.push_back(part);]
    over what is left of the stream, [part] holding the characters of the
    current line read so far.  A line ends at a colon, which is dropped, or
    at the end of the input; at the end of the input a line is only read
    if it has a character. *)
Fixpoint getline_parts (rest : string) (part : string) : list string :=
  match rest with
  | EmptyString => if bool_decide (part = "") then [] else [part]
  | String c rest' =>
      if bool_decide (c = ":"%char) then part :: getline_parts rest' ""
      else getline_parts rest' (part +:+ String c "")
  end.

(** [isspace] in the C locale. *)
Definition isspace (c : ascii) : bool :=
  let n := nat_of_ascii c in
  bool_decide (n = 32 \/ (9 <= n /\ n <= 13))%nat.

Definition digit_value (c : ascii) : option Z :=
  let n := Z.of_nat (nat_of_ascii c) in
  if (48 <=? n) && (n <=? 57) then Some (n - 48) else None.

Fixpoint skip_spaces (s : string) : string :=
  match s with
  | String c s' => if isspace c then skip_spaces s' else s
  | EmptyString => s
  end.

(** The value of the longest prefix of decimal digits, [None] when the
    first character is not a digit. *)
Fixpoint read_digits (s : string) (acc : option Z) : option Z :=
  match s with
  | String c s' =>
      match digit_value c with
      | Some d => read_digits s' (Some (10 * default 0 acc + d))
      | None => acc
      end
  | EmptyString => acc
  end.

Definition ULONG_MAX : Z := 2 ^ 64 - 1.

(** [std::stoul(s)]: white space, an optional sign, decimal digits; [None]
    stands for the exceptions [std::invalid_argument] (no digits) and
    [std::out_of_range] (more than [ULONG_MAX]).  A minus sign negates in
    [unsigned long]. *)
Definition stoul (s : string) : option Z :=
  let s := skip_spaces s in
  let '(negative, s) :=
    match s with
    | String "-" s' => (true, s')
    | String "+" s' => (false, s')
    | _ => (false, s)
    end in
  match read_digits s None with
  | None => None
  | Some v =>
      if v >? ULONG_MAX then None
      else Some (if negative then u64 (- v) else v)
  end.

Definition KeyId_parse (str : string) : Result KeyId :=
  let parts := getline_parts str "" in
  match parts with
  | [p0; p1; p2] =>
      match stoul p2 with
      | Some v => Ok (mkKeyId p0 p1 (u32 v))
      | None => Err_ INVALID_INPUT "Invalid version number"
      end
  | _ => Err_ INVALID_INPUT "Invalid KeyId format"
  end.

(** [KeyId::generate(namespace_prefix)] *)
Definition KeyId_generate (ns : string) (w : World) : KeyId * World :=
  let (u, w') := UUID_generate w in
  (mkKeyId ns (UUID_to_string u) 1, w').

(** Time points and durations count ticks of the system clock. *)
Definition ticks_per_second : Z := 1000000000.

(** [std::chrono::duration_cast<std::chrono::seconds>] *)
Definition to_seconds (d : Z) : Z := Z.quot d ticks_per_second.

Record KeyMetadata := mkKeyMetadata {
  md_id : KeyId;
  md_algorithm : KeyAlgorithm;
  md_type : KeyType;
  md_state : KeyState;
  md_created_at : Z;
  md_expires_at : Z;
  md_rotated_at : option Z;
  md_previous_version : option KeyId;
  md_owner_service : string;
  md_allowed_operations : list string;
  md_usage_count : Z
}.

Definition set_state (st : KeyState) (m : KeyMetadata) : KeyMetadata :=
  mkKeyMetadata (md_id m) (md_algorithm m) (md_type m) st (md_created_at m)
    (md_expires_at m) (md_rotated_at m) (md_previous_version m)
    (md_owner_service m) (md_allowed_operations m) (md_usage_count m).

Definition isExpired (m : KeyMetadata) (w : World) : bool := now w >? md_expires_at m.

Definition canEncrypt (m : KeyMetadata) (w : World) : bool :=
  if negb (bool_decide (md_state m = ACTIVE)) then false
  else if isExpired m w then false
  else bool_decide ("encrypt" ∈ md_allowed_operations m).

Definition canDecrypt (m : KeyMetadata) (w : World) : bool :=
  if negb (bool_decide (md_state m = ACTIVE)) && negb (bool_decide (md_state m = DEPRECATED))
  then false
  else if isExpired m w then false
  else bool_decide ("decrypt" ∈ md_allowed_operations m).

Record EncryptedKey := mkEncryptedKey {
  encrypted_material : bytes;
  ek_iv : bytes;
  ek_tag : bytes;
  kek_id : KeyId;
  metadata : KeyMetadata
}.

Definition set_metadata (m : KeyMetadata) (k : EncryptedKey) : EncryptedKey :=
  mkEncryptedKey (encrypted_material k) (ek_iv k) (ek_tag k) (kek_id k) m.

Record KeyGenerationParams := mkKeyGenerationParams {
  p_namespace_prefix : string;
  p_algorithm : KeyAlgorithm;
  p_owner_service : string;
  p_validity_period : Z;            (* seconds *)
  p_allowed_operations : list string
}.

(** ** key_store.h, key_store.cpp *)

(** The interface [IKeyStore], over the state [S] of an implementation. *)
Class IKeyStore (S : Type) := {
  ks_store : KeyId -> EncryptedKey -> S -> Result unit * S;
  ks_retrieve : KeyId -> S -> Result EncryptedKey * S;
  ks_remove : KeyId -> S -> Result unit * S;
  ks_exists : KeyId -> S -> Result bool * S;
  ks_list : string -> S -> Result (list KeyId) * S;
  ks_updateMetadata : KeyId -> KeyMetadata -> S -> Result unit * S
}.

(** [InMemoryKeyStore]: the map [keys_], from [KeyId::toString()] to the
    record. *)
Abbreviation InMemoryKeyStore := (gmap string EncryptedKey).

Definition not_found {A} (id : KeyId) : Result A :=
  Err_ KEY_NOT_FOUND ("Key not found: " +:+ KeyId_toString id).

Global Instance InMemoryKeyStore_store : IKeyStore InMemoryKeyStore := {|
  ks_store id key keys_ := (Ok tt, <[KeyId_toString id := key]> keys_);
  ks_retrieve id keys_ :=
    match keys_ !! KeyId_toString id with
    | None => (not_found id, keys_)
    | Some k => (Ok k, keys_)
    end;
  ks_remove id keys_ :=
    match keys_ !! KeyId_toString id with
    | None => (not_found id, keys_)
    | Some _ => (Ok tt, delete (KeyId_toString id) keys_)
    end;
  ks_exists id keys_ := (Ok (bool_decide (is_Some (keys_ !! KeyId_toString id))), keys_);
  ks_list ns keys_ :=
    (Ok (omap (fun kv =>
                 match KeyId_parse (fst kv) with
                 | Ok k =>
                     if bool_decide (ns = "") || bool_decide (namespace_prefix k = ns)
                     then Some k else None
                 | Err _ => None
                 end) (map_to_list keys_)), keys_);
  ks_updateMetadata id md keys_ :=
    match keys_ !! KeyId_toString id with
    | None => (not_found id, keys_)
    | Some k => (Ok tt, <[KeyId_toString id := set_metadata md k]> keys_)
    end
|}.

(** A store whose medium can refuse an operation, the way the operations of
    the file-backed store end in [INTERNAL_ERROR] when the file system
    fails them.  [outages] is the schedule of the coming operations:
    [true] refuses the operation and leaves the store as it is. *)
Record Unreliable (S : Type) := mkUnreliable {
  backing : S;
  outages : list bool
}.
Arguments mkUnreliable {S} _ _.
Arguments backing {S} _.
Arguments outages {S} _.

Definition refused {A} : Result A := Err_ INTERNAL_ERROR "Storage operation failed".

Definition with_outage {S A} (op : S -> Result A * S) (u : Unreliable S)
    : Result A * Unreliable S :=
  match outages u with
  | true :: later => (refused, mkUnreliable (backing u) later)
  | false :: later =>
      let (r, s') := op (backing u) in (r, mkUnreliable s' later)
  | [] =>
      let (r, s') := op (backing u) in (r, mkUnreliable s' [])
  end.

Global Instance Unreliable_store {S} {KSt : IKeyStore S} : IKeyStore (Unreliable S) := {|
  ks_store id key := with_outage (ks_store id key);
  ks_retrieve id := with_outage (ks_retrieve id);
  ks_remove id := with_outage (ks_remove id);
  ks_exists id := with_outage (ks_exists id);
  ks_list ns := with_outage (ks_list ns);
  ks_updateMetadata id md := with_outage (ks_updateMetadata id md)
|}.

(** ** cache_client.h: what the key service uses of the cache *)

Class CacheClient (C : Type) := {
  cache_get : string -> C -> option bytes * C;
  cache_set : string -> bytes -> Z -> C -> C;
  cache_del : string -> C -> C
}.

(** A cache that keeps what it is given. *)
Global Instance LocalCache_client : CacheClient (gmap string bytes) := {|
  cache_get key c := (c !! key, c);
  cache_set key value ttl c := <[key := value]> c;
  cache_del key c := delete key c
|}.

(** ** key_service.h, key_service.cpp *)

Record KeyService (S C : Type) := mkKeyService {
  key_store_ : S;
  master_key_ : bytes;
  cache_client_ : option C;
  world : World
}.
Arguments mkKeyService {S C} _ _ _ _.
Arguments key_store_ {S C} _.
Arguments master_key_ {S C} _.
Arguments cache_client_ {S C} _.
Arguments world {S C} _.

Definition CACHE_KEY_PREFIX : string := "keymaterial:".
Definition CACHE_TTL : Z := 300.

Section KeyService.
Context {G : AESGCM} {S C : Type} {KSt : IKeyStore S} {CC : CacheClient C}.

Abbreviation KS := (KeyService S C).

(** A call on [key_store_]. *)
Definition on_store {A} (op : S -> Result A * S) : St_M KS A :=
  fun ks =>
    let (r, s') := op (key_store_ ks) in
    (r, mkKeyService s' (master_key_ ks) (cache_client_ ks) (world ks)).

(** A call into an engine. *)
Definition in_world {A} (m : M A) : St_M KS A :=
  fun ks =>
    let (r, w') := m (world ks) in
    (r, mkKeyService (key_store_ ks) (master_key_ ks) (cache_client_ ks) w').

Definition on_cache (f : C -> C) : St_M KS unit :=
  fun ks =>
    (Ok tt, mkKeyService (key_store_ ks) (master_key_ ks)
              (f <$> cache_client_ ks) (world ks)).

Definition cache_key (key_id : KeyId) : string :=
  CACHE_KEY_PREFIX +:+ KeyId_toString key_id.

(** Cache errors are ignored: the cache is an optimisation. *)
Definition cacheKeyMaterial (key_id : KeyId) (material : bytes) : St_M KS unit :=
  on_cache (cache_set (cache_key key_id) material CACHE_TTL).

Definition getCachedKeyMaterial (key_id : KeyId) : St_M KS (option bytes) :=
  fun ks =>
    match cache_client_ ks with
    | None => (Ok None, ks)
    | Some c =>
        let (r, c') := cache_get (cache_key key_id) c in
        (Ok r, mkKeyService (key_store_ ks) (master_key_ ks) (Some c') (world ks))
    end.

Definition invalidateCachedKey (key_id : KeyId) : St_M KS unit :=
  on_cache (cache_del (cache_key key_id)).

(** [generateKeyPair(...)] of the RSA and ECDSA engines followed by
    [exportPrivateKeyDER()]: the next outcome the world holds. *)
Definition generateKeyPair_DER : M bytes :=
  fun w =>
    match keypairs w with
    | r :: later =>
        (r, mkWorld (entropy w) (mt_draws w) (mt_pos w) later (now w) (calls w))
    | [] => (Err_ KEY_GENERATION_FAILED "Key pair generation failed", w)
    end.

Definition generateRawKeyMaterial (algorithm : KeyAlgorithm) : M bytes :=
  let key_size := getKeySize algorithm in
  if key_size =? 0 then fail (Error_ INVALID_INPUT "Invalid algorithm")
  else if isSymmetricAlgorithm algorithm then
    fun w =>
      match random_bytes key_size w with
      | (Some key, w') => (Ok key, w')
      | (None, w') => (Err_ KEY_GENERATION_FAILED "Failed to generate random key", w')
      end
  else
    match algorithm with
    | RSA_2048 | RSA_3072 | RSA_4096
    | ECDSA_P256 | ECDSA_P384 | ECDSA_P521 => generateKeyPair_DER
    | _ => fail (Error_ INVALID_INPUT "Unsupported algorithm")
    end.

Definition encryptKeyMaterial (key_material : bytes) (md : KeyMetadata)
    : St_M KS EncryptedKey :=
  fun ks =>
    (let* r := in_world (encryptGCM key_material (master_key_ ks) []) in
     ret (mkEncryptedKey (ciphertext r) (iv r) (tag r) KeyId_default md)) ks.

Definition decryptKeyMaterial (encrypted_key : EncryptedKey) : St_M KS bytes :=
  fun ks =>
    in_world (decryptGCM (encrypted_material encrypted_key) (master_key_ ks)
                (ek_iv encrypted_key) (ek_tag encrypted_key) []) ks.

Definition clock_now : St_M KS Z := fun ks => (Ok (now (world ks)), ks).

Definition generateKey (params : KeyGenerationParams) : St_M KS KeyId :=
  let* key_id := in_world (fun w => let (k, w') := KeyId_generate (p_namespace_prefix params) w
                                    in (Ok k, w')) in
  let* key_material := in_world (generateRawKeyMaterial (p_algorithm params)) in
  let* created := clock_now in
  let md :=
    mkKeyMetadata key_id (p_algorithm params)
      (if isSymmetricAlgorithm (p_algorithm params) then SYMMETRIC else ASYMMETRIC_PRIVATE)
      ACTIVE created (created + p_validity_period params * ticks_per_second)
      None None (p_owner_service params) (p_allowed_operations params) 0 in
  let* encrypted := encryptKeyMaterial key_material md in
  let* _ := on_store (ks_store key_id encrypted) in
  let* _ := cacheKeyMaterial key_id key_material in
  ret key_id.

Definition deprecateKey (key_id : KeyId) : St_M KS unit :=
  let* key := on_store (ks_retrieve key_id) in
  let md := metadata key in
  let md := set_state DEPRECATED md in
  on_store (ks_updateMetadata key_id md).

Definition rotateKey (old_key_id : KeyId) : St_M KS KeyId :=
  let* old_key := on_store (ks_retrieve old_key_id) in
  let old_metadata := metadata old_key in
  if negb (bool_decide (md_state old_metadata = ACTIVE))
  then fail (Error_ KEY_ROTATION_FAILED "Only active keys can be rotated")
  else
    let* key_material := in_world (generateRawKeyMaterial (md_algorithm old_metadata)) in
    let* uuid := in_world (fun w => let (u, w') := UUID_generate w in (Ok u, w')) in
    let new_key_id :=
      mkKeyId (namespace_prefix old_key_id) (UUID_to_string uuid)
              (u32 (version old_key_id + 1)) in
    let* created := clock_now in
    let new_metadata :=
      mkKeyMetadata new_key_id (md_algorithm old_metadata) (md_type old_metadata)
        ACTIVE created
        (created + to_seconds (md_expires_at old_metadata - md_created_at old_metadata)
                   * ticks_per_second)
        (Some created) (Some old_key_id)
        (md_owner_service old_metadata) (md_allowed_operations old_metadata) 0 in
    let* encrypted := encryptKeyMaterial key_material new_metadata in
    let* _ := on_store (ks_store new_key_id encrypted) in
    let* deprecate_result := attempt (deprecateKey old_key_id) in
    match deprecate_result with
    | Err e =>
        (* Rollback: remove new key; the outcome of the removal is not looked at *)
        let* _ := attempt (on_store (ks_remove new_key_id)) in
        fail e
    | Ok _ =>
        let* _ := invalidateCachedKey old_key_id in
        let* _ := cacheKeyMaterial new_key_id key_material in
        ret new_key_id
    end.

Definition getKeyMetadata (key_id : KeyId) : St_M KS KeyMetadata :=
  let* key := on_store (ks_retrieve key_id) in
  ret (metadata key).

Definition deleteKey (key_id : KeyId) : St_M KS unit :=
  let* _ := invalidateCachedKey key_id in
  on_store (ks_remove key_id).

Definition getKeyMaterial (key_id : KeyId) : St_M KS bytes :=
  let* cached := getCachedKeyMaterial key_id in
  match cached with
  | Some material => ret material
  | None =>
      let* key := on_store (ks_retrieve key_id) in
      let* decrypted := decryptKeyMaterial key in
      let* _ := cacheKeyMaterial key_id decrypted in
      ret decrypted
  end.

Definition listKeys (ns : string) : St_M KS (list KeyId) :=
  on_store (ks_list ns).

End KeyService.

(** The statements of [rotateKey] up to and including the one that stores
    the new key: the new identifier and the key material, with the service
    as it is when the old key is about to be deprecated. *)
Section RotatePrefix.
Context {G : AESGCM} {S C : Type} {KSt : IKeyStore S} {CC : CacheClient C}.

Definition rotateKey_until_stored (old_key_id : KeyId)
    : St_M (KeyService S C) (KeyId * bytes) :=
  let* old_key := on_store (ks_retrieve old_key_id) in
  let old_metadata := metadata old_key in
  if negb (bool_decide (md_state old_metadata = ACTIVE))
  then fail (Error_ KEY_ROTATION_FAILED "Only active keys can be rotated")
  else
    let* key_material := in_world (generateRawKeyMaterial (md_algorithm old_metadata)) in
    let* uuid := in_world (fun w => let (u, w') := UUID_generate w in (Ok u, w')) in
    let new_key_id :=
      mkKeyId (namespace_prefix old_key_id) (UUID_to_string uuid)
              (u32 (version old_key_id + 1)) in
    let* created := clock_now in
    let new_metadata :=
      mkKeyMetadata new_key_id (md_algorithm old_metadata) (md_type old_metadata)
        ACTIVE created
        (created + to_seconds (md_expires_at old_metadata - md_created_at old_metadata)
                   * ticks_per_second)
        (Some created) (Some old_key_id)
        (md_owner_service old_metadata) (md_allowed_operations old_metadata) 0 in
    let* encrypted := encryptKeyMaterial key_material new_metadata in
    let* _ := on_store (ks_store new_key_id encrypted) in
    ret (new_key_id, key_material).
End RotatePrefix.

(** A cache forgets what is deleted from it. *)
Class CacheLaws (C : Type) {CC : CacheClient C} : Prop := {
  cache_get_del : forall key c, fst (cache_get key (cache_del key c)) = None
}.

(** Sample data: a service over an in-memory store that holds one active
    AES-256 key of the namespace "auth". *)
Definition sample_params : KeyGenerationParams :=
  mkKeyGenerationParams "auth" AES_256_GCM "test-service" 31536000 ["encrypt"; "decrypt"].

Definition sample_metadata (id : KeyId) (st : KeyState) : KeyMetadata :=
  mkKeyMetadata id AES_256_GCM SYMMETRIC st 1600000000000000000 1631536000000000000
    None None "test-service" ["encrypt"; "decrypt"] 0.

(** The record of a key whose material is 32 bytes 0x11 under [zero_key]
    as master key, sealed by the stand-in cipher with the nonce "nonce-nonce-". *)
Definition sample_record (id : KeyId) (st : KeyState) : EncryptedKey :=
  let material := replicate 32 "017"%byte in
  let nonce := string_bytes "nonce-nonce-" in
  mkEncryptedKey (@gctr toy_gcm zero_key nonce material) nonce
    (@gmac toy_gcm zero_key nonce [] (@gctr toy_gcm zero_key nonce material))
    KeyId_default (sample_metadata id st).

Definition sample_service (id : KeyId) (st : KeyState) (schedule : list bool)
    : KeyService (Unreliable InMemoryKeyStore) (gmap string bytes) :=
  mkKeyService (mkUnreliable {[ KeyId_toString id := sample_record id st ]} schedule)
    zero_key None sample_world.

Definition first_key : KeyId := mkKeyId "auth" "0af76519-16cd-43dd-8448-eb211c80319c" 1.

Definition last_version_key : KeyId :=
  mkKeyId "auth" "0af76519-16cd-43dd-8448-eb211c80319c" 4294967295.

(** ** file_encryption_service.h, file_encryption_service.cpp *)

Definition MAGIC : Z := 0x43525950.
Definition VERSION : Z := 1.
Definition DEFAULT_CHUNK_SIZE : Z := 64 * 1024.

Record FileEncryptionHeader := mkHeader {
  magic : Z;               (* uint32_t *)
  hdr_version : Z;         (* uint16_t *)
  hdr_algorithm : Z;       (* uint16_t *)
  key_id : KeyId;
  wrapped_dek : bytes;
  hdr_iv : bytes;
  hdr_tag : bytes;
  original_size : Z;       (* uint64_t *)
  chunk_size : Z           (* uint32_t *)
}.

(** The lambdas of [serialize]: the bytes each appends to [result]. *)
Definition write_u32 (v : Z) : bytes :=
  [u8 (Z.land v 255); u8 (Z.land (Z.shiftr v 8) 255);
   u8 (Z.land (Z.shiftr v 16) 255); u8 (Z.land (Z.shiftr v 24) 255)].

Definition write_u16 (v : Z) : bytes :=
  [u8 (Z.land v 255); u8 (Z.land (Z.shiftr v 8) 255)].

Definition write_u64 (v : Z) : bytes :=
  map (fun i => u8 (Z.land (Z.shiftr v (Z.of_nat i * 8)) 255)) (seq 0 8).

Definition write_bytes (data : bytes) : bytes :=
  write_u32 (u32 (size data)) ++ data.

Definition serialize (h : FileEncryptionHeader) : bytes :=
  let key_str := KeyId_toString (key_id h) in
  write_u32 (magic h)
  ++ write_u16 (hdr_version h)
  ++ write_u16 (hdr_algorithm h)
  ++ write_u32 (u32 (size (string_bytes key_str)))
  ++ string_bytes key_str
  ++ write_bytes (wrapped_dek h)
  ++ write_bytes (hdr_iv h)
  ++ write_bytes (hdr_tag h)
  ++ write_u64 (original_size h)
  ++ write_u32 (chunk_size h).

(** The byte order of the host, for values written from memory as they are. *)
Inductive Endianness := LittleEndian | BigEndian.

(** [output.write(reinterpret_cast<const char*>(&v), sizeof(v))] for a
    [uint32_t]. *)
Definition raw_u32 (e : Endianness) (v : Z) : bytes :=
  match e with
  | LittleEndian => le_bytes 4 v
  | BigEndian => rev (le_bytes 4 v)
  end.

(** What [KeyService::getKey] hands back; only the material is used here. *)
Record KeyData := mkKeyData {
  key_material : bytes;
  key_metadata : KeyMetadata
}.

(** The service with the streams of one call: [input] is what the input
    stream still holds, [output] what has been written to the output
    stream. *)
Record FileEncryptionService (K : Type) := mkFileService {
  key_service_ : K;
  chunk_size_ : Z;
  host : Endianness;
  input : bytes;
  output : bytes
}.
Arguments mkFileService {K} _ _ _ _ _.
Arguments key_service_ {K} _.
Arguments chunk_size_ {K} _.
Arguments host {K} _.
Arguments input {K} _.
Arguments output {K} _.

Section FileEncryption.
Context {G : AESGCM} {S C : Type} {KSt : IKeyStore S} {CC : CacheClient C}.

(** [KeyService::getKey] is declared outside the files at hand: the file
    service is stated over any such lookup. *)
Variable getKey : KeyId -> St_M (KeyService S C) KeyData.

Abbreviation FS := (FileEncryptionService (KeyService S C)).

Definition on_key_service {A} (m : St_M (KeyService S C) A) : St_M FS A :=
  fun fs =>
    let (r, k') := m (key_service_ fs) in
    (r, mkFileService k' (chunk_size_ fs) (host fs) (input fs) (output fs)).

(** [output.write(data, n)] *)
Definition stream_write (data : bytes) : St_M FS unit :=
  fun fs =>
    (Ok tt, mkFileService (key_service_ fs) (chunk_size_ fs) (host fs)
              (input fs) (output fs ++ data)).

(** [input.read(buf, n)] into a buffer of [n] zero bytes: the bytes the
    stream can give overwrite the front of the buffer. *)
Definition stream_read (n : Z) : St_M FS bytes :=
  fun fs =>
    let got := take (Z.to_nat n) (input fs) in
    (Ok (got ++ replicate (Z.to_nat n - length got) "000"%byte),
     mkFileService (key_service_ fs) (chunk_size_ fs) (host fs)
       (drop (Z.to_nat n) (input fs)) (output fs)).

(** [std::vector<uint8_t>(std::istreambuf_iterator<char>(input), {})] *)
Definition stream_read_all : St_M FS bytes :=
  fun fs =>
    (Ok (input fs),
     mkFileService (key_service_ fs) (chunk_size_ fs) (host fs) [] (output fs)).

Definition generateDEK : St_M FS bytes :=
  on_key_service (in_world (fun w =>
    match random_bytes 32 w with
    | (Some dek, w') => (Ok dek, w')
    | (None, w') => (Err_ CRYPTO_ERROR "Failed to generate DEK", w')
    end)).

Definition wrapDEK (dek : bytes) (kek_id : KeyId) : St_M FS bytes :=
  let* kek := on_key_service (getKey kek_id) in
  let* r := on_key_service (in_world (encryptGCM dek (key_material kek) [])) in
  ret (iv r ++ tag r ++ ciphertext r).

(** Logging and the progress callback leave the streams alone and are
    left out. *)
Definition encryptStream (kek_id : KeyId) (input_size : Z) : St_M FS unit :=
  let* dek := generateDEK in
  let* wrapped := wrapDEK dek kek_id in
  let* plaintext := (if input_size >? 0 then stream_read input_size else stream_read_all) in
  let* r := on_key_service (in_world (encryptGCM plaintext dek [])) in
  let* chunk := (fun fs => (Ok (chunk_size_ fs), fs)) in
  let* e := (fun fs => (Ok (host fs), fs)) in
  let header :=
    mkHeader MAGIC VERSION 1 kek_id wrapped (iv r) (tag r)
             (u64 (size plaintext)) (u32 chunk) in
  let header_data := serialize header in
  let header_size := u32 (size header_data) in
  let* _ := stream_write (raw_u32 e header_size) in
  let* _ := stream_write header_data in
  let* _ := stream_write (ciphertext r) in
  ret tt.

End FileEncryption.

(** The layout the format description gives for a file: the header fields
    from the first byte on, then the ciphertext. *)
Definition described_layout (algo : Z) (id_bytes wrap_bytes iv_bytes tag_bytes : bytes)
    (orig_size chunk : Z) (ciphertext_bytes : bytes) : bytes :=
  write_u32 MAGIC ++ write_u16 1 ++ write_u16 algo
  ++ write_u32 (u32 (size id_bytes)) ++ id_bytes
  ++ write_u32 (u32 (size wrap_bytes)) ++ wrap_bytes
  ++ write_u32 (u32 (size iv_bytes)) ++ iv_bytes
  ++ write_u32 (u32 (size tag_bytes)) ++ tag_bytes
  ++ write_u64 orig_size ++ write_u32 chunk
  ++ ciphertext_bytes.

(** ** tracing.h, tracing.cpp *)

Record TraceContext := mkTraceContext {
  trace_id : string;
  span_id : string;
  parent_span_id : string;
  sampled : bool;
  tracestate : gmap string string
}.

(** A default-constructed context: [sampled] starts as [true]. *)
Definition TraceContext_new : TraceContext := mkTraceContext "" "" "" true ∅.

(** [s[i]] *)
Definition at_ (s : string) (i : nat) : option ascii := String.get i s.

(** [s.substr(pos, n)] for [pos] within the string. *)
Definition substr (s : string) (pos n : nat) : string := String.substring pos n s.

(** [std::all_of(s.begin(), s.end(), [](char c) { return c == '0'; })] *)
Fixpoint all_zero (s : string) : bool :=
  match s with
  | EmptyString => true
  | String c s' => bool_decide (c = "0"%char) && all_zero s'
  end.

Definition TraceContext_parse (traceparent : string) : option TraceContext :=
  if (String.length traceparent <? 55)%nat then None
  else if negb (bool_decide (at_ traceparent 0 = Some "0"%char))
          || negb (bool_decide (at_ traceparent 1 = Some "0"%char))
          || negb (bool_decide (at_ traceparent 2 = Some "-"%char))
  then None
  else
    let pos := 3%nat in
    let trace := substr traceparent pos 32 in
    if negb (String.length trace =? 32)%nat then None
    else if all_zero trace then None
    else
      let pos := (pos + 33)%nat in
      let span := substr traceparent pos 16 in
      if negb (String.length span =? 16)%nat then None
      else if all_zero span then None
      else
        let pos := (pos + 17)%nat in
        let sampled' :=
          if (pos + 2 <=? String.length traceparent)%nat
          then
            let flags := substr traceparent pos 2 in
            bool_decide (at_ flags 1 = Some "1"%char)
          else sampled TraceContext_new in
        Some (mkTraceContext trace span (parent_span_id TraceContext_new)
                sampled' (tracestate TraceContext_new)).

(** The strings the format description allows for a [KeyId]: three fields
    separated by colons, a non-empty namespace, a canonical hyphenated
    uuid of 36 characters, a positive decimal version. *)
Definition is_hex (c : ascii) : bool :=
  let n := nat_of_ascii c in
  bool_decide ((48 <= n /\ n <= 57) \/ (97 <= n /\ n <= 102) \/ (65 <= n /\ n <= 70))%nat.

Fixpoint canonical_uuid_from (i : nat) (s : string) : bool :=
  match s with
  | EmptyString => bool_decide (i = 36%nat)
  | String c s' =>
      (if bool_decide (i = 8 \/ i = 13 \/ i = 18 \/ i = 23)%nat
       then bool_decide (c = "-"%char) else is_hex c)
      && canonical_uuid_from (S i) s'
  end.

Fixpoint all_digits (s : string) : bool :=
  match s with
  | EmptyString => true
  | String c s' => bool_decide (is_Some (digit_value c)) && all_digits s'
  end.

(** The fields of [s] between colons. *)
Fixpoint fields (s : string) (cur : string) : list string :=
  match s with
  | EmptyString => [cur]
  | String c s' =>
      if bool_decide (c = ":"%char) then cur :: fields s' ""
      else fields s' (cur +:+ String c "")
  end.

Definition described_KeyId_form (s : string) : bool :=
  match fields s "" with
  | [ns; uuid; ver] =>
      negb (bool_decide (ns = ""))
      && canonical_uuid_from 0 uuid
      && negb (bool_decide (ver = "")) && all_digits ver
      && bool_decide (0 < default 0 (read_digits ver None))
  | _ => false
  end.

(** ** Predicates of the statements *)

(** What [TraceContext::parse] checks, and nothing else. *)
Definition traceparent_accepted (s : string) : Prop :=
  (55 <= String.length s)%nat
  /\ substr s 0 3 = "00-"
  /\ all_zero (substr s 3 32) = false
  /\ all_zero (substr s 36 16) = false.

(** A string without a colon. *)
Fixpoint no_colon (s : string) : bool :=
  match s with
  | EmptyString => true
  | String c s' => negb (bool_decide (c = ":"%char)) && no_colon s'
  end.

(** The records a service holds, over a store that can refuse. *)
Abbreviation stored ks := (backing (key_store_ ks)).

(** The service with the record [r] stored under [id]. *)
Definition holding {C} (ks : KeyService (Unreliable InMemoryKeyStore) C)
    (id : KeyId) (r : EncryptedKey) : KeyService (Unreliable InMemoryKeyStore) C :=
  mkKeyService
    (mkUnreliable (<[KeyId_toString id := r]> (stored ks)) (outages (key_store_ ks)))
    (master_key_ ks) (cache_client_ ks) (world ks).

(** The number a sequence of bytes stands for when read least significant
    byte first. *)
Definition le_value (bs : bytes) : Z :=
  fold_right (fun b acc => byte_to_Z b + 256 * acc) 0 bs.

(** Sample data for the file service: a key lookup that hands out
    [zero_key] for every identifier, and a service about to encrypt the
    stream "hello world" into an empty output stream. *)
Definition sample_getKey : KeyId -> St_M (KeyService (Unreliable InMemoryKeyStore)
                                            (gmap string bytes)) KeyData :=
  fun id ks => (Ok (mkKeyData zero_key (sample_metadata id ACTIVE)), ks).

Definition sample_file_service
    : FileEncryptionService (KeyService (Unreliable InMemoryKeyStore) (gmap string bytes)) :=
  mkFileService (sample_service first_key ACTIVE []) DEFAULT_CHUNK_SIZE LittleEndian
    hello [].

(** ** key_types.cpp: the names of the enumerators *)

Definition keyAlgorithmToString (algo : KeyAlgorithm) : string :=
  match algo with
  | AES_128_GCM => "AES_128_GCM"
  | AES_256_GCM => "AES_256_GCM"
  | AES_128_CBC => "AES_128_CBC"
  | AES_256_CBC => "AES_256_CBC"
  | RSA_2048 => "RSA_2048"
  | RSA_3072 => "RSA_3072"
  | RSA_4096 => "RSA_4096"
  | ECDSA_P256 => "ECDSA_P256"
  | ECDSA_P384 => "ECDSA_P384"
  | ECDSA_P521 => "ECDSA_P521"
  end.

Definition keyTypeToString (type : KeyType) : string :=
  match type with
  | SYMMETRIC => "SYMMETRIC"
  | ASYMMETRIC_PUBLIC => "ASYMMETRIC_PUBLIC"
  | ASYMMETRIC_PRIVATE => "ASYMMETRIC_PRIVATE"
  end.

Definition keyStateToString (state : KeyState) : string :=
  match state with
  | PENDING_ACTIVATION => "PENDING_ACTIVATION"
  | ACTIVE => "ACTIVE"
  | DEPRECATED => "DEPRECATED"
  | PENDING_DESTRUCTION => "PENDING_DESTRUCTION"
  | DESTROYED => "DESTROYED"
  end.

Definition parseKeyAlgorithm (str : string) : Result KeyAlgorithm :=
  if bool_decide (str = "AES_128_GCM") then Ok AES_128_GCM
  else if bool_decide (str = "AES_256_GCM") then Ok AES_256_GCM
  else if bool_decide (str = "AES_128_CBC") then Ok AES_128_CBC
  else if bool_decide (str = "AES_256_CBC") then Ok AES_256_CBC
  else if bool_decide (str = "RSA_2048") then Ok RSA_2048
  else if bool_decide (str = "RSA_3072") then Ok RSA_3072
  else if bool_decide (str = "RSA_4096") then Ok RSA_4096
  else if bool_decide (str = "ECDSA_P256") then Ok ECDSA_P256
  else if bool_decide (str = "ECDSA_P384") then Ok ECDSA_P384
  else if bool_decide (str = "ECDSA_P521") then Ok ECDSA_P521
  else Err_ INVALID_INPUT "Unknown key algorithm".

Definition parseKeyType (str : string) : Result KeyType :=
  if bool_decide (str = "SYMMETRIC") then Ok SYMMETRIC
  else if bool_decide (str = "ASYMMETRIC_PUBLIC") then Ok ASYMMETRIC_PUBLIC
  else if bool_decide (str = "ASYMMETRIC_PRIVATE") then Ok ASYMMETRIC_PRIVATE
  else Err_ INVALID_INPUT "Unknown key type".

Definition parseKeyState (str : string) : Result KeyState :=
  if bool_decide (str = "PENDING_ACTIVATION") then Ok PENDING_ACTIVATION
  else if bool_decide (str = "ACTIVE") then Ok ACTIVE
  else if bool_decide (str = "DEPRECATED") then Ok DEPRECATED
  else if bool_decide (str = "PENDING_DESTRUCTION") then Ok PENDING_DESTRUCTION
  else if bool_decide (str = "DESTROYED") then Ok DESTROYED
  else Err_ INVALID_INPUT "Unknown key state".

Definition isAsymmetricAlgorithm (algo : KeyAlgorithm) : bool :=
  negb (isSymmetricAlgorithm algo).

(** ** key_types.cpp: comparison of key identifiers *)

(** [operator<] of [std::string]: the first position where the strings
    differ decides, by the characters as [unsigned char]; a proper prefix
    is smaller. *)
Fixpoint string_lt (a b : string) : bool :=
  match a, b with
  | _, EmptyString => false
  | EmptyString, String _ _ => true
  | String x a', String y b' =>
      if (nat_of_ascii x <? nat_of_ascii y)%nat then true
      else if (nat_of_ascii y <? nat_of_ascii x)%nat then false
      else string_lt a' b'
  end.

(** [KeyId::operator==] *)
Definition KeyId_eq (a b : KeyId) : bool :=
  bool_decide (namespace_prefix a = namespace_prefix b)
  && bool_decide (kid a = kid b)
  && (version a =? version b).

(** [KeyId::operator!=] *)
Definition KeyId_ne (a b : KeyId) : bool := negb (KeyId_eq a b).

(** [KeyId::operator<] *)
Definition KeyId_lt (a b : KeyId) : bool :=
  if negb (bool_decide (namespace_prefix a = namespace_prefix b))
  then string_lt (namespace_prefix a) (namespace_prefix b)
  else if negb (bool_decide (kid a = kid b))
  then string_lt (kid a) (kid b)
  else version a <? version b.

(** [KeyMetadata::isActive] *)
Definition isActive (m : KeyMetadata) (w : World) : bool :=
  bool_decide (md_state m = ACTIVE) && negb (isExpired m w).

(** ** uuid.h: reading a UUID back *)

(** The lambda [hex_to_int] of [UUID::parse]; [None] stands for -1. *)
Definition hex_to_int (c : ascii) : option Z :=
  let n := Z.of_nat (nat_of_ascii c) in
  if (48 <=? n) && (n <=? 57) then Some (n - 48)
  else if (97 <=? n) && (n <=? 102) then Some (n - 97 + 10)
  else if (65 <=? n) && (n <=? 70) then Some (n - 65 + 10)
  else None.

(** The loop of [UUID::parse] over what is left of the string, [acc]
    holding the [byte_idx] bytes read so far: it stops at the end of the
    string or once sixteen bytes are read, skips a hyphen wherever it
    stands, and otherwise reads two hexadecimal digits. *)
Fixpoint UUID_parse_from (s : string) (acc : bytes) : option bytes :=
  if (16 <=? length acc)%nat then Some acc
  else
    match s with
    | EmptyString => Some acc
    | String c s' =>
        if bool_decide (c = "-"%char) then UUID_parse_from s' acc
        else
          match s' with
          | EmptyString => None
          | String low s'' =>
              match hex_to_int c, hex_to_int low with
              | Some h, Some l =>
                  UUID_parse_from s'' (acc ++ [u8 (Z.lor (Z.shiftl h 4) l)])
              | _, _ => None
              end
          end
    end.

Definition UUID_parse (str : string) : option bytes :=
  if negb (String.length str =? 36)%nat then None
  else
    match UUID_parse_from str [] with
    | Some acc => if (length acc =? 16)%nat then Some acc else None
    | None => None
    end.

(** A string of 36 characters with hyphens at the positions 8, 13, 18 and
    23 and digits or the letters a to f everywhere else; [i] is the
    position of the first character of [s]. *)
Definition is_lower_hex (c : ascii) : bool :=
  let n := nat_of_ascii c in
  bool_decide ((48 <= n /\ n <= 57) \/ (97 <= n /\ n <= 102))%nat.

Fixpoint hyphenated_lower_hex_from (i : nat) (s : string) : bool :=
  match s with
  | EmptyString => bool_decide (i = 36%nat)
  | String c s' =>
      (if bool_decide (i = 8 \/ i = 13 \/ i = 18 \/ i = 23)%nat
       then bool_decide (c = "-"%char) else is_lower_hex c)
      && hyphenated_lower_hex_from (S i) s'
  end.

(** ** tracing.h, tracing.cpp: writing a trace context *)

(** [TraceContext::toTraceparent] *)
Definition toTraceparent (ctx : TraceContext) : string :=
  "00-" +:+ trace_id ctx +:+ "-" +:+ span_id ctx +:+ "-"
  +:+ (if sampled ctx then "01" else "00").

(** [TraceContext::correlationId] *)
Definition correlationId (ctx : TraceContext) : string :=
  if bool_decide (trace_id ctx = "") then "" else substr (trace_id ctx) 0 16.

(** [TraceContext::isValid] *)
Definition TraceContext_isValid (ctx : TraceContext) : bool :=
  (String.length (trace_id ctx) =? 32)%nat && (String.length (span_id ctx) =? 16)%nat.

(** ** A model of the OpenSSL EVP interface for AES-CBC

    The block cipher is a parameter: [cbc_encrypt key iv blocks] and
    [cbc_decrypt key iv blocks] work on whole blocks chained from [iv].  A
    context keeps the input it was given and the number of output bytes it
    has handed out; padding is on in a context that was just initialised. *)

Class AESCBC := {
  cbc_encrypt : bytes -> bytes -> bytes -> bytes;
  cbc_decrypt : bytes -> bytes -> bytes -> bytes
}.

Inductive EVP_CBC_CIPHER := EVP_aes_128_cbc | EVP_aes_256_cbc.

Record EVP_CBC_CTX := mkCbcCtx {
  cbc_cipher : option EVP_CBC_CIPHER;
  cbc_key : bytes;
  cbc_iv : bytes;
  cbc_padding : bool;
  cbc_seen : bytes;
  cbc_emitted : nat
}.

Definition fresh_cbc_ctx : EVP_CBC_CTX := mkCbcCtx None [] [] true [] 0.

(** The length of the whole blocks at the front of [n] bytes. *)
Definition whole_blocks (n : nat) : nat := (n / 16 * 16)%nat.

Section EVP_CBC.
Context {B : AESCBC}.

(** [openssl::make_cipher_ctx()], for a context used in CBC mode. *)
Definition make_cbc_cipher_ctx : M (option EVP_CBC_CTX) :=
  fun w => (Ok (Some fresh_cbc_ctx), log_call EVP_CIPHER_CTX_new_call w).

(** [EVP_EncryptInit_ex] and [EVP_DecryptInit_ex] with a cipher: the
    context starts afresh, with the key and the vector that are given. *)
Definition EVP_CBC_CipherInit_ex (ev : PrimCall) (ctx : EVP_CBC_CTX)
    (cipher : EVP_CBC_CIPHER) (key iv : bytes) : M (Z * EVP_CBC_CTX) :=
  fun w => (Ok (1, mkCbcCtx (Some cipher) key iv true [] 0), log_call ev w).

(** [EVP_CIPHER_CTX_set_padding(ctx, pad)] *)
Definition EVP_CIPHER_CTX_set_padding (ctx : EVP_CBC_CTX) (pad : Z) : M EVP_CBC_CTX :=
  fun w =>
    (Ok (mkCbcCtx (cbc_cipher ctx) (cbc_key ctx) (cbc_iv ctx) (negb (pad =? 0))
           (cbc_seen ctx) (cbc_emitted ctx)),
     log_call EVP_CIPHER_CTX_ctrl_call w).

(** [EVP_EncryptUpdate]: the whole blocks that the input completes are
    encrypted and written, the rest is kept. *)
Definition EVP_CBC_EncryptUpdate (ctx : EVP_CBC_CTX) (input : bytes)
    : M (Z * (EVP_CBC_CTX * bytes)) :=
  fun w =>
    let all := cbc_seen ctx ++ input in
    let whole := take (whole_blocks (length all)) all in
    let out := drop (cbc_emitted ctx) (cbc_encrypt (cbc_key ctx) (cbc_iv ctx) whole) in
    (Ok (1, (mkCbcCtx (cbc_cipher ctx) (cbc_key ctx) (cbc_iv ctx) (cbc_padding ctx)
               all (cbc_emitted ctx + length out), out)),
     log_call EVP_EncryptUpdate_call w).

(** [EVP_EncryptFinal_ex]: with padding the last block is padded and
    written; without, nothing is written and bytes that do not fill a
    block are an error. *)
Definition EVP_CBC_EncryptFinal_ex (ctx : EVP_CBC_CTX)
    : M (Z * (EVP_CBC_CTX * bytes)) :=
  fun w =>
    let w' := log_call EVP_EncryptFinal_ex_call w in
    if cbc_padding ctx
    then (Ok (1, (ctx, drop (cbc_emitted ctx)
                         (cbc_encrypt (cbc_key ctx) (cbc_iv ctx)
                            (addPKCS7Padding (cbc_seen ctx))))), w')
    else if (length (cbc_seen ctx) mod 16 =? 0)%nat
    then (Ok (1, (ctx, [])), w')
    else (Ok (0, (ctx, [])), w').

(** [EVP_DecryptUpdate]: the whole blocks are decrypted and written; with
    padding the last block is held back until the end. *)
Definition EVP_CBC_DecryptUpdate (ctx : EVP_CBC_CTX) (input : bytes)
    : M (Z * (EVP_CBC_CTX * bytes)) :=
  fun w =>
    let all := cbc_seen ctx ++ input in
    let whole := take (whole_blocks (length all)) all in
    let release :=
      if cbc_padding ctx && (length all mod 16 =? 0)%nat && (0 <? length all)%nat
      then (length whole - 16)%nat else length whole in
    let out := drop (cbc_emitted ctx)
                 (take release (cbc_decrypt (cbc_key ctx) (cbc_iv ctx) whole)) in
    (Ok (1, (mkCbcCtx (cbc_cipher ctx) (cbc_key ctx) (cbc_iv ctx) (cbc_padding ctx)
               all (cbc_emitted ctx + length out), out)),
     log_call EVP_DecryptUpdate_call w).

(** [EVP_DecryptFinal_ex]: with padding the block held back is stripped
    of its padding and written; without, nothing is written.  Input that
    does not end on a block is an error. *)
Definition EVP_CBC_DecryptFinal_ex (ctx : EVP_CBC_CTX)
    : M (Z * (EVP_CBC_CTX * bytes)) :=
  fun w =>
    let w' := log_call EVP_DecryptFinal_ex_call w in
    if negb (length (cbc_seen ctx) mod 16 =? 0)%nat then (Ok (0, (ctx, [])), w')
    else if cbc_padding ctx
    then
      match removePKCS7Padding
              (drop (cbc_emitted ctx)
                 (cbc_decrypt (cbc_key ctx) (cbc_iv ctx) (cbc_seen ctx))) with
      | Ok d => (Ok (1, (ctx, d)), w')
      | Err _ => (Ok (0, (ctx, [])), w')
      end
    else (Ok (1, (ctx, [])), w').

(** ** input_validation.h: the remaining checks *)

Definition validateCBCIVSize (sz : Z) : Result unit :=
  if negb (sz =? 16)
  then Err_ INVALID_IV_SIZE "CBC IV must be 128 bits"
  else Ok tt.

(** ** aes_engine.cpp: the CBC mode *)

Definition getCBCCipher (key_size : Z) : option EVP_CBC_CIPHER :=
  if key_size =? 16 then Some EVP_aes_128_cbc
  else if key_size =? 32 then Some EVP_aes_256_cbc
  else None.

Definition encryptCBCWithIV (plaintext key iv : bytes) : M EncryptResult :=
  let* _ := check (validatePlaintextSize (size plaintext)) in
  let* _ := check (validateAESKeySize (size key)) in
  let* _ := check (validateCBCIVSize (size iv)) in
  let* cipher := nonnull (getCBCCipher (size key)) ENCRYPTION_FAILED in
  let* octx := make_cbc_cipher_ctx in
  let* ctx := nonnull octx ENCRYPTION_FAILED in
  let padded := addPKCS7Padding plaintext in
  let* ctx := expect1 (EVP_CBC_CipherInit_ex EVP_EncryptInit_ex_call ctx cipher key iv)
                ENCRYPTION_FAILED in
  let* ctx := EVP_CIPHER_CTX_set_padding ctx 0 in
  let buffer := replicate (Z.to_nat (size padded + aes_cbc.BLOCK_SIZE)) "000"%byte in
  let* (ctx, out) := expect1 (EVP_CBC_EncryptUpdate ctx padded) ENCRYPTION_FAILED in
  let len := size out in
  let buffer := write_at buffer 0 out in
  let ciphertext_len := len in
  let* (ctx, fin) := expect1 (EVP_CBC_EncryptFinal_ex ctx) ENCRYPTION_FAILED in
  let buffer := write_at buffer len fin in
  let len := size fin in
  let ciphertext_len := ciphertext_len + len in
  let buffer := resize_with buffer ciphertext_len "000"%byte in
  ret (mkEncryptResult buffer iv []).

Definition encryptCBC (plaintext key : bytes) : M EncryptResult :=
  let* iv := generateIV aes_cbc.IV_SIZE in
  encryptCBCWithIV plaintext key iv.

Definition decryptCBC (ciphertext key iv : bytes) : M bytes :=
  let* _ := check (validateCiphertextSize (size ciphertext)) in
  let* _ := check (validateAESKeySize (size key)) in
  let* _ := check (validateCBCIVSize (size iv)) in
  if negb (size ciphertext mod aes_cbc.BLOCK_SIZE =? 0)
  then fail (Error_ INVALID_INPUT "Ciphertext must be multiple of block size")
  else
    let* cipher := nonnull (getCBCCipher (size key)) DECRYPTION_FAILED in
    let* octx := make_cbc_cipher_ctx in
    let* ctx := nonnull octx DECRYPTION_FAILED in
    let* ctx := expect1 (EVP_CBC_CipherInit_ex EVP_DecryptInit_ex_call ctx cipher key iv)
                  DECRYPTION_FAILED in
    let* ctx := EVP_CIPHER_CTX_set_padding ctx 0 in
    let buffer := replicate (Z.to_nat (size ciphertext + aes_cbc.BLOCK_SIZE)) "000"%byte in
    let* (ctx, out) := expect1 (EVP_CBC_DecryptUpdate ctx ciphertext) DECRYPTION_FAILED in
    let len := size out in
    let buffer := write_at buffer 0 out in
    let plaintext_len := len in
    let* (ctx, fin) := expect1 (EVP_CBC_DecryptFinal_ex ctx) DECRYPTION_FAILED in
    let buffer := write_at buffer len fin in
    let len := size fin in
    let plaintext_len := plaintext_len + len in
    let plaintext := resize_with buffer plaintext_len "000"%byte in
    check (removePKCS7Padding plaintext).

End EVP_CBC.

(** What the engine needs of the cipher: on whole blocks it keeps the
    length, and decryption undoes encryption. *)
Class AESCBCLaws (B : AESCBC) : Prop := {
  cbc_encrypt_length : forall key iv data,
    (length data mod 16 = 0)%nat -> length (cbc_encrypt key iv data) = length data;
  cbc_decrypt_length : forall key iv data,
    (length data mod 16 = 0)%nat -> length (cbc_decrypt key iv data) = length data;
  cbc_decrypt_encrypt : forall key iv data,
    (length data mod 16 = 0)%nat -> cbc_decrypt key iv (cbc_encrypt key iv data) = data
}.

(** A stand-in cipher for running the engine on examples. *)
Definition toy_cbc : AESCBC := {|
  cbc_encrypt := fun _ _ data => map (xor_byte 90) data;
  cbc_decrypt := fun _ _ data => map (xor_byte 90) data
|}.

(** A cache that answers a lookup either with a miss or with the value
    that was set last for the key. *)
Class CacheCoherent (C : Type) {CC : CacheClient C} : Prop := {
  cache_get_set : forall key value ttl c,
    fst (cache_get key (cache_set key value ttl c)) = Some value
    \/ fst (cache_get key (cache_set key value ttl c)) = None
}.

(** ** file_encryption_service.cpp: reading a file back *)

(** [data[pos]] on the span given to [deserialize].  No index is checked
    there: reading past the end of the span is undefined behaviour, which
    is [None] here and in what follows. *)
Definition byte_at (data : bytes) (pos : nat) : option Z :=
  byte_to_Z <$> data !! pos.

(** The lambdas of [deserialize]: the value read at [pos] and the
    position after it. *)
Definition read_u32 (data : bytes) (pos : nat) : option (Z * nat) :=
  b0 ← byte_at data pos;
  b1 ← byte_at data (pos + 1);
  b2 ← byte_at data (pos + 2);
  b3 ← byte_at data (pos + 3);
  Some (u32 (Z.lor (Z.lor (Z.lor b0 (Z.shiftl b1 8)) (Z.shiftl b2 16)) (Z.shiftl b3 24)),
        (pos + 4)%nat).

Definition read_u16 (data : bytes) (pos : nat) : option (Z * nat) :=
  b0 ← byte_at data pos;
  b1 ← byte_at data (pos + 1);
  Some (u16 (Z.lor b0 (Z.shiftl b1 8)), (pos + 2)%nat).

(** The loop [for (i = 0; i < 8; ++i) v |= uint64_t(data[pos + i]) << (i * 8)],
    with [steps] rounds to go. *)
Fixpoint read_u64_loop (data : bytes) (pos i : nat) (steps : nat) (v : Z) : option Z :=
  match steps with
  | O => Some v
  | S steps' =>
      b ← byte_at data (pos + i);
      read_u64_loop data pos (S i) steps' (u64 (Z.lor v (Z.shiftl b (Z.of_nat i * 8))))
  end.

Definition read_u64 (data : bytes) (pos : nat) : option (Z * nat) :=
  v ← read_u64_loop data pos 0 8 0;
  Some (v, (pos + 8)%nat).

(** The range [data.begin() + pos, data.begin() + pos + len). *)
Definition read_range (data : bytes) (pos : nat) (len : Z) : option bytes :=
  if Z.of_nat pos + len <=? size data
  then Some (take (Z.to_nat len) (drop pos data))
  else None.

Definition read_bytes (data : bytes) (pos : nat) : option (bytes * nat) :=
  '(len, pos) ← read_u32 data pos;
  result ← read_range data pos len;
  Some (result, (pos + Z.to_nat len)%nat).

(** [FileEncryptionHeader::deserialize] *)
Definition deserialize (data : bytes) : option (Result FileEncryptionHeader) :=
  if size data <? 20 then Some (Err_ INVALID_INPUT "Header too small")
  else
    '(magic', pos) ← read_u32 data 0;
    if negb (magic' =? MAGIC) then Some (Err_ INVALID_INPUT "Invalid magic number")
    else
      '(version', pos) ← read_u16 data pos;
      '(algorithm', pos) ← read_u16 data pos;
      '(key_len, pos) ← read_u32 data pos;
      key_bytes ← read_range data pos key_len;
      let key_str := string_of_list_byte key_bytes in
      let pos := (pos + Z.to_nat key_len)%nat in
      match KeyId_parse key_str with
      | Err _ => Some (Err_ INVALID_INPUT "Invalid key ID")
      | Ok key_id' =>
          '(wrapped, pos) ← read_bytes data pos;
          '(iv', pos) ← read_bytes data pos;
          '(tag', pos) ← read_bytes data pos;
          '(original_size', pos) ← read_u64 data pos;
          '(chunk_size', pos) ← read_u32 data pos;
          Some (Ok (mkHeader magic' version' algorithm' key_id' wrapped iv' tag'
                      original_size' chunk_size'))
      end.

(** The value of a [uint32_t] whose four bytes in memory are [bs], on a
    host of the given byte order. *)
Definition raw_u32_value (e : Endianness) (bs : bytes) : Z :=
  match e with
  | LittleEndian => le_value bs
  | BigEndian => le_value (rev bs)
  end.

Section FileDecryption.
Context {G : AESGCM} {S C : Type} {KSt : IKeyStore S} {CC : CacheClient C}.
Variable getKey : KeyId -> St_M (KeyService S C) KeyData.

(** [input.read(buf, n); if (!input) return Err(...)]: the [n] bytes, or
    the error when the stream has fewer. *)
Definition stream_read_exact (n : Z) (e : Error)
    : St_M (FileEncryptionService (KeyService S C)) bytes :=
  fun fs =>
    if n <=? size (input fs)
    then (Ok (take (Z.to_nat n) (input fs)),
          mkFileService (key_service_ fs) (chunk_size_ fs) (host fs)
            (drop (Z.to_nat n) (input fs)) (output fs))
    else (Err e, mkFileService (key_service_ fs) (chunk_size_ fs) (host fs) []
                   (output fs)).

Definition unwrapDEK (wrapped : bytes) (kek_id : KeyId)
    : St_M (FileEncryptionService (KeyService S C)) bytes :=
  if size wrapped <? aes_gcm.IV_SIZE + aes_gcm.TAG_SIZE
  then fail (Error_ INVALID_INPUT "Wrapped DEK too small")
  else
    let* kek := on_key_service (getKey kek_id) in
    let iv := take (Z.to_nat aes_gcm.IV_SIZE) wrapped in
    let tag := take (Z.to_nat aes_gcm.TAG_SIZE) (drop (Z.to_nat aes_gcm.IV_SIZE) wrapped) in
    let ciphertext := drop (Z.to_nat (aes_gcm.IV_SIZE + aes_gcm.TAG_SIZE)) wrapped in
    on_key_service (in_world (decryptGCM ciphertext (key_material kek) iv tag [])).

(** [FileEncryptionService::decryptStream]; [None] when [deserialize]
    reads outside the header.  Logging and the progress callback are left
    out, as in [encryptStream]. *)
Definition decryptStream (fs : FileEncryptionService (KeyService S C))
    : option (Result unit * FileEncryptionService (KeyService S C)) :=
  match stream_read_exact 4 (Error_ INVALID_INPUT "Cannot read header size") fs with
  | (Err e, fs1) => Some (Err e, fs1)
  | (Ok size_bytes, fs1) =>
      let header_size := raw_u32_value (host fs1) size_bytes in
      match stream_read_exact header_size (Error_ INVALID_INPUT "Cannot read header") fs1 with
      | (Err e, fs2) => Some (Err e, fs2)
      | (Ok header_data, fs2) =>
          match deserialize header_data with
          | None => None
          | Some (Err e) => Some (Err e, fs2)
          | Some (Ok header) =>
              Some ((let* dek := unwrapDEK (wrapped_dek header) (key_id header) in
                     let* ciphertext := stream_read_all in
                     let* plaintext :=
                       on_key_service
                         (in_world (decryptGCM ciphertext dek (hdr_iv header)
                                      (hdr_tag header) [])) in
                     let* _ := stream_write plaintext in
                     ret tt) fs2)
          end
      end
  end.

End FileDecryption.

(** A header whose fields are within their C++ types and whose key
    identifier prints without a colon inside its namespace and id. *)
Definition header_in_range (h : FileEncryptionHeader) : Prop :=
  0 <= hdr_version h < 2 ^ 16
  /\ 0 <= hdr_algorithm h < 2 ^ 16
  /\ no_colon (namespace_prefix (key_id h)) = true
  /\ no_colon (kid (key_id h)) = true
  /\ 0 <= version (key_id h) < 2 ^ 32
  /\ size (string_bytes (KeyId_toString (key_id h))) < 2 ^ 32
  /\ size (wrapped_dek h) < 2 ^ 32
  /\ size (hdr_iv h) < 2 ^ 32
  /\ size (hdr_tag h) < 2 ^ 32
  /\ 0 <= original_size h < 2 ^ 64
  /\ 0 <= chunk_size h < 2 ^ 32.

(** The bytes of a file: the size of the header as the host writes a
    [uint32_t], the header, the ciphertext. *)
Definition framed (e : Endianness) (h : FileEncryptionHeader) (ct : bytes) : bytes :=
  raw_u32 e (u32 (size (serialize h))) ++ serialize h ++ ct.

(** The header [h] declaring another version, algorithm, original size
    and chunk size. *)
Definition declaring (h : FileEncryptionHeader) (ver alg orig chunk : Z)
    : FileEncryptionHeader :=
  mkHeader (magic h) ver alg (key_id h) (wrapped_dek h) (hdr_iv h) (hdr_tag h) orig chunk.

(** The position [pos] in [data], with [rest] from there on. *)
Definition cursor (data : bytes) (pos : nat) (rest : bytes) : Prop :=
  (pos <= length data)%nat /\ drop pos data = rest.

(** ** tracing.cpp: the trace state *)

(** The loop [while (std::getline(ss, pair, ','))] over what is left of
    the stream, [pair] holding the characters read so far; as for the
    colons of a [KeyId], a line is read at the end of the input only if it
    has a character. *)
Fixpoint getline_pairs (rest : string) (pair : string) : list string :=
  match rest with
  | EmptyString => if bool_decide (pair = "") then [] else [pair]
  | String c rest' =>
      if bool_decide (c = ","%char) then pair :: getline_pairs rest' ""
      else getline_pairs rest' (pair +:+ String c "")
  end.

(** [s.find(c)]: the first position of [c], [None] for [npos]. *)
Fixpoint find_char (c : ascii) (s : string) : option nat :=
  match s with
  | EmptyString => None
  | String x s' => if bool_decide (x = c) then Some 0%nat else S <$> find_char c s'
  end.

(** [s.substr(pos)]: from [pos] to the end. *)
Definition substr_from (s : string) (pos : nat) : string :=
  String.substring pos (String.length s - pos) s.

(** The characters of [" \t"]. *)
Definition is_blank (c : ascii) : bool :=
  bool_decide (c = " "%char) || bool_decide (c = "009"%char).

(** [s.erase(0, s.find_first_not_of(" \t"))]: the blanks at the front go,
    all of the string when it has nothing else. *)
Fixpoint erase_leading_blanks (s : string) : string :=
  match s with
  | EmptyString => ""
  | String c s' => if is_blank c then erase_leading_blanks s' else s
  end.

(** [s.erase(s.find_last_not_of(" \t") + 1)]: what follows the last
    character that is not a blank goes; without such a character the
    position is [npos + 1], which is 0, and all of the string goes. *)
Fixpoint erase_trailing_blanks (s : string) : string :=
  match s with
  | EmptyString => ""
  | String c s' =>
      match erase_trailing_blanks s' with
      | EmptyString => if is_blank c then "" else String c ""
      | t => String c t
      end
  end.

Definition trim_blanks (s : string) : string :=
  erase_trailing_blanks (erase_leading_blanks s).

(** The body of the loop of [parseTracestate] for one [pair]. *)
Definition parse_pair (ts : gmap string string) (pair : string) : gmap string string :=
  match find_char "="%char pair with
  | Some eq_pos =>
      let key := substr pair 0 eq_pos in
      let value := substr_from pair (eq_pos + 1) in
      <[trim_blanks key := trim_blanks value]> ts
  | None => ts
  end.

(** [TraceContext::parseTracestate] *)
Definition parseTracestate (tracestate_header : string) (ctx : TraceContext)
    : TraceContext :=
  if bool_decide (tracestate_header = "") then ctx
  else mkTraceContext (trace_id ctx) (span_id ctx) (parent_span_id ctx) (sampled ctx)
         (fold_left parse_pair (getline_pairs tracestate_header "") (tracestate ctx)).

(** The entries of a [std::map<std::string, std::string>] as a loop over
    the map visits them: by key, the smallest first. *)
Fixpoint insert_by_key (e : string * string) (l : list (string * string))
    : list (string * string) :=
  match l with
  | [] => [e]
  | x :: l' => if string_lt (fst e) (fst x) then e :: l else x :: insert_by_key e l'
  end.

Definition entries_in_order (m : gmap string string) : list (string * string) :=
  foldr insert_by_key [] (map_to_list m).

(** The loop of [toTracestate], [first] being its flag. *)
Fixpoint write_pairs (first : bool) (l : list (string * string)) : string :=
  match l with
  | [] => ""
  | (key, value) :: l' =>
      (if first then "" else ",") +:+ key +:+ "=" +:+ value +:+ write_pairs false l'
  end.

(** [TraceContext::toTracestate] *)
Definition toTracestate (ctx : TraceContext) : string :=
  if bool_decide (tracestate ctx = ∅) then ""
  else write_pairs true (entries_in_order (tracestate ctx)).

(** A string in which the character [c] does not occur. *)
Fixpoint without_char (c : ascii) (s : string) : bool :=
  match s with
  | EmptyString => true
  | String x s' => negb (bool_decide (x = c)) && without_char c s'
  end.

(** The text of an entry in the header. *)
Definition pair_text (e : string * string) : string := fst e +:+ "=" +:+ snd e.

(** An entry that the header carries as it is: no comma or equals sign in
    the key, no comma in the value, no blank at either end of both. *)
Definition plain_entry (e : string * string) : Prop :=
  without_char "," (fst e) = true /\ without_char "=" (fst e) = true
  /\ trim_blanks (fst e) = fst e
  /\ without_char "," (snd e) = true /\ trim_blanks (snd e) = snd e.

(** ** tracing.cpp: spans and the tracer *)

Inductive SpanStatus := UNSET | STATUS_OK | STATUS_ERROR.

Inductive SpanKind := INTERNAL | SERVER | CLIENT | PRODUCER | CONSUMER.

Record Span := mkSpan {
  name_ : string;
  kind_ : SpanKind;
  context_ : TraceContext;
  start_time_ : Z;
  end_time_ : Z;
  attributes_ : gmap string string;
  status_ : SpanStatus;
  status_description_ : string;
  ended_ : bool
}.

(** What the tracer draws from: the generator of [generateTraceId], the
    generator of [generateSpanId] (each function has its own, seeded from
    the random device) and the steady clock. *)
Record TraceEnv := mkTraceEnv {
  trace_draws : nat -> Z;
  trace_pos : nat;
  span_draws : nat -> Z;
  span_pos : nat;
  steady_now : Z
}.

(** The [n] last digits of [v] in base 16, the most significant first. *)
Fixpoint hex_digits (n : nat) (v : Z) : string :=
  match n with
  | O => ""
  | S n' => hex_digits n' (v / 16) +:+ String (hex_digit (v mod 16)) ""
  end.

(** [ss << std::hex << std::setfill('0') << std::setw(16) << v] for a
    [uint64_t]: its sixteen hexadecimal digits. *)
Definition hex16 (v : Z) : string := hex_digits 16 (u64 v).

(** [Tracer::generateTraceId] *)
Definition generateTraceId (env : TraceEnv) : string * TraceEnv :=
  (hex16 (trace_draws env (trace_pos env))
   +:+ hex16 (trace_draws env (S (trace_pos env))),
   mkTraceEnv (trace_draws env) (S (S (trace_pos env))) (span_draws env) (span_pos env)
     (steady_now env)).

(** [Tracer::generateSpanId] *)
Definition generateSpanId (env : TraceEnv) : string * TraceEnv :=
  (hex16 (span_draws env (span_pos env)),
   mkTraceEnv (trace_draws env) (trace_pos env) (span_draws env) (S (span_pos env))
     (steady_now env)).

(** [Span::Span(name, kind, context)]: the end time is the epoch, the
    status [UNSET], and the correlation id is set as an attribute when
    there is a trace id. *)
Definition Span_new (name : string) (kind : SpanKind) (context : TraceContext)
    (env : TraceEnv) : Span :=
  mkSpan name kind context (steady_now env) 0
    (if bool_decide (trace_id context = "") then ∅
     else <["correlation_id" := correlationId context]> ∅)
    UNSET "" false.

(** [Span::setAttribute(key, value)] for a string. *)
Definition setAttribute (key value : string) (span : Span) : Span :=
  mkSpan (name_ span) (kind_ span) (context_ span) (start_time_ span) (end_time_ span)
    (<[key := value]> (attributes_ span)) (status_ span) (status_description_ span)
    (ended_ span).

(** [Tracer::startSpan(name, kind)] of the tracer of the service
    [service_name]: a root span. *)
Definition startSpan (service_name name : string) (kind : SpanKind) (env : TraceEnv)
    : Span * TraceEnv :=
  let '(tid, env1) := generateTraceId env in
  let '(sid, env2) := generateSpanId env1 in
  let ctx :=
    mkTraceContext tid sid (parent_span_id TraceContext_new) true
      (tracestate TraceContext_new) in
  (setAttribute "service.name" service_name (Span_new name kind ctx env2), env2).

(** [Tracer::startSpan(name, parent, kind)]: a child span. *)
Definition startSpan_child (service_name name : string) (parent : TraceContext)
    (kind : SpanKind) (env : TraceEnv) : Span * TraceEnv :=
  let '(sid, env1) := generateSpanId env in
  let ctx :=
    mkTraceContext (trace_id parent) sid (span_id parent) (sampled parent)
      (tracestate parent) in
  (setAttribute "service.name" service_name (Span_new name kind ctx env1), env1).

(** [Tracer::startSpanFromHeaders] *)
Definition startSpanFromHeaders (service_name name traceparent tracestate_header : string)
    (kind : SpanKind) (env : TraceEnv) : Span * TraceEnv :=
  match TraceContext_parse traceparent with
  | Some parent_ctx =>
      let parent_ctx :=
        if negb (bool_decide (tracestate_header = ""))
        then parseTracestate tracestate_header parent_ctx
        else parent_ctx in
      startSpan_child service_name name parent_ctx kind env
  | None => startSpan service_name name kind env
  end.


(** ** key_store.cpp: the store in local files *)

(** The store and what it works on: the files by path (two paths that
    differ name two files), the failures that the next operations on
    files meet ([Some (what, n)]: the operation fails, an exception has
    the text [what], a write leaves [n] bytes), the byte order of the host
    and the readings of the system clock. *)
Record LocalKeyStore := mkLocalKeyStore {
  storage_path_ : string;
  local_master_key_ : bytes;
  mutex_locked : bool;
  files : gmap string bytes;
  io_faults : list (option (string * nat));
  local_host : Endianness;
  clock_readings : nat -> Z;
  clock_pos : nat
}.

Definition set_mutex (b : bool) (st : LocalKeyStore) : LocalKeyStore :=
  mkLocalKeyStore (storage_path_ st) (local_master_key_ st) b (files st) (io_faults st)
    (local_host st) (clock_readings st) (clock_pos st).

Definition set_files (fs : gmap string bytes) (st : LocalKeyStore) : LocalKeyStore :=
  mkLocalKeyStore (storage_path_ st) (local_master_key_ st) (mutex_locked st) fs
    (io_faults st) (local_host st) (clock_readings st) (clock_pos st).

(** The outcome of the next operation on a file. *)
Definition next_fault (st : LocalKeyStore) : option (string * nat) * LocalKeyStore :=
  match io_faults st with
  | [] => (None, st)
  | f :: rest =>
      (f, mkLocalKeyStore (storage_path_ st) (local_master_key_ st) (mutex_locked st)
            (files st) rest (local_host st) (clock_readings st) (clock_pos st))
  end.

(** [std::chrono::system_clock::now()] *)
Definition system_clock_now (st : LocalKeyStore) : Z * LocalKeyStore :=
  (clock_readings st (clock_pos st),
   mkLocalKeyStore (storage_path_ st) (local_master_key_ st) (mutex_locked st)
     (files st) (io_faults st) (local_host st) (clock_readings st) (S (clock_pos st))).

(** [std::lock_guard<std::mutex> lock(mutex_)] around the body of a
    method.  Locking a mutex that the thread already holds is undefined
    behaviour (as a rule the thread waits for itself for ever): [None]. *)
Definition lock_guard {A} (body : LocalKeyStore -> option (A * LocalKeyStore))
    (st : LocalKeyStore) : option (A * LocalKeyStore) :=
  if mutex_locked st then None
  else '(r, st') ← body (set_mutex true st); Some (r, set_mutex false st').

(** [std::replace(s.begin(), s.end(), from, to)] *)
Fixpoint replace_char (from to : ascii) (s : string) : string :=
  match s with
  | EmptyString => ""
  | String c s' =>
      String (if bool_decide (c = from) then to else c) (replace_char from to s')
  end.

(** [LocalKeyStore::getKeyPath] *)
Definition getKeyPath (id : KeyId) (st : LocalKeyStore) : string :=
  storage_path_ st +:+ "/" +:+ replace_char ":" "_" (KeyId_toString id) +:+ ".key".

(** [static_cast<uint32_t>] of an enumerator, and the enumerator of a
    number; a number beyond the last enumerator casts to a value that has
    no name, which the types here do not hold. *)
Definition KeyAlgorithm_index (a : KeyAlgorithm) : Z :=
  match a with
  | AES_128_GCM => 0 | AES_256_GCM => 1 | AES_128_CBC => 2 | AES_256_CBC => 3
  | RSA_2048 => 4 | RSA_3072 => 5 | RSA_4096 => 6
  | ECDSA_P256 => 7 | ECDSA_P384 => 8 | ECDSA_P521 => 9
  end.

Definition KeyAlgorithm_of_index (n : Z) : option KeyAlgorithm :=
  if n =? 0 then Some AES_128_GCM else if n =? 1 then Some AES_256_GCM
  else if n =? 2 then Some AES_128_CBC else if n =? 3 then Some AES_256_CBC
  else if n =? 4 then Some RSA_2048 else if n =? 5 then Some RSA_3072
  else if n =? 6 then Some RSA_4096 else if n =? 7 then Some ECDSA_P256
  else if n =? 8 then Some ECDSA_P384 else if n =? 9 then Some ECDSA_P521
  else None.

Definition KeyState_index (s : KeyState) : Z :=
  match s with
  | PENDING_ACTIVATION => 0 | ACTIVE => 1 | DEPRECATED => 2
  | PENDING_DESTRUCTION => 3 | DESTROYED => 4
  end.

Definition KeyState_of_index (n : Z) : option KeyState :=
  if n =? 0 then Some PENDING_ACTIVATION else if n =? 1 then Some ACTIVE
  else if n =? 2 then Some DEPRECATED else if n =? 3 then Some PENDING_DESTRUCTION
  else if n =? 4 then Some DESTROYED else None.

(** The bytes [LocalKeyStore::store] writes for a key. *)
Definition serialize_key (e : Endianness) (key : EncryptedKey) : bytes :=
  raw_u32 e (u32 (size (ek_iv key))) ++ ek_iv key
  ++ raw_u32 e (u32 (size (ek_tag key))) ++ ek_tag key
  ++ raw_u32 e (u32 (size (encrypted_material key))) ++ encrypted_material key
  ++ raw_u32 e (KeyAlgorithm_index (md_algorithm (metadata key)))
  ++ raw_u32 e (KeyState_index (md_state (metadata key))).

(** [LocalKeyStore::store] *)
Definition LocalKeyStore_store (id : KeyId) (key : EncryptedKey)
    : LocalKeyStore -> option (Result unit * LocalKeyStore) :=
  lock_guard (fun st =>
    let serialized := serialize_key (local_host st) key in
    let path := getKeyPath id st in
    let '(fault, st) := next_fault st in
    match fault with
    | Some _ => Some (Err_ INTERNAL_ERROR "Failed to open file for writing", st)
    | None =>
        let st := set_files (<[path := []]> (files st)) st in
        let '(fault, st) := next_fault st in
        match fault with
        | Some (_, n) =>
            Some (Err_ INTERNAL_ERROR "Failed to write key file",
                  set_files (<[path := take n serialized]> (files st)) st)
        | None => Some (Ok tt, set_files (<[path := serialized]> (files st)) st)
        end
    end).

(** [KeyMetadata()]: the defaults, with two readings of the clock. *)
Definition KeyMetadata_new (st : LocalKeyStore) : KeyMetadata * LocalKeyStore :=
  let '(created, st) := system_clock_now st in
  let '(t, st) := system_clock_now st in
  (mkKeyMetadata KeyId_default AES_256_GCM SYMMETRIC ACTIVE created
     (t + 24 * 365 * 3600 * ticks_per_second) None None "" [] 0, st).

(** [*reinterpret_cast<uint32_t*>(data.data() + offset)]; [None] when the
    four bytes are not all in the buffer. *)
Definition u32_at (e : Endianness) (data : bytes) (offset : Z) : option Z :=
  raw_u32_value e <$> read_range data (Z.to_nat offset) 4.

Definition corrupted {A} : Result A := Err_ INTERNAL_ERROR "Corrupted key file".

(** The deserialisation in [LocalKeyStore::retrieve], into the key
    [fresh]. *)
Definition deserialize_key (e : Endianness) (id : KeyId) (fresh : EncryptedKey)
    (data : bytes) : option (Result EncryptedKey) :=
  let offset := 0 in
  if offset + 4 >? size data then Some corrupted
  else
    iv_len ← u32_at e data offset;
    let offset := offset + 4 in
    if offset + iv_len >? size data then Some corrupted
    else
      iv' ← read_range data (Z.to_nat offset) iv_len;
      let offset := offset + iv_len in
      if offset + 4 >? size data then Some corrupted
      else
        tag_len ← u32_at e data offset;
        let offset := offset + 4 in
        if offset + tag_len >? size data then Some corrupted
        else
          tag' ← read_range data (Z.to_nat offset) tag_len;
          let offset := offset + tag_len in
          if offset + 4 >? size data then Some corrupted
          else
            data_len ← u32_at e data offset;
            let offset := offset + 4 in
            if offset + data_len >? size data then Some corrupted
            else
              material ← read_range data (Z.to_nat offset) data_len;
              let offset := offset + data_len in
              if offset + 2 * 4 >? size data then Some corrupted
              else
                algorithm_number ← u32_at e data offset;
                algorithm' ← KeyAlgorithm_of_index algorithm_number;
                let offset := offset + 4 in
                state_number ← u32_at e data offset;
                state' ← KeyState_of_index state_number;
                let m := metadata fresh in
                Some (Ok (mkEncryptedKey material iv' tag' (kek_id fresh)
                            (mkKeyMetadata id algorithm' (md_type m) state'
                               (md_created_at m) (md_expires_at m) (md_rotated_at m)
                               (md_previous_version m) (md_owner_service m)
                               (md_allowed_operations m) (md_usage_count m)))).

(** [LocalKeyStore::retrieve] *)
Definition LocalKeyStore_retrieve (id : KeyId)
    : LocalKeyStore -> option (Result EncryptedKey * LocalKeyStore) :=
  lock_guard (fun st =>
    let path := getKeyPath id st in
    let '(fault, st) := next_fault st in
    match fault, files st !! path with
    | None, Some content =>
        let '(fault, st) := next_fault st in
        match fault with
        | Some _ => Some (Err_ INTERNAL_ERROR "Failed to read key file", st)
        | None =>
            let '(m, st) := KeyMetadata_new st in
            r ← deserialize_key (local_host st) id (mkEncryptedKey [] [] [] KeyId_default m)
                  content;
            Some (r, st)
        end
    | _, _ => Some (not_found id, st)
    end).

(** [LocalKeyStore::remove] *)
Definition LocalKeyStore_remove (id : KeyId)
    : LocalKeyStore -> option (Result unit * LocalKeyStore) :=
  lock_guard (fun st =>
    let path := getKeyPath id st in
    let '(fault, st) := next_fault st in
    match fault with
    | Some (what, _) =>
        Some (Err_ INTERNAL_ERROR ("Failed to remove key: " +:+ what), st)
    | None =>
        match files st !! path with
        | Some _ => Some (Ok tt, set_files (delete path (files st)) st)
        | None => Some (not_found id, st)
        end
    end).

(** [LocalKeyStore::exists] *)
Definition LocalKeyStore_exists (id : KeyId)
    : LocalKeyStore -> option (Result bool * LocalKeyStore) :=
  lock_guard (fun st =>
    Some (Ok (bool_decide (is_Some (files st !! getKeyPath id st))), st)).

(** [LocalKeyStore::updateMetadata] *)
Definition LocalKeyStore_updateMetadata (id : KeyId) (md : KeyMetadata)
    : LocalKeyStore -> option (Result unit * LocalKeyStore) :=
  lock_guard (fun st =>
    '(key_result, st) ← LocalKeyStore_retrieve id st;
    match key_result with
    | Err e => Some (Err e, st)
    | Ok key => LocalKeyStore_store id (set_metadata md key) st
    end).

(** A key file: the vector, the tag and the material, each after its
    length, the numbers of the algorithm and of the state, all numbers as
    the host holds a [uint32_t], and whatever follows. *)
Definition key_file (e : Endianness) (iv' tag' material : bytes)
    (algorithm_number state_number : Z) (rest : bytes) : bytes :=
  raw_u32 e (size iv') ++ iv'
  ++ raw_u32 e (size tag') ++ tag'
  ++ raw_u32 e (size material) ++ material
  ++ raw_u32 e algorithm_number ++ raw_u32 e state_number ++ rest.

(** The key that [retrieve] builds. *)
Definition read_key (id : KeyId) (fresh : EncryptedKey) (iv' tag' material : bytes)
    (a : KeyAlgorithm) (s : KeyState) : EncryptedKey :=
  let m := metadata fresh in
  mkEncryptedKey material iv' tag' (kek_id fresh)
    (mkKeyMetadata id a (md_type m) s (md_created_at m) (md_expires_at m)
       (md_rotated_at m) (md_previous_version m) (md_owner_service m)
       (md_allowed_operations m) (md_usage_count m)).

(** The default-constructed key of a [retrieve] that starts in [st]. *)
Definition fresh_key (st : LocalKeyStore) : EncryptedKey :=
  mkEncryptedKey [] [] [] KeyId_default
    (mkKeyMetadata KeyId_default AES_256_GCM SYMMETRIC ACTIVE
       (clock_readings st (clock_pos st))
       (clock_readings st (S (clock_pos st)) + 24 * 365 * 3600 * ticks_per_second)
       None None "" [] 0).

(** The state after a method that met no failure: the mutex free again,
    the files [fs], [ticks] readings of the clock taken. *)
Definition settled (st : LocalKeyStore) (fs : gmap string bytes) (ticks : nat)
    : LocalKeyStore :=
  mkLocalKeyStore (storage_path_ st) (local_master_key_ st) false fs []
    (local_host st) (clock_readings st) (ticks + clock_pos st).
(** * Properties *)

(** ** Bytes, sizes and buffers *)

Lemma byte_to_Z_range (b : byte) : 0 <= byte_to_Z b < 256.
Proof.
  unfold byte_to_Z. pose proof (Byte.to_N_bounded b). lia.
Qed.

Lemma byte_to_Z_u8 (v : Z) : 0 <= v < 256 -> byte_to_Z (u8 v) = v.
Proof.
  intros Hv. unfold u8, byte_to_Z.
  rewrite Z.mod_small by lia.
  destruct (Byte.of_N (Z.to_N v)) as [b|] eqn:E.
  - apply Byte.to_of_N in E. lia.
  - apply Byte.of_N_None_iff in E. lia.
Qed.

Lemma u8_byte_to_Z (b : byte) : u8 (byte_to_Z b) = b.
Proof.
  unfold u8, byte_to_Z. pose proof (Byte.to_N_bounded b).
  rewrite Z.mod_small by lia. rewrite N2Z.id, Byte.of_to_N. reflexivity.
Qed.

Lemma byte_to_Z_inj (a b : byte) : byte_to_Z a = byte_to_Z b -> a = b.
Proof.
  intros E. rewrite <- (u8_byte_to_Z a), <- (u8_byte_to_Z b). now rewrite E.
Qed.

Lemma byte_eqb_true (a b : byte) : byte_eqb a b = true <-> a = b.
Proof.
  unfold byte_eqb. split.
  - apply Byte.byte_dec_bl.
  - apply Byte.byte_dec_lb.
Qed.

Lemma size_nonneg {A} (l : list A) : 0 <= size l.
Proof. unfold size. lia. Qed.

Lemma size_app {A} (l k : list A) : size (l ++ k) = size l + size k.
Proof. unfold size. rewrite length_app. lia. Qed.

Lemma size_replicate {A} (n : nat) (x : A) : size (replicate n x) = Z.of_nat n.
Proof. unfold size. now rewrite length_replicate. Qed.

Lemma size_nil {A} : size (@nil A) = 0.
Proof. reflexivity. Qed.

Lemma Z_to_nat_size {A} (l : list A) : Z.to_nat (size l) = length l.
Proof. unfold size. lia. Qed.

Lemma resize_with_grow (l : bytes) (n : Z) (v : byte) :
  size l < n -> resize_with l n v = l ++ replicate (Z.to_nat (n - size l)) v.
Proof.
  intros Hn. unfold resize_with.
  destruct (n <=? size l) eqn:E; [apply Z.leb_le in E; lia | reflexivity].
Qed.

Lemma resize_with_prefix (l k : bytes) (v : byte) :
  resize_with (l ++ k) (size l) v = l.
Proof.
  unfold resize_with. rewrite size_app.
  pose proof (size_nonneg k).
  destruct (size l <=? size l + size k) eqn:E; [|apply Z.leb_gt in E; lia].
  rewrite Z_to_nat_size. now rewrite take_app_length.
Qed.

(** Writing the output of a call at the front of a buffer, then nothing
    after it, then cutting the buffer to what was written. *)
Lemma buffer_roundtrip (buffer out : bytes) :
  resize_with (write_at (write_at buffer 0 out) (size out) [])
    (size out + size (@nil byte)) "000"%byte = out.
Proof.
  unfold write_at. simpl take. rewrite app_nil_l.
  change (size (@nil byte)) with 0. rewrite !Z.add_0_r, Z.add_0_l.
  rewrite Z_to_nat_size. rewrite take_app_length. simpl.
  apply resize_with_prefix.
Qed.

Lemma gtb_false (a b : Z) : a <= b -> (a >? b) = false.
Proof. intros. rewrite Z.gtb_ltb. apply Z.ltb_ge. lia. Qed.

Lemma gtb_true (a b : Z) : b < a -> (a >? b) = true.
Proof. intros. rewrite Z.gtb_ltb. apply Z.ltb_lt. lia. Qed.

Lemma eqb_false (a b : Z) : a <> b -> (a =? b) = false.
Proof. apply Z.eqb_neq. Qed.

(** ** PKCS#7 padding *)

Lemma padding_bytes_ok_all (data : bytes) (b : byte) (steps i : nat) :
  (forall j, (i <= j < i + steps)%nat -> data !! j = Some b) ->
  padding_bytes_ok data b i steps = true.
Proof.
  revert i. induction steps as [|steps IH]; intros i Hall; [reflexivity|].
  simpl. rewrite (Hall i) by lia.
  assert (E : byte_eqb b b = true) by now apply byte_eqb_true.
  rewrite E. simpl. apply IH. intros j Hj. apply Hall. lia.
Qed.

Lemma padding_len_range (n : Z) :
  1 <= aes_cbc.BLOCK_SIZE - n mod aes_cbc.BLOCK_SIZE <= 16.
Proof.
  unfold aes_cbc.BLOCK_SIZE. pose proof (Z.mod_pos_bound n 16). lia.
Qed.

Lemma addPKCS7Padding_shape (d : bytes) :
  let p := aes_cbc.BLOCK_SIZE - size d mod aes_cbc.BLOCK_SIZE in
  addPKCS7Padding d = d ++ replicate (Z.to_nat p) (u8 p).
Proof.
  intros p. unfold addPKCS7Padding. fold p.
  pose proof (padding_len_range (size d)) as Hp. fold p in Hp.
  rewrite resize_with_grow by lia.
  do 2 f_equal. lia.
Qed.

(** C9. For every byte sequence [d], [addPKCS7Padding d] is [d] followed by
    [p] copies of the byte [p] for some [p] between 1 and 16; its length is
    the least multiple of 16 strictly above the length of [d]; and
    [removePKCS7Padding] gives [d] back. *)
Theorem pkcs7_padding_roundtrip (d : bytes) :
  (exists p, 1 <= p <= 16
             /\ addPKCS7Padding d = d ++ replicate (Z.to_nat p) (u8 p)
             /\ byte_to_Z (u8 p) = p)
  /\ size (addPKCS7Padding d) mod 16 = 0
  /\ size d < size (addPKCS7Padding d)
  /\ (forall m, m mod 16 = 0 -> size d < m -> size (addPKCS7Padding d) <= m)
  /\ removePKCS7Padding (addPKCS7Padding d) = Ok d.
Proof.
  pose proof (addPKCS7Padding_shape d) as Hshape. cbv zeta in Hshape.
  pose proof (padding_len_range (size d)) as Hp.
  set (p := aes_cbc.BLOCK_SIZE - size d mod aes_cbc.BLOCK_SIZE) in *.
  assert (Hb : byte_to_Z (u8 p) = p) by (apply byte_to_Z_u8; lia).
  assert (Hsize : size (addPKCS7Padding d) = size d + p).
  { rewrite Hshape, size_app, size_replicate. lia. }
  pose proof (size_nonneg d) as Hd.
  assert (Hmod : p = 16 - size d mod 16) by reflexivity.
  split; [exists p; auto|].
  split; [rewrite Hsize; Z.div_mod_to_equations; lia|].
  split; [lia|].
  split; [intros m Hm Hlt; rewrite Hsize; Z.div_mod_to_equations; lia|].
  unfold removePKCS7Padding. rewrite Hshape.
  assert (Hrep : replicate (Z.to_nat p) (u8 p) = replicate (Z.to_nat p - 1) (u8 p) ++ [u8 p]).
  { replace (Z.to_nat p) with (S (Z.to_nat p - 1)) at 1 by lia.
    now rewrite replicate_S_end. }
  rewrite Hrep at 1. rewrite app_assoc, last_snoc.
  rewrite Hb, size_app, size_replicate.
  rewrite eqb_false by lia.
  rewrite (gtb_false p aes_cbc.BLOCK_SIZE) by (unfold aes_cbc.BLOCK_SIZE; lia).
  rewrite gtb_false by lia.
  simpl orb. cbv iota.
  replace (Z.to_nat (size d + Z.of_nat (Z.to_nat p) - p)) with (length d)
    by (unfold size; lia).
  rewrite padding_bytes_ok_all.
  - now rewrite take_app_length.
  - intros j Hj. rewrite lookup_app_r by lia.
    apply lookup_replicate_2. lia.
Qed.

(** ** Strings *)

Lemma length_substring (s : string) (n m : nat) :
  (n + m <= String.length s)%nat -> String.length (String.substring n m s) = m.
Proof.
  revert n m. induction s as [|c s IH]; intros n m Hlen; simpl in Hlen.
  - assert (n = 0 /\ m = 0)%nat as [-> ->] by lia. reflexivity.
  - destruct n as [|n]; simpl.
    + destruct m as [|m]; [reflexivity|]. simpl. f_equal. apply (IH 0%nat). lia.
    + apply IH. lia.
Qed.

Lemma substring_prefix (s : string) (n m k : nat) :
  (n + m <= k)%nat ->
  String.substring n m (String.substring 0 k s) = String.substring n m s.
Proof.
  revert n m k. induction s as [|c s IH]; intros n m k Hk.
  - destruct k; reflexivity.
  - destruct k as [|k].
    + assert (n = 0 /\ m = 0)%nat as [-> ->] by lia. reflexivity.
    + simpl String.substring at 2.
      destruct n as [|n]; simpl.
      * destruct m as [|m]; [reflexivity|]. f_equal. apply IH. lia.
      * apply IH. lia.
Qed.

Lemma get_substring_prefix (s : string) (i k : nat) :
  (i < k)%nat -> String.get i (String.substring 0 k s) = String.get i s.
Proof.
  intros Hi. rewrite (String.substring_correct1 s 0 k i Hi).
  now rewrite Nat.add_0_r.
Qed.

Lemma substring_0_3 (a b c : ascii) (s : string) :
  String.substring 0 3 (String a (String b (String c s))) = String a (String b (String c "")).
Proof. simpl. now destruct s. Qed.

(** ** W3C trace context *)

Lemma version_check (a b c : ascii) (s : string) :
  let t := String a (String b (String c s)) in
  negb (bool_decide (at_ t 0 = Some "0"%char))
  || negb (bool_decide (at_ t 1 = Some "0"%char))
  || negb (bool_decide (at_ t 2 = Some "-"%char))
  = negb (bool_decide (String a (String b (String c "")) = "00-")).
Proof.
  unfold at_. simpl.
  repeat case_bool_decide; simplify_eq; try reflexivity; exfalso; congruence.
Qed.

Lemma TraceContext_parse_unfold (s : string) :
  (55 <= String.length s)%nat ->
  TraceContext_parse s =
    if negb (bool_decide (substr s 0 3 = "00-")) then None
    else if all_zero (substr s 3 32) then None
    else if all_zero (substr s 36 16) then None
    else Some (mkTraceContext (substr s 3 32) (substr s 36 16) "" 
                 (bool_decide (at_ s 54 = Some "1"%char)) ∅).
Proof.
  intros Hlen. unfold TraceContext_parse.
  destruct (String.length s <? 55)%nat eqn:E; [apply Nat.ltb_lt in E; lia|].
  destruct s as [|a [|b [|c s]]]; try (simpl in Hlen; lia).
  replace (substr (String a (String b (String c s))) 0 3)
    with (String a (String b (String c ""))) by (symmetry; apply substring_0_3).
  rewrite version_check.
  set (t := String a (String b (String c s))) in *.
  destruct (negb (bool_decide (String a (String b (String c "")) = "00-"))); [reflexivity|].
  change (3 + 33 + 17 + 2)%nat with 55%nat.
  change (3 + 33 + 17)%nat with 53%nat.
  change (3 + 33)%nat with 36%nat.
  unfold substr. rewrite !length_substring by lia.
  rewrite !Nat.eqb_refl. cbn [negb].
  destruct (all_zero (String.substring 3 32 t)); [reflexivity|].
  destruct (all_zero (String.substring 36 16 t)); [reflexivity|].
  replace (55 <=? String.length t)%nat with true by (symmetry; apply Nat.leb_le; lia).
  unfold at_. rewrite (String.substring_correct1 t 53 2 1) by lia.
  reflexivity.
Qed.

(** C10. [TraceContext::parse] accepts exactly the strings of at least 55
    characters that start with "00-" and whose trace-id field (characters
    3 to 34) and span-id field (characters 36 to 51) are not all '0'.
    Nothing else is looked at: not whether the fields are hexadecimal, not
    the characters 35 and 52, and nothing past character 54, since the
    result is that of the first 55 characters alone.  [sampled] is true
    exactly when character 54 is '1'. *)
Theorem traceparent_parse_leniency (s : string) :
  (is_Some (TraceContext_parse s) <-> traceparent_accepted s)
  /\ (forall ctx, TraceContext_parse s = Some ctx ->
        (sampled ctx = true <-> at_ s 54 = Some "1"%char)
        /\ trace_id ctx = substr s 3 32 /\ span_id ctx = substr s 36 16)
  /\ ((55 <= String.length s)%nat ->
        TraceContext_parse s = TraceContext_parse (substr s 0 55)).
Proof.
  destruct (Nat.le_gt_cases 55 (String.length s)) as [Hlen|Hshort].
  - pose proof (TraceContext_parse_unfold s Hlen) as Hs.
    split; [|split].
    + rewrite Hs. unfold traceparent_accepted. split.
      * intros [ctx Hctx]. repeat split; try assumption.
        -- destruct (bool_decide (substr s 0 3 = "00-")) eqn:E; [|discriminate].
           now apply bool_decide_eq_true in E.
        -- destruct (negb _); [discriminate|].
           destruct (all_zero (substr s 3 32)); [discriminate|reflexivity].
        -- destruct (negb _); [discriminate|].
           destruct (all_zero (substr s 3 32)); [discriminate|].
           destruct (all_zero (substr s 36 16)); [discriminate|reflexivity].
      * intros (_ & H3 & Ht & Hsp). rewrite Ht, Hsp.
        rewrite bool_decide_eq_true_2 by assumption. simpl. eauto.
    + intros ctx Hctx. rewrite Hs in Hctx.
      destruct (negb _); [discriminate|].
      destruct (all_zero (substr s 3 32)); [discriminate|].
      destruct (all_zero (substr s 36 16)); [discriminate|].
      injection Hctx as <-. simpl. rewrite bool_decide_eq_true. tauto.
    + intros _. rewrite Hs.
      rewrite TraceContext_parse_unfold
        by (unfold substr; rewrite length_substring; lia).
      unfold substr, at_.
      rewrite !substring_prefix by lia.
      rewrite get_substring_prefix by lia. reflexivity.
  - assert (Hnone : TraceContext_parse s = None).
    { unfold TraceContext_parse.
      now replace (String.length s <? 55)%nat with true by (symmetry; apply Nat.ltb_lt; lia). }
    rewrite Hnone. split; [|split].
    + split; [intros [? ?]; discriminate|]. intros (Hlen & _). lia.
    + intros ctx Hctx. discriminate.
    + intros Hlen. lia.
Qed.

(** The example of the header and three strings that are no W3C
    traceparent but are parsed all the same: fields that are not
    hexadecimal, other characters in place of the two inner dashes, and
    text after the flags. *)
Example traceparent_examples :
  (exists ctx, TraceContext_parse "00-0af7651916cd43dd8448eb211c80319c-b7ad6b7169203331-01" = Some ctx
               /\ sampled ctx = true /\ trace_id ctx = "0af7651916cd43dd8448eb211c80319c"
               /\ span_id ctx = "b7ad6b7169203331")
  /\ is_Some (TraceContext_parse "00-zzzzzzzzzzzzzzzzzzzzzzzzzzzzzzzz-yyyyyyyyyyyyyyyy-q1")
  /\ is_Some (TraceContext_parse "00-0af7651916cd43dd8448eb211c80319cXb7ad6b7169203331Y01")
  /\ is_Some (TraceContext_parse "00-0af7651916cd43dd8448eb211c80319c-b7ad6b7169203331-01 and more")
  /\ TraceContext_parse "00-00000000000000000000000000000000-b7ad6b7169203331-01" = None
  /\ TraceContext_parse "00-0af7651916cd43dd8448eb211c80319c-b7ad6b7169203331-0" = None.
Proof.
  repeat split; try (vm_compute; eauto); eexists; vm_compute; eauto.
Qed.

(** ** The AES engine *)

Lemma validatePlaintextSize_ok (sz : Z) :
  sz <= limits.MAX_PLAINTEXT_SIZE -> validatePlaintextSize sz = Ok tt.
Proof. intros. unfold validatePlaintextSize. now rewrite gtb_false. Qed.

Lemma validatePlaintextSize_over (sz : Z) :
  limits.MAX_PLAINTEXT_SIZE < sz ->
  validatePlaintextSize sz = Err_ SIZE_LIMIT_EXCEEDED "Input exceeds maximum allowed size".
Proof. intros. unfold validatePlaintextSize. now rewrite gtb_true. Qed.

Lemma validateCiphertextSize_ok (sz : Z) :
  sz <= limits.MAX_CIPHERTEXT_SIZE -> validateCiphertextSize sz = Ok tt.
Proof. intros. unfold validateCiphertextSize. now rewrite gtb_false. Qed.

Lemma validateAADSize_ok (sz : Z) :
  sz <= limits.MAX_AAD_SIZE -> validateAADSize sz = Ok tt.
Proof. intros. unfold validateAADSize. now rewrite gtb_false. Qed.

Lemma validateAESKeySize_ok (sz : Z) :
  sz = 16 \/ sz = 32 -> validateAESKeySize sz = Ok tt.
Proof. intros [-> | ->]; reflexivity. Qed.

Lemma validateGCMIVSize_ok (sz : Z) : sz = 12 -> validateGCMIVSize sz = Ok tt.
Proof. intros ->. reflexivity. Qed.

Lemma validateGCMTagSize_ok (sz : Z) : sz = 16 -> validateGCMTagSize sz = Ok tt.
Proof. intros ->. reflexivity. Qed.

Lemma getGCMCipher_some (sz : Z) :
  sz = 16 \/ sz = 32 -> exists c, getGCMCipher sz = Some c.
Proof. intros [-> | ->]; eexists; reflexivity. Qed.

Section Engine.
Context {G : AESGCM} {L : AESGCMLaws G}.

Lemma gmac_size key iv aad text : size (gmac key iv aad text) = 16.
Proof. unfold size. now rewrite gmac_length. Qed.

Lemma gctr_size key iv data : size (gctr key iv data) = size data.
Proof. unfold size. now rewrite gctr_length. Qed.

(** With inputs of valid sizes, the encryption goes through all its
    calls and yields the keystream image of the plaintext and its tag. *)
Lemma encryptGCMWithIV_ok (plaintext key iv aad : bytes) (w : World) :
  size plaintext <= limits.MAX_PLAINTEXT_SIZE ->
  size aad <= limits.MAX_AAD_SIZE ->
  size key = 16 \/ size key = 32 ->
  size iv = 12 ->
  fst (encryptGCMWithIV plaintext key iv aad w)
  = Ok (mkEncryptResult (gctr key iv plaintext) iv
          (gmac key iv aad (gctr key iv plaintext))).
Proof.
  intros HP HA HK HIV.
  destruct (getGCMCipher_some _ HK) as [c Hc].
  unfold encryptGCMWithIV, bind, check.
  rewrite validatePlaintextSize_ok, validateAADSize_ok, validateAESKeySize_ok,
    validateGCMIVSize_ok by assumption.
  rewrite Hc. rewrite HIV.
  destruct aad as [|a aad]; cbn -[gctr gmac write_at resize_with replicate Z.add Z.to_nat].
  all: rewrite buffer_roundtrip.
  all: rewrite firstn_all2 by (rewrite gmac_length; unfold aes_gcm.TAG_SIZE; lia).
  all: reflexivity.
Qed.

(** With inputs of valid sizes, the decryption fails exactly at the tag
    check, and then with the one integrity error. *)
Lemma decryptGCM_spec (ciphertext key iv tag aad : bytes) (w : World) :
  size ciphertext <= limits.MAX_CIPHERTEXT_SIZE ->
  size aad <= limits.MAX_AAD_SIZE ->
  size key = 16 \/ size key = 32 ->
  size iv = 12 ->
  size tag = 16 ->
  fst (decryptGCM ciphertext key iv tag aad w)
  = if bool_decide (gmac key iv aad ciphertext = tag)
    then Ok (gctr key iv ciphertext)
    else Err integrity_failure.
Proof.
  intros HC HA HK HIV HT.
  destruct (getGCMCipher_some _ HK) as [c Hc].
  unfold decryptGCM, bind, check.
  rewrite validateCiphertextSize_ok, validateAADSize_ok, validateAESKeySize_ok,
    validateGCMIVSize_ok, validateGCMTagSize_ok by assumption.
  rewrite Hc. rewrite HIV.
  destruct aad as [|a aad];
    [rewrite (bool_decide_eq_true_2 (@nil byte = [])) by reflexivity
    |rewrite (bool_decide_eq_false_2 (a :: aad = [])) by discriminate];
    cbn -[gctr gmac write_at resize_with replicate Z.add Z.to_nat bool_decide size].
  all: unfold expect1, bind, EVP_CTRL_GCM_SET_TAG; rewrite HT;
    cbn -[gctr gmac write_at resize_with replicate Z.add Z.to_nat bool_decide size].
  all: unfold EVP_DecryptFinal_ex;
    cbn -[gctr gmac write_at resize_with replicate Z.add Z.to_nat bool_decide size].
  all: case_bool_decide;
    cbn -[gctr gmac write_at resize_with replicate Z.add Z.to_nat size];
    [rewrite buffer_roundtrip|]; reflexivity.
Qed.

Lemma encryptGCM_inv (plaintext key aad : bytes) (w w' : World) (r : EncryptResult) :
  encryptGCM plaintext key aad w = (Ok r, w') ->
  size plaintext <= limits.MAX_PLAINTEXT_SIZE
  /\ size aad <= limits.MAX_AAD_SIZE
  /\ (size key = 16 \/ size key = 32)
  /\ size (iv r) = 12
  /\ r = mkEncryptResult (gctr key (iv r) plaintext) (iv r)
           (gmac key (iv r) aad (gctr key (iv r) plaintext)).
Proof.
  unfold encryptGCM, bind, generateIV, random_bytes.
  destruct (aes_gcm.IV_SIZE <=? size (entropy w)) eqn:Hent; [|discriminate].
  apply Z.leb_le in Hent. unfold aes_gcm.IV_SIZE in *.
  set (v := take (Z.to_nat 12) (entropy w)).
  assert (Hv : size v = 12).
  { unfold v, size in *. rewrite length_take. lia. }
  set (w1 := set_entropy _ _).
  intros Henc.
  destruct (Z_le_gt_dec (size plaintext) limits.MAX_PLAINTEXT_SIZE) as [HP|HP];
    [|unfold encryptGCMWithIV, bind, check in Henc;
      rewrite validatePlaintextSize_over in Henc by lia; discriminate].
  destruct (Z_le_gt_dec (size aad) limits.MAX_AAD_SIZE) as [HA|HA];
    [|unfold encryptGCMWithIV, bind, check in Henc;
      rewrite validatePlaintextSize_ok in Henc by lia;
      unfold validateAADSize in Henc; rewrite gtb_true in Henc by lia; discriminate].
  assert (HK : size key = 16 \/ size key = 32).
  { destruct (Z.eq_dec (size key) 16); [tauto|].
    destruct (Z.eq_dec (size key) 32); [tauto|].
    unfold encryptGCMWithIV, bind, check in Henc.
    rewrite validatePlaintextSize_ok, validateAADSize_ok in Henc by lia.
    unfold validateAESKeySize in Henc. rewrite !eqb_false in Henc by lia.
    discriminate. }
  pose proof (encryptGCMWithIV_ok plaintext key v aad w1 HP HA HK Hv) as Hok.
  rewrite Henc in Hok. simpl in Hok. injection Hok as ->. simpl.
  repeat split; auto.
Qed.

Lemma encryptGCM_succeeds (plaintext key aad : bytes) (w : World) :
  size plaintext <= limits.MAX_PLAINTEXT_SIZE ->
  size aad <= limits.MAX_AAD_SIZE ->
  size key = 16 \/ size key = 32 ->
  12 <= size (entropy w) ->
  exists r w', encryptGCM plaintext key aad w = (Ok r, w')
               /\ iv r = take 12 (entropy w).
Proof.
  intros HP HA HK Hent.
  unfold encryptGCM, bind, generateIV, random_bytes.
  unfold aes_gcm.IV_SIZE.
  replace (12 <=? size (entropy w)) with true by (symmetry; apply Z.leb_le; lia).
  set (v := take (Z.to_nat 12) (entropy w)).
  assert (Hv : size v = 12).
  { unfold v, size in *. rewrite length_take. lia. }
  set (w1 := set_entropy _ _).
  pose proof (encryptGCMWithIV_ok plaintext key v aad w1 HP HA HK Hv) as Hok.
  destruct (encryptGCMWithIV plaintext key v aad w1) as [res w2]. simpl in Hok.
  subst res. eexists _, w2. split; reflexivity.
Qed.
End Engine.

(** C1. For a plaintext of at most 64 MiB, a key of 16 or 32 bytes and
    associated data of at most 64 KiB: [encryptGCM] succeeds whenever the
    generator delivers the 12 bytes of the nonce, and [decryptGCM] on the
    ciphertext, nonce and tag of any successful [encryptGCM], with the same
    key and associated data, succeeds and returns the plaintext. *)
Theorem gcm_roundtrip {G : AESGCM} {L : AESGCMLaws G}
    (plaintext key aad : bytes) (w : World) :
  size plaintext <= 64 * 1024 * 1024 ->
  size key = 16 \/ size key = 32 ->
  size aad <= 64 * 1024 ->
  (12 <= size (entropy w) ->
     exists r w', encryptGCM plaintext key aad w = (Ok r, w'))
  /\ (forall r w', encryptGCM plaintext key aad w = (Ok r, w') ->
       forall w2, fst (decryptGCM (ciphertext r) key (iv r) (tag r) aad w2) = Ok plaintext).
Proof.
  intros HP HK HA. split.
  - intros Hent.
    destruct (encryptGCM_succeeds plaintext key aad w) as (r & w' & Hr & _); eauto.
  - intros r w' Henc w2.
    apply encryptGCM_inv in Henc as (_ & _ & _ & Hiv & Hr).
    rewrite Hr. simpl.
    rewrite decryptGCM_spec; try assumption.
    + rewrite bool_decide_eq_true_2 by reflexivity.
      now rewrite gctr_involutive.
    + rewrite gctr_size. unfold limits.MAX_CIPHERTEXT_SIZE. lia.
    + apply gmac_size.
Qed.
(** ** Single-bit changes *)

Lemma lxor_byte_range (a m : Z) :
  0 <= a < 256 -> 0 <= m < 256 -> 0 <= Z.lxor a m < 256.
Proof.
  intros Ha Hm.
  assert (Hnn : 0 <= Z.lxor a m) by (apply Z.lxor_nonneg; lia).
  split; [assumption|].
  destruct (Z.eq_dec (Z.lxor a m) 0) as [->|Hne]; [lia|].
  apply (Z.log2_lt_pow2 _ 8); [lia|].
  pose proof (Z.log2_lxor a m ltac:(lia) ltac:(lia)) as Hlog.
  assert (Z.log2 a < 8).
  { destruct (Z.eq_dec a 0) as [->|]; [reflexivity|]. apply Z.log2_lt_pow2; lia. }
  assert (Z.log2 m < 8).
  { destruct (Z.eq_dec m 0) as [->|]; [reflexivity|]. apply Z.log2_lt_pow2; lia. }
  lia.
Qed.

Lemma byte_to_Z_xor_byte (m : Z) (b : byte) :
  0 <= m < 256 -> byte_to_Z (xor_byte m b) = Z.lxor (byte_to_Z b) m.
Proof.
  intros Hm. unfold xor_byte. apply byte_to_Z_u8.
  apply lxor_byte_range; [apply byte_to_Z_range | assumption].
Qed.

Lemma lxor_fixed (a m : Z) : Z.lxor a m = a -> m = 0.
Proof.
  intros E.
  assert (Hm : Z.lxor a (Z.lxor a m) = m)
    by (now rewrite <- Z.lxor_assoc, Z.lxor_nilpotent, Z.lxor_0_l).
  rewrite E, Z.lxor_nilpotent in Hm. now symmetry.
Qed.

Lemma bit_mask_range (i : nat) : 0 < 2 ^ Z.of_nat (i mod 8) < 256.
Proof.
  pose proof (Nat.mod_upper_bound i 8 ltac:(lia)) as Hi.
  split; [apply Z.pow_pos_nonneg; lia|].
  change 256 with (2 ^ 8). apply Z.pow_lt_mono_r; lia.
Qed.

Lemma xor_byte_moves (m : Z) (b : byte) : 0 < m < 256 -> xor_byte m b <> b.
Proof.
  intros Hm E. apply (f_equal byte_to_Z) in E.
  rewrite byte_to_Z_xor_byte in E by lia.
  apply lxor_fixed in E. lia.
Qed.

Lemma length_flip_bit (l : bytes) (i : nat) : length (flip_bit l i) = length l.
Proof. unfold flip_bit. apply length_alter. Qed.

Lemma size_flip_bit (l : bytes) (i : nat) : size (flip_bit l i) = size l.
Proof. unfold size. now rewrite length_flip_bit. Qed.

Lemma flip_bit_moves (l : bytes) (i : nat) :
  (i < 8 * length l)%nat -> flip_bit l i <> l.
Proof.
  intros Hi E. unfold flip_bit in E.
  assert (Hj : (i / 8 < length l)%nat) by (apply Nat.Div0.div_lt_upper_bound; lia).
  destruct (lookup_lt_is_Some_2 l (i / 8)%nat Hj) as [b Hb].
  apply (f_equal (fun k => k !! (i / 8)%nat)) in E.
  rewrite list_lookup_alter_eq, Hb in E. simpl in E. injection E as E.
  revert E. apply xor_byte_moves, bit_mask_range.
Qed.

(** ** The stand-in cipher keeps the laws *)

Lemma xor_byte_involutive (m : Z) (b : byte) :
  0 <= m < 256 -> xor_byte m (xor_byte m b) = b.
Proof.
  intros Hm. apply byte_to_Z_inj.
  rewrite !byte_to_Z_xor_byte by assumption.
  now rewrite Z.lxor_assoc, Z.lxor_nilpotent, Z.lxor_0_r.
Qed.

Lemma xor_fold_range (l : bytes) : 0 <= xor_fold l < 256.
Proof.
  induction l as [|b l IH]; simpl; [lia|].
  apply lxor_byte_range; [apply byte_to_Z_range | assumption].
Qed.

Lemma xor_fold_alter (l : bytes) (j : nat) (m : Z) :
  0 <= m < 256 -> (j < length l)%nat ->
  xor_fold (alter (xor_byte m) j l) = Z.lxor (xor_fold l) m.
Proof.
  intros Hm. revert j. induction l as [|b l IH]; intros j Hj; simpl in Hj; [lia|].
  destruct j as [|j]; simpl.
  - rewrite byte_to_Z_xor_byte by assumption.
    rewrite !Z.lxor_assoc. f_equal. apply Z.lxor_comm.
  - unfold alter in IH. rewrite IH by lia. now rewrite Z.lxor_assoc.
Qed.

Lemma xor_fold_flip_bit (l : bytes) (i : nat) :
  (i < 8 * length l)%nat ->
  xor_fold (flip_bit l i) = Z.lxor (xor_fold l) (2 ^ Z.of_nat (i mod 8)).
Proof.
  intros Hi. unfold flip_bit. pose proof (bit_mask_range i).
  apply xor_fold_alter; [lia|].
  apply Nat.Div0.div_lt_upper_bound. lia.
Qed.

Lemma u8_inj (a b : Z) : 0 <= a < 256 -> 0 <= b < 256 -> u8 a = u8 b -> a = b.
Proof.
  intros Ha Hb E. apply (f_equal byte_to_Z) in E.
  now rewrite !byte_to_Z_u8 in E.
Qed.

(** Equations between exclusive-ors, bit by bit. *)
Ltac lxor_ring :=
  apply Z.bits_inj'; intros ? ?; rewrite !Z.lxor_spec;
  repeat match goal with |- context [Z.testbit ?a ?n] => destruct (Z.testbit a n) end;
  reflexivity.

Lemma toy_tag_moves (x y m : Z) :
  0 <= x < 256 -> 0 <= y < 256 -> 0 < m < 256 ->
  Z.lxor x m = y -> u8 y <> u8 x.
Proof.
  intros Hx Hy Hm E Hu. apply u8_inj in Hu; try assumption.
  subst y. apply lxor_fixed in Hu. lia.
Qed.

Global Instance toy_gcm_laws : AESGCMLaws toy_gcm.
Proof.
  split; simpl.
  - intros _ _ data. apply length_map.
  - intros _ _ data. rewrite map_map.
    rewrite <- (map_id data) at 2. apply map_ext.
    intros b. apply xor_byte_involutive. lia.
  - reflexivity.
Qed.

Global Instance toy_gcm_authentic : AESGCMAuthentic toy_gcm.
Proof.
  split; intros key iv0 aad text i Hi E; cbn [gmac toy_gcm] in E;
    injection E as E; revert E.
  all: pose proof (xor_fold_range iv0); pose proof (xor_fold_range aad);
    pose proof (xor_fold_range text); pose proof (bit_mask_range i).
  all: rewrite xor_fold_flip_bit by assumption.
  all: apply (toy_tag_moves _ _ (2 ^ Z.of_nat (i mod 8)));
    [repeat (apply lxor_byte_range; try lia) ..| lxor_ring].
  all: lia.
Qed.

(** ** Round trip, tampering and the size limit *)

Lemma gcm_roundtrip_witness :
  size hello <= 64 * 1024 * 1024
  /\ (size zero_key = 16 \/ size zero_key = 32)
  /\ size (@nil byte) <= 64 * 1024
  /\ (12 <= size (entropy sample_world) ->
        exists r w', @encryptGCM toy_gcm hello zero_key [] sample_world = (Ok r, w'))
  /\ (forall r w', @encryptGCM toy_gcm hello zero_key [] sample_world = (Ok r, w') ->
        forall w2, fst (@decryptGCM toy_gcm (ciphertext r) zero_key (iv r) (tag r) [] w2)
                   = Ok hello).
Proof.
  assert (H1 : size hello <= 64 * 1024 * 1024) by (vm_compute; discriminate).
  assert (H2 : size zero_key = 16 \/ size zero_key = 32) by (right; reflexivity).
  assert (H3 : size (@nil byte) <= 64 * 1024) by (vm_compute; discriminate).
  split; [exact H1|]. split; [exact H2|]. split; [exact H3|].
  exact (@gcm_roundtrip toy_gcm toy_gcm_laws hello zero_key [] sample_world H1 H2 H3).
Defined.

(** C2. After any successful [encryptGCM], flipping one bit of the
    ciphertext, of the nonce, of the tag or of the associated data makes
    [decryptGCM] fail with the code [INTEGRITY_ERROR] and the message
    "Data integrity verification failed": the same error in the four
    cases, which names no field. *)
Theorem gcm_tamper_opacity {G : AESGCM} {L : AESGCMLaws G} {A : AESGCMAuthentic G}
    (plaintext key aad : bytes) (w w' : World) (r : EncryptResult) :
  encryptGCM plaintext key aad w = (Ok r, w') ->
  forall (i : nat) (w2 : World),
    ((i < 8 * length (ciphertext r))%nat ->
       fst (decryptGCM (flip_bit (ciphertext r) i) key (iv r) (tag r) aad w2)
       = Err (mkError INTEGRITY_ERROR "Data integrity verification failed" ""))
    /\ ((i < 8 * length (iv r))%nat ->
       fst (decryptGCM (ciphertext r) key (flip_bit (iv r) i) (tag r) aad w2)
       = Err (mkError INTEGRITY_ERROR "Data integrity verification failed" ""))
    /\ ((i < 8 * length (tag r))%nat ->
       fst (decryptGCM (ciphertext r) key (iv r) (flip_bit (tag r) i) aad w2)
       = Err (mkError INTEGRITY_ERROR "Data integrity verification failed" ""))
    /\ ((i < 8 * length aad)%nat ->
       fst (decryptGCM (ciphertext r) key (iv r) (tag r) (flip_bit aad i) w2)
       = Err (mkError INTEGRITY_ERROR "Data integrity verification failed" "")).
Proof.
  intros Henc i w2.
  apply encryptGCM_inv in Henc as (HP & HA & HK & Hiv & Hr).
  set (n := iv r) in *. rewrite Hr. cbn [ciphertext iv tag].
  assert (HC : size (gctr key n plaintext) <= limits.MAX_CIPHERTEXT_SIZE).
  { rewrite gctr_size. unfold limits.MAX_CIPHERTEXT_SIZE, limits.MAX_PLAINTEXT_SIZE in *. lia. }
  pose proof (gmac_size key n aad (gctr key n plaintext)) as HT.
  repeat split; intros Hi.
  - rewrite decryptGCM_spec; rewrite ?size_flip_bit; try assumption.
    rewrite bool_decide_eq_false_2; [reflexivity|]. now apply gmac_text_bit.
  - rewrite decryptGCM_spec; rewrite ?size_flip_bit; try assumption.
    rewrite bool_decide_eq_false_2; [reflexivity|]. now apply gmac_iv_bit.
  - rewrite decryptGCM_spec; rewrite ?size_flip_bit; try assumption.
    rewrite bool_decide_eq_false_2; [reflexivity|].
    intros E. symmetry in E. revert E. now apply flip_bit_moves.
  - rewrite decryptGCM_spec; rewrite ?size_flip_bit; try assumption.
    rewrite bool_decide_eq_false_2; [reflexivity|]. now apply gmac_aad_bit.
Qed.

Lemma gcm_tamper_opacity_witness :
  exists r w',
    @encryptGCM toy_gcm hello zero_key (string_bytes "hdr") sample_world = (Ok r, w')
    /\ fst (@decryptGCM toy_gcm (flip_bit (ciphertext r) 7) zero_key (iv r) (tag r)
              (string_bytes "hdr") w')
       = Err (mkError INTEGRITY_ERROR "Data integrity verification failed" "")
    /\ fst (@decryptGCM toy_gcm (ciphertext r) zero_key (flip_bit (iv r) 7) (tag r)
              (string_bytes "hdr") w')
       = Err (mkError INTEGRITY_ERROR "Data integrity verification failed" "")
    /\ fst (@decryptGCM toy_gcm (ciphertext r) zero_key (iv r) (flip_bit (tag r) 7)
              (string_bytes "hdr") w')
       = Err (mkError INTEGRITY_ERROR "Data integrity verification failed" "")
    /\ fst (@decryptGCM toy_gcm (ciphertext r) zero_key (iv r) (tag r)
              (flip_bit (string_bytes "hdr") 7) w')
       = Err (mkError INTEGRITY_ERROR "Data integrity verification failed" "").
Proof.
  destruct (@encryptGCM toy_gcm hello zero_key (string_bytes "hdr") sample_world)
    as [[r|e] w'] eqn:Henc; [|vm_compute in Henc; discriminate].
  exists r, w'. split; [reflexivity|].
  pose proof (@gcm_tamper_opacity toy_gcm toy_gcm_laws toy_gcm_authentic
                hello zero_key (string_bytes "hdr") sample_world w' r Henc 7%nat w')
    as (Hc & Hi & Ht & Ha).
  vm_compute in Henc. injection Henc as <- <-.
  split; [apply Hc|split; [apply Hi|split; [apply Ht|apply Ha]]]; vm_compute; lia.
Defined.

Example gcm_tamper_last_byte :
  exists r w',
    @encryptGCM toy_gcm hello zero_key [] sample_world = (Ok r, w')
    /\ fst (@decryptGCM toy_gcm (flip_bit (ciphertext r) 80) zero_key (iv r) (tag r) [] w')
       = Err (mkError INTEGRITY_ERROR "Data integrity verification failed" "").
Proof.
  eexists _, _. split; [vm_compute; reflexivity|].
  vm_compute. reflexivity.
Qed.

Lemma size_oversize_plaintext : size oversize_plaintext = 67108865.
Proof.
  unfold oversize_plaintext, size. rewrite length_replicate. apply Z2Nat.id. discriminate.
Qed.

Lemma encryptGCM_dry {G : AESGCM} (plaintext key aad : bytes) (w : World) :
  size (entropy w) < 12 ->
  encryptGCM plaintext key aad w
  = (Err_ CRYPTO_ERROR "Failed to generate random IV", log_call (RAND_bytes_call 12) w).
Proof.
  intros Hdry. unfold encryptGCM, bind, generateIV, random_bytes, aes_gcm.IV_SIZE.
  now replace (12 <=? size (entropy w)) with false by (symmetry; apply Z.leb_gt; lia).
Qed.

(** C7, as stated, fails: with a generator that cannot deliver the nonce,
    [encryptGCM] on a plaintext of 67,108,865 bytes ends in [CRYPTO_ERROR],
    not in [SIZE_LIMIT_EXCEEDED]. *)
Lemma oversize_rejection_counterexample :
  size oversize_plaintext = 67108865
  /\ error_code (fst (@encryptGCM toy_gcm oversize_plaintext zero_key [] dry_world))
     = Some CRYPTO_ERROR
  /\ ~ (forall (plaintext key aad : bytes) (w : World),
          size plaintext = 67108865 ->
          error_code (fst (@encryptGCM toy_gcm plaintext key aad w))
          = Some SIZE_LIMIT_EXCEEDED).
Proof.
  assert (Hdry : error_code (fst (@encryptGCM toy_gcm oversize_plaintext zero_key [] dry_world))
                 = Some CRYPTO_ERROR).
  { rewrite encryptGCM_dry by (vm_compute; reflexivity). reflexivity. }
  split; [apply size_oversize_plaintext|]. split; [exact Hdry|].
  intros Hall.
  specialize (Hall oversize_plaintext zero_key [] dry_world size_oversize_plaintext).
  rewrite Hdry in Hall. discriminate.
Qed.

(** C7, amended. On a plaintext of 67,108,865 bytes, with any key and
    associated data, [encryptGCM] first asks the generator for the 12-byte
    nonce and does nothing else before the size check: when the generator
    delivers, the result is [SIZE_LIMIT_EXCEEDED]; when it does not, it is
    [CRYPTO_ERROR].  Either way no call on a cipher context is made and no
    result is produced.  [encryptGCMWithIV], given the nonce, rejects the
    plaintext before any call at all. *)
Theorem oversize_rejection {G : AESGCM} (plaintext key aad : bytes) (w : World) :
  size plaintext = 67108865 ->
  (12 <= size (entropy w) ->
     error_code (fst (encryptGCM plaintext key aad w)) = Some SIZE_LIMIT_EXCEEDED)
  /\ (size (entropy w) < 12 ->
     error_code (fst (encryptGCM plaintext key aad w)) = Some CRYPTO_ERROR)
  /\ has_value (fst (encryptGCM plaintext key aad w)) = false
  /\ calls (snd (encryptGCM plaintext key aad w)) = calls w ++ [RAND_bytes_call 12]
  /\ forallb (fun c => negb (is_cipher_call c))
       (drop (length (calls w)) (calls (snd (encryptGCM plaintext key aad w)))) = true
  /\ (forall iv w0,
        error_code (fst (encryptGCMWithIV plaintext key iv aad w0)) = Some SIZE_LIMIT_EXCEEDED
        /\ snd (encryptGCMWithIV plaintext key iv aad w0) = w0).
Proof.
  intros Hsize.
  assert (Hiv : forall iv w0,
            encryptGCMWithIV plaintext key iv aad w0
            = (Err_ SIZE_LIMIT_EXCEEDED "Input exceeds maximum allowed size", w0)).
  { intros iv0 w0. unfold encryptGCMWithIV, bind, check.
    rewrite validatePlaintextSize_over; [reflexivity|].
    rewrite Hsize. reflexivity. }
  assert (Hcases :
    (12 <= size (entropy w) /\
     exists w1, encryptGCM plaintext key aad w
                = (Err_ SIZE_LIMIT_EXCEEDED "Input exceeds maximum allowed size", w1)
                /\ calls w1 = calls w ++ [RAND_bytes_call 12])
    \/ (size (entropy w) < 12 /\
        encryptGCM plaintext key aad w
        = (Err_ CRYPTO_ERROR "Failed to generate random IV", log_call (RAND_bytes_call 12) w))).
  { destruct (Z_le_gt_dec 12 (size (entropy w))) as [Hent|Hent].
    - left. split; [assumption|].
      unfold encryptGCM, bind, generateIV, random_bytes, aes_gcm.IV_SIZE.
      replace (12 <=? size (entropy w)) with true by (symmetry; apply Z.leb_le; lia).
      rewrite Hiv. eexists. split; reflexivity.
    - right. split; [lia|]. apply encryptGCM_dry. lia. }
  destruct Hcases as [(Hent & w1 & Henc & Hcalls) | (Hent & Henc)]; rewrite Henc; simpl.
  - rewrite Hcalls, drop_app_length. repeat split; try reflexivity; try lia.
    all: intros; rewrite Hiv; reflexivity.
  - rewrite drop_app_length. repeat split; try reflexivity; try lia.
    all: intros; rewrite Hiv; reflexivity.
Qed.

Lemma oversize_rejection_witness :
  size oversize_plaintext = 67108865
  /\ error_code (fst (@encryptGCM toy_gcm oversize_plaintext zero_key [] sample_world))
     = Some SIZE_LIMIT_EXCEEDED
  /\ calls (snd (@encryptGCM toy_gcm oversize_plaintext zero_key [] sample_world))
     = calls sample_world ++ [RAND_bytes_call 12].
Proof.
  pose proof (@oversize_rejection toy_gcm oversize_plaintext zero_key [] sample_world
                size_oversize_plaintext) as (Hok & _ & _ & Hcalls & _).
  split; [apply size_oversize_plaintext|]. split; [|exact Hcalls].
  apply Hok. vm_compute. discriminate.
Defined.

(** ** KeyId: printing and parsing *)

Lemma string_app_cons (x : ascii) (a b : string) :
  String x a +:+ b = String x (a +:+ b).
Proof. reflexivity. Qed.

Lemma string_app_nil_l (b : string) : "" +:+ b = b.
Proof. reflexivity. Qed.

Ltac ssimpl := simpl; rewrite ?string_app_cons, ?string_app_nil_l; simpl.
Tactic Notation "ssimpl" "in" hyp(H) :=
  simpl in H; rewrite ?string_app_cons, ?string_app_nil_l in H; simpl in H.

Lemma string_app_assoc (a b c : string) : (a +:+ b) +:+ c = a +:+ (b +:+ c).
Proof.
  induction a as [|x a IH]; [reflexivity|].
  rewrite !string_app_cons. now rewrite IH.
Qed.

Lemma string_app_nil_r (a : string) : a +:+ "" = a.
Proof.
  induction a as [|x a IH]; [reflexivity|].
  rewrite string_app_cons. now rewrite IH.
Qed.

Lemma no_colon_app (a b : string) :
  no_colon (a +:+ b) = no_colon a && no_colon b.
Proof.
  induction a as [|x a IH]; [reflexivity|].
  rewrite string_app_cons. simpl. rewrite IH. now rewrite andb_assoc.
Qed.

(** Reading up to the first colon. *)
Lemma getline_parts_colon (p rest cur : string) :
  no_colon p = true ->
  getline_parts (p +:+ String ":" rest) cur = (cur +:+ p) :: getline_parts rest "".
Proof.
  revert cur. induction p as [|x p IH]; intros cur Hp.
  - ssimpl. now rewrite string_app_nil_r.
  - simpl in Hp. apply andb_true_iff in Hp as [Hx Hp].
    apply negb_true_iff, bool_decide_eq_false in Hx.
    rewrite string_app_cons. simpl.
    rewrite bool_decide_eq_false_2 by assumption.
    rewrite IH by assumption. now rewrite string_app_assoc.
Qed.

(** Reading the last line, which no colon ends. *)
Lemma getline_parts_last (p cur : string) :
  no_colon p = true ->
  getline_parts p cur = if bool_decide (cur +:+ p = "") then [] else [cur +:+ p].
Proof.
  revert cur. induction p as [|x p IH]; intros cur Hp.
  - simpl. now rewrite string_app_nil_r.
  - simpl in Hp. apply andb_true_iff in Hp as [Hx Hp].
    apply negb_true_iff, bool_decide_eq_false in Hx.
    simpl. rewrite bool_decide_eq_false_2 by assumption.
    rewrite IH by assumption. now rewrite string_app_assoc.
Qed.

(** A string has no colon, or a first one. *)
Lemma first_colon (s : string) :
  no_colon s = true
  \/ exists p rest, no_colon p = true /\ s = p +:+ String ":" rest.
Proof.
  induction s as [|x s IH]; [left; reflexivity|].
  destruct (decide (x = ":"%char)) as [->|Hx].
  - right. exists "", s. split; reflexivity.
  - destruct IH as [Hs | (p & rest & Hp & ->)].
    + left. simpl. rewrite Hs. now rewrite bool_decide_eq_false_2.
    + right. exists (String x p), rest. split; [|reflexivity].
      simpl. rewrite Hp. now rewrite bool_decide_eq_false_2.
Qed.

(** The strings that [getline] cuts into exactly three parts: three fields
    without colons, the last not empty unless a fourth colon follows it. *)
Lemma getline_parts_three (s p0 p1 p2 : string) :
  getline_parts s "" = [p0; p1; p2] <->
  no_colon p0 = true /\ no_colon p1 = true /\ no_colon p2 = true
  /\ ((s = p0 +:+ ":" +:+ p1 +:+ ":" +:+ p2 /\ p2 <> "")
      \/ s = p0 +:+ ":" +:+ p1 +:+ ":" +:+ p2 +:+ ":").
Proof.
  split.
  - intros Hparts.
    destruct (first_colon s) as [Hs | (a & r1 & Ha & ->)].
    { rewrite getline_parts_last in Hparts by assumption.
      destruct (bool_decide _); discriminate. }
    rewrite getline_parts_colon in Hparts by assumption. ssimpl in Hparts.
    injection Hparts as <- Hparts.
    destruct (first_colon r1) as [Hs | (b & r2 & Hb & ->)].
    { rewrite getline_parts_last in Hparts by assumption.
      destruct (bool_decide _); discriminate. }
    rewrite getline_parts_colon in Hparts by assumption. ssimpl in Hparts.
    injection Hparts as <- Hparts.
    destruct (first_colon r2) as [Hs | (c & r3 & Hc & ->)].
    + rewrite getline_parts_last in Hparts by assumption. ssimpl in Hparts.
      case_bool_decide as Hne; [discriminate|]. injection Hparts as <-.
      repeat split; auto.
    + rewrite getline_parts_colon in Hparts by assumption. ssimpl in Hparts.
      injection Hparts as <- Hparts.
      destruct (first_colon r3) as [Hs | (d & r4 & Hd & ->)].
      * rewrite getline_parts_last in Hparts by assumption. ssimpl in Hparts.
        case_bool_decide as He; [|discriminate]. subst r3.
        repeat split; auto.
      * rewrite getline_parts_colon in Hparts by assumption. discriminate.
  - intros (H0 & H1 & H2 & [[-> Hne] | ->]);
      rewrite !string_app_cons, !string_app_nil_l.
    + rewrite getline_parts_colon by assumption.
      rewrite getline_parts_colon by assumption.
      rewrite getline_parts_last by assumption. ssimpl.
      now rewrite bool_decide_eq_false_2.
    + rewrite getline_parts_colon by assumption.
      rewrite getline_parts_colon by assumption.
      rewrite getline_parts_colon by assumption. reflexivity.
Qed.

Lemma KeyId_parse_ok_iff (s : string) (k : KeyId) :
  KeyId_parse s = Ok k <->
  exists p0 p1 p2 v,
    getline_parts s "" = [p0; p1; p2] /\ stoul p2 = Some v /\ k = mkKeyId p0 p1 (u32 v).
Proof.
  unfold KeyId_parse. split.
  - destruct (getline_parts s "") as [|p0 [|p1 [|p2 [|p3 rest]]]]; try discriminate.
    destruct (stoul p2) as [v|] eqn:Hv; [|discriminate].
    intros [= <-]. now exists p0, p1, p2, v.
  - intros (p0 & p1 & p2 & v & -> & -> & ->). reflexivity.
Qed.
Lemma digit_char_cases (c : ascii) :
  is_Some (digit_value c) ->
  c = "0"%char \/ c = "1"%char \/ c = "2"%char \/ c = "3"%char \/ c = "4"%char
  \/ c = "5"%char \/ c = "6"%char \/ c = "7"%char \/ c = "8"%char \/ c = "9"%char.
Proof.
  unfold digit_value. intros [d Hd].
  destruct ((48 <=? Z.of_nat (nat_of_ascii c)) && (Z.of_nat (nat_of_ascii c) <=? 57)) eqn:E;
    [|discriminate].
  apply andb_true_iff in E as [E1 E2]. apply Z.leb_le in E1, E2.
  rewrite <- (ascii_nat_embedding c).
  assert (Hn : (nat_of_ascii c = 48 \/ nat_of_ascii c = 49 \/ nat_of_ascii c = 50
                \/ nat_of_ascii c = 51 \/ nat_of_ascii c = 52 \/ nat_of_ascii c = 53
                \/ nat_of_ascii c = 54 \/ nat_of_ascii c = 55 \/ nat_of_ascii c = 56
                \/ nat_of_ascii c = 57)%nat) by lia.
  repeat (destruct Hn as [-> | Hn]; [tauto|]). rewrite Hn. tauto.
Qed.

Lemma digit_value_pretty_char (d : N) :
  (d < 10)%N -> digit_value (pretty_N_char d) = Some (Z.of_N d).
Proof.
  intros Hd.
  assert (Hc : (d = 0 \/ d = 1 \/ d = 2 \/ d = 3 \/ d = 4 \/ d = 5 \/ d = 6
                \/ d = 7 \/ d = 8 \/ d = 9)%N) by lia.
  repeat (destruct Hc as [-> | Hc]; [reflexivity|]). now subst d.
Qed.

Lemma all_digits_no_colon (s : string) : all_digits s = true -> no_colon s = true.
Proof.
  induction s as [|c s IH]; [reflexivity|]. simpl. intros H.
  apply andb_true_iff in H as [Hc Hs]. apply bool_decide_eq_true in Hc.
  rewrite IH by assumption. rewrite andb_true_r.
  apply negb_true_iff, bool_decide_eq_false. intros ->.
  destruct Hc as [d Hd]. discriminate.
Qed.

(** The digits [pretty] puts in front of [s] are read back as the number. *)
Lemma read_digits_pretty_go (x : N) :
  (0 < x)%N ->
  exists k, forall s a,
    read_digits (pretty_N_go x s) a = read_digits s (Some (default 0 a * k + Z.of_N x)).
Proof.
  induction (N.lt_wf_0 x) as [x _ IH]. intros Hx.
  assert (Hd : (x `mod` 10 < 10)%N) by (apply N.mod_lt; lia).
  assert (Hsplit : Z.of_N x = 10 * Z.of_N (x `div` 10) + Z.of_N (x `mod` 10)).
  { rewrite (N.div_mod x 10) at 1 by lia. lia. }
  destruct (N.eq_dec (x `div` 10)%N 0%N) as [Hz|Hnz].
  - exists 10. intros s a. rewrite pretty_N_go_step by assumption.
    rewrite Hz, pretty_N_go_0. simpl.
    rewrite digit_value_pretty_char by assumption.
    f_equal. f_equal. rewrite Hsplit, Hz. lia.
  - destruct (IH (x `div` 10)%N) as [k Hk].
    { apply N.div_lt; lia. }
    { lia. }
    exists (10 * k). intros s a. rewrite pretty_N_go_step by assumption.
    rewrite Hk. simpl. rewrite digit_value_pretty_char by assumption.
    f_equal. f_equal. simpl. rewrite Hsplit. lia.
Qed.

Lemma all_digits_pretty_go (x : N) (s : string) :
  all_digits s = true -> all_digits (pretty_N_go x s) = true.
Proof.
  revert s. induction (N.lt_wf_0 x) as [x _ IH]. intros s Hs.
  destruct (N.eq_dec x 0%N) as [->|Hx]; [now rewrite pretty_N_go_0|].
  rewrite pretty_N_go_step by lia.
  apply IH; [apply N.div_lt; lia|].
  simpl. rewrite Hs, andb_true_r. apply bool_decide_eq_true.
  rewrite digit_value_pretty_char by (apply N.mod_lt; lia). eauto.
Qed.

Lemma pretty_go_nonempty (x : N) (s : string) : s <> "" -> pretty_N_go x s <> "".
Proof.
  revert s. induction (N.lt_wf_0 x) as [x _ IH]. intros s Hs.
  destruct (N.eq_dec x 0%N) as [->|Hx]; [now rewrite pretty_N_go_0|].
  rewrite pretty_N_go_step by lia.
  apply IH; [apply N.div_lt; lia | discriminate].
Qed.

Lemma to_string_digits (v : Z) :
  0 <= v ->
  all_digits (to_string v) = true /\ to_string v <> ""
  /\ read_digits (to_string v) None = Some v.
Proof.
  intros Hv. unfold to_string, pretty, pretty_N.
  destruct (decide (Z.to_N v = 0%N)) as [E|E].
  - assert (v = 0) as -> by lia. repeat split; discriminate.
  - split; [now apply all_digits_pretty_go|]. split.
    + rewrite pretty_N_go_step by lia. apply pretty_go_nonempty. discriminate.
    + destruct (read_digits_pretty_go (Z.to_N v)) as [k Hk]; [lia|].
      rewrite Hk. simpl. f_equal. lia.
Qed.

Lemma stoul_unsigned (c : ascii) (s : string) :
  isspace c = false -> c <> "-"%char -> c <> "+"%char ->
  stoul (String c s)
  = match read_digits (String c s) None with
    | None => None
    | Some v => if v >? ULONG_MAX then None else Some v
    end.
Proof.
  intros Hsp Hm Hp. unfold stoul. cbn [skip_spaces]. rewrite Hsp.
  destruct c as [[] [] [] [] [] [] [] []]; try reflexivity; congruence.
Qed.

(** On a string of digits, [stoul] is the number, unless it is too large. *)
Lemma stoul_digits (s : string) (v : Z) :
  all_digits s = true -> s <> "" -> read_digits s None = Some v ->
  stoul s = if v >? ULONG_MAX then None else Some v.
Proof.
  intros Hs Hne Hv. destruct s as [|c s]; [congruence|].
  simpl in Hs. apply andb_true_iff in Hs as [Hc Hs]. apply bool_decide_eq_true in Hc.
  rewrite stoul_unsigned; [now rewrite Hv|..];
    destruct (digit_char_cases c Hc) as [->|[->|[->|[->|[->|[->|[->|[->|[->| ->]]]]]]]]];
    (reflexivity || discriminate).
Qed.

Lemma stoul_empty : stoul "" = None.
Proof. reflexivity. Qed.

Lemma stoul_to_string (v : Z) : 0 <= v <= ULONG_MAX -> stoul (to_string v) = Some v.
Proof.
  intros Hv. destruct (to_string_digits v) as (Hd & Hne & Hr); [lia|].
  rewrite (stoul_digits _ v) by assumption.
  now rewrite gtb_false by lia.
Qed.

(** C5, as stated, fails: ":x:0" has an empty namespace, no uuid and the
    version 0, and is parsed. *)
Lemma KeyId_parse_counterexample :
  KeyId_parse ":x:0" = Ok (mkKeyId "" "x" 0)
  /\ described_KeyId_form ":x:0" = false
  /\ ~ (forall s, has_value (KeyId_parse s) = true <-> described_KeyId_form s = true).
Proof.
  assert (H1 : KeyId_parse ":x:0" = Ok (mkKeyId "" "x" 0)) by reflexivity.
  assert (H2 : described_KeyId_form ":x:0" = false) by reflexivity.
  split; [exact H1|]. split; [exact H2|].
  intros Hall. destruct (Hall ":x:0") as [Hto _].
  rewrite H1, H2 in Hto. specialize (Hto eq_refl). discriminate.
Qed.

(** C5, amended. [KeyId::parse] succeeds exactly on the strings
    [ns:id:ver] and [ns:id:ver:] whose three fields hold no colon and whose
    third field [std::stoul] accepts; the result has the first two fields
    as they are (empty or not, a uuid or not) and the number reduced to 32
    bits (0 included).  So whatever [KeyId::toString] prints for fields
    without colons is parsed back, and every failure carries
    [INVALID_INPUT]. *)
Theorem KeyId_parse_accepts :
  (forall s k,
     KeyId_parse s = Ok k <->
     exists ns id ver v,
       no_colon ns = true /\ no_colon id = true /\ no_colon ver = true
       /\ (s = ns +:+ ":" +:+ id +:+ ":" +:+ ver
           \/ s = ns +:+ ":" +:+ id +:+ ":" +:+ ver +:+ ":")
       /\ stoul ver = Some v
       /\ k = mkKeyId ns id (u32 v))
  /\ (forall ns id v,
        no_colon ns = true -> no_colon id = true -> 0 <= v < 2 ^ 32 ->
        KeyId_parse (KeyId_toString (mkKeyId ns id v)) = Ok (mkKeyId ns id v))
  /\ (forall s, has_value (KeyId_parse s) = false ->
        error_code (KeyId_parse s) = Some INVALID_INPUT).
Proof.
  assert (Hiff : forall s k,
     KeyId_parse s = Ok k <->
     exists ns id ver v,
       no_colon ns = true /\ no_colon id = true /\ no_colon ver = true
       /\ (s = ns +:+ ":" +:+ id +:+ ":" +:+ ver
           \/ s = ns +:+ ":" +:+ id +:+ ":" +:+ ver +:+ ":")
       /\ stoul ver = Some v
       /\ k = mkKeyId ns id (u32 v)).
  { intros s k. rewrite KeyId_parse_ok_iff. split.
    - intros (p0 & p1 & p2 & v & Hparts & Hv & ->).
      apply getline_parts_three in Hparts as (H0 & H1 & H2 & Hs).
      exists p0, p1, p2, v. repeat split; try assumption.
      destruct Hs as [[-> _] | ->]; auto.
    - intros (ns & id & ver & v & H0 & H1 & H2 & Hs & Hv & ->).
      exists ns, id, ver, v. repeat split; try assumption.
      apply getline_parts_three. repeat split; try assumption.
      destruct Hs as [-> | ->]; [left | right; reflexivity].
      split; [reflexivity|]. intros ->. discriminate. }
  split; [exact Hiff|]. split.
  - intros ns id v Hns Hid Hv. apply Hiff.
    destruct (to_string_digits v) as (Hd & _ & _); [lia|].
    exists ns, id, (to_string v), v. repeat split; try assumption.
    + now apply all_digits_no_colon.
    + now left.
    + apply stoul_to_string. unfold ULONG_MAX. lia.
    + unfold u32. now rewrite Z.mod_small by lia.
  - intros s. unfold KeyId_parse.
    destruct (getline_parts s "") as [|p0 [|p1 [|p2 [|p3 rest]]]]; try reflexivity.
    destruct (stoul p2); [discriminate | reflexivity].
Qed.

Example KeyId_parse_examples :
  KeyId_parse "auth:0af76519-16cd-43dd-8448-eb211c80319c:2"
  = Ok (mkKeyId "auth" "0af76519-16cd-43dd-8448-eb211c80319c" 2)
  /\ KeyId_parse "::7" = Ok (mkKeyId "" "" 7)
  /\ KeyId_parse "a:b: +12abc:" = Ok (mkKeyId "a" "b" 12)
  /\ KeyId_parse "a:b:-1" = Ok (mkKeyId "a" "b" 4294967295)
  /\ KeyId_parse "a:b:4294967296" = Ok (mkKeyId "a" "b" 0)
  /\ error_code (KeyId_parse "a:b:18446744073709551616") = Some INVALID_INPUT
  /\ error_code (KeyId_parse "a:b:") = Some INVALID_INPUT
  /\ error_code (KeyId_parse "a:b:1:2") = Some INVALID_INPUT
  /\ error_code (KeyId_parse "") = Some INVALID_INPUT.
Proof. repeat split; reflexivity. Qed.
(** ** The key stores *)

Lemma with_outage_cases {S A} (op : S -> Result A * S) (u : Unreliable S) :
  (exists later, outages u = true :: later
                 /\ with_outage op u = (refused, mkUnreliable (backing u) later))
  \/ (exists later,
        with_outage op u
        = (fst (op (backing u)), mkUnreliable (snd (op (backing u))) later)).
Proof.
  unfold with_outage. destruct (outages u) as [|[] later].
  - right. exists []. now destruct (op (backing u)).
  - left. now exists later.
  - right. exists later. now destruct (op (backing u)).
Qed.

Section UnreliableInMemory.
Implicit Types (u : Unreliable InMemoryKeyStore) (id : KeyId).

Lemma retrieve_inv u u' id (r : Result EncryptedKey) :
  ks_retrieve id u = (r, u') ->
  backing u' = backing u
  /\ (forall k, r = Ok k -> backing u !! KeyId_toString id = Some k).
Proof.
  cbn [ks_retrieve Unreliable_store]. intros Hrun.
  destruct (with_outage_cases (ks_retrieve id) u) as [(l & _ & E) | (l & E)];
    rewrite E in Hrun; injection Hrun as <- <-; cbn [backing].
  - split; [reflexivity | discriminate].
  - cbn [ks_retrieve InMemoryKeyStore_store].
    destruct (backing u !! KeyId_toString id) as [k0|]; cbn [fst snd].
    + split; [reflexivity|]. now intros k [= ->].
    + split; [reflexivity | discriminate].
Qed.

Lemma retrieve_found u id k :
  backing u !! KeyId_toString id = Some k ->
  head (outages u) <> Some true ->
  exists u', ks_retrieve id u = (Ok k, u') /\ backing u' = backing u.
Proof.
  intros Hk Hhead. cbn [ks_retrieve Unreliable_store]. unfold with_outage.
  destruct (outages u) as [|[] later]; cbn [ks_retrieve InMemoryKeyStore_store];
    rewrite ?Hk; [eauto | now destruct Hhead | eauto].
Qed.

Lemma store_inv u u' id key (r : Result unit) :
  ks_store id key u = (r, u') ->
  (has_value r = true /\ backing u' = <[KeyId_toString id := key]> (backing u))
  \/ (r = refused /\ backing u' = backing u).
Proof.
  cbn [ks_store Unreliable_store]. intros Hrun.
  destruct (with_outage_cases (ks_store id key) u) as [(l & _ & E) | (l & E)];
    rewrite E in Hrun; injection Hrun as <- <-; cbn [backing].
  - now right.
  - left. split; reflexivity.
Qed.

Lemma updateMetadata_inv u u' id md (r : Result unit) :
  ks_updateMetadata id md u = (r, u') ->
  (has_value r = true /\ exists k, backing u !! KeyId_toString id = Some k
     /\ backing u' = <[KeyId_toString id := set_metadata md k]> (backing u))
  \/ (has_value r = false /\ backing u' = backing u).
Proof.
  cbn [ks_updateMetadata Unreliable_store]. intros Hrun.
  destruct (with_outage_cases (ks_updateMetadata id md) u) as [(l & _ & E) | (l & E)];
    rewrite E in Hrun; injection Hrun as <- <-; cbn [backing].
  - now right.
  - cbn [ks_updateMetadata InMemoryKeyStore_store].
    destruct (backing u !! KeyId_toString id) as [k0|]; cbn [fst snd].
    + left. split; [reflexivity|]. now exists k0.
    + now right.
Qed.

Lemma remove_inv u u' id (r : Result unit) :
  ks_remove id u = (r, u') ->
  (has_value r = true /\ backing u' = delete (KeyId_toString id) (backing u))
  \/ (has_value r = false /\ backing u' = backing u).
Proof.
  cbn [ks_remove Unreliable_store]. intros Hrun.
  destruct (with_outage_cases (ks_remove id) u) as [(l & _ & E) | (l & E)];
    rewrite E in Hrun; injection Hrun as <- <-; cbn [backing].
  - now right.
  - cbn [ks_remove InMemoryKeyStore_store].
    destruct (backing u !! KeyId_toString id) as [k0|]; cbn [fst snd].
    + left. split; reflexivity.
    + now right.
Qed.
End UnreliableInMemory.

(** ** The monad *)

Lemma bind_ok_inv {St A B} (m : St_M St A) (k : A -> St_M St B) s b s' :
  bind m k s = (Ok b, s') ->
  exists a s1, m s = (Ok a, s1) /\ k a s1 = (Ok b, s').
Proof.
  unfold bind. destruct (m s) as [[a|e] s1]; [eauto | discriminate].
Qed.

Lemma bind_run {St A B} (m : St_M St A) (k : A -> St_M St B) s a s1 :
  m s = (Ok a, s1) -> bind m k s = k a s1.
Proof. unfold bind. now intros ->. Qed.

Lemma bind_assoc {St A B D} (m : St_M St A) (k : A -> St_M St B) (h : B -> St_M St D) s :
  bind (bind m k) h s = bind m (fun a => bind (k a) h) s.
Proof.
  unfold bind. destruct (m s) as [[a|e] s1]; [|reflexivity].
  reflexivity.
Qed.

(** ** The key service *)

Section KeyServiceFacts.
Context {G : AESGCM} {S C : Type} {KSt : IKeyStore S} {CC : CacheClient C}.
Implicit Types (ks : KeyService S C).

Lemma on_store_inv {A} (op : S -> Result A * S) ks ks' (r : Result A) :
  on_store op ks = (r, ks') ->
  op (key_store_ ks) = (r, key_store_ ks')
  /\ master_key_ ks' = master_key_ ks /\ cache_client_ ks' = cache_client_ ks
  /\ world ks' = world ks.
Proof.
  unfold on_store. destruct (op (key_store_ ks)) as [r0 s0].
  intros [= <- <-]. repeat split.
Qed.

Lemma in_world_inv {A} (m : M A) ks ks' (r : Result A) :
  in_world m ks = (r, ks') ->
  m (world ks) = (r, world ks')
  /\ key_store_ ks' = key_store_ ks /\ master_key_ ks' = master_key_ ks
  /\ cache_client_ ks' = cache_client_ ks.
Proof.
  unfold in_world. destruct (m (world ks)) as [r0 w0].
  intros [= <- <-]. repeat split.
Qed.

Lemma on_cache_inv (f : C -> C) ks ks' (r : Result unit) :
  on_cache f ks = (r, ks') ->
  r = Ok tt /\ key_store_ ks' = key_store_ ks /\ master_key_ ks' = master_key_ ks
  /\ world ks' = world ks /\ cache_client_ ks' = f <$> cache_client_ ks.
Proof. unfold on_cache. intros [= <- <-]. repeat split. Qed.

Lemma encryptKeyMaterial_inv material md ks ks' (r : Result EncryptedKey) :
  encryptKeyMaterial material md ks = (r, ks') ->
  key_store_ ks' = key_store_ ks /\ master_key_ ks' = master_key_ ks
  /\ cache_client_ ks' = cache_client_ ks
  /\ (forall e, r = Ok e -> metadata e = md).
Proof.
  unfold encryptKeyMaterial, bind. intros Hrun.
  destruct (in_world _ ks) as [[res|err] ks1] eqn:Hw;
    apply in_world_inv in Hw as (_ & H1 & H2 & H3).
  - unfold ret in Hrun. injection Hrun as <- <-. repeat split; try assumption.
    now intros e [= <-].
  - injection Hrun as <- <-. repeat split; try assumption. discriminate.
Qed.

(** [rotateKey] is its first part, then the deprecation of the old key
    with the removal of the new one if that fails. *)
Lemma rotateKey_split old ks :
  rotateKey old ks
  = bind (rotateKey_until_stored old)
      (fun stored =>
         let* deprecate_result := attempt (deprecateKey old) in
         match deprecate_result with
         | Err e => let* _ := attempt (on_store (ks_remove (fst stored))) in fail e
         | Ok _ =>
             let* _ := invalidateCachedKey old in
             let* _ := cacheKeyMaterial (fst stored) (snd stored) in
             ret (fst stored)
         end) ks.
Proof.
  unfold rotateKey, rotateKey_until_stored, bind.
  destruct (on_store (ks_retrieve old) ks) as [[old_key|e] ks1]; [|reflexivity].
  destruct (negb (bool_decide (md_state (metadata old_key) = ACTIVE))); [reflexivity|].
  destruct (in_world _ ks1) as [[km|e] ks2]; [|reflexivity].
  destruct (in_world _ ks2) as [[uuid|e] ks3]; [|reflexivity].
  destruct (clock_now ks3) as [[created|e] ks4]; [|reflexivity].
  destruct (encryptKeyMaterial _ _ ks4) as [[enc|e] ks5]; [|reflexivity].
  destruct (on_store _ ks5) as [[[]|e] ks6]; [|reflexivity].
  reflexivity.
Qed.
End KeyServiceFacts.
(** ** Printed identifiers of different versions differ *)

Lemma last_field_eq (a b x y : string) :
  no_colon x = true -> no_colon y = true ->
  a +:+ String ":" x = b +:+ String ":" y -> x = y.
Proof.
  intros Hx Hy. revert b. induction a as [|c a IH]; intros [|d b] E;
    rewrite ?string_app_cons, ?string_app_nil_l in E.
  - now injection E.
  - injection E as <- E. rewrite E, no_colon_app in Hx. simpl in Hx.
    now rewrite andb_false_r in Hx.
  - injection E as -> E. rewrite <- E, no_colon_app in Hy. simpl in Hy.
    now rewrite andb_false_r in Hy.
  - injection E as _ E. now apply (IH b).
Qed.

Lemma to_string_inj (v1 v2 : Z) :
  0 <= v1 -> 0 <= v2 -> to_string v1 = to_string v2 -> v1 = v2.
Proof.
  intros H1 H2 E. unfold to_string in E. apply (inj pretty) in E. lia.
Qed.

Lemma KeyId_toString_version (k1 k2 : KeyId) :
  namespace_prefix k1 = namespace_prefix k2 ->
  0 <= version k1 -> 0 <= version k2 ->
  KeyId_toString k1 = KeyId_toString k2 -> version k1 = version k2.
Proof.
  intros Hns H1 H2 E. unfold KeyId_toString in E. rewrite Hns in E.
  apply (inj (String.app _)) in E.
  rewrite !string_app_cons, !string_app_nil_l in E. injection E as E.
  apply to_string_inj; try assumption.
  apply (last_field_eq (kid k1) (kid k2)); [| |exact E];
    apply all_digits_no_colon; now apply to_string_digits.
Qed.

Lemma u32_range (v : Z) : 0 <= u32 v < 2 ^ 32.
Proof. unfold u32. apply Z.mod_pos_bound. reflexivity. Qed.

Lemma u32_succ_neq (v : Z) : 0 <= v < 2 ^ 32 -> u32 (v + 1) <> v.
Proof.
  intros Hv. unfold u32.
  destruct (Z.eq_dec v (2 ^ 32 - 1)) as [->|Hne].
  - vm_compute. discriminate.
  - rewrite Z.mod_small by lia. lia.
Qed.

(** ** Rotation *)

Section Rotation.
Context {G : AESGCM} {C : Type} {CC : CacheClient C}.
Implicit Types (ks : KeyService (Unreliable InMemoryKeyStore) C).

Lemma rotateKey_until_stored_inv ks ks1 old new km :
  rotateKey_until_stored old ks = (Ok (new, km), ks1) ->
  exists old_rec new_rec,
    stored ks !! KeyId_toString old = Some old_rec
    /\ md_state (metadata old_rec) = ACTIVE
    /\ stored ks1 = <[KeyId_toString new := new_rec]> (stored ks)
    /\ namespace_prefix new = namespace_prefix old
    /\ version new = u32 (version old + 1)
    /\ md_id (metadata new_rec) = new
    /\ md_state (metadata new_rec) = ACTIVE
    /\ md_previous_version (metadata new_rec) = Some old
    /\ master_key_ ks1 = master_key_ ks
    /\ cache_client_ ks1 = cache_client_ ks.
Proof.
  unfold rotateKey_until_stored. intros Hrun.
  apply bind_ok_inv in Hrun as (old_rec & s1 & Hret & Hrun).
  apply on_store_inv in Hret as (Hret & Hm1 & Hc1 & _).
  apply retrieve_inv in Hret as (Hb1 & Hfound). specialize (Hfound _ eq_refl).
  destruct (negb (bool_decide (md_state (metadata old_rec) = ACTIVE))) eqn:Hact;
    [discriminate|].
  apply negb_false_iff, bool_decide_eq_true in Hact.
  apply bind_ok_inv in Hrun as (km0 & s2 & Hgen & Hrun).
  apply in_world_inv in Hgen as (_ & Hb2 & Hm2 & Hc2).
  apply bind_ok_inv in Hrun as (uuid & s3 & Hu & Hrun).
  apply in_world_inv in Hu as (_ & Hb3 & Hm3 & Hc3).
  apply bind_ok_inv in Hrun as (created & s4 & Hclock & Hrun).
  unfold clock_now in Hclock. injection Hclock as <- <-.
  apply bind_ok_inv in Hrun as (enc & s5 & Henc & Hrun).
  apply encryptKeyMaterial_inv in Henc as (Hb5 & Hm5 & Hc5 & Hmd).
  specialize (Hmd _ eq_refl).
  apply bind_ok_inv in Hrun as ([] & s6 & Hst & Hrun).
  unfold ret in Hrun. injection Hrun as <- <- <-.
  apply on_store_inv in Hst as (Hst & Hm6 & Hc6 & _).
  apply store_inv in Hst as [(_ & Hb6) | (Hbad & _)]; [|discriminate].
  exists old_rec, enc. rewrite Hmd. cbn.
  repeat split; congruence.
Qed.

Lemma deprecateKey_inv ks ks' id (r : Result unit) :
  deprecateKey id ks = (r, ks') ->
  master_key_ ks' = master_key_ ks /\ cache_client_ ks' = cache_client_ ks
  /\ ((has_value r = true
       /\ exists k, stored ks !! KeyId_toString id = Some k
            /\ stored ks'
               = <[KeyId_toString id := set_metadata (set_state DEPRECATED (metadata k)) k]>
                   (stored ks))
      \/ (has_value r = false /\ stored ks' = stored ks)).
Proof.
  unfold deprecateKey, bind. intros Hrun.
  destruct (on_store (ks_retrieve id) ks) as [[k|e] s1] eqn:Hret;
    apply on_store_inv in Hret as (Hret & Hm1 & Hc1 & _);
    apply retrieve_inv in Hret as (Hb1 & Hfound).
  - specialize (Hfound _ eq_refl).
    apply on_store_inv in Hrun as (Hup & Hm2 & Hc2 & _).
    apply updateMetadata_inv in Hup as [(Hok & k' & Hk' & Hb2) | (Hbad & Hb2)].
    + split; [congruence|]. split; [congruence|]. left. split; [assumption|].
      exists k. rewrite Hb1 in Hk'. split; [assumption|].
      rewrite Hb2, Hb1. congruence.
    + split; [congruence|]. split; [congruence|]. right. split; [assumption|]. congruence.
  - injection Hrun as <- <-. split; [assumption|]. split; [assumption|].
    right. split; [reflexivity | assumption].
Qed.

Lemma cache_steps_stored ks ks' old new km (r : Result KeyId) :
  (let* _ := invalidateCachedKey old in
   let* _ := cacheKeyMaterial new km in
   ret new) ks = (r, ks') ->
  r = Ok new /\ stored ks' = stored ks.
Proof.
  unfold bind, invalidateCachedKey, cacheKeyMaterial, on_cache, ret. cbn.
  intros [= <- <-]. split; reflexivity.
Qed.
End Rotation.
(** C3, as stated, fails at the last version: rotating an active key of
    version 4294967295 succeeds and gives the new key the version 0. *)
Lemma rotation_postconditions_counterexample :
  md_state (metadata (sample_record last_version_key ACTIVE)) = ACTIVE
  /\ exists new,
       fst (rotateKey (G:=toy_gcm) last_version_key
              (sample_service last_version_key ACTIVE [])) = Ok new
       /\ version new = 0
       /\ version new <> version last_version_key + 1.
Proof.
  split; [reflexivity|]. eexists. split; [vm_compute; reflexivity|].
  split; [reflexivity | discriminate].
Qed.

(** C3, amended. When [rotateKey old] returns a new identifier: the old key
    was stored as Active and is now stored as Deprecated; the new key is
    stored as Active, with [previous_version] the old identifier; the new
    identifier differs from the old one, keeps its namespace, and its
    version is the old version plus 1 in 32-bit arithmetic, which is the
    old version plus 1 for every version below 4294967295.  On a key that
    is stored in another state [rotateKey] fails and leaves the store as
    it is; the error is [KEY_ROTATION_FAILED] unless the store refused
    the lookup. *)
Theorem rotation_postconditions {G : AESGCM} {C : Type} {CC : CacheClient C} :
  (forall (ks ks' : KeyService (Unreliable InMemoryKeyStore) C) (old new : KeyId),
     0 <= version old < 2 ^ 32 ->
     rotateKey old ks = (Ok new, ks') ->
     (exists before, stored ks !! KeyId_toString old = Some before
                     /\ md_state (metadata before) = ACTIVE)
     /\ (exists r_old r_new,
           stored ks' !! KeyId_toString old = Some r_old
           /\ md_state (metadata r_old) = DEPRECATED
           /\ stored ks' !! KeyId_toString new = Some r_new
           /\ md_state (metadata r_new) = ACTIVE
           /\ md_id (metadata r_new) = new
           /\ md_previous_version (metadata r_new) = Some old)
     /\ new <> old
     /\ namespace_prefix new = namespace_prefix old
     /\ version new = u32 (version old + 1)
     /\ (version old < 2 ^ 32 - 1 -> version new = version old + 1))
  /\ (forall (ks : KeyService (Unreliable InMemoryKeyStore) C) (old : KeyId)
        (rec : EncryptedKey),
        stored ks !! KeyId_toString old = Some rec ->
        md_state (metadata rec) <> ACTIVE ->
        has_value (fst (rotateKey old ks)) = false
        /\ stored (snd (rotateKey old ks)) = stored ks
        /\ (head (outages (key_store_ ks)) <> Some true ->
            error_code (fst (rotateKey old ks)) = Some KEY_ROTATION_FAILED)).
Proof.
  split.
  - intros ks ks' old new Hver Hrun.
    rewrite rotateKey_split in Hrun.
    apply bind_ok_inv in Hrun as ([new0 km] & ks1 & Hpre & Hrun).
    apply rotateKey_until_stored_inv in Hpre
      as (old_rec & new_rec & Hold & Hact & Hst1 & Hns & Hv & Hid & Hnact & Hprev & _ & _).
    cbn [fst snd] in Hrun.
    apply bind_ok_inv in Hrun as (dr & ks2 & Hdep & Hrun).
    unfold attempt in Hdep.
    destruct (deprecateKey old ks1) as [r ks2'] eqn:Hd. injection Hdep as <- <-.
    apply deprecateKey_inv in Hd as (_ & _ & Hd).
    destruct r as [[]|e].
    + destruct Hd as [(_ & k & Hk & Hst2) | (Hbad & _)]; [|discriminate].
      apply cache_steps_stored in Hrun as (Hnew & Hst3).
      assert (Heq : new0 = new) by congruence. clear Hnew.
      rewrite Heq in *. clear Heq new0.
      assert (Hne : KeyId_toString new <> KeyId_toString old).
      { intros E. apply KeyId_toString_version in E; try assumption.
        - rewrite Hv in E. revert E. now apply u32_succ_neq.
        - rewrite Hv. apply u32_range.
        - lia. }
      assert (Hk_old : k = old_rec).
      { rewrite Hst1, lookup_insert_ne in Hk by assumption. congruence. }
      subst k.
      split; [eauto|]. split.
      * exists (set_metadata (set_state DEPRECATED (metadata old_rec)) old_rec), new_rec.
        rewrite Hst3, Hst2, Hst1.
        rewrite lookup_insert_eq.
        rewrite lookup_insert_ne by congruence. rewrite lookup_insert_eq.
        repeat split; assumption.
      * split; [congruence|]. split; [assumption|]. split; [assumption|].
        intros Hlt. rewrite Hv. unfold u32. rewrite Z.mod_small; lia.
    + apply bind_ok_inv in Hrun as (x & ks3 & _ & Hrun). discriminate.
  - intros ks old rec Hrec Hstate.
    assert (Hfail : forall k ks1,
              on_store (ks_retrieve old) ks = (Ok k, ks1) ->
              rotateKey old ks
              = (Err_ KEY_ROTATION_FAILED "Only active keys can be rotated", ks1)
                /\ stored ks1 = stored ks).
    { intros k ks1 Hret. unfold rotateKey, bind. rewrite Hret.
      apply on_store_inv in Hret as (Hret & _ & _ & _).
      apply retrieve_inv in Hret as (Hb & Hk). specialize (Hk _ eq_refl).
      assert (k = rec) as -> by congruence.
      rewrite bool_decide_eq_false_2 by assumption. now split. }
    destruct (on_store (ks_retrieve old) ks) as [[k|e] ks1] eqn:Hret.
    + destruct (Hfail _ _ eq_refl) as (-> & Hst). cbn. repeat split; assumption.
    + unfold rotateKey, bind. rewrite Hret. cbn [fst snd has_value].
      apply on_store_inv in Hret as (Hret & _ & _ & _).
      split; [reflexivity|]. split; [now apply retrieve_inv in Hret|].
      intros Hhead.
      destruct (retrieve_found _ old rec Hrec Hhead) as (u' & Hfound & _).
      rewrite Hfound in Hret. discriminate.
Qed.

Lemma rotation_postconditions_witness :
  0 <= version first_key < 2 ^ 32
  /\ exists new ks',
       rotateKey (G:=toy_gcm) first_key (sample_service first_key ACTIVE [])
       = (Ok new, ks')
       /\ (exists r_old r_new,
             stored ks' !! KeyId_toString first_key = Some r_old
             /\ md_state (metadata r_old) = DEPRECATED
             /\ stored ks' !! KeyId_toString new = Some r_new
             /\ md_state (metadata r_new) = ACTIVE
             /\ md_id (metadata r_new) = new
             /\ md_previous_version (metadata r_new) = Some first_key)
       /\ new <> first_key
       /\ version new = 2.
Proof.
  assert (Hv : 0 <= version first_key < 2 ^ 32) by (cbn; lia).
  split; [exact Hv|].
  destruct (rotateKey (G:=toy_gcm) first_key (sample_service first_key ACTIVE []))
    as [[new|e] ks'] eqn:Hrun; [|vm_compute in Hrun; discriminate].
  exists new, ks'. split; [reflexivity|].
  destruct (@rotation_postconditions toy_gcm (gmap string bytes) _) as [Hpost _].
  destruct (Hpost _ _ _ _ Hv Hrun) as (_ & Hrecs & Hne & _ & _ & Hplus).
  split; [exact Hrecs|]. split; [exact Hne|].
  apply Hplus. vm_compute. reflexivity.
Defined.

(** ** Rollback *)

(** C8, as stated, fails: when the store refuses both the deprecation and
    the removal that follows it, the new record stays in the store.  In
    the schedule below the lookup and the storing go through, the lookup
    of the deprecation and the removal are refused. *)
Lemma rotation_rollback_counterexample :
  let ks := sample_service first_key ACTIVE [false; false; true; true] in
  let new := mkKeyId "auth" "efcdab89-6745-4301-9e9b-5713cf8a4602" 2 in
  option_map fst (match fst (rotateKey_until_stored (G:=toy_gcm) first_key ks) with
                  | Ok p => Some p | Err _ => None end) = Some new
  /\ error_code (fst (deprecateKey first_key
                        (snd (rotateKey_until_stored (G:=toy_gcm) first_key ks))))
     = Some INTERNAL_ERROR
  /\ error_code (fst (rotateKey (G:=toy_gcm) first_key ks)) = Some INTERNAL_ERROR
  /\ stored ks !! KeyId_toString new = None
  /\ is_Some (stored (snd (rotateKey (G:=toy_gcm) first_key ks)) !! KeyId_toString new)
  /\ stored (snd (rotateKey (G:=toy_gcm) first_key ks)) <> stored ks.
Proof.
  intros ks new.
  assert (Hbefore : stored ks !! KeyId_toString new = None) by (vm_compute; reflexivity).
  assert (Hafter : is_Some (stored (snd (rotateKey (G:=toy_gcm) first_key ks))
                            !! KeyId_toString new)) by (vm_compute; eauto).
  split; [vm_compute; reflexivity|]. split; [vm_compute; reflexivity|].
  split; [vm_compute; reflexivity|]. split; [exact Hbefore|]. split; [exact Hafter|].
  clearbody ks new. intros E. rewrite E, Hbefore in Hafter. now destruct Hafter.
Qed.

(** C8, amended. When, in [rotateKey old], the new record has been stored
    and the deprecation of the old key then fails, [rotateKey] returns the
    error of the deprecation after one attempt to remove the new record,
    whose outcome it does not look at.  If the removal is carried out, and
    the new identifier was not in the store before the call, the store
    holds the records it held before the call, so the old key's metadata
    is unchanged.  If the store refuses the removal, the new record
    stays. *)
Theorem rotation_rollback {G : AESGCM} {C : Type} {CC : CacheClient C}
    (ks ks1 ks2 : KeyService (Unreliable InMemoryKeyStore) C)
    (old new : KeyId) (km : bytes) (e : Error) :
  rotateKey_until_stored old ks = (Ok (new, km), ks1) ->
  deprecateKey old ks1 = (Err e, ks2) ->
  let removal := on_store (ks_remove new) ks2 in
  rotateKey old ks = (Err e, snd removal)
  /\ (has_value (fst removal) = true ->
      stored ks !! KeyId_toString new = None ->
      stored (snd (rotateKey old ks)) = stored ks)
  /\ (has_value (fst removal) = false ->
      stored (snd (rotateKey old ks)) = stored ks1
      /\ is_Some (stored (snd (rotateKey old ks)) !! KeyId_toString new)).
Proof.
  intros Hpre Hdep removal.
  assert (Hrun : rotateKey old ks = (Err e, snd removal)).
  { rewrite rotateKey_split. unfold bind at 1. rewrite Hpre.
    unfold bind, attempt. rewrite Hdep. cbn [fst].
    subst removal. now destruct (on_store (ks_remove new) ks2). }
  split; [exact Hrun|]. rewrite Hrun. cbn [snd].
  apply rotateKey_until_stored_inv in Hpre
    as (old_rec & new_rec & Hold & _ & Hst1 & _).
  apply deprecateKey_inv in Hdep as (_ & _ & [(Hbad & _) | (_ & Hst2)]); [discriminate|].
  subst removal.
  destruct (on_store (ks_remove new) ks2) as [r ks3] eqn:Hrm.
  apply on_store_inv in Hrm as (Hrm & _). cbn [fst snd].
  apply remove_inv in Hrm as [(Hok & Hst3) | (Hno & Hst3)]; rewrite Hok || rewrite Hno.
  - split; [|discriminate]. intros _ Hfresh.
    rewrite Hst3, Hst2, Hst1. rewrite delete_insert_eq.
    now apply delete_id.
  - split; [discriminate|]. intros _.
    rewrite Hst3, Hst2. split; [reflexivity|].
    rewrite Hst1, lookup_insert_eq. eauto.
Qed.

Lemma rotation_rollback_witness :
  let ks := sample_service first_key ACTIVE [false; false; true] in
  exists new km ks1 e ks2,
    rotateKey_until_stored (G:=toy_gcm) first_key ks = (Ok (new, km), ks1)
    /\ deprecateKey first_key ks1 = (Err e, ks2)
    /\ rotateKey (G:=toy_gcm) first_key ks = (Err e, snd (on_store (ks_remove new) ks2))
    /\ stored (snd (rotateKey (G:=toy_gcm) first_key ks)) = stored ks.
Proof.
  intros ks.
  destruct (rotateKey_until_stored (G:=toy_gcm) first_key ks)
    as [[[new km]|e] ks1] eqn:Hpre; [|vm_compute in Hpre; discriminate].
  destruct (deprecateKey first_key ks1) as [[[]|e] ks2] eqn:Hdep.
  - exfalso.
    assert (Hhv : has_value (fst (deprecateKey (C:=gmap string bytes) first_key
                    (snd (rotateKey_until_stored (G:=toy_gcm) first_key ks)))) = false)
      by (vm_compute; reflexivity).
    rewrite Hpre in Hhv. cbn [snd] in Hhv. rewrite Hdep in Hhv. discriminate.
  - exists new, km, ks1, e, ks2. split; [reflexivity|]. split; [exact Hdep|].
    destruct (@rotation_rollback toy_gcm _ _ ks ks1 ks2 first_key new km e Hpre Hdep)
      as (Hrun & Hclean & _).
    split; [exact Hrun|]. apply Hclean.
    + assert (Hrm : has_value (fst (on_store (ks_remove
                 (fst (default (first_key, []) (match fst (rotateKey_until_stored (G:=toy_gcm) first_key ks) with Ok p => Some p | Err _ => None end))))
                 (snd (deprecateKey (C:=gmap string bytes) first_key
                    (snd (rotateKey_until_stored (G:=toy_gcm) first_key ks)))))) = true)
        by (vm_compute; reflexivity).
      rewrite Hpre in Hrm. cbn [fst snd default] in Hrm. rewrite Hdep in Hrm. exact Hrm.
    + assert (Hfresh : stored ks !! KeyId_toString
                 (fst (default (first_key, []) (match fst (rotateKey_until_stored (G:=toy_gcm) first_key ks) with Ok p => Some p | Err _ => None end)))
               = None) by (vm_compute; reflexivity).
      rewrite Hpre in Hfresh. exact Hfresh.
Defined.
(** ** Key material and the state of a key *)

(** C6, as stated, fails: the record of a destroyed key that is still in
    the store is decrypted like any other. *)
Lemma destroyed_key_material_counterexample :
  let ks := sample_service first_key DESTROYED [] in
  (exists rec, stored ks !! KeyId_toString first_key = Some rec
               /\ md_state (metadata rec) = DESTROYED)
  /\ fst (getKeyMaterial (G:=toy_gcm) first_key ks) = Ok (replicate 32 "017"%byte).
Proof.
  intros ks. split.
  - exists (sample_record first_key DESTROYED). split; [|reflexivity].
    vm_compute. reflexivity.
  - vm_compute. reflexivity.
Qed.

Section KeyMaterial.
Context {G : AESGCM} {C : Type} {CC : CacheClient C}.
Implicit Types (ks : KeyService (Unreliable InMemoryKeyStore) C).

Lemma getKeyMaterial_state ks id rec st :
  fst (getKeyMaterial id (holding ks id (set_metadata (set_state st (metadata rec)) rec)))
  = fst (getKeyMaterial id (holding ks id rec)).
Proof.
  unfold getKeyMaterial, bind, getCachedKeyMaterial, holding. cbn [cache_client_].
  destruct (cache_client_ ks) as [c|].
  - destruct (cache_get (cache_key id) c) as [[material|] c']; [reflexivity|].
    unfold on_store. cbn [key_store_ ks_retrieve Unreliable_store].
    unfold with_outage. cbn [outages backing].
    destruct (outages (key_store_ ks)) as [|[] later]; try reflexivity;
      cbn [ks_retrieve InMemoryKeyStore_store]; rewrite !lookup_insert_eq;
      cbn [master_key_ cache_client_ world key_store_];
      unfold decryptKeyMaterial, in_world; cbn [master_key_ world encrypted_material
        ek_iv ek_tag set_metadata];
      destruct (decryptGCM _ _ _ _ _ _) as [[d|e] w']; reflexivity.
  - unfold on_store. cbn [key_store_ ks_retrieve Unreliable_store].
    unfold with_outage. cbn [outages backing].
    destruct (outages (key_store_ ks)) as [|[] later]; try reflexivity;
      cbn [ks_retrieve InMemoryKeyStore_store]; rewrite !lookup_insert_eq;
      cbn [master_key_ cache_client_ world key_store_];
      unfold decryptKeyMaterial, in_world; cbn [master_key_ world encrypted_material
        ek_iv ek_tag set_metadata];
      destruct (decryptGCM _ _ _ _ _ _) as [[d|e] w']; reflexivity.
Qed.

Lemma deleteKey_inv ks ks1 id :
  deleteKey id ks = (Ok tt, ks1) ->
  stored ks1 !! KeyId_toString id = None
  /\ cache_client_ ks1 = cache_del (cache_key id) <$> cache_client_ ks.
Proof.
  unfold deleteKey, bind, invalidateCachedKey. intros Hrun.
  destruct (on_cache _ ks) as [r ks0] eqn:Hc.
  apply on_cache_inv in Hc as (-> & Hst & _ & _ & Hcache).
  apply on_store_inv in Hrun as (Hrm & _ & Hc1 & _).
  apply remove_inv in Hrm as [(_ & Hdel) | (Hbad & _)]; [|discriminate].
  split; [rewrite Hdel; apply lookup_delete_eq | congruence].
Qed.

Lemma getKeyMaterial_absent {CL : CacheLaws C} ks id :
  stored ks !! KeyId_toString id = None ->
  (forall c, cache_client_ ks = Some c -> fst (cache_get (cache_key id) c) = None) ->
  has_value (fst (getKeyMaterial id ks)) = false
  /\ (head (outages (key_store_ ks)) <> Some true ->
      error_code (fst (getKeyMaterial id ks)) = Some KEY_NOT_FOUND).
Proof.
  intros Habs Hcache.
  assert (Hret : forall ks0, stored ks0 = stored ks ->
            outages (key_store_ ks0) = outages (key_store_ ks) ->
            has_value (fst (on_store (ks_retrieve id) ks0)) = false
            /\ (head (outages (key_store_ ks)) <> Some true ->
                error_code (fst (on_store (ks_retrieve id) ks0)) = Some KEY_NOT_FOUND)).
  { intros ks0 Hst Hout. unfold on_store. cbn [ks_retrieve Unreliable_store].
    unfold with_outage. rewrite Hout.
    destruct (outages (key_store_ ks)) as [|[] later];
      cbn [ks_retrieve InMemoryKeyStore_store head]; rewrite ?Hst, ?Habs; cbn;
      (split; [reflexivity|]); try reflexivity.
    intros Hne. now destruct Hne. }
  unfold getKeyMaterial, bind, getCachedKeyMaterial.
  destruct (cache_client_ ks) as [c|] eqn:Hc.
  - specialize (Hcache c eq_refl).
    destruct (cache_get (cache_key id) c) as [o c'] eqn:Hget. cbn [fst] in Hcache.
    subst o.
    set (ks0 := mkKeyService _ _ _ _).
    destruct (Hret ks0 eq_refl eq_refl) as (Hv & Hcode).
    destruct (on_store (ks_retrieve id) ks0) as [[k|e] ks1]; [discriminate|].
    cbn. split; [reflexivity | exact Hcode].
  - destruct (Hret ks eq_refl eq_refl) as (Hv & Hcode).
    destruct (on_store (ks_retrieve id) ks) as [[k|e] ks1]; [discriminate|].
    cbn. split; [reflexivity | exact Hcode].
Qed.
End KeyMaterial.

(** C6, amended. [getKeyMaterial] does not look at the state of a key: with
    the record of a key stored in any state, Destroyed included, it returns
    what it returns with the same record stored in any other state, so a
    record that decrypts gives its material.  A key that has been deleted
    gives none: after a successful [deleteKey id], [getKeyMaterial id]
    returns an error, which is [KEY_NOT_FOUND] unless the store refuses the
    lookup. *)
Theorem key_material_ignores_state {G : AESGCM} {C : Type} {CC : CacheClient C}
    {CL : CacheLaws C} :
  (forall (ks : KeyService (Unreliable InMemoryKeyStore) C) (id : KeyId)
          (rec : EncryptedKey) (st : KeyState),
     fst (getKeyMaterial id (holding ks id (set_metadata (set_state st (metadata rec)) rec)))
     = fst (getKeyMaterial id (holding ks id rec)))
  /\ (forall (ks ks1 : KeyService (Unreliable InMemoryKeyStore) C) (id : KeyId),
        deleteKey id ks = (Ok tt, ks1) ->
        has_value (fst (getKeyMaterial id ks1)) = false
        /\ (head (outages (key_store_ ks1)) <> Some true ->
            error_code (fst (getKeyMaterial id ks1)) = Some KEY_NOT_FOUND)).
Proof.
  split.
  - intros ks id rec st. apply getKeyMaterial_state.
  - intros ks ks1 id Hdel.
    apply deleteKey_inv in Hdel as (Habs & Hcache).
    apply getKeyMaterial_absent; [assumption|].
    intros c Hc. rewrite Hc in Hcache.
    destruct (cache_client_ ks) as [c0|]; [|discriminate].
    injection Hcache as ->. apply cache_get_del.
Qed.

Global Instance LocalCache_laws : CacheLaws (gmap string bytes).
Proof. split. intros key c. cbn. apply lookup_delete_eq. Qed.

Lemma key_material_ignores_state_witness :
  let ks := sample_service first_key ACTIVE [] in
  fst (getKeyMaterial (G:=toy_gcm) first_key
         (holding ks first_key
            (set_metadata (set_state DESTROYED (metadata (sample_record first_key ACTIVE)))
                          (sample_record first_key ACTIVE))))
  = Ok (replicate 32 "017"%byte)
  /\ exists ks1, deleteKey first_key ks = (Ok tt, ks1)
                 /\ error_code (fst (getKeyMaterial (G:=toy_gcm) first_key ks1))
                    = Some KEY_NOT_FOUND.
Proof.
  intros ks.
  destruct (@key_material_ignores_state toy_gcm (gmap string bytes) _ _) as [Hstate Hdel].
  split.
  - rewrite Hstate. vm_compute. reflexivity.
  - destruct (deleteKey first_key ks) as [[[]|e] ks1] eqn:Hrun;
      [|vm_compute in Hrun; discriminate].
    exists ks1. split; [reflexivity|].
    destruct (Hdel ks ks1 first_key Hrun) as [_ Hcode]. apply Hcode.
    apply (f_equal (fun p => head (outages (key_store_ (snd p))))) in Hrun.
    cbn [snd] in Hrun. rewrite <- Hrun. vm_compute. discriminate.
Defined.
(** ** The file envelope *)

Lemma write_u16_le (v : Z) : write_u16 v = le_bytes 2 v.
Proof. unfold write_u16, le_bytes, byte_of. cbn. now rewrite Z.shiftr_0_r. Qed.

Lemma write_u32_le (v : Z) : write_u32 v = le_bytes 4 v.
Proof. unfold write_u32, le_bytes, byte_of. cbn. now rewrite Z.shiftr_0_r. Qed.

Lemma write_u64_le (v : Z) : write_u64 v = le_bytes 8 v.
Proof.
  unfold write_u64, le_bytes, byte_of. apply map_ext. intros i.
  now rewrite Z.mul_comm.
Qed.

Lemma byte_of_shift (v : Z) (i : nat) :
  byte_of v (Z.of_nat (S i)) = byte_of (v / 256) (Z.of_nat i).
Proof.
  unfold byte_of. f_equal. f_equal.
  change 256 with (2 ^ 8). rewrite <- Z.shiftr_div_pow2 by lia.
  rewrite Z.shiftr_shiftr by lia. f_equal. lia.
Qed.

Lemma le_bytes_S (w : nat) (v : Z) :
  le_bytes (S w) v = byte_of v 0 :: le_bytes w (v / 256).
Proof.
  unfold le_bytes. cbn [seq map]. f_equal.
  rewrite <- seq_shift, map_map. apply map_ext. intros i. apply byte_of_shift.
Qed.

(** [le_bytes w v] is the little-endian representation of [v] on [w] bytes. *)
Lemma le_value_le_bytes (w : nat) (v : Z) :
  le_value (le_bytes w v) = v mod 2 ^ (8 * Z.of_nat w).
Proof.
  revert v. induction w as [|w IH]; intros v.
  - cbn. now rewrite Z.mod_1_r.
  - rewrite le_bytes_S. unfold le_value in *. cbn [fold_right]. rewrite IH.
    unfold byte_of. rewrite Z.shiftr_0_r.
    change 255 with (Z.ones 8). rewrite Z.land_ones by lia.
    rewrite byte_to_Z_u8 by (apply Z.mod_pos_bound; lia).
    replace (8 * Z.of_nat (S w)) with (8 + 8 * Z.of_nat w) by lia.
    rewrite Z.pow_add_r by lia.
    change (2 ^ 8) with 256.
    rewrite Z.rem_mul_r by (try apply Z.pow_nonzero; lia). reflexivity.
Qed.

Section Envelope.
Context {G : AESGCM} {L : AESGCMLaws G} {S C : Type}
        {KSt : IKeyStore S} {CC : CacheClient C}.
Variable getKey : KeyId -> St_M (KeyService S C) KeyData.
Implicit Types (fs : FileEncryptionService (KeyService S C)).

Lemma on_key_service_inv {A} (m : St_M (KeyService S C) A) fs fs' (r : Result A) :
  on_key_service m fs = (r, fs') ->
  m (key_service_ fs) = (r, key_service_ fs')
  /\ chunk_size_ fs' = chunk_size_ fs /\ host fs' = host fs
  /\ input fs' = input fs /\ output fs' = output fs.
Proof.
  unfold on_key_service. destruct (m (key_service_ fs)) as [r0 k0].
  intros [= <- <-]. repeat split.
Qed.

Lemma read_plaintext_inv (n : Z) fs fs' (r : Result bytes) :
  (if n >? 0 then stream_read n else stream_read_all) fs = (r, fs') ->
  chunk_size_ fs' = chunk_size_ fs /\ host fs' = host fs /\ output fs' = output fs.
Proof.
  destruct (n >? 0); unfold stream_read, stream_read_all; intros [= <- <-];
    repeat split.
Qed.

Lemma wrapDEK_inv dek kek_id fs fs' wrapped :
  size dek = 32 ->
  wrapDEK getKey dek kek_id fs = (Ok wrapped, fs') ->
  size wrapped = 60
  /\ chunk_size_ fs' = chunk_size_ fs /\ host fs' = host fs /\ output fs' = output fs
  /\ input fs' = input fs.
Proof.
  intros Hdek. unfold wrapDEK. intros Hrun.
  apply bind_ok_inv in Hrun as (kek & fs1 & Hk & Hrun).
  apply on_key_service_inv in Hk as (_ & Hc1 & Hh1 & Hi1 & Ho1).
  apply bind_ok_inv in Hrun as (r & fs2 & Henc & Hrun).
  apply on_key_service_inv in Henc as (Henc & Hc2 & Hh2 & Hi2 & Ho2).
  unfold ret in Hrun. injection Hrun as <- <-.
  destruct (in_world _ (key_service_ fs1)) as [r0 k0] eqn:Hw.
  apply in_world_inv in Hw as (Hw & _). injection Henc as -> ->.
  apply encryptGCM_inv in Hw as (_ & _ & _ & Hiv & ->). cbn [iv tag ciphertext].
  rewrite !size_app, Hiv, gmac_size, gctr_size, Hdek.
  repeat split; congruence.
Qed.

Lemma generateDEK_inv fs fs' dek :
  generateDEK fs = (Ok dek, fs') ->
  size dek = 32
  /\ chunk_size_ fs' = chunk_size_ fs /\ host fs' = host fs /\ output fs' = output fs
  /\ input fs' = input fs.
Proof.
  unfold generateDEK. intros Hrun.
  apply on_key_service_inv in Hrun as (Hrun & Hc & Hh & Hi & Ho).
  destruct (in_world _ (key_service_ fs)) as [r0 k0] eqn:Hw.
  apply in_world_inv in Hw as (Hw & _). injection Hrun as -> ->.
  unfold random_bytes in Hw.
  destruct (32 <=? size (entropy (world (key_service_ fs)))) eqn:Hent; [|discriminate].
  apply Z.leb_le in Hent. injection Hw as <- _.
  repeat split; try assumption.
  unfold size in *. rewrite length_take. lia.
Qed.
End Envelope.

(** C4, as stated, fails: the file starts with the length of the header,
    not with the magic number. *)
Lemma envelope_layout_counterexample :
  let run := encryptStream (G:=toy_gcm) sample_getKey first_key 0 sample_file_service in
  fst run = Ok tt
  /\ take 4 (output (snd run)) = ["167"; "000"; "000"; "000"]%byte
  /\ take 4 (drop 4 (output (snd run))) = write_u32 0x43525950
  /\ (forall algo id_bytes wrap_bytes iv_bytes tag_bytes orig_size chunk ciphertext_bytes,
        output (snd run)
        <> described_layout algo id_bytes wrap_bytes iv_bytes tag_bytes orig_size chunk
             ciphertext_bytes).
Proof.
  intros run.
  assert (Hhead : take 4 (output (snd run)) = ["167"; "000"; "000"; "000"]%byte)
    by (vm_compute; reflexivity).
  split; [vm_compute; reflexivity|]. split; [exact Hhead|].
  split; [vm_compute; reflexivity|].
  clearbody run. intros algo id_bytes wrap_bytes iv_bytes tag_bytes orig_size chunk ct E.
  rewrite E in Hhead. unfold described_layout in Hhead.
  cbn [write_u32 app take] in Hhead.
  injection Hhead as Hhead _. revert Hhead. vm_compute. discriminate.
Qed.
Lemma serialize_layout (kek_id : KeyId) (wrapped nonce auth_tag : bytes) (orig chunk : Z) :
  serialize (mkHeader MAGIC VERSION 1 kek_id wrapped nonce auth_tag orig chunk)
  = described_layout 1 (string_bytes (KeyId_toString kek_id)) wrapped nonce auth_tag
      orig chunk [].
Proof.
  unfold serialize, described_layout, write_bytes.
  cbn [magic hdr_version hdr_algorithm key_id wrapped_dek hdr_iv hdr_tag
       original_size chunk_size].
  rewrite app_nil_r. rewrite <- !app_assoc. reflexivity.
Qed.

Lemma described_layout_payload (algo : Z) (id_bytes wrapped nonce auth_tag : bytes)
    (orig chunk : Z) (payload : bytes) :
  described_layout algo id_bytes wrapped nonce auth_tag orig chunk payload
  = described_layout algo id_bytes wrapped nonce auth_tag orig chunk [] ++ payload.
Proof.
  unfold described_layout. rewrite app_nil_r. rewrite <- !app_assoc. reflexivity.
Qed.

(** C4, amended. Every file [encryptStream] produces consists of the
    length of the header as a [u32] in the byte order of the host, then
    the header, then the ciphertext.  The header is, in order: the magic
    number 0x43525950, the version 1 and the algorithm tag 1 as
    little-endian [u16]s after the little-endian [u32] magic; the length
    of the printed KeyId as a little-endian [u32] and its bytes; the
    wrapped key (60 bytes), the nonce (12 bytes) and the tag (16 bytes),
    each after its length as a little-endian [u32]; the size of the
    payload as a little-endian [u64]; the chunk size as a little-endian
    [u32].  The ciphertext has the size of the payload. *)
Theorem envelope_layout {G : AESGCM} {L : AESGCMLaws G} {S C : Type}
    {KSt : IKeyStore S} {CC : CacheClient C}
    (getKey : KeyId -> St_M (KeyService S C) KeyData)
    (fs fs' : FileEncryptionService (KeyService S C))
    (kek_id : KeyId) (input_size : Z) :
  encryptStream getKey kek_id input_size fs = (Ok tt, fs') ->
  (exists wrapped nonce auth_tag payload,
     size wrapped = 60 /\ size nonce = 12 /\ size auth_tag = 16
     /\ size payload = (if input_size >? 0 then input_size else size (input fs))
     /\ output fs'
        = output fs
          ++ raw_u32 (host fs)
               (u32 (size (described_layout 1 (string_bytes (KeyId_toString kek_id))
                             wrapped nonce auth_tag (u64 (size payload))
                             (u32 (chunk_size_ fs)) [])))
          ++ described_layout 1 (string_bytes (KeyId_toString kek_id))
               wrapped nonce auth_tag (u64 (size payload)) (u32 (chunk_size_ fs))
               payload)
  /\ (forall v, raw_u32 LittleEndian v = write_u32 v)
  /\ (forall v, le_value (write_u16 v) = v mod 2 ^ 16)
  /\ (forall v, le_value (write_u32 v) = v mod 2 ^ 32)
  /\ (forall v, le_value (write_u64 v) = v mod 2 ^ 64).
Proof.
  intros Hrun. split.
  - unfold encryptStream in Hrun.
    apply bind_ok_inv in Hrun as (dek & fs1 & Hdek & Hrun).
    apply generateDEK_inv in Hdek as (Hdsz & Hc1 & Hh1 & Ho1 & Hi1).
    apply bind_ok_inv in Hrun as (wrapped & fs2 & Hwrap & Hrun).
    apply wrapDEK_inv in Hwrap as (Hwsz & Hc2 & Hh2 & Ho2 & Hi2); [|assumption].
    assert (Hread_in : input fs2 = input fs) by congruence.
    apply bind_ok_inv in Hrun as (plaintext & fs3 & Hread & Hrun).
    assert (Hpsz : size plaintext = if input_size >? 0 then input_size else size (input fs2)).
    { destruct (input_size >? 0) eqn:Hpos.
      - unfold stream_read in Hread. injection Hread as <- _.
        apply Z.gtb_lt in Hpos. unfold size. rewrite length_app, length_replicate, length_take.
        lia.
      - unfold stream_read_all in Hread. now injection Hread as <- _. }
    apply read_plaintext_inv in Hread as (Hc3 & Hh3 & Ho3).
    apply bind_ok_inv in Hrun as (r & fs4 & Henc & Hrun).
    apply on_key_service_inv in Henc as (Henc & Hc4 & Hh4 & _ & Ho4).
    destruct (in_world _ (key_service_ fs3)) as [r0 k0] eqn:Hw.
    apply in_world_inv in Hw as (Hw & _). injection Henc as -> ->.
    apply encryptGCM_inv in Hw as (_ & _ & _ & Hiv & Hr).
    assert (Htag : size (tag r) = 16) by (rewrite Hr; apply gmac_size).
    assert (Hct : size (ciphertext r) = size plaintext) by (rewrite Hr; apply gctr_size).
    clear Hr.
    unfold bind, stream_write, ret in Hrun.
    cbn [fst snd output host chunk_size_ key_service_ input] in Hrun.
    injection Hrun as <-. cbn [output].
    exists wrapped, (iv r), (tag r), (ciphertext r).
    split; [assumption|]. split; [assumption|]. split; [assumption|].
    split.
    { rewrite Hct, Hpsz. destruct (input_size >? 0); [reflexivity|].
      unfold wrapDEK in *. clear - Hread_in. congruence. }
    rewrite serialize_layout.
    rewrite (described_layout_payload _ _ _ _ _ _ _ (ciphertext r)).
    rewrite Hct. rewrite <- !app_assoc.
    replace (output fs4) with (output fs) by congruence.
    replace (host fs4) with (host fs) by congruence.
    replace (chunk_size_ fs4) with (chunk_size_ fs) by congruence.
    reflexivity.
  - split; [intros v; symmetry; apply write_u32_le|].
    split; [intros v; rewrite write_u16_le; apply le_value_le_bytes|].
    split; [intros v; rewrite write_u32_le; apply le_value_le_bytes|].
    intros v. rewrite write_u64_le. apply le_value_le_bytes.
Qed.

Lemma envelope_layout_witness :
  exists fs',
    encryptStream (G:=toy_gcm) sample_getKey first_key 0 sample_file_service = (Ok tt, fs')
    /\ exists wrapped nonce auth_tag payload,
         size wrapped = 60 /\ size nonce = 12 /\ size auth_tag = 16
         /\ size payload = (if 0 >? 0 then 0 else size (input sample_file_service))
         /\ output fs'
            = output sample_file_service
              ++ raw_u32 (host sample_file_service)
                   (u32 (size (described_layout 1 (string_bytes (KeyId_toString first_key))
                                 wrapped nonce auth_tag (u64 (size payload))
                                 (u32 (chunk_size_ sample_file_service)) [])))
              ++ described_layout 1 (string_bytes (KeyId_toString first_key))
                   wrapped nonce auth_tag (u64 (size payload))
                   (u32 (chunk_size_ sample_file_service)) payload.
Proof.
  destruct (encryptStream (G:=toy_gcm) sample_getKey first_key 0 sample_file_service)
    as [[[]|e] fs'] eqn:Hrun; [|vm_compute in Hrun; discriminate].
  exists fs'. split; [reflexivity|].
  exact (proj1 (@envelope_layout toy_gcm toy_gcm_laws _ _ _ _ sample_getKey
                  sample_file_service fs' first_key 0 Hrun)).
Defined.

(** *** Names of the enumerators *)

Lemma parseKeyAlgorithm_inv (s : string) (a : KeyAlgorithm) :
  parseKeyAlgorithm s = Ok a -> s = keyAlgorithmToString a.
Proof.
  unfold parseKeyAlgorithm.
  repeat (case_bool_decide; [intros [= <-]; assumption|]).
  discriminate.
Qed.

Lemma parseKeyType_inv (s : string) (t : KeyType) :
  parseKeyType s = Ok t -> s = keyTypeToString t.
Proof.
  unfold parseKeyType.
  repeat (case_bool_decide; [intros [= <-]; assumption|]).
  discriminate.
Qed.

Lemma parseKeyState_inv (s : string) (st : KeyState) :
  parseKeyState s = Ok st -> s = keyStateToString st.
Proof.
  unfold parseKeyState.
  repeat (case_bool_decide; [intros [= <-]; assumption|]).
  discriminate.
Qed.

(** X1. The names of the key algorithms, key types and key states are
    read back by the parsers: parsing the name of an enumerator gives the
    enumerator, a string that parses is the name of the enumerator it
    gives (so the match is exact: case and surrounding characters
    matter), and every other string is rejected with [INVALID_INPUT]. *)
Theorem enumerator_names_roundtrip :
  (forall a, parseKeyAlgorithm (keyAlgorithmToString a) = Ok a)
  /\ (forall t, parseKeyType (keyTypeToString t) = Ok t)
  /\ (forall st, parseKeyState (keyStateToString st) = Ok st)
  /\ (forall s a, parseKeyAlgorithm s = Ok a <-> s = keyAlgorithmToString a)
  /\ (forall s t, parseKeyType s = Ok t <-> s = keyTypeToString t)
  /\ (forall s st, parseKeyState s = Ok st <-> s = keyStateToString st)
  /\ (forall s, has_value (parseKeyAlgorithm s) = false ->
        error_code (parseKeyAlgorithm s) = Some INVALID_INPUT)
  /\ (forall s, has_value (parseKeyType s) = false ->
        error_code (parseKeyType s) = Some INVALID_INPUT)
  /\ (forall s, has_value (parseKeyState s) = false ->
        error_code (parseKeyState s) = Some INVALID_INPUT).
Proof.
  assert (HA : forall a, parseKeyAlgorithm (keyAlgorithmToString a) = Ok a)
    by (intros []; reflexivity).
  assert (HT : forall t, parseKeyType (keyTypeToString t) = Ok t)
    by (intros []; reflexivity).
  assert (HS : forall st, parseKeyState (keyStateToString st) = Ok st)
    by (intros []; reflexivity).
  repeat split; try assumption.
  - apply parseKeyAlgorithm_inv.
  - intros ->. apply HA.
  - apply parseKeyType_inv.
  - intros ->. apply HT.
  - apply parseKeyState_inv.
  - intros ->. apply HS.
  - intros s. unfold parseKeyAlgorithm.
    repeat (case_bool_decide; [discriminate|]). reflexivity.
  - intros s. unfold parseKeyType.
    repeat (case_bool_decide; [discriminate|]). reflexivity.
  - intros s. unfold parseKeyState.
    repeat (case_bool_decide; [discriminate|]). reflexivity.
Qed.

Lemma nat_of_ascii_inj (x y : ascii) : nat_of_ascii x = nat_of_ascii y -> x = y.
Proof.
  intros H. rewrite <- (ascii_nat_embedding x), <- (ascii_nat_embedding y), H.
  reflexivity.
Qed.

Lemma string_lt_irrefl (a : string) : string_lt a a = false.
Proof.
  induction a as [|x a IH]; simpl; [reflexivity|].
  rewrite Nat.ltb_irrefl. exact IH.
Qed.

Lemma string_lt_trans (a b c : string) :
  string_lt a b = true -> string_lt b c = true -> string_lt a c = true.
Proof.
  revert b c. induction a as [|x a IH]; intros [|y b] [|z c]; simpl; try congruence.
  destruct (Nat.ltb_spec (nat_of_ascii x) (nat_of_ascii y)),
           (Nat.ltb_spec (nat_of_ascii y) (nat_of_ascii x)),
           (Nat.ltb_spec (nat_of_ascii y) (nat_of_ascii z)),
           (Nat.ltb_spec (nat_of_ascii z) (nat_of_ascii y)),
           (Nat.ltb_spec (nat_of_ascii x) (nat_of_ascii z)),
           (Nat.ltb_spec (nat_of_ascii z) (nat_of_ascii x));
    try lia; try congruence.
  apply IH.
Qed.

Lemma string_lt_total (a b : string) :
  a <> b -> string_lt a b = true \/ string_lt b a = true.
Proof.
  revert b. induction a as [|x a IH]; intros [|y b] Hne; simpl; auto; try congruence.
  destruct (Nat.ltb_spec (nat_of_ascii x) (nat_of_ascii y)); [auto|].
  destruct (Nat.ltb_spec (nat_of_ascii y) (nat_of_ascii x)); [auto|].
  assert (x = y) by (apply nat_of_ascii_inj; lia). subst y.
  apply IH. congruence.
Qed.

Lemma string_lt_asym (a b : string) : string_lt a b = true -> string_lt b a = false.
Proof.
  intros H. destruct (string_lt b a) eqn:E; [|reflexivity].
  pose proof (string_lt_trans _ _ _ H E) as Hc.
  rewrite string_lt_irrefl in Hc. discriminate.
Qed.

Lemma KeyId_eq_spec (a b : KeyId) : KeyId_eq a b = true <-> a = b.
Proof.
  unfold KeyId_eq. destruct a as [n1 i1 v1], b as [n2 i2 v2]; simpl.
  rewrite !andb_true_iff, !bool_decide_eq_true, Z.eqb_eq.
  split; [intros [[-> ->] ->]; reflexivity | intros [= -> -> ->]; auto].
Qed.

Lemma KeyId_lt_irrefl (a : KeyId) : KeyId_lt a a = false.
Proof.
  unfold KeyId_lt. rewrite !bool_decide_eq_true_2 by reflexivity. simpl.
  apply Z.ltb_irrefl.
Qed.

Lemma KeyId_lt_trans (a b c : KeyId) :
  KeyId_lt a b = true -> KeyId_lt b c = true -> KeyId_lt a c = true.
Proof.
  unfold KeyId_lt.
  destruct a as [n1 i1 v1], b as [n2 i2 v2], c as [n3 i3 v3]; simpl.
  repeat case_bool_decide; simpl; subst; intros Hab Hbc;
    try congruence;
    try (rewrite string_lt_irrefl in *; discriminate);
    try (exfalso; pose proof (string_lt_trans _ _ _ Hab Hbc) as Hc;
         rewrite string_lt_irrefl in Hc; discriminate);
    try (eapply string_lt_trans; eassumption).
  apply Z.ltb_lt in Hab, Hbc. apply Z.ltb_lt. lia.
Qed.

Lemma KeyId_lt_total (a b : KeyId) :
  a <> b -> KeyId_lt a b = true \/ KeyId_lt b a = true.
Proof.
  unfold KeyId_lt.
  destruct a as [n1 i1 v1], b as [n2 i2 v2]; simpl. intros Hne.
  repeat case_bool_decide; simpl; subst; try congruence;
    try (apply string_lt_total; congruence).
  assert (v1 <> v2) by congruence.
  destruct (Z.ltb_spec v1 v2); [auto|]. right. apply Z.ltb_lt. lia.
Qed.

(** X2. [KeyId::operator<] is a strict total order that agrees with
    [KeyId::operator==]: no identifier is below itself, the order is
    transitive, and of two identifiers exactly one of "smaller", "equal",
    "greater" holds.  Identifiers are ordered by namespace, then by id,
    then by version. *)
Theorem KeyId_order_strict_total :
  (forall a, KeyId_lt a a = false)
  /\ (forall a b c, KeyId_lt a b = true -> KeyId_lt b c = true -> KeyId_lt a c = true)
  /\ (forall a b, KeyId_lt a b = true -> KeyId_lt b a = false /\ KeyId_eq a b = false)
  /\ (forall a b, KeyId_lt a b = false -> KeyId_lt b a = false -> KeyId_eq a b = true)
  /\ (forall a b, KeyId_eq a b = true <-> a = b)
  /\ (forall a b, KeyId_ne a b = negb (KeyId_eq a b))
  /\ (forall ns1 ns2 i1 i2 v1 v2,
        string_lt ns1 ns2 = true -> KeyId_lt (mkKeyId ns1 i1 v1) (mkKeyId ns2 i2 v2) = true)
  /\ (forall ns i1 i2 v1 v2,
        string_lt i1 i2 = true -> KeyId_lt (mkKeyId ns i1 v1) (mkKeyId ns i2 v2) = true)
  /\ (forall ns i v1 v2, KeyId_lt (mkKeyId ns i v1) (mkKeyId ns i v2) = (v1 <? v2)).
Proof.
  split; [exact KeyId_lt_irrefl|].
  split; [exact KeyId_lt_trans|].
  split.
  { intros a b H. split.
    - destruct (KeyId_lt b a) eqn:E; [|reflexivity].
      pose proof (KeyId_lt_trans _ _ _ H E) as Hc.
      rewrite KeyId_lt_irrefl in Hc. discriminate.
    - destruct (KeyId_eq a b) eqn:E; [|reflexivity].
      apply KeyId_eq_spec in E. subst b. rewrite KeyId_lt_irrefl in H. discriminate. }
  split.
  { intros a b H1 H2. apply KeyId_eq_spec.
    destruct (decide (a = b)) as [|Hne]; [assumption|].
    destruct (KeyId_lt_total a b Hne); congruence. }
  split; [exact KeyId_eq_spec|].
  split; [reflexivity|].
  split.
  { intros ns1 ns2 i1 i2 v1 v2 H. unfold KeyId_lt. simpl.
    case_bool_decide; simpl; [|assumption].
    subst. rewrite string_lt_irrefl in H. discriminate. }
  split.
  { intros ns i1 i2 v1 v2 H. unfold KeyId_lt. simpl.
    rewrite bool_decide_eq_true_2 by reflexivity. simpl.
    case_bool_decide; simpl; [|assumption].
    subst. rewrite string_lt_irrefl in H. discriminate. }
  intros ns i v1 v2. unfold KeyId_lt. simpl.
  rewrite !bool_decide_eq_true_2 by reflexivity. reflexivity.
Qed.

(** *** Usability of a key by state and expiry *)

(** X3. What a key may be used for follows its state and its expiry.  A
    key that may encrypt is active; an active key may encrypt, or decrypt,
    exactly when the operation is among its allowed operations; a
    deprecated key never encrypts and decrypts as an active key would; in
    the three other states, and once expired, a key does neither.  Expiry
    is strict (at the instant [expires_at] the key is still usable) and
    permanent. *)
Theorem key_usability_rules (m : KeyMetadata) (w : World) :
  (canEncrypt m w = true -> isActive m w = true)
  /\ (isActive m w = true ->
        (canEncrypt m w = true <-> "encrypt" ∈ md_allowed_operations m)
        /\ (canDecrypt m w = true <-> "decrypt" ∈ md_allowed_operations m))
  /\ (canEncrypt (set_state DEPRECATED m) w = false
      /\ isActive (set_state DEPRECATED m) w = false
      /\ canDecrypt (set_state DEPRECATED m) w = canDecrypt (set_state ACTIVE m) w)
  /\ (md_state m <> ACTIVE -> md_state m <> DEPRECATED ->
        canEncrypt m w = false /\ canDecrypt m w = false)
  /\ (isExpired m w = true ->
        canEncrypt m w = false /\ canDecrypt m w = false /\ isActive m w = false)
  /\ (isExpired m w = true <-> md_expires_at m < now w)
  /\ (forall w', now w <= now w' -> isExpired m w = true -> isExpired m w' = true).
Proof.
  unfold canEncrypt, canDecrypt, isActive, isExpired.
  destruct m as [id algo ty st cr ex ro pv ow ops uc]; cbn.
  repeat split; intros;
    try (repeat case_bool_decide; cbn in *; try discriminate; try contradiction;
         try congruence;
         destruct (now w >? ex) eqn:E; cbn in *; try discriminate; try congruence;
         auto; fail).
  all: repeat match goal with
       | H : (_ >? _) = true |- _ => apply Z.gtb_lt in H
       | |- (_ >? _) = true => apply Z.gtb_lt
       end; try lia.
Qed.

(** *** Deprecating a key *)

(** X4. [deprecateKey] looks at nothing but the presence of the key: when
    it succeeds the key was stored, and is now stored with the state
    Deprecated whatever its state was (a destroyed key included), with its
    encrypted material, nonce, tag and other metadata as before; it can no
    longer encrypt; no other record is touched.  A key that is not stored
    gives [KEY_NOT_FOUND], and every failure leaves the store as it is. *)
Theorem deprecateKey_effect {C : Type}
    (ks : KeyService (Unreliable InMemoryKeyStore) C) (id : KeyId) :
  (forall ks', deprecateKey id ks = (Ok tt, ks') ->
     exists k,
       stored ks !! KeyId_toString id = Some k
       /\ stored ks' !! KeyId_toString id
          = Some (mkEncryptedKey (encrypted_material k) (ek_iv k) (ek_tag k) (kek_id k)
                    (set_state DEPRECATED (metadata k)))
       /\ (forall other, other <> KeyId_toString id ->
             stored ks' !! other = stored ks !! other)
       /\ (forall w, canEncrypt (set_state DEPRECATED (metadata k)) w = false))
  /\ (stored ks !! KeyId_toString id = None ->
      head (outages (key_store_ ks)) <> Some true ->
      error_code (fst (deprecateKey id ks)) = Some KEY_NOT_FOUND)
  /\ (forall r ks', deprecateKey id ks = (r, ks') -> has_value r = false ->
        stored ks' = stored ks).
Proof.
  split; [|split].
  - intros ks' Hrun.
    apply deprecateKey_inv in Hrun as (_ & _ & [(_ & k & Hk & Hst) | (Hbad & _)]);
      [|discriminate].
    exists k. split; [assumption|]. rewrite Hst. split; [apply lookup_insert_eq|].
    split.
    + intros other Hne. apply lookup_insert_ne. congruence.
    + intros w. unfold canEncrypt. destruct (metadata k); reflexivity.
  - intros Hnone Hhead. unfold deprecateKey, bind, on_store.
    cbn [ks_retrieve Unreliable_store]. unfold with_outage.
    destruct (outages (key_store_ ks)) as [|[] later];
      cbn [ks_retrieve InMemoryKeyStore_store]; rewrite ?Hnone;
      [reflexivity | now destruct Hhead | reflexivity].
  - intros r ks' Hrun Hbad.
    apply deprecateKey_inv in Hrun as (_ & _ & [(Hok & _) | (_ & Hst)]);
      [congruence | assumption].
Qed.

Lemma deprecateKey_effect_witness :
  let ks := sample_service first_key DESTROYED [] in
  exists ks' k,
    deprecateKey first_key ks = (Ok tt, ks')
    /\ stored ks !! KeyId_toString first_key = Some k
    /\ md_state (metadata k) = DESTROYED
    /\ (md_state <$> (metadata <$> stored ks' !! KeyId_toString first_key)) = Some DEPRECATED.
Proof.
  intros ks.
  assert (E : has_value (fst (deprecateKey first_key ks)) = true
              /\ stored ks !! KeyId_toString first_key
                 = Some (sample_record first_key DESTROYED))
    by (vm_compute; split; reflexivity).
  destruct E as [Hv Hs].
  destruct (deprecateKey first_key ks) as [[[]|e] ks'] eqn:Hrun; [|discriminate].
  destruct (proj1 (deprecateKey_effect ks first_key) ks' Hrun) as (k & Hk & Hk' & _).
  exists ks', k. split; [reflexivity|]. split; [exact Hk|].
  split.
  - rewrite Hs in Hk. injection Hk as <-. reflexivity.
  - rewrite Hk'. destruct (metadata k). reflexivity.
Defined.

(** *** What [removePKCS7Padding] accepts *)

Lemma padding_bytes_ok_inv (data : bytes) (b : byte) (steps i : nat) :
  padding_bytes_ok data b i steps = true ->
  forall j, (i <= j < i + steps)%nat -> data !! j = Some b.
Proof.
  revert i. induction steps as [|steps IH]; intros i Hok j Hj; [lia|].
  simpl in Hok. destruct (data !! i) as [x|] eqn:Hx; [|discriminate].
  destruct (byte_eqb x b) eqn:E; simpl in Hok; [|discriminate].
  apply byte_eqb_true in E. subst x.
  destruct (decide (j = i)) as [->|Hne]; [assumption|].
  apply (IH (S i)); [assumption | lia].
Qed.

Lemma removePKCS7Padding_padded (d : bytes) (p : Z) :
  1 <= p <= 16 ->
  removePKCS7Padding (d ++ replicate (Z.to_nat p) (u8 p)) = Ok d.
Proof.
  intros Hp. unfold removePKCS7Padding.
  assert (Hb : byte_to_Z (u8 p) = p) by (apply byte_to_Z_u8; lia).
  assert (Hrep : replicate (Z.to_nat p) (u8 p) = replicate (Z.to_nat p - 1) (u8 p) ++ [u8 p]).
  { replace (Z.to_nat p) with (S (Z.to_nat p - 1)) at 1 by lia.
    now rewrite replicate_S_end. }
  rewrite Hrep at 1. rewrite app_assoc, last_snoc.
  rewrite Hb, size_app, size_replicate.
  pose proof (size_nonneg d).
  rewrite eqb_false by lia.
  rewrite (gtb_false p aes_cbc.BLOCK_SIZE) by (unfold aes_cbc.BLOCK_SIZE; lia).
  rewrite gtb_false by lia.
  simpl orb. cbv iota.
  replace (Z.to_nat (size d + Z.of_nat (Z.to_nat p) - p)) with (length d)
    by (unfold size; lia).
  rewrite padding_bytes_ok_all.
  - now rewrite take_app_length.
  - intros j Hj. rewrite lookup_app_r by lia.
    apply lookup_replicate_2. lia.
Qed.

Lemma removePKCS7Padding_inv (data d : bytes) :
  removePKCS7Padding data = Ok d ->
  exists p, 1 <= p <= 16 /\ data = d ++ replicate (Z.to_nat p) (u8 p).
Proof.
  unfold removePKCS7Padding.
  destruct (last data) as [b|] eqn:Hlast; [|discriminate].
  pose proof (byte_to_Z_range b) as Hb.
  set (n := byte_to_Z b) in *.
  destruct (n =? 0) eqn:E0; [discriminate|]. apply Z.eqb_neq in E0.
  destruct (n >? aes_cbc.BLOCK_SIZE) eqn:E1; [discriminate|].
  destruct (n >? size data) eqn:E2; [discriminate|]. cbn [orb].
  rewrite Z.gtb_ltb in E1, E2. apply Z.ltb_ge in E1, E2.
  unfold aes_cbc.BLOCK_SIZE in E1.
  destruct (padding_bytes_ok data b (Z.to_nat (size data - n)) (Z.to_nat n)) eqn:Hok;
    [|discriminate].
  intros [= <-]. exists n. split; [lia|].
  subst n. rewrite u8_byte_to_Z.
  rewrite <- (take_drop (Z.to_nat (size data - byte_to_Z b)) data) at 1.
  f_equal. apply list_eq. intros j.
  rewrite lookup_drop.
  destruct (decide (j < Z.to_nat (byte_to_Z b))%nat) as [Hj|Hj].
  - rewrite (padding_bytes_ok_inv _ _ _ _ Hok) by lia.
    symmetry. apply lookup_replicate_2. lia.
  - rewrite (proj1 (lookup_replicate_None _ _ _)) by lia.
    apply lookup_ge_None. unfold size in *. lia.
Qed.

Lemma removePKCS7Padding_error_code (data : bytes) :
  has_value (removePKCS7Padding data) = false ->
  error_code (removePKCS7Padding data) = Some PADDING_ERROR.
Proof.
  unfold removePKCS7Padding.
  destruct (last data); [|reflexivity].
  destruct (_ || _); [reflexivity|].
  destruct (padding_bytes_ok _ _ _ _); [discriminate | reflexivity].
Qed.

(** X5. [removePKCS7Padding] accepts exactly the buffers that end in [p]
    bytes of value [p] for a [p] from 1 to 16, [p] being the last byte,
    and returns what precedes them; the length of the buffer need not be a
    multiple of the block size.  Everything else, the empty buffer
    included, is a [PADDING_ERROR]. *)
Theorem removePKCS7Padding_accepts (data : bytes) :
  (forall d, removePKCS7Padding data = Ok d <->
        exists p, 1 <= p <= 16 /\ data = d ++ replicate (Z.to_nat p) (u8 p))
  /\ (has_value (removePKCS7Padding data) = false ->
        error_code (removePKCS7Padding data) = Some PADDING_ERROR)
  /\ (data = [] -> removePKCS7Padding data = Err_ PADDING_ERROR "Empty data").
Proof.
  split; [|split].
  - intros d. split; [apply removePKCS7Padding_inv|].
    intros (p & Hp & ->). now apply removePKCS7Padding_padded.
  - apply removePKCS7Padding_error_code.
  - intros ->. reflexivity.
Qed.


(** *** UUIDs as text *)

Lemma hex_digit_cases (v : Z) :
  0 <= v < 16 ->
  hex_to_int (hex_digit v) = Some v /\ is_lower_hex (hex_digit v) = true
  /\ hex_digit v <> "-"%char.
Proof.
  intros Hv.
  assert (Hc : v = 0 \/ v = 1 \/ v = 2 \/ v = 3 \/ v = 4 \/ v = 5 \/ v = 6 \/ v = 7
               \/ v = 8 \/ v = 9 \/ v = 10 \/ v = 11 \/ v = 12 \/ v = 13 \/ v = 14
               \/ v = 15) by lia.
  repeat (destruct Hc as [->|Hc]; [repeat split; (reflexivity || discriminate)|]).
  subst v. repeat split; (reflexivity || discriminate).
Qed.

Lemma nibbles_range (b : byte) :
  0 <= byte_to_Z b / 16 < 16 /\ 0 <= byte_to_Z b mod 16 < 16.
Proof.
  pose proof (byte_to_Z_range b). split.
  - split; [apply Z.div_pos; lia | apply Z.div_lt_upper_bound; lia].
  - apply Z.mod_pos_bound. lia.
Qed.

Lemma nibbles_join (b : byte) :
  u8 (Z.lor (Z.shiftl (byte_to_Z b / 16) 4) (byte_to_Z b mod 16)) = b.
Proof. destruct b; reflexivity. Qed.

Lemma UUID_parse_from_hex2 (b : byte) (rest : string) (acc : bytes) :
  (length acc < 16)%nat ->
  UUID_parse_from (hex2 b +:+ rest) acc = UUID_parse_from rest (acc ++ [b]).
Proof.
  intros Hlen. unfold hex2. rewrite !string_app_cons, string_app_nil_l.
  destruct (nibbles_range b) as [Hh Hl].
  destruct (hex_digit_cases _ Hh) as (Hhi & _ & Hnd).
  destruct (hex_digit_cases _ Hl) as (Hlo & _ & _).
  cbn [UUID_parse_from].
  destruct (Nat.leb_spec 16 (length acc)); [lia|].
  rewrite bool_decide_eq_false_2 by assumption.
  rewrite Hhi, Hlo, nibbles_join. reflexivity.
Qed.

Lemma UUID_parse_from_hyphen (rest : string) (acc : bytes) :
  (length acc < 16)%nat ->
  UUID_parse_from ("-" +:+ rest) acc = UUID_parse_from rest acc.
Proof.
  intros Hlen. rewrite string_app_cons, string_app_nil_l.
  cbn [UUID_parse_from].
  destruct (Nat.leb_spec 16 (length acc)); [lia|].
  rewrite bool_decide_eq_true_2 by reflexivity. reflexivity.
Qed.

Lemma UUID_parse_from_full (s : string) (acc : bytes) :
  (16 <= length acc)%nat -> UUID_parse_from s acc = Some acc.
Proof.
  intros Hlen. destruct s; cbn [UUID_parse_from];
    destruct (Nat.leb_spec 16 (length acc)); (reflexivity || lia).
Qed.

Lemma length_hex2_app (b : byte) (rest : string) :
  String.length (hex2 b +:+ rest) = S (S (String.length rest)).
Proof. unfold hex2. rewrite !string_app_cons, string_app_nil_l. reflexivity. Qed.

Lemma shape_hex2 (b : byte) (rest : string) (i : nat) :
  ~ (i = 8 \/ i = 13 \/ i = 18 \/ i = 23)%nat ->
  ~ (S i = 8 \/ S i = 13 \/ S i = 18 \/ S i = 23)%nat ->
  hyphenated_lower_hex_from i (hex2 b +:+ rest)
  = hyphenated_lower_hex_from (S (S i)) rest.
Proof.
  intros H1 H2. unfold hex2. rewrite !string_app_cons, string_app_nil_l.
  destruct (nibbles_range b) as [Hh Hl].
  destruct (hex_digit_cases _ Hh) as (_ & Hhi & _).
  destruct (hex_digit_cases _ Hl) as (_ & Hlo & _).
  cbn [hyphenated_lower_hex_from].
  rewrite !bool_decide_eq_false_2 by assumption.
  rewrite Hhi, Hlo. reflexivity.
Qed.

Lemma UUID_to_string_16 (b0 b1 b2 b3 b4 b5 b6 b7 b8 b9 b10 b11 b12 b13 b14 b15 : byte) :
  UUID_to_string [b0; b1; b2; b3; b4; b5; b6; b7; b8; b9; b10; b11; b12; b13; b14; b15]
  = hex2 b0 +:+ hex2 b1 +:+ hex2 b2 +:+ hex2 b3 +:+ "-" +:+ hex2 b4 +:+ hex2 b5 +:+ "-"
    +:+ hex2 b6 +:+ hex2 b7 +:+ "-" +:+ hex2 b8 +:+ hex2 b9 +:+ "-" +:+ hex2 b10
    +:+ hex2 b11 +:+ hex2 b12 +:+ hex2 b13 +:+ hex2 b14 +:+ hex2 b15 +:+ "".
Proof.
  unfold UUID_to_string. cbn [UUID_to_string_from].
  repeat match goal with
         | |- context [bool_decide ?P] =>
             first [ rewrite (bool_decide_eq_true_2 P) by lia
                   | rewrite (bool_decide_eq_false_2 P) by lia ]
         end.
  rewrite !string_app_nil_l. reflexivity.
Qed.

Lemma UUID_text_shape (u : bytes) :
  length u = 16%nat ->
  String.length (UUID_to_string u) = 36%nat
  /\ hyphenated_lower_hex_from 0 (UUID_to_string u) = true.
Proof.
  intros Hlen.
  do 16 (destruct u as [|? u]; [discriminate|]).
  destruct u; [|discriminate]. clear Hlen.
  rewrite UUID_to_string_16.
  split.
  - repeat first [ rewrite length_hex2_app
                 | rewrite string_app_cons, string_app_nil_l; cbn [String.length] ].
    reflexivity.
  - repeat first [ rewrite shape_hex2 by lia
                 | rewrite string_app_cons, string_app_nil_l;
                   cbn [hyphenated_lower_hex_from];
                   rewrite (bool_decide_eq_true_2 (_ \/ _)) by lia;
                   rewrite (bool_decide_eq_true_2 (_ = _)) by reflexivity;
                   cbn [andb] ].
    reflexivity.
Qed.

(** X6. The text of a UUID is 36 characters long, with hyphens at the
    positions 8, 13, 18 and 23 and lower-case hexadecimal digits
    elsewhere, and [UUID::parse] reads it back to the same sixteen
    bytes. *)
Theorem UUID_text_roundtrip (u : bytes) :
  length u = 16%nat ->
  String.length (UUID_to_string u) = 36%nat
  /\ hyphenated_lower_hex_from 0 (UUID_to_string u) = true
  /\ UUID_parse (UUID_to_string u) = Some u.
Proof.
  intros Hlen.
  destruct (UUID_text_shape u Hlen) as [Hl Hs].
  split; [assumption|]. split; [assumption|].
  unfold UUID_parse. rewrite Hl. cbn [Nat.eqb negb].
  do 16 (destruct u as [|? u]; [discriminate|]).
  destruct u; [|discriminate]. clear Hlen Hl Hs.
  rewrite UUID_to_string_16.
  repeat first [ rewrite UUID_parse_from_hex2 by (cbn; lia)
               | rewrite UUID_parse_from_hyphen by (cbn; lia) ].
  cbn [app]. rewrite UUID_parse_from_full by (cbn; lia). reflexivity.
Qed.

Lemma UUID_text_roundtrip_witness :
  let u := fst (UUID_generate sample_world) in
  length u = 16%nat /\ UUID_parse (UUID_to_string u) = Some u.
Proof.
  intros u.
  assert (Hlen : length u = 16%nat) by (vm_compute; reflexivity).
  split; [exact Hlen|].
  exact (proj2 (proj2 (UUID_text_roundtrip u Hlen))).
Defined.

(** *** Generated identifiers *)

Lemma KeyId_parse_toString (k : KeyId) :
  no_colon (namespace_prefix k) = true -> no_colon (kid k) = true ->
  0 <= version k < 2 ^ 32 ->
  KeyId_parse (KeyId_toString k) = Ok k.
Proof.
  destruct k as [ns id v]. cbn [namespace_prefix kid version]. intros Hns Hid Hv.
  apply KeyId_parse_ok_iff.
  destruct (to_string_digits v) as (Hd & Hne & _); [lia|].
  exists ns, id, (to_string v), v. split; [|split].
  - apply getline_parts_three. repeat split; try assumption.
    + now apply all_digits_no_colon.
    + left. split; [reflexivity | assumption].
  - apply stoul_to_string. unfold ULONG_MAX. lia.
  - unfold u32. now rewrite Z.mod_small by lia.
Qed.

Lemma KeyId_toString_inj (k1 k2 : KeyId) :
  no_colon (namespace_prefix k1) = true -> no_colon (kid k1) = true ->
  0 <= version k1 < 2 ^ 32 ->
  no_colon (namespace_prefix k2) = true -> no_colon (kid k2) = true ->
  0 <= version k2 < 2 ^ 32 ->
  KeyId_toString k1 = KeyId_toString k2 -> k1 = k2.
Proof.
  intros Hn1 Hi1 Hv1 Hn2 Hi2 Hv2 Heq.
  pose proof (KeyId_parse_toString k1 Hn1 Hi1 Hv1) as P1.
  pose proof (KeyId_parse_toString k2 Hn2 Hi2 Hv2) as P2.
  rewrite Heq in P1. congruence.
Qed.

Lemma lower_hex_no_colon_from (i : nat) (s : string) :
  hyphenated_lower_hex_from i s = true -> no_colon s = true.
Proof.
  revert i. induction s as [|c s IH]; intros i; [reflexivity|].
  cbn [hyphenated_lower_hex_from no_colon]. intros H.
  apply andb_true_iff in H as [Hc Hrest].
  rewrite (IH _ Hrest), andb_true_r.
  apply negb_true_iff, bool_decide_eq_false. intros ->.
  case_bool_decide; [discriminate|].
  unfold is_lower_hex in Hc. apply bool_decide_eq_true in Hc.
  change (nat_of_ascii ":") with 58%nat in Hc. lia.
Qed.

Lemma version_nibble (b : byte) :
  byte_to_Z (u8 (Z.lor (Z.land (byte_to_Z b) 15) 64)) / 16 = 4
  /\ byte_to_Z (u8 (Z.lor (Z.land (byte_to_Z b) 15) 64)) mod 16 = byte_to_Z b mod 16.
Proof. destruct b; split; reflexivity. Qed.

Lemma variant_bits (b : byte) :
  byte_to_Z (u8 (Z.lor (Z.land (byte_to_Z b) 63) 128)) / 64 = 2
  /\ byte_to_Z (u8 (Z.lor (Z.land (byte_to_Z b) 63) 128)) mod 64 = byte_to_Z b mod 64.
Proof. destruct b; split; reflexivity. Qed.

Lemma UUID_generate_bytes (w : World) :
  let r0 := u64 (mt_draws w (mt_pos w)) in
  let r1 := u64 (mt_draws w (S (mt_pos w))) in
  fst (UUID_generate w)
  = [byte_of r0 0; byte_of r0 1; byte_of r0 2; byte_of r0 3; byte_of r0 4; byte_of r0 5;
     u8 (Z.lor (Z.land (byte_to_Z (byte_of r0 6)) 15) 64); byte_of r0 7;
     u8 (Z.lor (Z.land (byte_to_Z (byte_of r1 0)) 63) 128); byte_of r1 1; byte_of r1 2;
     byte_of r1 3; byte_of r1 4; byte_of r1 5; byte_of r1 6; byte_of r1 7].
Proof. reflexivity. Qed.

(** X7. [UUID::generate] draws two 64-bit values from the generator and
    lays them out in memory (least significant byte first); it then forces
    the high half of byte 6 to 4 and the two top bits of byte 8 to 10,
    keeping the other 122 bits as drawn.  In the text of the identifier
    the character 14 is therefore '4' and the character 19 one of '8',
    '9', 'a', 'b'. *)
Theorem UUID_generate_version4 (w : World) :
  let u := fst (UUID_generate w) in
  let drawn := le_bytes 8 (u64 (mt_draws w (mt_pos w)))
               ++ le_bytes 8 (u64 (mt_draws w (S (mt_pos w)))) in
  length u = 16%nat
  /\ mt_pos (snd (UUID_generate w)) = S (S (mt_pos w))
  /\ (forall i, i <> 6%nat -> i <> 8%nat -> u !! i = drawn !! i)
  /\ (exists b6 d6, u !! 6%nat = Some b6 /\ drawn !! 6%nat = Some d6
        /\ byte_to_Z b6 / 16 = 4 /\ byte_to_Z b6 mod 16 = byte_to_Z d6 mod 16)
  /\ (exists b8 d8, u !! 8%nat = Some b8 /\ drawn !! 8%nat = Some d8
        /\ byte_to_Z b8 / 64 = 2 /\ byte_to_Z b8 mod 64 = byte_to_Z d8 mod 64)
  /\ at_ (UUID_to_string u) 14 = Some "4"%char
  /\ (exists c, at_ (UUID_to_string u) 19 = Some c
        /\ (c = "8" \/ c = "9" \/ c = "a" \/ c = "b")%char).
Proof.
  intros u drawn. subst u. rewrite UUID_generate_bytes. cbv zeta.
  set (r0 := u64 (mt_draws w (mt_pos w))).
  set (r1 := u64 (mt_draws w (S (mt_pos w)))).
  assert (Hd : drawn =
    [byte_of r0 0; byte_of r0 1; byte_of r0 2; byte_of r0 3; byte_of r0 4; byte_of r0 5;
     byte_of r0 6; byte_of r0 7;
     byte_of r1 0; byte_of r1 1; byte_of r1 2;
     byte_of r1 3; byte_of r1 4; byte_of r1 5; byte_of r1 6; byte_of r1 7])
    by reflexivity.
  rewrite Hd. clear Hd drawn.
  destruct (version_nibble (byte_of r0 6)) as [Hv1 Hv2].
  destruct (variant_bits (byte_of r1 0)) as [Hr1 Hr2].
  split; [reflexivity|].
  split; [reflexivity|].
  split.
  { intros i H6 H8.
    do 16 (destruct i as [|i]; [reflexivity || congruence|]). reflexivity. }
  split; [eexists _, _; repeat split; eassumption|].
  split; [eexists _, _; repeat split; eassumption|].
  unfold UUID_to_string, at_. cbn [UUID_to_string_from].
  repeat match goal with
         | |- context [bool_decide ?P] =>
             first [ rewrite (bool_decide_eq_true_2 P) by lia
                   | rewrite (bool_decide_eq_false_2 P) by lia ]
         end.
  unfold hex2. rewrite ?string_app_cons, ?string_app_nil_l.
  cbn [String.get]. split.
  - rewrite Hv1. reflexivity.
  - eexists. split; [reflexivity|].
    set (b := u8 (Z.lor (Z.land (byte_to_Z (byte_of r1 0)) 63) 128)) in *.
    assert (Hq : byte_to_Z b / 16 = 8 \/ byte_to_Z b / 16 = 9
                 \/ byte_to_Z b / 16 = 10 \/ byte_to_Z b / 16 = 11).
    { pose proof (byte_to_Z_range b). clear - Hr1 H. Z.div_mod_to_equations. lia. }
    destruct Hq as [-> | [-> | [-> | ->]]]; auto.
Qed.

(** X8. [KeyId::generate(ns)] gives the version 1 in the namespace [ns],
    with a fresh version-4 UUID in its 36-character text form as id.  The
    identifier is valid exactly when the namespace is not empty, and, when
    the namespace holds no colon, [KeyId::parse] reads the printed
    identifier back. *)
Theorem KeyId_generate_wellformed (ns : string) (w : World) :
  let k := fst (KeyId_generate ns w) in
  namespace_prefix k = ns
  /\ version k = 1
  /\ kid k = UUID_to_string (fst (UUID_generate w))
  /\ String.length (kid k) = 36%nat
  /\ hyphenated_lower_hex_from 0 (kid k) = true
  /\ (KeyId_isValid k = true <-> ns <> "")
  /\ (no_colon ns = true -> KeyId_parse (KeyId_toString k) = Ok k)
  /\ snd (KeyId_generate ns w) = snd (UUID_generate w).
Proof.
  intros k. subst k. unfold KeyId_generate.
  destruct (UUID_generate w) as [u w'] eqn:Hu. cbn [fst snd namespace_prefix version kid].
  assert (Hlen : length u = 16%nat).
  { pose proof (UUID_generate_bytes w) as Hb. rewrite Hu in Hb. cbn [fst] in Hb.
    rewrite Hb. reflexivity. }
  destruct (UUID_text_shape u Hlen) as (Hl & Hshape).
  repeat split; try assumption.
  - unfold KeyId_isValid. cbn. intros H.
    apply andb_true_iff in H as [H _]. apply andb_true_iff in H as [H _].
    apply negb_true_iff, bool_decide_eq_false in H. assumption.
  - unfold KeyId_isValid. cbn. intros Hne.
    rewrite (bool_decide_eq_false_2 (ns = "")) by assumption. cbn.
    rewrite andb_true_r. apply negb_true_iff, bool_decide_eq_false.
    intros E. rewrite E in Hl. discriminate.
  - intros Hns. apply KeyId_parse_toString; cbn; [assumption | | lia].
    eapply lower_hex_no_colon_from; eassumption.
Qed.


(** *** Trace contexts written and read back *)

Lemma string_length_app (a b : string) :
  String.length (a +:+ b) = (String.length a + String.length b)%nat.
Proof.
  induction a as [|c a IH]; [now rewrite string_app_nil_l|].
  rewrite string_app_cons. cbn [String.length]. now rewrite IH.
Qed.

Lemma substring_app_skip (a b : string) (k n m : nat) :
  String.length a = k ->
  String.substring (k + n) m (a +:+ b) = String.substring n m b.
Proof.
  intros <-. induction a as [|c a IH]; [now rewrite string_app_nil_l|].
  rewrite string_app_cons. cbn [String.length Nat.add String.substring]. exact IH.
Qed.

Lemma substring_app_exact (a b : string) (k : nat) :
  String.length a = k -> String.substring 0 k (a +:+ b) = a.
Proof.
  intros <-. induction a as [|c a IH].
  - rewrite string_app_nil_l. now destruct b.
  - rewrite string_app_cons. cbn [String.length String.substring]. now rewrite IH.
Qed.

Lemma get_app_skip (a b : string) (k n : nat) :
  String.length a = k -> String.get (k + n) (a +:+ b) = String.get n b.
Proof.
  intros <-. induction a as [|c a IH]; [now rewrite string_app_nil_l|].
  rewrite string_app_cons. cbn [String.length Nat.add String.get]. exact IH.
Qed.

Lemma substring_substring (s : string) (p k n m : nat) :
  (n + m <= k)%nat ->
  String.substring n m (String.substring p k s) = String.substring (p + n) m s.
Proof.
  revert s. induction p as [|p IH]; intros s Hle.
  - apply substring_prefix. assumption.
  - destruct s as [|c s]; cbn [String.substring Nat.add].
    + destruct k; destruct n; destruct m; reflexivity.
    + now apply IH.
Qed.

Lemma toTraceparent_parse (tid sid : string) (flag : bool) ps ts :
  String.length tid = 32%nat -> String.length sid = 16%nat ->
  all_zero tid = false -> all_zero sid = false ->
  TraceContext_parse (toTraceparent (mkTraceContext tid sid ps flag ts))
  = Some (mkTraceContext tid sid "" flag ∅).
Proof.
  intros Ht Hs Hzt Hzs. unfold toTraceparent. cbn [trace_id span_id sampled].
  set (tail := "-" +:+ sid +:+ "-" +:+ (if flag then "01" else "00")).
  assert (Hlen : String.length ("00-" +:+ tid +:+ tail) = 55%nat).
  { subst tail. rewrite !string_length_app, Ht, Hs. now destruct flag. }
  rewrite TraceContext_parse_unfold by lia.
  unfold substr, at_.
  assert (H3 : String.substring 0 3 ("00-" +:+ tid +:+ tail) = "00-")
    by now apply substring_app_exact.
  assert (Htid : String.substring 3 32 ("00-" +:+ tid +:+ tail) = tid).
  { rewrite (substring_app_skip "00-" _ 3 0) by reflexivity.
    now apply substring_app_exact. }
  assert (Hsid : String.substring 36 16 ("00-" +:+ tid +:+ tail) = sid).
  { rewrite (substring_app_skip "00-" _ 3 33) by reflexivity.
    rewrite (substring_app_skip tid _ 32 1) by assumption.
    subst tail. rewrite (substring_app_skip "-" _ 1 0) by reflexivity.
    now apply substring_app_exact. }
  assert (Hflag : String.get 54 ("00-" +:+ tid +:+ tail)
                  = Some (if flag then "1"%char else "0"%char)).
  { rewrite (get_app_skip "00-" _ 3 51) by reflexivity.
    rewrite (get_app_skip tid _ 32 19) by assumption.
    subst tail. rewrite (get_app_skip "-" _ 1 18) by reflexivity.
    rewrite (get_app_skip sid _ 16 2) by assumption.
    now destruct flag. }
  rewrite H3, Htid, Hsid, Hflag, Hzt, Hzs.
  rewrite bool_decide_eq_true_2 by reflexivity. cbn [negb].
  destruct flag; reflexivity.
Qed.

Lemma TraceContext_parse_inv (s : string) (ctx : TraceContext) :
  TraceContext_parse s = Some ctx ->
  (55 <= String.length s)%nat
  /\ all_zero (substr s 3 32) = false /\ all_zero (substr s 36 16) = false
  /\ ctx = mkTraceContext (substr s 3 32) (substr s 36 16) ""
             (bool_decide (at_ s 54 = Some "1"%char)) ∅.
Proof.
  intros Hp.
  assert (Hlen : (55 <= String.length s)%nat).
  { unfold TraceContext_parse in Hp.
    destruct (Nat.ltb_spec (String.length s) 55); [discriminate | assumption]. }
  split; [assumption|].
  rewrite TraceContext_parse_unfold in Hp by assumption.
  destruct (negb _); [discriminate|].
  destruct (all_zero (substr s 3 32)); [discriminate|].
  destruct (all_zero (substr s 36 16)); [discriminate|].
  injection Hp as <-. auto.
Qed.

(** X9. A trace context with a trace id of 32 characters and a span id of
    16, neither all zeros, written by [toTraceparent] is read back by
    [TraceContext::parse] with the same trace id, span id and sampling
    flag; the parent span id and the trace state are not part of the
    header and come back empty.  Every context that [parse] returns is
    valid and is read back unchanged from its own header, and its
    correlation id is the first 16 characters of the trace id. *)
Theorem traceparent_roundtrip :
  (forall ctx,
     TraceContext_isValid ctx = true ->
     all_zero (trace_id ctx) = false -> all_zero (span_id ctx) = false ->
     TraceContext_parse (toTraceparent ctx)
     = Some (mkTraceContext (trace_id ctx) (span_id ctx) "" (sampled ctx) ∅))
  /\ (forall s ctx,
        TraceContext_parse s = Some ctx ->
        TraceContext_isValid ctx = true
        /\ TraceContext_parse (toTraceparent ctx) = Some ctx
        /\ correlationId ctx = substr s 3 16).
Proof.
  split.
  - intros [tid sid ps flag ts]. unfold TraceContext_isValid.
    cbn [trace_id span_id sampled]. intros Hv Hzt Hzs.
    apply andb_true_iff in Hv as [Ht Hs]. apply Nat.eqb_eq in Ht, Hs.
    now apply toTraceparent_parse.
  - intros s ctx Hp.
    apply TraceContext_parse_inv in Hp as (Hlen & Hzt & Hzs & ->).
    assert (Ht : String.length (substr s 3 32) = 32%nat)
      by (apply length_substring; lia).
    assert (Hs : String.length (substr s 36 16) = 16%nat)
      by (apply length_substring; lia).
    split; [|split].
    + unfold TraceContext_isValid. cbn [trace_id span_id]. now rewrite Ht, Hs.
    + now apply toTraceparent_parse.
    + unfold correlationId. cbn [trace_id].
      rewrite bool_decide_eq_false_2.
      * unfold substr. now rewrite substring_substring by lia.
      * intros E. rewrite E in Ht. discriminate.
Qed.

Lemma traceparent_roundtrip_witness :
  let ctx := mkTraceContext "0af7651916cd43dd8448eb211c80319c" "b7ad6b7169203331"
               "00f067aa0ba902b7" false {[ "vendor" := "value" ]} in
  toTraceparent ctx = "00-0af7651916cd43dd8448eb211c80319c-b7ad6b7169203331-00"
  /\ TraceContext_parse (toTraceparent ctx)
     = Some (mkTraceContext "0af7651916cd43dd8448eb211c80319c" "b7ad6b7169203331"
               "" false ∅).
Proof.
  intros ctx. split; [reflexivity|].
  apply (proj1 traceparent_roundtrip ctx); reflexivity.
Defined.


(** *** The order of the checks of [decryptGCM] *)

Section DecryptChecks.
Context {G : AESGCM}.

Lemma decryptGCM_calls (ciphertext key iv tag aad : bytes) (w : World) :
  size ciphertext <= limits.MAX_CIPHERTEXT_SIZE ->
  size aad <= limits.MAX_AAD_SIZE ->
  size key = 16 \/ size key = 32 ->
  size iv = 12 ->
  size tag = 16 ->
  calls (snd (decryptGCM ciphertext key iv tag aad w))
  = calls w
    ++ [EVP_CIPHER_CTX_new_call; EVP_DecryptInit_ex_call; EVP_CIPHER_CTX_ctrl_call;
        EVP_DecryptInit_ex_call]
    ++ (if bool_decide (aad = []) then [] else [EVP_DecryptUpdate_call])
    ++ [EVP_DecryptUpdate_call; EVP_CIPHER_CTX_ctrl_call; EVP_DecryptFinal_ex_call]
  /\ (has_value (fst (decryptGCM ciphertext key iv tag aad w)) = true
      <-> gmac key iv aad ciphertext = tag)
  /\ (has_value (fst (decryptGCM ciphertext key iv tag aad w)) = false ->
      fst (decryptGCM ciphertext key iv tag aad w) = Err (makeSafeError INTEGRITY_ERROR)).
Proof.
  intros HC HA HK HIV HT.
  destruct (getGCMCipher_some _ HK) as [c Hc].
  unfold decryptGCM, bind, check.
  rewrite validateCiphertextSize_ok, validateAADSize_ok, validateAESKeySize_ok,
    validateGCMIVSize_ok, validateGCMTagSize_ok by assumption.
  rewrite Hc. rewrite HIV.
  destruct aad as [|a aad];
    [rewrite !(bool_decide_eq_true_2 (@nil byte = [])) by reflexivity
    |rewrite !(bool_decide_eq_false_2 (a :: aad = [])) by discriminate];
    cbn -[gctr gmac write_at resize_with replicate Z.add Z.to_nat bool_decide size].
  all: unfold expect1, bind, EVP_CTRL_GCM_SET_TAG; rewrite HT;
    cbn -[gctr gmac write_at resize_with replicate Z.add Z.to_nat bool_decide size].
  all: unfold EVP_DecryptFinal_ex;
    cbn -[gctr gmac write_at resize_with replicate Z.add Z.to_nat bool_decide size].
  all: case_bool_decide;
    cbn -[gctr gmac write_at resize_with replicate Z.add Z.to_nat size].
  all: rewrite <- ?app_assoc; cbn [app].
  all: repeat split; try reflexivity; try assumption; try discriminate; try congruence.
Qed.
End DecryptChecks.

(** X10. [decryptGCM] checks the sizes of its arguments before it touches
    OpenSSL, in the order ciphertext, associated data, key, nonce, tag:
    the first size that is out of range decides the error
    ([SIZE_LIMIT_EXCEEDED], [INVALID_KEY_SIZE], [INVALID_IV_SIZE],
    [INVALID_TAG_SIZE]) and no primitive is called.  With sizes in range
    it always runs the whole sequence of calls up to
    [EVP_DecryptFinal_ex]; it returns a plaintext exactly when the tag
    matches and the one integrity error otherwise. *)
Theorem decryptGCM_check_order {G : AESGCM}
    (ciphertext key iv tag aad : bytes) (w : World) :
  let run := decryptGCM ciphertext key iv tag aad w in
  (limits.MAX_CIPHERTEXT_SIZE < size ciphertext ->
     fst run = Err_ SIZE_LIMIT_EXCEEDED "Ciphertext exceeds maximum allowed size"
     /\ snd run = w)
  /\ (size ciphertext <= limits.MAX_CIPHERTEXT_SIZE ->
      (limits.MAX_AAD_SIZE < size aad ->
         fst run = Err_ SIZE_LIMIT_EXCEEDED "AAD exceeds maximum allowed size"
         /\ snd run = w)
      /\ (size aad <= limits.MAX_AAD_SIZE ->
          (size key <> 16 -> size key <> 32 ->
             fst run = Err_ INVALID_KEY_SIZE "AES key must be 128 or 256 bits"
             /\ snd run = w)
          /\ (size key = 16 \/ size key = 32 ->
              (size iv <> 12 ->
                 fst run = Err_ INVALID_IV_SIZE "GCM IV must be 96 bits" /\ snd run = w)
              /\ (size iv = 12 ->
                  (size tag <> 16 ->
                     fst run = Err_ INVALID_TAG_SIZE "GCM tag must be 128 bits"
                     /\ snd run = w)
                  /\ (size tag = 16 ->
                      calls (snd run)
                      = calls w
                        ++ [EVP_CIPHER_CTX_new_call; EVP_DecryptInit_ex_call;
                            EVP_CIPHER_CTX_ctrl_call; EVP_DecryptInit_ex_call]
                        ++ (if bool_decide (aad = []) then [] else [EVP_DecryptUpdate_call])
                        ++ [EVP_DecryptUpdate_call; EVP_CIPHER_CTX_ctrl_call;
                            EVP_DecryptFinal_ex_call]
                      /\ (has_value (fst run) = true <-> gmac key iv aad ciphertext = tag)
                      /\ (has_value (fst run) = false ->
                          fst run = Err (mkError INTEGRITY_ERROR
                                           "Data integrity verification failed" ""))))))).
Proof.
  intros run. subst run.
  split.
  { intros H. unfold decryptGCM, bind, check, validateCiphertextSize.
    rewrite gtb_true by lia. split; reflexivity. }
  intros HC. split.
  { intros H. unfold decryptGCM, bind, check.
    rewrite validateCiphertextSize_ok by assumption.
    unfold validateAADSize. rewrite gtb_true by lia. split; reflexivity. }
  intros HA. split.
  { intros H1 H2. unfold decryptGCM, bind, check.
    rewrite validateCiphertextSize_ok, validateAADSize_ok by assumption.
    unfold validateAESKeySize. rewrite !eqb_false by assumption. split; reflexivity. }
  intros HK. split.
  { intros H. unfold decryptGCM, bind, check.
    rewrite validateCiphertextSize_ok, validateAADSize_ok, validateAESKeySize_ok
      by assumption.
    unfold validateGCMIVSize. rewrite eqb_false by assumption. split; reflexivity. }
  intros HIV. split.
  { intros H. unfold decryptGCM, bind, check.
    rewrite validateCiphertextSize_ok, validateAADSize_ok, validateAESKeySize_ok,
      validateGCMIVSize_ok by assumption.
    unfold validateGCMTagSize. rewrite eqb_false by assumption. split; reflexivity. }
  intros HT. now apply decryptGCM_calls.
Qed.

(** *** The CBC mode of the AES engine *)

Lemma whole_blocks_aligned (n : nat) : (n mod 16 = 0)%nat -> whole_blocks n = n.
Proof.
  intros H. unfold whole_blocks.
  pose proof (Nat.div_mod_eq n 16). lia.
Qed.

Lemma size_mod_16 {A} (l : list A) :
  size l mod 16 = 0 <-> (length l mod 16 = 0)%nat.
Proof.
  unfold size. 
  rewrite <- (Nat2Z.inj_iff (length l mod 16) 0).
  rewrite Nat2Z.inj_mod. reflexivity.
Qed.

Lemma validateCBCIVSize_ok (sz : Z) : sz = 16 -> validateCBCIVSize sz = Ok tt.
Proof. intros ->. reflexivity. Qed.

Lemma getCBCCipher_some (sz : Z) :
  sz = 16 \/ sz = 32 -> exists c, getCBCCipher sz = Some c.
Proof. intros [-> | ->]; eexists; reflexivity. Qed.

Lemma addPKCS7Padding_aligned (d : bytes) :
  (length (addPKCS7Padding d) mod 16 = 0)%nat
  /\ size (addPKCS7Padding d) = size d + (16 - size d mod 16).
Proof.
  pose proof (addPKCS7Padding_shape d) as Hshape. cbv zeta in Hshape.
  pose proof (padding_len_range (size d)) as Hp.
  unfold aes_cbc.BLOCK_SIZE in *.
  assert (Hsize : size (addPKCS7Padding d) = size d + (16 - size d mod 16)).
  { rewrite Hshape, size_app, size_replicate. lia. }
  split; [|assumption].
  apply size_mod_16. rewrite Hsize. pose proof (size_nonneg d).
  Z.div_mod_to_equations. lia.
Qed.

Section EngineCBC.
Context {B : AESCBC} {L : AESCBCLaws B}.

Lemma encryptCBCWithIV_ok (plaintext key iv : bytes) (w : World) :
  size plaintext <= limits.MAX_PLAINTEXT_SIZE ->
  size key = 16 \/ size key = 32 ->
  size iv = 16 ->
  fst (encryptCBCWithIV plaintext key iv w)
  = Ok (mkEncryptResult (cbc_encrypt key iv (addPKCS7Padding plaintext)) iv []).
Proof.
  intros HP HK HIV.
  destruct (getCBCCipher_some _ HK) as [c Hc].
  destruct (addPKCS7Padding_aligned plaintext) as [Hal _].
  unfold encryptCBCWithIV, bind, check.
  rewrite validatePlaintextSize_ok, validateAESKeySize_ok, validateCBCIVSize_ok
    by assumption.
  rewrite Hc.
  cbn -[cbc_encrypt addPKCS7Padding write_at resize_with replicate Z.add Z.to_nat size
        whole_blocks Nat.modulo].
  rewrite whole_blocks_aligned by assumption.
  rewrite firstn_all, !drop_0.
  unfold expect1, bind, EVP_CBC_EncryptFinal_ex.
  cbn -[cbc_encrypt addPKCS7Padding write_at resize_with replicate Z.add Z.to_nat size
        Nat.modulo].
  rewrite Hal.
  cbn -[cbc_encrypt addPKCS7Padding write_at resize_with replicate Z.add Z.to_nat size].
  rewrite buffer_roundtrip. reflexivity.
Qed.

Lemma decryptCBC_ok (ciphertext key iv : bytes) (w : World) :
  size ciphertext <= limits.MAX_CIPHERTEXT_SIZE ->
  size key = 16 \/ size key = 32 ->
  size iv = 16 ->
  size ciphertext mod 16 = 0 ->
  fst (decryptCBC ciphertext key iv w)
  = removePKCS7Padding (cbc_decrypt key iv ciphertext).
Proof.
  intros HC HK HIV Hmod.
  destruct (getCBCCipher_some _ HK) as [c Hc].
  assert (Hal : (length ciphertext mod 16 = 0)%nat) by now apply size_mod_16.
  unfold decryptCBC, bind, check.
  rewrite validateCiphertextSize_ok, validateAESKeySize_ok, validateCBCIVSize_ok
    by assumption.
  unfold aes_cbc.BLOCK_SIZE at 1. rewrite Hmod. cbn [Z.eqb negb].
  rewrite Hc.
  cbn -[cbc_decrypt removePKCS7Padding write_at resize_with replicate Z.add Z.to_nat size
        whole_blocks Nat.modulo].
  rewrite whole_blocks_aligned by assumption.
  rewrite !firstn_all, !drop_0.
  rewrite firstn_all2 by (rewrite cbc_decrypt_length by assumption; lia).
  unfold expect1, bind, EVP_CBC_DecryptFinal_ex.
  cbn -[cbc_decrypt removePKCS7Padding write_at resize_with replicate Z.add Z.to_nat size
        Nat.modulo].
  rewrite Hal.
  cbn -[cbc_decrypt removePKCS7Padding write_at resize_with replicate Z.add Z.to_nat size].
  rewrite buffer_roundtrip.
  destruct (removePKCS7Padding _); reflexivity.
Qed.

Lemma encryptCBC_inv (plaintext key : bytes) (w w' : World) (r : EncryptResult) :
  encryptCBC plaintext key w = (Ok r, w') ->
  size plaintext <= limits.MAX_PLAINTEXT_SIZE
  /\ (size key = 16 \/ size key = 32)
  /\ iv r = take 16 (entropy w)
  /\ size (iv r) = 16
  /\ r = mkEncryptResult (cbc_encrypt key (iv r) (addPKCS7Padding plaintext)) (iv r) [].
Proof.
  unfold encryptCBC, bind, generateIV, random_bytes.
  destruct (aes_cbc.IV_SIZE <=? size (entropy w)) eqn:Hent; [|discriminate].
  apply Z.leb_le in Hent. unfold aes_cbc.IV_SIZE in *.
  set (v := take (Z.to_nat 16) (entropy w)).
  assert (Hv : size v = 16).
  { unfold v, size in *. rewrite length_take. lia. }
  set (w1 := set_entropy _ _).
  intros Henc.
  destruct (Z_le_gt_dec (size plaintext) limits.MAX_PLAINTEXT_SIZE) as [HP|HP];
    [|unfold encryptCBCWithIV, bind, check in Henc;
      rewrite validatePlaintextSize_over in Henc by lia; discriminate].
  assert (HK : size key = 16 \/ size key = 32).
  { destruct (Z.eq_dec (size key) 16); [tauto|].
    destruct (Z.eq_dec (size key) 32); [tauto|].
    unfold encryptCBCWithIV, bind, check in Henc.
    rewrite validatePlaintextSize_ok in Henc by lia.
    unfold validateAESKeySize in Henc. rewrite !eqb_false in Henc by lia.
    discriminate. }
  pose proof (encryptCBCWithIV_ok plaintext key v w1 HP HK Hv) as Hok.
  rewrite Henc in Hok. simpl in Hok. injection Hok as ->. simpl.
  repeat split; auto.
Qed.

Lemma encryptCBC_succeeds (plaintext key : bytes) (w : World) :
  size plaintext <= limits.MAX_PLAINTEXT_SIZE ->
  size key = 16 \/ size key = 32 ->
  16 <= size (entropy w) ->
  exists r w', encryptCBC plaintext key w = (Ok r, w').
Proof.
  intros HP HK Hent.
  unfold encryptCBC, bind, generateIV, random_bytes.
  unfold aes_cbc.IV_SIZE.
  replace (16 <=? size (entropy w)) with true by (symmetry; apply Z.leb_le; lia).
  set (v := take (Z.to_nat 16) (entropy w)).
  assert (Hv : size v = 16).
  { unfold v, size in *. rewrite length_take. lia. }
  set (w1 := set_entropy _ _).
  pose proof (encryptCBCWithIV_ok plaintext key v w1 HP HK Hv) as Hok.
  destruct (encryptCBCWithIV plaintext key v w1) as [res w2]. simpl in Hok.
  subst res. eexists _, w2. reflexivity.
Qed.
End EngineCBC.

(** X11. In CBC mode, for a plaintext of at most 64 MiB and a key of 16
    or 32 bytes: [encryptCBC] succeeds whenever the generator delivers the
    16 bytes of the initialisation vector; its ciphertext is the plaintext
    padded to the next multiple of 16 bytes strictly above its length, the
    vector is the 16 bytes drawn, there is no tag; and [decryptCBC] with
    the same key and that vector returns the plaintext. *)
Theorem cbc_roundtrip {B : AESCBC} {L : AESCBCLaws B}
    (plaintext key : bytes) (w : World) :
  size plaintext <= 64 * 1024 * 1024 ->
  size key = 16 \/ size key = 32 ->
  (16 <= size (entropy w) -> exists r w', encryptCBC plaintext key w = (Ok r, w'))
  /\ (forall r w', encryptCBC plaintext key w = (Ok r, w') ->
        size (ciphertext r) = size plaintext + (16 - size plaintext mod 16)
        /\ iv r = take 16 (entropy w)
        /\ tag r = []
        /\ forall w2, fst (decryptCBC (ciphertext r) key (iv r) w2) = Ok plaintext).
Proof.
  intros HP HK. split.
  - intros Hent. now apply encryptCBC_succeeds.
  - intros r w' Henc.
    apply encryptCBC_inv in Henc as (_ & _ & Hiv & Hivs & Hr).
    destruct (addPKCS7Padding_aligned plaintext) as [Hal Hsz].
    assert (Hct : size (ciphertext r) = size plaintext + (16 - size plaintext mod 16)).
    { rewrite Hr. cbn [ciphertext]. unfold size at 1.
      rewrite cbc_encrypt_length by assumption. exact Hsz. }
    split; [assumption|]. split; [assumption|].
    split; [rewrite Hr; reflexivity|].
    intros w2. rewrite decryptCBC_ok; try assumption.
    + rewrite Hr. cbn [ciphertext iv]. rewrite cbc_decrypt_encrypt by assumption.
      pose proof (addPKCS7Padding_shape plaintext) as Hshape. cbv zeta in Hshape.
      rewrite Hshape. apply removePKCS7Padding_padded. apply padding_len_range.
    + rewrite Hct. unfold limits.MAX_CIPHERTEXT_SIZE.
      pose proof (Z.mod_pos_bound (size plaintext) 16). lia.
    + rewrite Hct. pose proof (size_nonneg plaintext). Z.div_mod_to_equations. lia.
Qed.

Global Instance toy_cbc_laws : AESCBCLaws toy_cbc.
Proof.
  split; intros key iv data _; cbn.
  - apply length_map.
  - apply length_map.
  - rewrite <- list_fmap_compose. rewrite <- (list_fmap_id data) at 2.
    apply list_fmap_ext. intros i b _. cbn. apply xor_byte_involutive. lia.
Qed.

Lemma cbc_roundtrip_witness :
  exists r w',
    encryptCBC (B:=toy_cbc) hello zero_key sample_world = (Ok r, w')
    /\ size (ciphertext r) = 16
    /\ iv r = string_bytes "0123456789abcdef"
    /\ fst (decryptCBC (B:=toy_cbc) (ciphertext r) zero_key (iv r) w') = Ok hello.
Proof.
  assert (H1 : size hello <= 64 * 1024 * 1024) by (vm_compute; discriminate).
  assert (H2 : size zero_key = 16 \/ size zero_key = 32) by (right; reflexivity).
  destruct (@cbc_roundtrip toy_cbc toy_cbc_laws hello zero_key sample_world H1 H2)
    as [Hex Hall].
  assert (H3 : 16 <= size (entropy sample_world)) by (vm_compute; discriminate).
  destruct (Hex H3) as (r & w' & Hrun).
  destruct (Hall r w' Hrun) as (Hsz & Hiv & _ & Hdec).
  exists r, w'. split; [exact Hrun|].
  split; [rewrite Hsz; reflexivity|].
  split; [rewrite Hiv; reflexivity|].
  apply Hdec.
Defined.

(** X12. On a ciphertext of at most 64 MiB + 1 KiB, with a key of 16 or 32
    bytes and a vector of 16 bytes, [decryptCBC] rejects a length that is
    not a multiple of 16 with [INVALID_INPUT] before any primitive is
    called; otherwise it decrypts all the blocks and its answer is that of
    [removePKCS7Padding] on the decrypted blocks.  So the only other error
    is [PADDING_ERROR], which tells the caller that the padding of the
    decrypted text was wrong, and the empty ciphertext is a
    [PADDING_ERROR] too. *)
Theorem decryptCBC_outcomes {B : AESCBC} {L : AESCBCLaws B}
    (ciphertext key iv : bytes) (w : World) :
  size ciphertext <= 64 * 1024 * 1024 + 1024 ->
  size key = 16 \/ size key = 32 ->
  size iv = 16 ->
  (size ciphertext mod 16 <> 0 ->
     decryptCBC ciphertext key iv w
     = (Err_ INVALID_INPUT "Ciphertext must be multiple of block size", w))
  /\ (size ciphertext mod 16 = 0 ->
      fst (decryptCBC ciphertext key iv w)
      = removePKCS7Padding (cbc_decrypt key iv ciphertext))
  /\ (ciphertext = [] ->
      fst (decryptCBC ciphertext key iv w) = Err_ PADDING_ERROR "Empty data")
  /\ (has_value (fst (decryptCBC ciphertext key iv w)) = false ->
      error_code (fst (decryptCBC ciphertext key iv w)) = Some INVALID_INPUT
      \/ error_code (fst (decryptCBC ciphertext key iv w)) = Some PADDING_ERROR).
Proof.
  intros HC HK HIV.
  assert (Hbad : size ciphertext mod 16 <> 0 ->
     decryptCBC ciphertext key iv w
     = (Err_ INVALID_INPUT "Ciphertext must be multiple of block size", w)).
  { intros Hmod. unfold decryptCBC, bind, check.
    rewrite validateCiphertextSize_ok, validateAESKeySize_ok, validateCBCIVSize_ok
      by assumption.
    unfold aes_cbc.BLOCK_SIZE. rewrite eqb_false by assumption. reflexivity. }
  assert (Hgood : size ciphertext mod 16 = 0 ->
      fst (decryptCBC ciphertext key iv w)
      = removePKCS7Padding (cbc_decrypt key iv ciphertext)).
  { intros Hmod. now apply decryptCBC_ok. }
  split; [exact Hbad|]. split; [exact Hgood|]. split.
  - intros ->. rewrite Hgood by reflexivity.
    assert (E : cbc_decrypt key iv [] = []).
    { apply length_zero_iff_nil. now rewrite cbc_decrypt_length. }
    rewrite E. reflexivity.
  - destruct (Z.eq_dec (size ciphertext mod 16) 0) as [Hmod|Hmod].
    + rewrite Hgood by assumption. intros Hv. right.
      now apply removePKCS7Padding_error_code.
    + rewrite Hbad by assumption. intros _. left. reflexivity.
Qed.

Lemma decryptCBC_outcomes_witness :
  fst (decryptCBC (B:=toy_cbc) [] zero_key (replicate 16 "000"%byte) sample_world)
  = Err_ PADDING_ERROR "Empty data"
  /\ fst (decryptCBC (B:=toy_cbc) (replicate 15 "000"%byte) zero_key
            (replicate 16 "000"%byte) sample_world)
     = Err_ INVALID_INPUT "Ciphertext must be multiple of block size".
Proof.
  split.
  - apply (@decryptCBC_outcomes toy_cbc toy_cbc_laws [] zero_key
             (replicate 16 "000"%byte) sample_world);
      [vm_compute; discriminate | right; reflexivity | reflexivity | reflexivity].
  - assert (H := @decryptCBC_outcomes toy_cbc toy_cbc_laws (replicate 15 "000"%byte)
                   zero_key (replicate 16 "000"%byte) sample_world).
    destruct H as (Hbad & _); [vm_compute; discriminate | right; reflexivity | reflexivity|].
    rewrite Hbad; [reflexivity | vm_compute; discriminate].
Defined.


(** *** The in-memory key store *)

Lemma list_inv (keys_ : InMemoryKeyStore) (ns : string) (k : KeyId) (ids : list KeyId) :
  fst (ks_list ns keys_) = Ok ids ->
  k ∈ ids <->
  exists s rec, keys_ !! s = Some rec /\ KeyId_parse s = Ok k
                /\ (ns = "" \/ namespace_prefix k = ns).
Proof.
  cbn [ks_list InMemoryKeyStore_store fst]. intros [= <-].
  rewrite list_elem_of_omap. split.
  - intros ([s rec] & Hin & Hf). apply elem_of_map_to_list in Hin.
    cbn [fst] in Hf. destruct (KeyId_parse s) as [k0|] eqn:Hp; [|discriminate].
    destruct (bool_decide (ns = "") || bool_decide (namespace_prefix k0 = ns)) eqn:Hns;
      [|discriminate].
    injection Hf as ->. exists s, rec. split; [assumption|]. split; [assumption|].
    apply orb_true_iff in Hns as [H|H]; apply bool_decide_eq_true in H; auto.
  - intros (s & rec & Hin & Hp & Hns). exists (s, rec).
    split; [now apply elem_of_map_to_list|].
    cbn [fst]. rewrite Hp.
    replace (bool_decide (ns = "") || bool_decide (namespace_prefix k = ns)) with true;
      [reflexivity|].
    symmetry. apply orb_true_iff.
    destruct Hns as [H|H]; [left | right]; now apply bool_decide_eq_true.
Qed.

Lemma KeyId_parse_fields (s : string) (k : KeyId) :
  KeyId_parse s = Ok k ->
  no_colon (namespace_prefix k) = true /\ no_colon (kid k) = true
  /\ 0 <= version k < 2 ^ 32.
Proof.
  intros Hp. apply KeyId_parse_ok_iff in Hp as (p0 & p1 & p2 & v & Hparts & _ & ->).
  apply getline_parts_three in Hparts as (H0 & H1 & _).
  cbn. repeat split; try assumption; apply u32_range.
Qed.
(** X13. The in-memory store is a map from the printed form of the
    identifier to the record.  [store] always succeeds and overwrites
    without notice; [retrieve] gives back what was stored last;
    [exists] answers as [retrieve] succeeds; [remove] and
    [updateMetadata] fail with [KEY_NOT_FOUND] on a key that is not
    stored and then change nothing; [updateMetadata] replaces the metadata
    and keeps the encrypted material; reading never changes the store.
    Two identifiers with the same printed form are the same key to the
    store. *)
Theorem InMemoryKeyStore_contract (keys_ : InMemoryKeyStore) (id : KeyId) :
  (forall key, fst (ks_store id key keys_) = Ok tt
     /\ fst (ks_retrieve id (snd (ks_store id key keys_))) = Ok key)
  /\ (forall k1 k2,
        fst (ks_retrieve id (snd (ks_store id k2 (snd (ks_store id k1 keys_))))) = Ok k2)
  /\ (forall id' key,
        KeyId_toString id' = KeyId_toString id ->
        fst (ks_retrieve id' (snd (ks_store id key keys_))) = Ok key)
  /\ (forall id' key,
        KeyId_toString id' <> KeyId_toString id ->
        fst (ks_retrieve id' (snd (ks_store id key keys_))) = fst (ks_retrieve id' keys_))
  /\ fst (ks_exists id keys_) = Ok (has_value (fst (ks_retrieve id keys_)))
  /\ (has_value (fst (ks_retrieve id keys_)) = false ->
        error_code (fst (ks_retrieve id keys_)) = Some KEY_NOT_FOUND
        /\ ks_remove id keys_ = (not_found id, keys_)
        /\ forall md, ks_updateMetadata id md keys_ = (not_found id, keys_))
  /\ (forall key, fst (ks_retrieve id keys_) = Ok key ->
        fst (ks_remove id keys_) = Ok tt
        /\ fst (ks_retrieve id (snd (ks_remove id keys_))) = not_found id
        /\ fst (ks_exists id (snd (ks_remove id keys_))) = Ok false
        /\ forall md,
             fst (ks_updateMetadata id md keys_) = Ok tt
             /\ fst (ks_retrieve id (snd (ks_updateMetadata id md keys_)))
                = Ok (mkEncryptedKey (encrypted_material key) (ek_iv key) (ek_tag key)
                        (kek_id key) md))
  /\ snd (ks_retrieve id keys_) = keys_
  /\ snd (ks_exists id keys_) = keys_
  /\ (forall ns, snd (ks_list ns keys_) = keys_).
Proof.
  cbn [ks_store ks_retrieve ks_remove ks_exists ks_list ks_updateMetadata
       InMemoryKeyStore_store fst snd].
  split.
  { intros key. split; [reflexivity|]. now rewrite lookup_insert_eq. }
  split.
  { intros k1 k2. now rewrite lookup_insert_eq. }
  split.
  { intros id' key ->. now rewrite lookup_insert_eq. }
  split.
  { intros id' key Hne. rewrite lookup_insert_ne by congruence.
    now destruct (keys_ !! KeyId_toString id'). }
  destruct (keys_ !! KeyId_toString id) as [k|] eqn:Hk; cbn [fst snd has_value].
  - split; [rewrite bool_decide_eq_true_2 by eauto; reflexivity|].
    split; [discriminate|].
    split.
    + intros key [= <-]. split; [reflexivity|].
      rewrite lookup_delete_eq. cbn [fst].
      split; [reflexivity|]. split.
      * rewrite bool_decide_eq_false_2; [reflexivity|]. intros [? [=]].
      * intros md. split; [reflexivity|]. now rewrite lookup_insert_eq.
    + repeat split; reflexivity.
  - split; [rewrite bool_decide_eq_false_2; [reflexivity | intros [? [=]]]|].
    split; [intros _; repeat split; reflexivity|].
    split; [discriminate|].
    repeat split; reflexivity.
Qed.

(** X14. [list(ns)] gives the identifiers read back from the printed
    forms under which records are stored, those of the namespace [ns], or
    all of them when [ns] is empty; a key stored under an identifier
    whose namespace and id hold no colon is listed under its namespace and
    under the empty namespace.  The fields of a listed identifier never
    hold a colon: a key stored under an identifier with a colon in its
    namespace or id is kept and can be retrieved, but is not listed as
    itself. *)
Theorem InMemoryKeyStore_list (keys_ : InMemoryKeyStore) (ns : string) :
  exists ids,
    ks_list ns keys_ = (Ok ids, keys_)
    /\ (forall k, k ∈ ids <->
          exists s rec, keys_ !! s = Some rec /\ KeyId_parse s = Ok k
                        /\ (ns = "" \/ namespace_prefix k = ns))
    /\ (forall k, k ∈ ids ->
          no_colon (namespace_prefix k) = true /\ no_colon (kid k) = true)
    /\ (forall id key ids',
          no_colon (namespace_prefix id) = true -> no_colon (kid id) = true ->
          0 <= version id < 2 ^ 32 ->
          ns = "" \/ ns = namespace_prefix id ->
          fst (ks_list ns (snd (ks_store id key keys_))) = Ok ids' ->
          id ∈ ids').
Proof.
  destruct (ks_list ns keys_) as [r s] eqn:Hl.
  assert (Hs : s = keys_) by (cbn in Hl; congruence).
  assert (Hr : exists ids, r = Ok ids) by (cbn in Hl; injection Hl as <- _; eauto).
  destruct Hr as [ids ->]. subst s. exists ids. split; [reflexivity|].
  assert (Hiff := fun k => list_inv keys_ ns k ids (f_equal fst Hl)).
  split; [exact Hiff|]. split.
  - intros k Hin. apply Hiff in Hin as (s & rec & _ & Hp & _).
    apply KeyId_parse_fields in Hp. tauto.
  - intros id key ids' Hn Hi Hv Hns Hl'.
    apply (list_inv _ ns id ids' Hl').
    exists (KeyId_toString id), key. cbn [ks_store InMemoryKeyStore_store snd].
    split; [apply lookup_insert_eq|].
    split; [now apply KeyId_parse_toString|].
    destruct Hns as [-> | ->]; auto.
Qed.


(** *** Generating a key *)

Lemma decrypt_encrypted {G : AESGCM} {L : AESGCMLaws G}
    (plaintext key aad : bytes) (w w' : World) (r : EncryptResult) :
  encryptGCM plaintext key aad w = (Ok r, w') ->
  forall w2, fst (decryptGCM (ciphertext r) key (iv r) (tag r) aad w2) = Ok plaintext.
Proof.
  intros Henc w2.
  apply encryptGCM_inv in Henc as (HP & HA & HK & HIV & Hr).
  rewrite Hr. cbn [ciphertext iv tag].
  rewrite decryptGCM_spec; try assumption.
  - rewrite bool_decide_eq_true_2 by reflexivity. now rewrite gctr_involutive.
  - rewrite gctr_size. unfold limits.MAX_CIPHERTEXT_SIZE, limits.MAX_PLAINTEXT_SIZE in *. lia.
  - apply gmac_size.
Qed.

Lemma random_bytes_inv (n : Z) (w w' : World) (o : option bytes) :
  random_bytes n w = (o, w') ->
  now w' = now w /\ mt_pos w' = mt_pos w /\ mt_draws w' = mt_draws w
  /\ (forall v, o = Some v -> 0 <= n -> size v = n).
Proof.
  unfold random_bytes.
  destruct (n <=? size (entropy w)) eqn:E; intros [= <- <-]; cbn;
    repeat split; try discriminate.
  intros v [= <-] Hn. apply Z.leb_le in E. unfold size in *.
  rewrite length_take. lia.
Qed.

Lemma symmetric_material_inv (n : Z) (w w' : World) (r : Result bytes) :
  0 <= n ->
  match random_bytes n w with
  | (Some key, w1) => (Ok key, w1)
  | (None, w1) => (Err_ KEY_GENERATION_FAILED "Failed to generate random key", w1)
  end = (r, w') ->
  now w' = now w /\ mt_pos w' = mt_pos w /\ mt_draws w' = mt_draws w
  /\ (forall km, r = Ok km -> size km = n)
  /\ (size (entropy w) < n -> error_code r = Some KEY_GENERATION_FAILED).
Proof.
  intros Hn.
  destruct (random_bytes n w) as [[v|] w1] eqn:Hr; intros [= <- <-];
    pose proof Hr as Hr'; apply random_bytes_inv in Hr as (H1 & H2 & H3 & H4).
  - repeat split; try assumption.
    + intros km [= <-]. now apply H4.
    + intros Hlt. unfold random_bytes in Hr'.
      destruct (n <=? size (entropy w)) eqn:E; [apply Z.leb_le in E; lia | discriminate].
  - repeat split; try assumption. discriminate.
Qed.

Lemma generateRawKeyMaterial_inv (algo : KeyAlgorithm) (w w' : World) (r : Result bytes) :
  generateRawKeyMaterial algo w = (r, w') ->
  now w' = now w /\ mt_pos w' = mt_pos w /\ mt_draws w' = mt_draws w
  /\ (forall km, r = Ok km -> isSymmetricAlgorithm algo = true -> size km = getKeySize algo)
  /\ (isSymmetricAlgorithm algo = true -> size (entropy w) < getKeySize algo ->
      error_code r = Some KEY_GENERATION_FAILED).
Proof.
  unfold generateRawKeyMaterial.
  destruct algo; cbn [getKeySize isSymmetricAlgorithm Z.eqb].
  1-4: intros Hrun; apply symmetric_material_inv in Hrun as (H1 & H2 & H3 & H4 & H5);
    [repeat split; try assumption; intros; auto | lia].
  all: unfold generateKeyPair_DER;
    destruct (keypairs w) as [|r0 later]; intros [= <- <-]; cbn;
    repeat split; discriminate.
Qed.

Section GenerateKey.
Context {G : AESGCM} {L : AESGCMLaws G} {C : Type} {CC : CacheClient C}.
Implicit Types (ks : KeyService (Unreliable InMemoryKeyStore) C).

Lemma encryptKeyMaterial_ok_inv material md ks ks' enc :
  encryptKeyMaterial material md ks = (Ok enc, ks') ->
  kek_id enc = KeyId_default /\ metadata enc = md
  /\ (forall w2, fst (decryptGCM (encrypted_material enc) (master_key_ ks)
                        (ek_iv enc) (ek_tag enc) [] w2) = Ok material)
  /\ key_store_ ks' = key_store_ ks /\ master_key_ ks' = master_key_ ks
  /\ cache_client_ ks' = cache_client_ ks.
Proof.
  unfold encryptKeyMaterial. intros Hrun.
  apply bind_ok_inv in Hrun as (r & s1 & Henc & Hret).
  unfold ret in Hret. injection Hret as <- <-.
  apply in_world_inv in Henc as (Henc & H1 & H2 & H3).
  cbn [kek_id metadata encrypted_material ek_iv ek_tag].
  split; [reflexivity|]. split; [reflexivity|].
  split; [intros w2; eapply decrypt_encrypted; eassumption|].
  repeat split; assumption.
Qed.

Lemma generateKey_inv params ks ks' id :
  generateKey params ks = (Ok id, ks') ->
  id = fst (KeyId_generate (p_namespace_prefix params) (world ks))
  /\ exists material rec,
       stored ks' = <[KeyId_toString id := rec]> (stored ks)
       /\ metadata rec
          = mkKeyMetadata id (p_algorithm params)
              (if isSymmetricAlgorithm (p_algorithm params)
               then SYMMETRIC else ASYMMETRIC_PRIVATE)
              ACTIVE (now (world ks))
              (now (world ks) + p_validity_period params * ticks_per_second)
              None None (p_owner_service params) (p_allowed_operations params) 0
       /\ kek_id rec = KeyId_default
       /\ (isSymmetricAlgorithm (p_algorithm params) = true ->
           size material = getKeySize (p_algorithm params))
       /\ (forall w2, fst (decryptGCM (encrypted_material rec) (master_key_ ks)
                             (ek_iv rec) (ek_tag rec) [] w2) = Ok material)
       /\ cache_client_ ks'
          = cache_set (cache_key id) material CACHE_TTL <$> cache_client_ ks
       /\ master_key_ ks' = master_key_ ks.
Proof.
  unfold generateKey. intros Hrun.
  apply bind_ok_inv in Hrun as (key_id & s1 & Hid & Hrun).
  apply in_world_inv in Hid as (Hid & Hb1 & Hm1 & Hc1).
  destruct (KeyId_generate (p_namespace_prefix params) (world ks)) as [k0 w0] eqn:Hgen.
  injection Hid as -> Hw1.
  assert (Hnow1 : now (world s1) = now (world ks)).
  { rewrite <- Hw1. unfold KeyId_generate in Hgen.
    destruct (UUID_generate (world ks)) as [u wu] eqn:Hu. injection Hgen as _ <-.
    unfold UUID_generate in Hu. cbn in Hu. injection Hu as _ <-. reflexivity. }
  apply bind_ok_inv in Hrun as (km & s2 & Hkm & Hrun).
  apply in_world_inv in Hkm as (Hkm & Hb2 & Hm2 & Hc2).
  apply generateRawKeyMaterial_inv in Hkm as (Hnow2 & _ & _ & Hsz & _).
  apply bind_ok_inv in Hrun as (created & s3 & Hclock & Hrun).
  unfold clock_now in Hclock. injection Hclock as <- <-.
  apply bind_ok_inv in Hrun as (enc & s4 & Henc & Hrun).
  apply encryptKeyMaterial_ok_inv in Henc as (Hkek & Hmd & Hdec & Hb4 & Hm4 & Hc4).
  apply bind_ok_inv in Hrun as ([] & s5 & Hst & Hrun).
  apply on_store_inv in Hst as (Hst & Hm5 & Hc5 & _).
  apply store_inv in Hst as [(_ & Hb5) | (Hbad & _)]; [|discriminate].
  apply bind_ok_inv in Hrun as ([] & s6 & Hcache & Hrun).
  unfold ret in Hrun. injection Hrun as <- <-.
  apply on_cache_inv in Hcache as (_ & Hb6 & Hm6 & _ & Hc6).
  split; [reflexivity|].
  exists km, enc. split; [rewrite Hb6, Hb5, Hb4, Hb2, Hb1; reflexivity|].
  split; [rewrite Hmd, Hnow2, Hnow1; reflexivity|].
  split; [assumption|].
  split; [intros Hsym; now apply Hsz|].
  split; [intros w2; rewrite <- Hm1, <- Hm2; apply Hdec|].
  split; [rewrite Hc6, Hc5, Hc4, Hc2, Hc1; reflexivity|].
  congruence.
Qed.

End GenerateKey.



(** *** Where key material comes from *)

Section Material.
Context {G : AESGCM} {C : Type} {CC : CacheClient C}.
Implicit Types (ks : KeyService (Unreliable InMemoryKeyStore) C).

Lemma getKeyMaterial_hit ks id c m c' :
  cache_client_ ks = Some c ->
  cache_get (cache_key id) c = (Some m, c') ->
  getKeyMaterial id ks
  = (Ok m, mkKeyService (key_store_ ks) (master_key_ ks) (Some c') (world ks)).
Proof.
  intros Hc Hget. unfold getKeyMaterial, bind, getCachedKeyMaterial.
  rewrite Hc, Hget. reflexivity.
Qed.

(** After a miss, or without a cache, with the store answering. *)
Lemma getKeyMaterial_from_store ks id rec (cache' : option C) :
  getCachedKeyMaterial id ks
  = (Ok None, mkKeyService (key_store_ ks) (master_key_ ks) cache' (world ks)) ->
  stored ks !! KeyId_toString id = Some rec ->
  head (outages (key_store_ ks)) <> Some true ->
  exists u', backing u' = stored ks
    /\ getKeyMaterial id ks
       = match decryptGCM (encrypted_material rec) (master_key_ ks) (ek_iv rec)
                 (ek_tag rec) [] (world ks) with
         | (Ok m, w') =>
             (Ok m, mkKeyService u' (master_key_ ks)
                      (cache_set (cache_key id) m CACHE_TTL <$> cache') w')
         | (Err e, w') => (Err e, mkKeyService u' (master_key_ ks) cache' w')
         end.
Proof.
  intros Hmiss Hrec Hhead. unfold getKeyMaterial, bind. rewrite Hmiss.
  destruct (retrieve_found (key_store_ ks) id rec Hrec Hhead) as (u' & Hret & Hb).
  exists u'. split; [exact Hb|].
  unfold on_store at 1. cbn [key_store_]. rewrite Hret.
  unfold decryptKeyMaterial, in_world. cbn [master_key_ world key_store_ cache_client_].
  destruct (decryptGCM _ _ _ _ _ _) as [[m|e] w']; reflexivity.
Qed.

Lemma getCachedKeyMaterial_cases ks id :
  (cache_client_ ks = None /\ getCachedKeyMaterial id ks = (Ok None, ks))
  \/ (exists c o c', cache_client_ ks = Some c /\ cache_get (cache_key id) c = (o, c')
        /\ getCachedKeyMaterial id ks
           = (Ok o, mkKeyService (key_store_ ks) (master_key_ ks) (Some c') (world ks))).
Proof.
  unfold getCachedKeyMaterial. destruct (cache_client_ ks) as [c|] eqn:Hc.
  - right. destruct (cache_get (cache_key id) c) as [o c'] eqn:Hget.
    exists c, o, c'. auto.
  - left. auto.
Qed.
End Material.

(** X16. [getKeyMaterial] asks the cache first.  What the cache returns
    for the key is the answer, and then the store is not consulted: not
    even its schedule of operations moves.  On a miss, or without a
    cache, the record is retrieved and decrypted under the master key; the
    answer is the outcome of that decryption, and a decrypted key is put
    into the cache.  The store itself is never changed. *)
Theorem getKeyMaterial_sources {G : AESGCM} {C : Type} {CC : CacheClient C}
    (ks : KeyService (Unreliable InMemoryKeyStore) C) (id : KeyId) :
  (forall c m c',
     cache_client_ ks = Some c -> cache_get (cache_key id) c = (Some m, c') ->
     fst (getKeyMaterial id ks) = Ok m
     /\ key_store_ (snd (getKeyMaterial id ks)) = key_store_ ks
     /\ world (snd (getKeyMaterial id ks)) = world ks)
  /\ (forall rec,
        (forall c, cache_client_ ks = Some c -> fst (cache_get (cache_key id) c) = None) ->
        stored ks !! KeyId_toString id = Some rec ->
        head (outages (key_store_ ks)) <> Some true ->
        fst (getKeyMaterial id ks)
        = fst (decryptGCM (encrypted_material rec) (master_key_ ks) (ek_iv rec)
                 (ek_tag rec) [] (world ks))
        /\ (forall m c, fst (getKeyMaterial id ks) = Ok m -> cache_client_ ks = Some c ->
              cache_client_ (snd (getKeyMaterial id ks))
              = Some (cache_set (cache_key id) m CACHE_TTL
                        (snd (cache_get (cache_key id) c)))))
  /\ stored (snd (getKeyMaterial id ks)) = stored ks.
Proof.
  split; [|split].
  - intros c m c' Hc Hget. rewrite (getKeyMaterial_hit ks id c m c' Hc Hget). auto.
  - intros rec Hmiss Hrec Hhead.
    destruct (getCachedKeyMaterial_cases ks id)
      as [(Hnone & Hcm) | (c & o & c' & Hc & Hget & Hcm)].
    + assert (Hks : ks = mkKeyService (key_store_ ks) (master_key_ ks) None (world ks))
        by (destruct ks; cbn in *; congruence).
      rewrite Hks in Hcm at 2.
      destruct (getKeyMaterial_from_store ks id rec None Hcm Hrec Hhead) as (u' & _ & H1).
      rewrite H1. split; [|intros m c _ Hc; congruence].
      destruct (decryptGCM _ _ _ _ _ _) as [[m|e] w']; reflexivity.
    + specialize (Hmiss c Hc). rewrite Hget in Hmiss. cbn in Hmiss. subst o.
      destruct (getKeyMaterial_from_store ks id rec (Some c') Hcm Hrec Hhead)
        as (u' & _ & H1).
      rewrite H1.
      destruct (decryptGCM _ _ _ _ _ _) as [[d|e] w']; cbn [fst snd cache_client_].
      * split; [reflexivity|]. intros m c0 [= <-] Hc0.
        assert (c0 = c) by congruence. subst c0. now rewrite Hget.
      * split; [reflexivity|]. discriminate.
  - unfold getKeyMaterial, bind.
    destruct (getCachedKeyMaterial_cases ks id)
      as [(Hnone & Hcm) | (c & o & c' & Hc & Hget & Hcm)]; rewrite Hcm.
    + destruct (on_store (ks_retrieve id) ks) as [[k|e] s1] eqn:Hret;
        apply on_store_inv in Hret as (Hret & _);
        apply retrieve_inv in Hret as (Hb & _); [|exact Hb].
      unfold decryptKeyMaterial.
      destruct (in_world _ s1) as [[d|e] s2] eqn:Hd;
        apply in_world_inv in Hd as (_ & Hb2 & _); cbn; congruence.
    + destruct o as [m|]; [reflexivity|].
      set (ks0 := mkKeyService _ _ _ _).
      destruct (on_store (ks_retrieve id) ks0) as [[k|e] s1] eqn:Hret;
        apply on_store_inv in Hret as (Hret & _);
        apply retrieve_inv in Hret as (Hb & _); [|subst ks0; exact Hb].
      unfold decryptKeyMaterial.
      destruct (in_world _ s1) as [[d|e] s2] eqn:Hd;
        apply in_world_inv in Hd as (_ & Hb2 & _); subst ks0; cbn in *; congruence.
Qed.

(** *** A generated key can be fetched *)

(** X17. A key that [generateKey] has just created can be fetched: if the
    store answers, [getKeyMetadata] returns its metadata (active, of the
    requested algorithm) and [getKeyMaterial] returns its material, of the
    key length of the algorithm when the algorithm is symmetric, be it
    from the cache or, on a miss or without a cache, from the stored
    record. *)
Theorem generated_key_retrievable {G : AESGCM} {L : AESGCMLaws G} {C : Type}
    {CC : CacheClient C} {CH : CacheCoherent C}
    (params : KeyGenerationParams) (ks ks' : KeyService (Unreliable InMemoryKeyStore) C)
    (id : KeyId) :
  generateKey params ks = (Ok id, ks') ->
  head (outages (key_store_ ks')) <> Some true ->
  (exists md, fst (getKeyMetadata id ks') = Ok md
              /\ md_id md = id /\ md_state md = ACTIVE
              /\ md_algorithm md = p_algorithm params)
  /\ (exists material,
        fst (getKeyMaterial id ks') = Ok material
        /\ (isSymmetricAlgorithm (p_algorithm params) = true ->
            size material = getKeySize (p_algorithm params))).
Proof.
  intros Hgen Hhead.
  apply generateKey_inv in Hgen as (_ & km & rec & Hst & Hmd & _ & Hsz & Hdec & Hcache & Hmk).
  assert (Hrec : stored ks' !! KeyId_toString id = Some rec)
    by (rewrite Hst; apply lookup_insert_eq).
  split.
  - exists (metadata rec). split; [|rewrite Hmd; auto].
    unfold getKeyMetadata, bind.
    destruct (retrieve_found (key_store_ ks') id rec Hrec Hhead) as (u' & Hret & _).
    unfold on_store. rewrite Hret. reflexivity.
  - exists km. split; [|exact Hsz].
    destruct (getCachedKeyMaterial_cases ks' id)
      as [(Hnone & Hcm) | (c & o & c' & Hc & Hget & Hcm)].
    + assert (Hks : ks' = mkKeyService (key_store_ ks') (master_key_ ks') None (world ks'))
        by (destruct ks'; cbn in *; congruence).
      rewrite Hks in Hcm at 2.
      destruct (getKeyMaterial_from_store ks' id rec None Hcm Hrec Hhead) as (u' & _ & H1).
      rewrite H1, Hmk.
      specialize (Hdec (world ks')).
      destruct (decryptGCM _ _ _ _ _ _) as [r w']. cbn in Hdec. subst r. reflexivity.
    + destruct o as [m|].
      * rewrite (getKeyMaterial_hit ks' id c m c' Hc Hget). cbn [fst].
        rewrite Hcache in Hc. destruct (cache_client_ ks) as [c0|]; [|discriminate].
        cbn in Hc. injection Hc as Hc.
        pose proof (cache_get_set (cache_key id) km CACHE_TTL c0) as E.
        rewrite Hc, Hget in E. cbn [fst] in E. destruct E as [[= ->]|[=]]. reflexivity.
      * destruct (getKeyMaterial_from_store ks' id rec (Some c') Hcm Hrec Hhead)
          as (u' & _ & H1).
        rewrite H1, Hmk.
        specialize (Hdec (world ks')).
        destruct (decryptGCM _ _ _ _ _ _) as [r w']. cbn in Hdec. subst r. reflexivity.
Qed.

Global Instance LocalCache_coherent : CacheCoherent (gmap string bytes).
Proof. split. intros key value ttl c. left. cbn. apply lookup_insert_eq. Qed.

Lemma generated_key_retrievable_witness :
  let ks := mkKeyService (mkUnreliable (∅ : InMemoryKeyStore) []) zero_key
              (Some (∅ : gmap string bytes)) sample_world in
  exists id ks',
    generateKey (G:=toy_gcm) sample_params ks = (Ok id, ks')
    /\ fst (getKeyMaterial (G:=toy_gcm) id ks')
       = Ok (string_bytes "0123456789abcdefghijklmnopqrstuv").
Proof.
  intros ks.
  assert (E : let run := generateKey (G:=toy_gcm) sample_params ks in
              has_value (fst run) = true
              /\ outages (key_store_ (snd run)) = []
              /\ fst (getKeyMaterial (G:=toy_gcm)
                        (match fst run with Ok k => k | Err _ => first_key end) (snd run))
                 = Ok (string_bytes "0123456789abcdefghijklmnopqrstuv"))
    by (vm_compute; repeat split; reflexivity).
  cbv zeta in E.
  destruct (generateKey (G:=toy_gcm) sample_params ks) as [[id|e] ks'] eqn:Hgen;
    cbn [fst snd has_value] in E; destruct E as (Hv & Hout & Hmat); [|discriminate].
  exists id, ks'. split; [reflexivity|].
  assert (Hhead : head (outages (key_store_ ks')) <> Some true)
    by (rewrite Hout; discriminate).
  destruct (@generated_key_retrievable toy_gcm toy_gcm_laws _ _ _ sample_params ks ks' id
              Hgen Hhead) as (_ & material & Hm & _).
  congruence.
Defined.

(** *** What a rotation hands down and what it leaves alone *)

Section RotationMore.
Context {G : AESGCM} {L : AESGCMLaws G} {C : Type} {CC : CacheClient C}.
Implicit Types (ks : KeyService (Unreliable InMemoryKeyStore) C).


End RotationMore.



(** *** Deleting a key *)

Lemma remove_ok_inv (u u' : Unreliable InMemoryKeyStore) (id : KeyId) (r : Result unit) :
  ks_remove id u = (r, u') -> has_value r = true ->
  is_Some (backing u !! KeyId_toString id).
Proof.
  cbn [ks_remove Unreliable_store]. intros Hrun Hok.
  destruct (with_outage_cases (ks_remove id) u) as [(l & _ & E) | (l & E)];
    rewrite E in Hrun; injection Hrun as <- <-; [discriminate|].
  cbn [ks_remove InMemoryKeyStore_store] in Hok.
  destruct (backing u !! KeyId_toString id) as [k0|]; [eauto | discriminate].
Qed.

(** X19. [deleteKey] drops the cache entry of the key first, whatever
    follows.  When it succeeds the key was stored and its record is gone,
    the other records are untouched, and deleting it again fails with
    [KEY_NOT_FOUND].  When it fails the store is as it was; a key that is
    not stored gives [KEY_NOT_FOUND].  [getKeyMetadata] reads the
    metadata from the store and never from the cache. *)
Theorem deleteKey_contract {C : Type} {CC : CacheClient C}
    (ks : KeyService (Unreliable InMemoryKeyStore) C) (id : KeyId) :
  (forall r ks', deleteKey id ks = (r, ks') ->
     cache_client_ ks' = cache_del (cache_key id) <$> cache_client_ ks
     /\ (has_value r = true ->
           is_Some (stored ks !! KeyId_toString id)
           /\ stored ks' = delete (KeyId_toString id) (stored ks)
           /\ stored ks' !! KeyId_toString id = None
           /\ (forall s, s <> KeyId_toString id -> stored ks' !! s = stored ks !! s)
           /\ (head (outages (key_store_ ks')) <> Some true ->
               error_code (fst (deleteKey id ks')) = Some KEY_NOT_FOUND))
     /\ (has_value r = false -> stored ks' = stored ks))
  /\ (stored ks !! KeyId_toString id = None ->
      head (outages (key_store_ ks)) <> Some true ->
      error_code (fst (deleteKey id ks)) = Some KEY_NOT_FOUND)
  /\ (forall rec, stored ks !! KeyId_toString id = Some rec ->
        head (outages (key_store_ ks)) <> Some true ->
        fst (getKeyMetadata id ks) = Ok (metadata rec)
        /\ fst (deleteKey id ks) = Ok tt)
  /\ cache_client_ (snd (getKeyMetadata id ks)) = cache_client_ ks
  /\ stored (snd (getKeyMetadata id ks)) = stored ks.
Proof.
  assert (Hmissing : forall ks0 : KeyService (Unreliable InMemoryKeyStore) C,
            stored ks0 !! KeyId_toString id = None ->
            head (outages (key_store_ ks0)) <> Some true ->
            error_code (fst (deleteKey id ks0)) = Some KEY_NOT_FOUND).
  { intros ks0 Hnone Hhead. unfold deleteKey, bind, invalidateCachedKey, on_cache, on_store.
    cbn [key_store_ ks_remove Unreliable_store]. unfold with_outage.
    destruct (outages (key_store_ ks0)) as [|[] later];
      cbn [ks_remove InMemoryKeyStore_store]; rewrite ?Hnone;
      [reflexivity | now destruct Hhead | reflexivity]. }
  split; [|split; [|split; [|split]]].
  - intros r ks' Hrun. unfold deleteKey, bind, invalidateCachedKey in Hrun.
    destruct (on_cache _ ks) as [r0 ks0] eqn:Hc.
    apply on_cache_inv in Hc as (-> & Hst0 & _ & _ & Hcache).
    apply on_store_inv in Hrun as (Hrm & _ & Hc1 & _).
    split; [congruence|].
    pose proof (remove_ok_inv _ _ _ _ Hrm) as Hwas. rewrite Hst0 in Hwas.
    apply remove_inv in Hrm as [(Hok & Hdel) | (Hbad & Hsame)].
    + rewrite Hst0 in Hdel. split; [|congruence]. intros _.
      specialize (Hwas Hok).
      split; [assumption|]. split; [assumption|].
      split; [rewrite Hdel; apply lookup_delete_eq|].
      split; [intros s Hs; rewrite Hdel; now apply lookup_delete_ne|].
      intros Hhead. apply Hmissing; [rewrite Hdel; apply lookup_delete_eq | assumption].
    + split; [congruence|]. intros _. congruence.
  - apply Hmissing.
  - intros rec Hrec Hhead. split.
    + unfold getKeyMetadata, bind.
      destruct (retrieve_found (key_store_ ks) id rec Hrec Hhead) as (u' & Hret & _).
      unfold on_store. rewrite Hret. reflexivity.
    + unfold deleteKey, bind, invalidateCachedKey, on_cache, on_store.
      cbn [key_store_ ks_remove Unreliable_store]. unfold with_outage.
      destruct (outages (key_store_ ks)) as [|[] later];
        cbn [ks_remove InMemoryKeyStore_store]; rewrite ?Hrec;
        [reflexivity | now destruct Hhead | reflexivity].
  - unfold getKeyMetadata, bind.
    destruct (on_store (ks_retrieve id) ks) as [[k|e] s1] eqn:Hret;
      apply on_store_inv in Hret as (_ & _ & Hc & _); exact Hc.
  - unfold getKeyMetadata, bind.
    destruct (on_store (ks_retrieve id) ks) as [[k|e] s1] eqn:Hret;
      apply on_store_inv in Hret as (Hret & _);
      apply retrieve_inv in Hret as (Hb & _); exact Hb.
Qed.

(** *** Reading the header back *)

Lemma lor_shiftl_add (a b k : Z) :
  0 <= a < 2 ^ k -> 0 <= b -> 0 <= k -> Z.lor a (Z.shiftl b k) = a + b * 2 ^ k.
Proof.
  intros Ha Hb Hk. rewrite Z.shiftl_mul_pow2 by assumption.
  assert (Hland : Z.land a (b * 2 ^ k) = 0).
  { apply Z.bits_inj'. intros n Hn. rewrite Z.land_spec, Z.bits_0.
    destruct (Z.lt_ge_cases n k) as [Hlt|Hge].
    - rewrite Z.mul_pow2_bits_low by assumption. apply andb_false_r.
    - rewrite <- (Z.mod_small a (2 ^ k)) by assumption.
      rewrite Z.mod_pow2_bits_high by lia. reflexivity. }
  rewrite <- Z.lxor_lor by assumption.
  symmetry. now apply Z.add_nocarry_lxor.
Qed.


Lemma cursor_start (data : bytes) : cursor data 0 data.
Proof. split; [lia | apply drop_0]. Qed.

Lemma cursor_lookup (data : bytes) (pos i : nat) (rest : bytes) :
  cursor data pos rest -> data !! (pos + i)%nat = rest !! i.
Proof. intros [_ <-]. now rewrite lookup_drop. Qed.

Lemma cursor_advance (data : bytes) (pos : nat) (bs rest : bytes) :
  cursor data pos (bs ++ rest) -> cursor data (pos + length bs) rest.
Proof.
  intros [Hle Hd]. split.
  - assert (Hlen : length (drop pos data) = length (bs ++ rest)) by now rewrite Hd.
    rewrite length_drop, length_app in Hlen. lia.
  - rewrite <- drop_drop, Hd. now rewrite drop_app_length.
Qed.

Lemma byte_at_cursor (data : bytes) (pos i : nat) (rest : bytes) (b : byte) :
  cursor data pos rest -> rest !! i = Some b ->
  byte_at data (pos + i) = Some (byte_to_Z b).
Proof.
  intros Hc Hb. unfold byte_at. rewrite (cursor_lookup _ _ _ _ Hc), Hb. reflexivity.
Qed.

Lemma read_u16_bytes (data : bytes) (pos : nat) (b0 b1 : byte) (rest : bytes) :
  cursor data pos ([b0; b1] ++ rest) ->
  read_u16 data pos = Some (le_value [b0; b1], (pos + 2)%nat)
  /\ cursor data (pos + 2) rest.
Proof.
  intros Hc. split; [|exact (cursor_advance _ _ [b0; b1] _ Hc)].
  unfold read_u16.
  rewrite <- (Nat.add_0_r pos) at 1.
  rewrite (byte_at_cursor _ _ 0 _ b0 Hc eq_refl), (byte_at_cursor _ _ 1 _ b1 Hc eq_refl).
  cbn [mbind option_bind].
  pose proof (byte_to_Z_range b0). pose proof (byte_to_Z_range b1).
  rewrite lor_shiftl_add by lia.
  do 2 f_equal. unfold le_value, u16. cbn [fold_right].
  rewrite Z.mod_small by lia. lia.
Qed.

Lemma read_u32_bytes (data : bytes) (pos : nat) (b0 b1 b2 b3 : byte) (rest : bytes) :
  cursor data pos ([b0; b1; b2; b3] ++ rest) ->
  read_u32 data pos = Some (le_value [b0; b1; b2; b3], (pos + 4)%nat)
  /\ cursor data (pos + 4) rest.
Proof.
  intros Hc. split; [|exact (cursor_advance _ _ [b0; b1; b2; b3] _ Hc)].
  unfold read_u32.
  rewrite <- (Nat.add_0_r pos) at 1.
  rewrite (byte_at_cursor _ _ 0 _ b0 Hc eq_refl), (byte_at_cursor _ _ 1 _ b1 Hc eq_refl),
    (byte_at_cursor _ _ 2 _ b2 Hc eq_refl), (byte_at_cursor _ _ 3 _ b3 Hc eq_refl).
  cbn [mbind option_bind].
  pose proof (byte_to_Z_range b0). pose proof (byte_to_Z_range b1).
  pose proof (byte_to_Z_range b2). pose proof (byte_to_Z_range b3).
  rewrite (lor_shiftl_add _ _ 8) by lia.
  rewrite (lor_shiftl_add _ _ 16) by lia.
  rewrite (lor_shiftl_add _ _ 24) by lia.
  do 2 f_equal. unfold le_value, u32. cbn [fold_right].
  rewrite Z.mod_small by lia. lia.
Qed.

Lemma read_u64_bytes (data : bytes) (pos : nat) (b0 b1 b2 b3 b4 b5 b6 b7 : byte)
    (rest : bytes) :
  cursor data pos ([b0; b1; b2; b3; b4; b5; b6; b7] ++ rest) ->
  read_u64 data pos = Some (le_value [b0; b1; b2; b3; b4; b5; b6; b7], (pos + 8)%nat)
  /\ cursor data (pos + 8) rest.
Proof.
  intros Hc. split; [|exact (cursor_advance _ _ [b0; b1; b2; b3; b4; b5; b6; b7] _ Hc)].
  unfold read_u64. cbn [read_u64_loop].
  rewrite (byte_at_cursor _ _ 0 _ b0 Hc eq_refl), (byte_at_cursor _ _ 1 _ b1 Hc eq_refl),
    (byte_at_cursor _ _ 2 _ b2 Hc eq_refl), (byte_at_cursor _ _ 3 _ b3 Hc eq_refl),
    (byte_at_cursor _ _ 4 _ b4 Hc eq_refl), (byte_at_cursor _ _ 5 _ b5 Hc eq_refl),
    (byte_at_cursor _ _ 6 _ b6 Hc eq_refl), (byte_at_cursor _ _ 7 _ b7 Hc eq_refl).
  cbn [mbind option_bind].
  pose proof (byte_to_Z_range b0). pose proof (byte_to_Z_range b1).
  pose proof (byte_to_Z_range b2). pose proof (byte_to_Z_range b3).
  pose proof (byte_to_Z_range b4). pose proof (byte_to_Z_range b5).
  pose proof (byte_to_Z_range b6). pose proof (byte_to_Z_range b7).
  change (Z.of_nat 0 * 8) with 0. change (Z.of_nat 1 * 8) with 8.
  change (Z.of_nat 2 * 8) with 16. change (Z.of_nat 3 * 8) with 24.
  change (Z.of_nat 4 * 8) with 32. change (Z.of_nat 5 * 8) with 40.
  change (Z.of_nat 6 * 8) with 48. change (Z.of_nat 7 * 8) with 56.
  unfold u64.
  rewrite (lor_shiftl_add 0 _ 0) by lia. rewrite (Z.mod_small (0 + _)) by lia.
  rewrite (lor_shiftl_add _ _ 8) by lia. rewrite (Z.mod_small (_ + _ * 2 ^ 8)) by lia.
  rewrite (lor_shiftl_add _ _ 16) by lia. rewrite (Z.mod_small (_ + _ * 2 ^ 16)) by lia.
  rewrite (lor_shiftl_add _ _ 24) by lia. rewrite (Z.mod_small (_ + _ * 2 ^ 24)) by lia.
  rewrite (lor_shiftl_add _ _ 32) by lia. rewrite (Z.mod_small (_ + _ * 2 ^ 32)) by lia.
  rewrite (lor_shiftl_add _ _ 40) by lia. rewrite (Z.mod_small (_ + _ * 2 ^ 40)) by lia.
  rewrite (lor_shiftl_add _ _ 48) by lia. rewrite (Z.mod_small (_ + _ * 2 ^ 48)) by lia.
  rewrite (lor_shiftl_add _ _ 56) by lia. rewrite (Z.mod_small (_ + _ * 2 ^ 56)) by lia.
  do 2 f_equal. unfold le_value. cbn [fold_right]. lia.
Qed.

Lemma read_u16_written (data : bytes) (pos : nat) (v : Z) (rest : bytes) :
  cursor data pos (write_u16 v ++ rest) ->
  read_u16 data pos = Some (v mod 2 ^ 16, (pos + 2)%nat) /\ cursor data (pos + 2) rest.
Proof.
  intros Hc. destruct (read_u16_bytes _ _ _ _ _ Hc) as [Hr Hc'].
  split; [|exact Hc']. rewrite Hr. do 2 f_equal.
  change [_; _] with (write_u16 v). rewrite write_u16_le. apply le_value_le_bytes.
Qed.

Lemma read_u32_written (data : bytes) (pos : nat) (v : Z) (rest : bytes) :
  cursor data pos (write_u32 v ++ rest) ->
  read_u32 data pos = Some (v mod 2 ^ 32, (pos + 4)%nat) /\ cursor data (pos + 4) rest.
Proof.
  intros Hc. destruct (read_u32_bytes _ _ _ _ _ _ _ Hc) as [Hr Hc'].
  split; [|exact Hc']. rewrite Hr. do 2 f_equal.
  change [_; _; _; _] with (write_u32 v). rewrite write_u32_le. apply le_value_le_bytes.
Qed.

Lemma read_u64_written (data : bytes) (pos : nat) (v : Z) (rest : bytes) :
  cursor data pos (write_u64 v ++ rest) ->
  read_u64 data pos = Some (v mod 2 ^ 64, (pos + 8)%nat) /\ cursor data (pos + 8) rest.
Proof.
  intros Hc. 
  assert (Hw : write_u64 v = [u8 (Z.land (Z.shiftr v (Z.of_nat 0 * 8)) 255);
                              u8 (Z.land (Z.shiftr v (Z.of_nat 1 * 8)) 255);
                              u8 (Z.land (Z.shiftr v (Z.of_nat 2 * 8)) 255);
                              u8 (Z.land (Z.shiftr v (Z.of_nat 3 * 8)) 255);
                              u8 (Z.land (Z.shiftr v (Z.of_nat 4 * 8)) 255);
                              u8 (Z.land (Z.shiftr v (Z.of_nat 5 * 8)) 255);
                              u8 (Z.land (Z.shiftr v (Z.of_nat 6 * 8)) 255);
                              u8 (Z.land (Z.shiftr v (Z.of_nat 7 * 8)) 255)])
    by reflexivity.
  rewrite Hw in Hc.
  destruct (read_u64_bytes _ _ _ _ _ _ _ _ _ _ _ Hc) as [Hr Hc'].
  split; [|exact Hc']. rewrite Hr. do 2 f_equal.
  rewrite <- Hw. rewrite write_u64_le. apply le_value_le_bytes.
Qed.

Lemma read_range_written (data : bytes) (pos : nat) (bs rest : bytes) :
  cursor data pos (bs ++ rest) ->
  read_range data pos (size bs) = Some bs
  /\ cursor data (pos + Z.to_nat (size bs)) rest.
Proof.
  intros Hc. pose proof (cursor_advance _ _ _ _ Hc) as Hc'.
  rewrite Z_to_nat_size. split; [|exact Hc'].
  unfold read_range. destruct Hc as [Hle Hd].
  assert (Hlen : length (drop pos data) = length (bs ++ rest)) by now rewrite Hd.
  rewrite length_drop, length_app in Hlen.
  replace (Z.of_nat pos + size bs <=? size data) with true
    by (symmetry; apply Z.leb_le; unfold size; lia).
  rewrite Hd, Z_to_nat_size. now rewrite take_app_length.
Qed.

Lemma read_bytes_written (data : bytes) (pos : nat) (bs rest : bytes) :
  size bs < 2 ^ 32 ->
  cursor data pos (write_bytes bs ++ rest) ->
  exists pos', read_bytes data pos = Some (bs, pos') /\ cursor data pos' rest.
Proof.
  intros Hsz Hc. unfold write_bytes in Hc. rewrite <- app_assoc in Hc.
  destruct (read_u32_written _ _ _ _ Hc) as [Hr Hc1].
  pose proof (size_nonneg bs).
  unfold u32 in Hr. rewrite (Z.mod_small (size bs)) in Hr by lia.
  rewrite Z.mod_small in Hr by lia.
  destruct (read_range_written _ _ _ _ Hc1) as [Hb Hc2].
  unfold read_bytes. rewrite Hr. cbn [mbind option_bind]. rewrite Hb.
  cbn [mbind option_bind]. eauto.
Qed.

Lemma deserialize_serialize (h : FileEncryptionHeader) :
  magic h = MAGIC -> header_in_range h -> deserialize (serialize h) = Some (Ok h).
Proof.
  intros Hmagic (Hver & Halg & Hns & Hid & Hkv & Hks & Hw & Hiv & Htag & Hos & Hcs).
  destruct h as [mg ver alg kid0 wr iv0 tg os cs].
  cbn [magic hdr_version hdr_algorithm key_id wrapped_dek hdr_iv hdr_tag original_size
       chunk_size] in *.
  subst mg.
  set (data := serialize _).
  assert (Hc0 : cursor data 0 data) by apply cursor_start.
  unfold deserialize.
  assert (Hbig : (size data <? 20) = false).
  { apply Z.ltb_ge. subst data. unfold serialize, write_bytes.
    cbn [magic hdr_version hdr_algorithm key_id wrapped_dek hdr_iv hdr_tag original_size
         chunk_size].
    rewrite !size_app.
    pose proof (size_nonneg (string_bytes (KeyId_toString kid0))).
    pose proof (size_nonneg wr). pose proof (size_nonneg iv0). pose proof (size_nonneg tg).
    change (size (write_u32 MAGIC)) with 4. change (size (write_u16 ver)) with 2.
    change (size (write_u16 alg)) with 2.
    change (size (write_u32 (u32 (size (string_bytes (KeyId_toString kid0)))))) with 4.
    change (size (write_u32 (u32 (size wr)))) with 4.
    change (size (write_u32 (u32 (size iv0)))) with 4.
    change (size (write_u32 (u32 (size tg)))) with 4.
    change (size (write_u64 os)) with 8. change (size (write_u32 cs)) with 4. lia. }
  rewrite Hbig.
  assert (Hdata : data = serialize (mkHeader MAGIC ver alg kid0 wr iv0 tg os cs))
    by reflexivity.
  unfold serialize in Hdata.
  cbn [magic hdr_version hdr_algorithm key_id wrapped_dek hdr_iv hdr_tag original_size
       chunk_size] in Hdata.
  rewrite Hdata in Hc0 at 2. clear Hdata Hbig.
  destruct (read_u32_written _ _ _ _ Hc0) as [R1 Hc1]. rewrite R1.
  cbn [mbind option_bind]. change (MAGIC mod 2 ^ 32 =? MAGIC) with true. cbn [negb].
  destruct (read_u16_written _ _ _ _ Hc1) as [R2 Hc2]. rewrite R2.
  cbn [mbind option_bind].
  destruct (read_u16_written _ _ _ _ Hc2) as [R3 Hc3]. rewrite R3.
  cbn [mbind option_bind].
  destruct (read_u32_written _ _ _ _ Hc3) as [R4 Hc4].
  pose proof (size_nonneg (string_bytes (KeyId_toString kid0))).
  unfold u32 in R4.
  rewrite (Z.mod_small (size (string_bytes (KeyId_toString kid0)))) in R4 by lia.
  rewrite Z.mod_small in R4 by lia.
  rewrite R4. cbn [mbind option_bind].
  destruct (read_range_written _ _ _ _ Hc4) as [R5 Hc5]. rewrite R5.
  cbn [mbind option_bind].
  unfold string_bytes at 1. rewrite string_of_list_byte_of_string.
  rewrite KeyId_parse_toString by assumption.
  destruct (read_bytes_written _ _ _ _ Hw Hc5) as (p6 & R6 & Hc6). rewrite R6.
  cbn [mbind option_bind].
  destruct (read_bytes_written _ _ _ _ Hiv Hc6) as (p7 & R7 & Hc7). rewrite R7.
  cbn [mbind option_bind].
  destruct (read_bytes_written _ _ _ _ Htag Hc7) as (p8 & R8 & Hc8). rewrite R8.
  cbn [mbind option_bind].
  rewrite <- (app_nil_r (write_u32 cs)) in Hc8.
  destruct (read_u64_written _ _ _ _ Hc8) as [R9 Hc9]. rewrite R9.
  cbn [mbind option_bind].
  destruct (read_u32_written _ _ _ _ Hc9) as [R10 _]. rewrite R10.
  cbn [mbind option_bind].
  change (MAGIC mod 2 ^ 32) with MAGIC.
  rewrite (Z.mod_small ver), (Z.mod_small alg), (Z.mod_small os), (Z.mod_small cs) by lia.
  reflexivity.
Qed.

(** X20. A header whose magic number is [MAGIC], whose fields are within
    their C++ types and whose key identifier has no colon inside its
    namespace and id is read back by [deserialize] from what [serialize]
    wrote, field by field, without any read outside the buffer. *)
Theorem header_roundtrip (h : FileEncryptionHeader) :
  magic h = MAGIC ->
  header_in_range h ->
  deserialize (serialize h) = Some (Ok h).
Proof. apply deserialize_serialize. Qed.

Lemma header_roundtrip_witness :
  let h := mkHeader MAGIC VERSION 1 first_key (replicate 60 "001"%byte)
             (replicate 12 "002"%byte) (replicate 16 "003"%byte) 11 DEFAULT_CHUNK_SIZE in
  size (serialize h) = 167 /\ deserialize (serialize h) = Some (Ok h).
Proof.
  intros h. split; [vm_compute; reflexivity|].
  apply header_roundtrip; [reflexivity|].
  unfold header_in_range.
  repeat split; try (vm_compute; reflexivity); try (vm_compute; discriminate).
Defined.

Ltac step_read :=
  match goal with
  | |- context [mbind _ (?f ?data ?pos)] =>
      match f with
      | read_u32 => destruct (read_u32 data pos) as [[? ?]|]
      | read_u16 => destruct (read_u16 data pos) as [[? ?]|]
      | read_u64 => destruct (read_u64 data pos) as [[? ?]|]
      | read_bytes => destruct (read_bytes data pos) as [[? ?]|]
      end; cbn [mbind option_bind]; [|discriminate]
  | |- context [mbind _ (read_range ?data ?pos ?len)] =>
      destruct (read_range data pos len) as [?|]; cbn [mbind option_bind]; [|discriminate]
  end.

Lemma deserialize_errors (data : bytes) (e : Error) :
  deserialize data = Some (Err e) -> code e = INVALID_INPUT.
Proof.
  unfold deserialize.
  destruct (size data <? 20); [intros [= <-]; reflexivity|].
  step_read.
  destruct (negb _); [intros [= <-]; reflexivity|].
  do 4 step_read.
  destruct (KeyId_parse _); [|intros [= <-]; reflexivity].
  do 5 step_read. discriminate.
Qed.

Lemma deserialize_ok_magic (data : bytes) (h : FileEncryptionHeader) :
  deserialize data = Some (Ok h) -> magic h = MAGIC /\ 20 <= size data.
Proof.
  unfold deserialize.
  destruct (Z.ltb_spec (size data) 20); [discriminate|].
  destruct (read_u32 data 0) as [[m p]|]; cbn [mbind option_bind]; [|discriminate].
  destruct (Z.eqb_spec m MAGIC) as [->|]; cbn [negb]; [|discriminate].
  do 4 step_read.
  destruct (KeyId_parse _); [|discriminate].
  do 5 step_read. intros [= <-]. cbn. split; [reflexivity | lia].
Qed.

(** X21. [deserialize] checks two things: that the buffer has at least
    20 bytes and that it starts with the magic number; a failed check, or
    a key identifier that does not parse, is an [INVALID_INPUT].  The
    lengths that the buffer declares for its fields are not checked
    against the size of the buffer: when the declared length of the key
    identifier runs past the end, the bytes are read all the same, from
    outside the buffer. *)
Theorem deserialize_guards (data : bytes) :
  (size data < 20 -> deserialize data = Some (Err_ INVALID_INPUT "Header too small"))
  /\ (20 <= size data -> le_value (take 4 data) <> MAGIC ->
      deserialize data = Some (Err_ INVALID_INPUT "Invalid magic number"))
  /\ (forall h, deserialize data = Some (Ok h) -> magic h = MAGIC /\ 20 <= size data)
  /\ (forall e, deserialize data = Some (Err e) -> code e = INVALID_INPUT)
  /\ (20 <= size data -> le_value (take 4 data) = MAGIC ->
      size data < 12 + le_value (take 4 (drop 8 data)) ->
      deserialize data = None).
Proof.
  split.
  { intros Hlt. unfold deserialize.
    destruct (Z.ltb_spec (size data) 20); [reflexivity | lia]. }
  assert (Hshape : 20 <= size data ->
            exists b0 b1 b2 b3 b4 b5 b6 b7 b8 b9 b10 b11 rest,
              data = [b0; b1; b2; b3] ++ [b4; b5] ++ [b6; b7] ++ [b8; b9; b10; b11] ++ rest).
  { intros Hge. unfold size in Hge.
    do 12 (destruct data as [|? data]; [cbn in Hge; lia|]).
    repeat eexists. }
  split.
  { intros Hge Hm. destruct (Hshape Hge) as (b0 & b1 & b2 & b3 & b4 & b5 & b6 & b7 & b8
      & b9 & b10 & b11 & rest & Hd).
    unfold deserialize. destruct (Z.ltb_spec (size data) 20); [lia|].
    pose proof (cursor_start data) as Hc. rewrite Hd in Hc at 2.
    destruct (read_u32_bytes _ _ _ _ _ _ _ Hc) as [R1 _]. rewrite R1.
    cbn [mbind option_bind].
    rewrite Hd in Hm. cbn [take app] in Hm. rewrite ?take_0 in Hm.
    rewrite eqb_false by assumption. reflexivity. }
  split; [apply deserialize_ok_magic|].
  split; [apply deserialize_errors|].
  intros Hge Hm Hlen. destruct (Hshape Hge) as (b0 & b1 & b2 & b3 & b4 & b5 & b6 & b7 & b8
      & b9 & b10 & b11 & rest & Hd).
  unfold deserialize. destruct (Z.ltb_spec (size data) 20); [lia|].
  pose proof (cursor_start data) as Hc. rewrite Hd in Hc at 2.
  destruct (read_u32_bytes _ _ _ _ _ _ _ Hc) as [R1 Hc1]. rewrite R1.
  cbn [mbind option_bind].
  rewrite Hd in Hm. cbn [take app] in Hm. rewrite ?take_0 in Hm. rewrite Hm, Z.eqb_refl. cbn [negb].
  destruct (read_u16_bytes _ _ _ _ _ Hc1) as [R2 Hc2]. rewrite R2.
  cbn [mbind option_bind].
  destruct (read_u16_bytes _ _ _ _ _ Hc2) as [R3 Hc3]. rewrite R3.
  cbn [mbind option_bind].
  destruct (read_u32_bytes _ _ _ _ _ _ _ Hc3) as [R4 Hc4]. rewrite R4.
  cbn [mbind option_bind].
  rewrite Hd in Hlen at 2. cbn [drop take app] in Hlen. rewrite ?take_0 in Hlen.
  unfold read_range.
  replace (_ <=? size data) with false; [reflexivity|].
  symmetry. apply Z.leb_gt. lia.
Qed.

(** *** Files written and read back *)

Lemma raw_u32_value_raw (e : Endianness) (v : Z) :
  raw_u32_value e (raw_u32 e v) = v mod 2 ^ 32 /\ size (raw_u32 e v) = 4.
Proof.
  destruct e; cbn [raw_u32_value raw_u32]; rewrite ?rev_involutive;
    (split; [apply (le_value_le_bytes 4) | reflexivity]).
Qed.

Section Streams.
Context {G : AESGCM} {L : AESGCMLaws G} {S C : Type}
        {KSt : IKeyStore S} {CC : CacheClient C}.
Variable getKey : KeyId -> St_M (KeyService S C) KeyData.
Variable kek_id : KeyId.
Variable km : bytes.
Hypothesis getKey_stable :
  forall ks, exists md ks', getKey kek_id ks = (Ok (mkKeyData km md), ks').
Implicit Types (fs : FileEncryptionService (KeyService S C)).

Lemma wrapDEK_shape dek fs fs' wrapped :
  wrapDEK getKey dek kek_id fs = (Ok wrapped, fs') ->
  exists r w w',
    encryptGCM dek km [] w = (Ok r, w')
    /\ wrapped = iv r ++ tag r ++ ciphertext r
    /\ size (iv r) = 12 /\ size (tag r) = 16 /\ size (ciphertext r) = size dek
    /\ chunk_size_ fs' = chunk_size_ fs /\ host fs' = host fs
    /\ output fs' = output fs /\ input fs' = input fs.
Proof.
  unfold wrapDEK. intros Hrun.
  apply bind_ok_inv in Hrun as (kek & fs1 & Hk & Hrun).
  apply on_key_service_inv in Hk as (Hk & Hc1 & Hh1 & Hi1 & Ho1).
  destruct (getKey_stable (key_service_ fs)) as (md & ks' & Hst).
  rewrite Hst in Hk. injection Hk as <- _.
  apply bind_ok_inv in Hrun as (r & fs2 & Henc & Hrun).
  apply on_key_service_inv in Henc as (Henc & Hc2 & Hh2 & Hi2 & Ho2).
  unfold ret in Hrun. injection Hrun as <- <-.
  destruct (in_world _ (key_service_ fs1)) as [r0 k0] eqn:Hw.
  apply in_world_inv in Hw as (Hw & _). injection Henc as -> ->.
  cbn [key_material] in Hw.
  exists r, (world (key_service_ fs1)), (world (key_service_ fs2)).
  split; [exact Hw|]. split; [reflexivity|].
  apply encryptGCM_inv in Hw as (_ & _ & _ & Hiv & Hr).
  split; [assumption|].
  split; [rewrite Hr; apply gmac_size|].
  split; [rewrite Hr; apply gctr_size|].
  repeat split; congruence.
Qed.

Lemma unwrapDEK_wrapped dek (r : EncryptResult) w w' fs2 :
  encryptGCM dek km [] w = (Ok r, w') ->
  size (iv r) = 12 -> size (tag r) = 16 ->
  exists fs3,
    unwrapDEK getKey (iv r ++ tag r ++ ciphertext r) kek_id fs2 = (Ok dek, fs3)
    /\ chunk_size_ fs3 = chunk_size_ fs2 /\ host fs3 = host fs2
    /\ output fs3 = output fs2 /\ input fs3 = input fs2.
Proof.
  intros Henc Hiv Htag. unfold unwrapDEK.
  pose proof (size_nonneg (ciphertext r)).
  replace (size (iv r ++ tag r ++ ciphertext r) <? aes_gcm.IV_SIZE + aes_gcm.TAG_SIZE)
    with false
    by (symmetry; apply Z.ltb_ge; rewrite !size_app;
        unfold aes_gcm.IV_SIZE, aes_gcm.TAG_SIZE; lia).
  unfold bind.
  destruct (getKey_stable (key_service_ fs2)) as (md & ks' & Hst).
  unfold on_key_service at 1. rewrite Hst. cbn [key_material].
  unfold aes_gcm.IV_SIZE, aes_gcm.TAG_SIZE.
  assert (Hl1 : length (iv r) = Z.to_nat 12) by (unfold size in Hiv; lia).
  assert (Hl2 : length (tag r) = Z.to_nat 16) by (unfold size in Htag; lia).
  assert (E1 : take (Z.to_nat 12) (iv r ++ tag r ++ ciphertext r) = iv r)
    by (rewrite <- Hl1; apply take_app_length).
  assert (E2 : take (Z.to_nat 16) (drop (Z.to_nat 12) (iv r ++ tag r ++ ciphertext r))
               = tag r).
  { rewrite <- Hl1, drop_app_length, <- Hl2. apply take_app_length. }
  assert (E3 : drop (Z.to_nat (12 + 16)) (iv r ++ tag r ++ ciphertext r) = ciphertext r).
  { replace (Z.to_nat (12 + 16)) with (length (iv r) + length (tag r))%nat by lia.
    rewrite <- drop_drop, drop_app_length. apply drop_app_length. }
  rewrite E1, E2, E3.
  unfold on_key_service, in_world. cbn [key_service_ world chunk_size_ host input output].
  pose proof (decrypt_encrypted _ _ _ _ _ _ Henc (world ks')) as Hdec.
  destruct (decryptGCM _ _ _ _ _ _) as [d w2]. cbn [fst] in Hdec. subst d.
  eexists. split; [reflexivity|]. repeat split.
Qed.

Lemma encryptStream_inv (input_size : Z) fs fs' :
  encryptStream getKey kek_id input_size fs = (Ok tt, fs') ->
  exists dek rw w1 w1' plaintext r w2 w2',
    encryptGCM dek km [] w1 = (Ok rw, w1')
    /\ size (iv rw) = 12 /\ size (tag rw) = 16 /\ size (ciphertext rw) = 32
    /\ plaintext
       = (if input_size >? 0
          then take (Z.to_nat input_size) (input fs)
               ++ replicate (Z.to_nat input_size
                             - length (take (Z.to_nat input_size) (input fs))) "000"%byte
          else input fs)
    /\ encryptGCM plaintext dek [] w2 = (Ok r, w2')
    /\ size (iv r) = 12 /\ size (tag r) = 16
    /\ output fs'
       = output fs
         ++ raw_u32 (host fs)
              (u32 (size (serialize
                            (mkHeader MAGIC VERSION 1 kek_id
                               (iv rw ++ tag rw ++ ciphertext rw) (iv r) (tag r)
                               (u64 (size plaintext)) (u32 (chunk_size_ fs))))))
         ++ serialize (mkHeader MAGIC VERSION 1 kek_id
                         (iv rw ++ tag rw ++ ciphertext rw) (iv r) (tag r)
                         (u64 (size plaintext)) (u32 (chunk_size_ fs)))
         ++ ciphertext r
    /\ host fs' = host fs.
Proof.
  unfold encryptStream. intros Hrun.
  apply bind_ok_inv in Hrun as (dek & fs1 & Hdek & Hrun).
  apply (generateDEK_inv) in Hdek as (Hdsz & Hc1 & Hh1 & Ho1 & Hi1).
  apply bind_ok_inv in Hrun as (wrapped & fs2 & Hwrap & Hrun).
  apply wrapDEK_shape in Hwrap
    as (rw & w1 & w1' & Hencw & -> & Hivw & Htagw & Hctw & Hc2 & Hh2 & Ho2 & Hi2).
  apply bind_ok_inv in Hrun as (plaintext & fs3 & Hread & Hrun).
  assert (Hpt : plaintext
       = (if input_size >? 0
          then take (Z.to_nat input_size) (input fs)
               ++ replicate (Z.to_nat input_size
                             - length (take (Z.to_nat input_size) (input fs))) "000"%byte
          else input fs)).
  { destruct (input_size >? 0).
    - unfold stream_read in Hread. injection Hread as <- _. congruence.
    - unfold stream_read_all in Hread. injection Hread as <- _. congruence. }
  apply read_plaintext_inv in Hread as (Hc3 & Hh3 & Ho3).
  apply bind_ok_inv in Hrun as (r & fs4 & Henc & Hrun).
  apply on_key_service_inv in Henc as (Henc & Hc4 & Hh4 & _ & Ho4).
  destruct (in_world _ (key_service_ fs3)) as [r0 k0] eqn:Hw.
  apply in_world_inv in Hw as (Hw & _). injection Henc as -> ->.
  pose proof Hw as Hw'.
  apply encryptGCM_inv in Hw' as (_ & _ & _ & Hiv & Hr).
  assert (Htag : size (tag r) = 16) by (rewrite Hr; apply gmac_size).
  unfold bind, stream_write, ret in Hrun.
  cbn [fst snd output host chunk_size_ key_service_ input] in Hrun.
  injection Hrun as <-. cbn [output host].
  exists dek, rw, w1, w1', plaintext, r, (world (key_service_ fs3)), (world (key_service_ fs4)).
  split; [assumption|]. split; [assumption|]. split; [assumption|].
  split; [congruence|]. split; [assumption|]. split; [assumption|].
  split; [assumption|]. split; [assumption|].
  split; [|congruence].
  rewrite <- !app_assoc.
  replace (output fs4) with (output fs) by congruence.
  replace (host fs4) with (host fs) by congruence.
  replace (chunk_size_ fs4) with (chunk_size_ fs) by congruence.
  reflexivity.
Qed.
End Streams.

Lemma size_serialize (h : FileEncryptionHeader) :
  size (serialize h)
  = 36 + size (string_bytes (KeyId_toString (key_id h))) + size (wrapped_dek h)
    + size (hdr_iv h) + size (hdr_tag h).
Proof.
  assert (H64 : forall v, size (write_u64 v) = 8)
    by (intros v; unfold write_u64, size; rewrite length_map, length_seq; reflexivity).
  unfold serialize, write_bytes. rewrite !size_app, H64.
  unfold write_u32, write_u16, size. cbn [length]. lia.
Qed.

(** X22. A data key wrapped under a key-encryption key unwraps to itself:
    when the key service hands out the same material for the identifier
    every time, what [wrapDEK] returns is 28 bytes longer than the data
    key and [unwrapDEK] gives the data key back, in any later state. *)
Theorem dek_wrap_roundtrip {G : AESGCM} {L : AESGCMLaws G} {S C : Type}
    {KSt : IKeyStore S} {CC : CacheClient C}
    (getKey : KeyId -> St_M (KeyService S C) KeyData)
    (kek_id : KeyId) (km dek wrapped : bytes)
    (fs fs' : FileEncryptionService (KeyService S C)) :
  (forall ks, exists md ks', getKey kek_id ks = (Ok (mkKeyData km md), ks')) ->
  wrapDEK getKey dek kek_id fs = (Ok wrapped, fs') ->
  size wrapped = 28 + size dek
  /\ forall fs2, fst (unwrapDEK getKey wrapped kek_id fs2) = Ok dek.
Proof.
  intros Hst Hwrap.
  apply (wrapDEK_shape getKey kek_id km Hst) in Hwrap
    as (r & w & w' & Henc & -> & Hiv & Htag & Hct & _).
  split; [rewrite !size_app; lia|].
  intros fs2.
  destruct (unwrapDEK_wrapped getKey kek_id km Hst dek r w w' fs2 Henc Hiv Htag)
    as (fs3 & -> & _).
  reflexivity.
Qed.

Lemma dek_wrap_roundtrip_witness :
  exists wrapped,
    fst (wrapDEK (G:=toy_gcm) sample_getKey zero_key first_key sample_file_service)
    = Ok wrapped
    /\ size wrapped = 28 + size zero_key
    /\ fst (unwrapDEK (G:=toy_gcm) sample_getKey wrapped first_key sample_file_service)
       = Ok zero_key.
Proof.
  assert (E : has_value
                (fst (wrapDEK (G:=toy_gcm) sample_getKey zero_key first_key
                        sample_file_service)) = true)
    by (vm_compute; reflexivity).
  destruct (wrapDEK (G:=toy_gcm) sample_getKey zero_key first_key sample_file_service)
    as [[wrapped|e] fs'] eqn:Hrun; [|discriminate].
  exists wrapped. split; [reflexivity|].
  destruct (@dek_wrap_roundtrip toy_gcm toy_gcm_laws _ _ _ _ sample_getKey first_key
              zero_key zero_key wrapped sample_file_service fs') as [Hsz Hun].
  - intros ks. exists (sample_metadata first_key ACTIVE), ks. reflexivity.
  - exact Hrun.
  - split; [exact Hsz | apply Hun].
Defined.

(** X23. A stream that [encryptStream] wrote is read back by
    [decryptStream]: when the key service hands out the same material for
    the identifier every time, the identifier has no colon inside its
    namespace and id, its version is a [uint32_t] and its text is short
    enough for the header size to be a [uint32_t], then on a host of the
    same byte order [decryptStream] succeeds on the bytes written, reads
    them all and writes the payload that was encrypted: the whole input
    when no size was given, else the first [input_size] bytes of the input
    with zero bytes after them where the input was shorter. *)
Theorem stream_roundtrip {G : AESGCM} {L : AESGCMLaws G} {S C : Type}
    {KSt : IKeyStore S} {CC : CacheClient C}
    (getKey : KeyId -> St_M (KeyService S C) KeyData)
    (kek_id : KeyId) (km : bytes) (input_size : Z)
    (fs fs' : FileEncryptionService (KeyService S C)) :
  (forall ks, exists md ks', getKey kek_id ks = (Ok (mkKeyData km md), ks')) ->
  no_colon (namespace_prefix kek_id) = true ->
  no_colon (kid kek_id) = true ->
  0 <= version kek_id < 2 ^ 32 ->
  size (string_bytes (KeyId_toString kek_id)) < 2 ^ 32 - 124 ->
  encryptStream getKey kek_id input_size fs = (Ok tt, fs') ->
  exists file,
    output fs' = output fs ++ file
    /\ forall fs2,
         input fs2 = file -> host fs2 = host fs ->
         exists fs3,
           decryptStream getKey fs2 = Some (Ok tt, fs3)
           /\ input fs3 = []
           /\ output fs3
              = output fs2
                ++ (if input_size >? 0
                    then take (Z.to_nat input_size) (input fs)
                         ++ replicate (Z.to_nat input_size - length (input fs)) "000"%byte
                    else input fs).
Proof.
  intros Hst Hns Hkid Hver Hlen Hrun.
  apply (encryptStream_inv getKey kek_id km Hst) in Hrun
    as (dek & rw & w1 & w1' & plaintext & r & w2 & w2' & Hencw & Hivw & Htagw & Hctw
        & Hpt & Henc & Hiv & Htag & Hout & Hhost).
  set (h := mkHeader MAGIC VERSION 1 kek_id (iv rw ++ tag rw ++ ciphertext rw)
              (iv r) (tag r) (u64 (size plaintext)) (u32 (chunk_size_ fs))) in *.
  assert (Hw : size (iv rw ++ tag rw ++ ciphertext rw) = 60)
    by (rewrite !size_app; lia).
  pose proof (size_nonneg (string_bytes (KeyId_toString kek_id))) as Hk0.
  assert (Hhs : size (serialize h) = 124 + size (string_bytes (KeyId_toString kek_id))).
  { rewrite size_serialize. subst h. cbn [key_id wrapped_dek hdr_iv hdr_tag]. lia. }
  assert (Hrange : header_in_range h).
  { unfold header_in_range. subst h.
    cbn [hdr_version hdr_algorithm key_id wrapped_dek hdr_iv hdr_tag original_size
         chunk_size].
    unfold VERSION, u64, u32.
    pose proof (Z.mod_pos_bound (size plaintext) (2 ^ 64) ltac:(lia)).
    pose proof (Z.mod_pos_bound (chunk_size_ fs) (2 ^ 32) ltac:(lia)).
    repeat split; try assumption; try lia. }
  pose proof (deserialize_serialize h eq_refl Hrange) as Hde.
  exists (raw_u32 (host fs) (u32 (size (serialize h))) ++ serialize h ++ ciphertext r).
  split; [exact Hout|].
  intros fs2 Hin Hh2.
  destruct (raw_u32_value_raw (host fs) (u32 (size (serialize h)))) as [Hval Hraw].
  assert (Hu : u32 (size (serialize h)) = size (serialize h))
    by (unfold u32; apply Z.mod_small; lia).
  rewrite Hu in Hval, Hraw, Hin.
  change (size (serialize h) mod 2 ^ 32) with (u32 (size (serialize h))) in Hval.
  rewrite Hu in Hval.
  pose proof (size_nonneg (ciphertext r)) as Hc0.
  unfold decryptStream.
  unfold stream_read_exact at 1. rewrite Hin.
  replace (4 <=? size (raw_u32 (host fs) (size (serialize h)) ++ serialize h ++ ciphertext r))
    with true by (symmetry; apply Z.leb_le; rewrite !size_app; lia).
  cbn [host].
  assert (Hl4 : length (raw_u32 (host fs) (size (serialize h))) = Z.to_nat 4)
    by (rewrite <- Hraw; symmetry; apply Z_to_nat_size).
  rewrite <- Hl4, take_app_length, drop_app_length.
  rewrite Hh2, Hval.
  unfold stream_read_exact. cbn [input key_service_ chunk_size_ host output].
  replace (size (serialize h) <=? size (serialize h ++ ciphertext r))
    with true by (symmetry; apply Z.leb_le; rewrite !size_app; lia).
  rewrite Z_to_nat_size, take_app_length, drop_app_length, Hde.
  subst h. cbn [wrapped_dek key_id hdr_iv hdr_tag].
  unfold bind at 1.
  match goal with
  | |- context [unwrapDEK getKey _ kek_id ?s] =>
      destruct (unwrapDEK_wrapped getKey kek_id km Hst dek rw w1 w1' s Hencw Hivw Htagw)
        as (fs3 & Hun & Hc3 & Hh3 & Ho3 & Hi3)
  end.
  rewrite Hun.
  cbn [chunk_size_ host output input] in Hc3, Hh3, Ho3, Hi3.
  unfold bind, stream_read_all, on_key_service, in_world, stream_write, ret.
  cbn [fst snd input output key_service_ chunk_size_ host world].
  rewrite Hi3.
  pose proof (decrypt_encrypted _ _ _ _ _ _ Henc (world (key_service_ fs3))) as Hdec.
  destruct (decryptGCM (ciphertext r) dek (iv r) (tag r) [] (world (key_service_ fs3)))
    as [d w3].
  cbn [fst] in Hdec. subst d.
  eexists. split; [reflexivity|].
  cbn [input output]. split; [reflexivity|].
  rewrite Ho3. f_equal. rewrite Hpt.
  destruct (input_size >? 0); [|reflexivity].
  f_equal. f_equal. rewrite length_take. lia.
Qed.

Lemma stream_roundtrip_witness :
  exists fs' file,
    encryptStream (G:=toy_gcm) sample_getKey first_key 0 sample_file_service = (Ok tt, fs')
    /\ output fs' = output sample_file_service ++ file
    /\ exists fs3,
         decryptStream (G:=toy_gcm) sample_getKey
           (mkFileService (key_service_ fs') DEFAULT_CHUNK_SIZE LittleEndian file [])
         = Some (Ok tt, fs3)
         /\ input fs3 = []
         /\ output fs3 = hello.
Proof.
  assert (E : has_value
                (fst (encryptStream (G:=toy_gcm) sample_getKey first_key 0
                        sample_file_service)) = true)
    by (vm_compute; reflexivity).
  destruct (encryptStream (G:=toy_gcm) sample_getKey first_key 0 sample_file_service)
    as [[[]|err] fs'] eqn:Hrun; [|discriminate].
  destruct (@stream_roundtrip toy_gcm toy_gcm_laws _ _ _ _ sample_getKey first_key
              zero_key 0 sample_file_service fs') as (file & Hout & Hback).
  - intros ks. exists (sample_metadata first_key ACTIVE), ks. reflexivity.
  - vm_compute; reflexivity.
  - vm_compute; reflexivity.
  - vm_compute; split; [discriminate | reflexivity].
  - vm_compute; reflexivity.
  - exact Hrun.
  - exists fs', file. split; [reflexivity|]. split; [exact Hout|].
    destruct (Hback (mkFileService (key_service_ fs') DEFAULT_CHUNK_SIZE LittleEndian
                       file []) eq_refl eq_refl) as (fs3 & Hdec & Hin & Hres).
    exists fs3. split; [exact Hdec|]. split; [exact Hin | exact Hres].
Defined.

Section Framed.
Context {G : AESGCM} {S C : Type} {KSt : IKeyStore S} {CC : CacheClient C}.
Variable getKey : KeyId -> St_M (KeyService S C) KeyData.

Lemma decryptStream_framed (h : FileEncryptionHeader) (ct : bytes)
    (ks : KeyService S C) (chunk : Z) (e : Endianness) (out : bytes) :
  magic h = MAGIC -> header_in_range h -> size (serialize h) < 2 ^ 32 ->
  decryptStream getKey (mkFileService ks chunk e (framed e h ct) out)
  = Some ((let* dek := unwrapDEK getKey (wrapped_dek h) (key_id h) in
           let* ciphertext := stream_read_all in
           let* plaintext :=
             on_key_service
               (in_world (decryptGCM ciphertext dek (hdr_iv h) (hdr_tag h) [])) in
           let* _ := stream_write plaintext in
           ret tt) (mkFileService ks chunk e ct out)).
Proof.
  intros Hmagic Hrange Hsz.
  pose proof (deserialize_serialize h Hmagic Hrange) as Hde.
  pose proof (size_nonneg (serialize h)) as H0.
  pose proof (size_nonneg ct) as Hc0.
  destruct (raw_u32_value_raw e (u32 (size (serialize h)))) as [Hval Hraw].
  assert (Hu : u32 (size (serialize h)) = size (serialize h))
    by (unfold u32; apply Z.mod_small; lia).
  unfold framed. rewrite Hu in *.
  change (size (serialize h) mod 2 ^ 32) with (u32 (size (serialize h))) in Hval.
  rewrite Hu in Hval.
  unfold decryptStream.
  unfold stream_read_exact at 1. cbn [input key_service_ chunk_size_ host output].
  replace (4 <=? size (raw_u32 e (size (serialize h)) ++ serialize h ++ ct))
    with true by (symmetry; apply Z.leb_le; rewrite !size_app; lia).
  assert (Hl4 : length (raw_u32 e (size (serialize h))) = Z.to_nat 4)
    by (rewrite <- Hraw; symmetry; apply Z_to_nat_size).
  cbn [host].
  rewrite <- Hl4, take_app_length, drop_app_length, Hval.
  unfold stream_read_exact. cbn [input key_service_ chunk_size_ host output].
  replace (size (serialize h) <=? size (serialize h ++ ct))
    with true by (symmetry; apply Z.leb_le; rewrite !size_app; lia).
  rewrite Z_to_nat_size, take_app_length, drop_app_length, Hde.
  reflexivity.
Qed.
End Framed.

Lemma declaring_in_range (h : FileEncryptionHeader) (ver alg orig chunk : Z) :
  header_in_range h ->
  0 <= ver < 2 ^ 16 -> 0 <= alg < 2 ^ 16 -> 0 <= orig < 2 ^ 64 -> 0 <= chunk < 2 ^ 32 ->
  header_in_range (declaring h ver alg orig chunk).
Proof.
  intros (_ & _ & Hns & Hid & Hkv & Hks & Hw & Hiv & Htag & _ & _) Hver Halg Hos Hcs.
  unfold header_in_range, declaring.
  cbn [hdr_version hdr_algorithm key_id wrapped_dek hdr_iv hdr_tag original_size
       chunk_size].
  repeat split; try assumption; lia.
Qed.

(** X24. [decryptStream] does not look at the version, the algorithm,
    the original size or the chunk size a header declares: a file whose
    header declares other values for them, each within its C++ type, is
    processed exactly as the file with the header as it was, with the same
    result, the same output and the same final state. *)
Theorem decryptStream_unchecked_fields {G : AESGCM} {S C : Type}
    {KSt : IKeyStore S} {CC : CacheClient C}
    (getKey : KeyId -> St_M (KeyService S C) KeyData)
    (h : FileEncryptionHeader) (ver alg orig chunk : Z) (ct : bytes)
    (ks : KeyService S C) (cs : Z) (e : Endianness) (out : bytes) :
  magic h = MAGIC -> header_in_range h -> size (serialize h) < 2 ^ 32 ->
  0 <= ver < 2 ^ 16 -> 0 <= alg < 2 ^ 16 -> 0 <= orig < 2 ^ 64 -> 0 <= chunk < 2 ^ 32 ->
  decryptStream getKey
    (mkFileService ks cs e (framed e (declaring h ver alg orig chunk) ct) out)
  = decryptStream getKey (mkFileService ks cs e (framed e h ct) out).
Proof.
  intros Hmagic Hrange Hsz Hver Halg Hos Hcs.
  rewrite (decryptStream_framed getKey h) by assumption.
  rewrite (decryptStream_framed getKey (declaring h ver alg orig chunk)).
  - reflexivity.
  - exact Hmagic.
  - now apply declaring_in_range.
  - rewrite size_serialize in *. exact Hsz.
Qed.

Lemma decryptStream_unchecked_fields_witness :
  let h := mkHeader MAGIC VERSION 1 first_key (replicate 60 "001"%byte)
             (replicate 12 "002"%byte) (replicate 16 "003"%byte) 11 DEFAULT_CHUNK_SIZE in
  let ks := key_service_ sample_file_service in
  decryptStream (G:=toy_gcm) sample_getKey
    (mkFileService ks DEFAULT_CHUNK_SIZE LittleEndian
       (framed LittleEndian (declaring h 7 9 0 0) hello) [])
  = decryptStream (G:=toy_gcm) sample_getKey
      (mkFileService ks DEFAULT_CHUNK_SIZE LittleEndian (framed LittleEndian h hello) []).
Proof.
  intros h ks.
  apply decryptStream_unchecked_fields; try lia; try reflexivity.
  unfold header_in_range.
  repeat split; try (vm_compute; reflexivity); try (vm_compute; discriminate).
Defined.

(** *** The trace state written and read back *)

Lemma getline_pairs_comma (p rest cur : string) :
  without_char "," p = true ->
  getline_pairs (p +:+ String "," rest) cur = (cur +:+ p) :: getline_pairs rest "".
Proof.
  revert cur. induction p as [|x p IH]; intros cur Hp.
  - ssimpl. now rewrite string_app_nil_r.
  - simpl in Hp. apply andb_true_iff in Hp as [Hx Hp].
    apply negb_true_iff, bool_decide_eq_false in Hx.
    rewrite string_app_cons. simpl.
    rewrite bool_decide_eq_false_2 by assumption.
    rewrite IH by assumption. now rewrite string_app_assoc.
Qed.

Lemma getline_pairs_last (p cur : string) :
  without_char "," p = true ->
  getline_pairs p cur = if bool_decide (cur +:+ p = "") then [] else [cur +:+ p].
Proof.
  revert cur. induction p as [|x p IH]; intros cur Hp.
  - simpl. now rewrite string_app_nil_r.
  - simpl in Hp. apply andb_true_iff in Hp as [Hx Hp].
    apply negb_true_iff, bool_decide_eq_false in Hx.
    simpl. rewrite bool_decide_eq_false_2 by assumption.
    rewrite IH by assumption. now rewrite string_app_assoc.
Qed.

Lemma without_char_app (c : ascii) (a b : string) :
  without_char c (a +:+ b) = without_char c a && without_char c b.
Proof.
  induction a as [|x a IH]; [reflexivity|].
  rewrite string_app_cons. simpl. rewrite IH. now rewrite andb_assoc.
Qed.

Lemma find_char_app (c : ascii) (a b : string) :
  without_char c a = true ->
  find_char c (a +:+ String c b) = Some (String.length a).
Proof.
  induction a as [|x a IH]; intros Ha.
  - rewrite string_app_nil_l. simpl. now rewrite bool_decide_eq_true_2.
  - simpl in Ha. apply andb_true_iff in Ha as [Hx Ha].
    apply negb_true_iff, bool_decide_eq_false in Hx.
    rewrite string_app_cons. simpl. rewrite bool_decide_eq_false_2 by assumption.
    now rewrite IH.
Qed.

Lemma substring_all (s : string) : String.substring 0 (String.length s) s = s.
Proof. induction s as [|c s IH]; [reflexivity|]. simpl. now rewrite IH. Qed.

Lemma parse_pair_text (ts : gmap string string) (k v : string) :
  without_char "=" k = true -> trim_blanks k = k -> trim_blanks v = v ->
  parse_pair ts (pair_text (k, v)) = <[k := v]> ts.
Proof.
  intros Hk Htk Htv. unfold parse_pair, pair_text. cbn [fst snd].
  change (k +:+ "=" +:+ v) with (k +:+ String "=" v).
  rewrite find_char_app by assumption.
  unfold substr, substr_from.
  rewrite substring_app_exact by reflexivity.
  rewrite string_length_app. cbn [String.length].
  replace (String.length k + S (String.length v) - (String.length k + 1))%nat
    with (String.length v) by lia.
  rewrite (substring_app_skip k (String "=" v) (String.length k) 1) by reflexivity.
  cbn [String.substring]. rewrite substring_all, Htk, Htv. reflexivity.
Qed.

Lemma pair_text_no_comma (e : string * string) :
  plain_entry e -> without_char "," (pair_text e) = true.
Proof.
  intros (Hk & _ & _ & Hv & _). unfold pair_text.
  rewrite !without_char_app, Hk, Hv. reflexivity.
Qed.

Lemma pair_text_nonempty (e : string * string) (rest : string) :
  pair_text e +:+ rest <> "".
Proof.
  unfold pair_text. destruct e as [k v]. cbn [fst snd].
  destruct k; rewrite ?string_app_cons, ?string_app_nil_l; discriminate.
Qed.

Lemma write_pairs_cons (first : bool) (e : string * string) (l : list (string * string)) :
  write_pairs first (e :: l)
  = (if first then "" else ",") +:+ pair_text e +:+ write_pairs false l.
Proof.
  destruct e as [k v]. unfold pair_text. cbn [write_pairs fst snd].
  now rewrite !string_app_assoc.
Qed.

Lemma getline_pairs_written (l : list (string * string)) (e : string * string) :
  plain_entry e -> Forall plain_entry l ->
  getline_pairs (pair_text e +:+ write_pairs false l) "" = pair_text e :: map pair_text l.
Proof.
  revert e. induction l as [|e' l IH]; intros e He Hl.
  - cbn [write_pairs map]. rewrite string_app_nil_r.
    rewrite getline_pairs_last by now apply pair_text_no_comma.
    rewrite string_app_nil_l.
    rewrite bool_decide_eq_false_2; [reflexivity|].
    rewrite <- (string_app_nil_r (pair_text e)). apply pair_text_nonempty.
  - apply Forall_cons in Hl as [He' Hl].
    rewrite write_pairs_cons.
    change ("," +:+ pair_text e' +:+ write_pairs false l)
      with (String "," (pair_text e' +:+ write_pairs false l)).
    rewrite getline_pairs_comma by now apply pair_text_no_comma.
    rewrite string_app_nil_l, IH by assumption. reflexivity.
Qed.

Lemma parse_pairs_written (l : list (string * string)) (ts : gmap string string) :
  Forall plain_entry l ->
  fold_left parse_pair (map pair_text l) ts
  = fold_left (fun m e => <[fst e := snd e]> m) l ts.
Proof.
  revert ts. induction l as [|[k v] l IH]; intros ts Hl; [reflexivity|].
  apply Forall_cons in Hl as [(Hk & Heq & Htk & Hv & Htv) Hl].
  cbn [map fold_left fst snd] in *.
  rewrite parse_pair_text by assumption. now apply IH.
Qed.

Lemma fold_left_insert (l : list (string * string)) (ts : gmap string string) :
  fold_left (fun m e => <[fst e := snd e]> m) l ts
  = (list_to_map (reverse l) : gmap string string) ∪ ts.
Proof.
  revert ts. induction l as [|[k v] l IH]; intros ts.
  - cbn. now rewrite (left_id_L ∅ (∪)).
  - cbn [fold_left fst snd]. rewrite IH, reverse_cons, list_to_map_app.
    cbn [list_to_map foldr fst snd uncurry].
    rewrite <- (assoc_L (∪)). f_equal.
    rewrite insert_empty. apply insert_union_singleton_l.
Qed.

Lemma insert_by_key_perm (e : string * string) (l : list (string * string)) :
  insert_by_key e l ≡ₚ e :: l.
Proof.
  induction l as [|x l IH]; [reflexivity|].
  cbn [insert_by_key]. destruct (string_lt (fst e) (fst x)); [reflexivity|].
  rewrite IH. apply Permutation_swap.
Qed.

Lemma entries_in_order_perm (m : gmap string string) :
  entries_in_order m ≡ₚ map_to_list m.
Proof.
  unfold entries_in_order. induction (map_to_list m) as [|e l IH]; [reflexivity|].
  cbn [foldr]. now rewrite insert_by_key_perm, IH.
Qed.

Lemma entries_in_order_map (m : gmap string string) :
  (list_to_map (reverse (entries_in_order m)) : gmap string string) = m.
Proof.
  transitivity (list_to_map (map_to_list m) : gmap string string);
    [|apply list_to_map_to_list].
  apply list_to_map_proper.
  - rewrite fmap_reverse, reverse_Permutation, (entries_in_order_perm m).
    apply NoDup_fst_map_to_list.
  - rewrite reverse_Permutation. apply entries_in_order_perm.
Qed.

Lemma entries_in_order_plain (m : gmap string string) :
  (forall k v, m !! k = Some v -> plain_entry (k, v)) ->
  Forall plain_entry (entries_in_order m).
Proof.
  intros Hm. apply Forall_forall. intros [k v] Hin.
  apply Hm. apply elem_of_map_to_list.
  now rewrite <- (entries_in_order_perm m).
Qed.

Lemma parse_pairs_keep (pairs : list string) (ts : gmap string string) (k : string) :
  is_Some (ts !! k) -> is_Some (fold_left parse_pair pairs ts !! k).
Proof.
  revert ts. induction pairs as [|p pairs IH]; intros ts Hk; [exact Hk|].
  cbn [fold_left]. apply IH. unfold parse_pair.
  destruct (find_char "=" p) as [eq_pos|]; [|exact Hk].
  apply lookup_insert_is_Some'. now right.
Qed.

(** X25. The trace state written by [toTracestate] is read back by
    [parseTracestate]: when no key holds a comma or an equals sign, no
    value holds a comma, and neither starts or ends with a space or a tab,
    parsing the header into a context adds every entry of the state to
    that context, an entry read replacing one of the same key, and leaves
    the other fields of the context alone.  The header of an empty state
    is empty and parses to no change.  Whatever the header, parsing
    changes nothing but the trace state and never drops a key that the
    context had. *)
Theorem tracestate_roundtrip (ctx into : TraceContext) :
  (forall k v, tracestate ctx !! k = Some v -> plain_entry (k, v)) ->
  parseTracestate (toTracestate ctx) into
  = mkTraceContext (trace_id into) (span_id into) (parent_span_id into) (sampled into)
      (tracestate ctx ∪ tracestate into)
  /\ (tracestate ctx = ∅ -> toTracestate ctx = "")
  /\ (forall header,
        trace_id (parseTracestate header into) = trace_id into
        /\ span_id (parseTracestate header into) = span_id into
        /\ parent_span_id (parseTracestate header into) = parent_span_id into
        /\ sampled (parseTracestate header into) = sampled into
        /\ forall k, is_Some (tracestate into !! k) ->
                     is_Some (tracestate (parseTracestate header into) !! k)).
Proof.
  intros Hplain. split; [|split].
  - unfold toTracestate. case_bool_decide as Hempty.
    + unfold parseTracestate. rewrite bool_decide_eq_true_2 by reflexivity.
      rewrite Hempty, (left_id_L ∅ (∪)). now destruct into.
    + pose proof (entries_in_order_plain _ Hplain) as Hall.
      pose proof (entries_in_order_map (tracestate ctx)) as Hmap.
      destruct (entries_in_order (tracestate ctx)) as [|e l] eqn:Hent.
      { exfalso. apply Hempty. rewrite <- Hmap. reflexivity. }
      apply Forall_cons in Hall as [He Hl].
      rewrite write_pairs_cons, string_app_nil_l.
      unfold parseTracestate.
      rewrite bool_decide_eq_false_2 by apply pair_text_nonempty.
      rewrite getline_pairs_written by assumption.
      change (pair_text e :: map pair_text l) with (map pair_text (e :: l)).
      rewrite parse_pairs_written by now constructor.
      rewrite fold_left_insert, Hmap. reflexivity.
  - intros Hempty. unfold toTracestate. now rewrite bool_decide_eq_true_2.
  - intros header. unfold parseTracestate.
    case_bool_decide; cbn [trace_id span_id parent_span_id sampled tracestate].
    + repeat split; intros k Hk; exact Hk.
    + repeat split. intros k Hk. now apply parse_pairs_keep.
Qed.

Lemma tracestate_roundtrip_witness :
  let ctx := mkTraceContext "" "" "" true
               (<["vendor" := "a=1"]> (<["rojo" := "00f067"]> ∅)) in
  toTracestate ctx = "rojo=00f067,vendor=a=1"
  /\ tracestate (parseTracestate (toTracestate ctx) TraceContext_new) = tracestate ctx.
Proof.
  intros ctx. split; [vm_compute; reflexivity|].
  assert (Hplain : forall k v, tracestate ctx !! k = Some v -> plain_entry (k, v)).
  { intros k v Hkv. subst ctx. cbn [tracestate] in Hkv.
    apply lookup_insert_Some in Hkv as [[<- <-]|[_ Hkv]];
      [repeat split; vm_compute; reflexivity|].
    apply lookup_insert_Some in Hkv as [[<- <-]|[_ Hkv]];
      [repeat split; vm_compute; reflexivity|].
    now rewrite lookup_empty in Hkv. }
  rewrite (proj1 (tracestate_roundtrip ctx TraceContext_new Hplain)).
  cbn [tracestate TraceContext_new]. apply (right_id_L ∅ (∪)).
Defined.

(** *** Spans that continue a trace *)

Lemma length_hex_digits (n : nat) (v : Z) : String.length (hex_digits n v) = n.
Proof.
  revert v. induction n as [|n IH]; intros v; [reflexivity|].
  cbn [hex_digits]. rewrite string_length_app, IH. cbn [String.length]. lia.
Qed.

Lemma all_zero_app (a b : string) : all_zero (a +:+ b) = all_zero a && all_zero b.
Proof.
  induction a as [|x a IH]; [reflexivity|].
  rewrite string_app_cons. cbn [all_zero]. rewrite IH. now rewrite andb_assoc.
Qed.

Lemma hex_digit_zero (v : Z) : 0 <= v < 16 -> hex_digit v = "0"%char <-> v = 0.
Proof.
  intros Hv.
  assert (Hc : v = 0 \/ v = 1 \/ v = 2 \/ v = 3 \/ v = 4 \/ v = 5 \/ v = 6 \/ v = 7
               \/ v = 8 \/ v = 9 \/ v = 10 \/ v = 11 \/ v = 12 \/ v = 13 \/ v = 14
               \/ v = 15) by lia.
  repeat (destruct Hc as [->|Hc]; [split; (reflexivity || discriminate)|]).
  subst v. split; (reflexivity || discriminate).
Qed.

Lemma all_zero_hex_digits (n : nat) (v : Z) :
  0 <= v < 16 ^ Z.of_nat n -> all_zero (hex_digits n v) = true <-> v = 0.
Proof.
  revert v. induction n as [|n IH]; intros v Hv.
  - cbn in *. split; [lia | reflexivity].
  - rewrite Nat2Z.inj_succ, Z.pow_succ_r in Hv by lia.
    cbn [hex_digits]. rewrite all_zero_app, andb_true_iff. cbn [all_zero].
    rewrite andb_true_r, bool_decide_eq_true.
    pose proof (Z.mod_pos_bound v 16 ltac:(lia)) as Hm.
    rewrite (hex_digit_zero _ Hm).
    rewrite IH by (split; [apply Z.div_pos; lia | apply Z.div_lt_upper_bound; lia]).
    pose proof (Z.div_mod v 16 ltac:(lia)). lia.
Qed.

Lemma hex16_facts (v : Z) :
  String.length (hex16 v) = 16%nat /\ (all_zero (hex16 v) = true <-> u64 v = 0).
Proof.
  unfold hex16. split; [apply length_hex_digits|].
  apply all_zero_hex_digits. unfold u64.
  pose proof (Z.mod_pos_bound v (2 ^ 64) ltac:(lia)). change (16 ^ Z.of_nat 16) with (2 ^ 64).
  lia.
Qed.

Lemma toTraceparent_span (tid sid : string) (flag : bool) ps ts :
  String.length tid = 32%nat -> String.length sid = 16%nat ->
  substr (toTraceparent (mkTraceContext tid sid ps flag ts)) 36 16 = sid.
Proof.
  intros Ht Hs. unfold toTraceparent, substr. cbn [trace_id span_id sampled].
  change 36%nat with (3 + 33)%nat.
  rewrite (substring_app_skip "00-" _ 3 33 16) by reflexivity.
  change 33%nat with (32 + 1)%nat.
  rewrite (substring_app_skip tid _ 32 1 16) by assumption.
  change 1%nat with (1 + 0)%nat at 1.
  rewrite (substring_app_skip "-" _ 1 0 16) by reflexivity.
  now apply substring_app_exact.
Qed.

Lemma startSpan_child_context (service_name name : string) (parent : TraceContext)
    (kind : SpanKind) (env : TraceEnv) :
  String.length (trace_id parent) = 32%nat ->
  let span := fst (startSpan_child service_name name parent kind env) in
  context_ span
  = mkTraceContext (trace_id parent) (hex16 (span_draws env (span_pos env)))
      (span_id parent) (sampled parent) (tracestate parent)
  /\ attributes_ span !! "service.name" = Some service_name
  /\ attributes_ span !! "correlation_id" = Some (substr (trace_id parent) 0 16).
Proof.
  intros Hlen. unfold startSpan_child, generateSpanId, setAttribute, Span_new.
  cbn [fst context_ attributes_ trace_id].
  split; [reflexivity|].
  split; [apply lookup_insert_eq|].
  rewrite lookup_insert_ne by discriminate.
  rewrite bool_decide_eq_false_2 by (intros E; rewrite E in Hlen; discriminate).
  rewrite lookup_insert_eq. unfold correlationId. cbn [trace_id].
  rewrite bool_decide_eq_false_2 by (intros E; rewrite E in Hlen; discriminate).
  reflexivity.
Qed.

Lemma parseTracestate_ids (header : string) (ctx : TraceContext) :
  trace_id (parseTracestate header ctx) = trace_id ctx
  /\ span_id (parseTracestate header ctx) = span_id ctx
  /\ sampled (parseTracestate header ctx) = sampled ctx.
Proof. unfold parseTracestate. case_bool_decide; repeat split. Qed.

(** X26. A span started from the headers of a request is always valid
    (a trace id of 32 characters, a span id of 16), not ended, of status
    [UNSET], and carries the name of the service and, as correlation id,
    the first 16 characters of its trace id.  When the [traceparent] is
    accepted the span continues that trace: it has the trace id and the
    sampling flag of the header, the span id of the header as its parent,
    the entries of the [tracestate] header, and a span id drawn from the
    generator; the generator of trace ids is not used.  The header the
    span sends on is accepted by [parse] unless the 64 bits drawn for the
    span id were all zero, in which case it is rejected.  When the
    [traceparent] is not accepted the span starts a new trace, sampled,
    without parent and without trace state, whatever the [tracestate]
    header says. *)
Theorem startSpanFromHeaders_continues
    (service_name name traceparent tracestate_header : string)
    (kind : SpanKind) (env : TraceEnv) :
  let run := startSpanFromHeaders service_name name traceparent tracestate_header kind env in
  let span := fst run in
  let ctx := context_ span in
  TraceContext_isValid ctx = true
  /\ name_ span = name /\ kind_ span = kind
  /\ ended_ span = false /\ status_ span = UNSET
  /\ attributes_ span !! "service.name" = Some service_name
  /\ attributes_ span !! "correlation_id" = Some (substr (trace_id ctx) 0 16)
  /\ span_id ctx = hex16 (span_draws env (span_pos env))
  /\ span_pos (snd run) = S (span_pos env)
  /\ (forall parent,
        TraceContext_parse traceparent = Some parent ->
        trace_id ctx = trace_id parent
        /\ parent_span_id ctx = span_id parent
        /\ sampled ctx = sampled parent
        /\ tracestate ctx = tracestate (parseTracestate tracestate_header parent)
        /\ trace_pos (snd run) = trace_pos env
        /\ (u64 (span_draws env (span_pos env)) <> 0 ->
            TraceContext_parse (toTraceparent ctx)
            = Some (mkTraceContext (trace_id parent) (span_id ctx) "" (sampled parent) ∅))
        /\ (u64 (span_draws env (span_pos env)) = 0 ->
            TraceContext_parse (toTraceparent ctx) = None))
  /\ (TraceContext_parse traceparent = None ->
        trace_id ctx
        = hex16 (trace_draws env (trace_pos env))
          +:+ hex16 (trace_draws env (S (trace_pos env)))
        /\ parent_span_id ctx = "" /\ sampled ctx = true /\ tracestate ctx = ∅
        /\ trace_pos (snd run) = S (S (trace_pos env))).
Proof.
  intros run span ctx. subst ctx span run. unfold startSpanFromHeaders.
  destruct (hex16_facts (span_draws env (span_pos env))) as [Hslen Hszero].
  destruct (TraceContext_parse traceparent) as [parent|] eqn:Hparse.
  - apply TraceContext_parse_inv in Hparse as (Hlen & Hzt & Hzs & Hp).
    assert (Htlen : String.length (trace_id parent) = 32%nat)
      by (subst parent; apply length_substring; lia).
    assert (Htz : all_zero (trace_id parent) = false) by (subst parent; exact Hzt).
    clear Hp Hzt Hzs.
    set (p := if negb (bool_decide (tracestate_header = ""))
              then parseTracestate tracestate_header parent else parent).
    assert (Hids : trace_id p = trace_id parent /\ span_id p = span_id parent
                   /\ sampled p = sampled parent
                   /\ tracestate p = tracestate (parseTracestate tracestate_header parent)).
    { subst p. case_bool_decide as He; cbn [negb].
      - rewrite He. unfold parseTracestate.
        rewrite bool_decide_eq_true_2 by reflexivity. repeat split.
      - destruct (parseTracestate_ids tracestate_header parent) as (E1 & E2 & E3).
        repeat split; assumption. }
    destruct Hids as (Ht & Hs & Hf & Hts).
    destruct (startSpan_child_context service_name name p kind env) as (Hctx & Hsvc & Hcor);
      [congruence|].
    cbv zeta in Hctx, Hsvc, Hcor. rewrite Hctx, Hsvc, Hcor, Ht, Hs, Hf, Hts.
    cbn [trace_id span_id parent_span_id sampled tracestate].
    unfold TraceContext_isValid. cbn [trace_id span_id]. rewrite Htlen, Hslen.
    repeat match goal with |- _ /\ _ => split end; try reflexivity.
    + intros parent' [= <-].
      repeat match goal with |- _ /\ _ => split end; try reflexivity.
      * intros Hnz. apply toTraceparent_parse; try assumption.
        destruct (all_zero (hex16 _)) eqn:Hz; [|reflexivity].
        exfalso. apply Hnz, Hszero. reflexivity.
      * intros Hz.
        destruct (TraceContext_parse (toTraceparent _)) as [c|] eqn:Hback; [|reflexivity].
        apply TraceContext_parse_inv in Hback as (_ & _ & Hsp & _).
        rewrite toTraceparent_span in Hsp by assumption.
        apply Hszero in Hz. congruence.
    + discriminate.
  - unfold startSpan, generateTraceId, generateSpanId, setAttribute, Span_new.
    cbn [fst snd context_ attributes_ name_ kind_ ended_ status_ trace_id span_id
         parent_span_id sampled tracestate TraceContext_new span_draws span_pos trace_pos].
    destruct (hex16_facts (trace_draws env (trace_pos env))) as [H1 _].
    destruct (hex16_facts (trace_draws env (S (trace_pos env)))) as [H2 _].
    assert (Htlen : String.length
                      (hex16 (trace_draws env (trace_pos env))
                       +:+ hex16 (trace_draws env (S (trace_pos env)))) = 32%nat)
      by (rewrite string_length_app, H1, H2; reflexivity).
    unfold TraceContext_isValid. cbn [trace_id span_id]. rewrite Htlen, Hslen.
    repeat match goal with |- _ /\ _ => split end; try reflexivity.
    + discriminate.
    + intros _. repeat split.
Qed.

(** *** The store in local files *)



Lemma cursor_size (data : bytes) (pos : nat) (rest : bytes) :
  cursor data pos rest -> size data = Z.of_nat pos + size rest.
Proof.
  intros [Hle Hd]. unfold size. rewrite <- Hd, length_drop. lia.
Qed.

Lemma at_range (data : bytes) (off : Z) (bs rest : bytes) :
  0 <= off -> cursor data (Z.to_nat off) (bs ++ rest) ->
  (off + size bs >? size data) = false
  /\ read_range data (Z.to_nat off) (size bs) = Some bs
  /\ cursor data (Z.to_nat (off + size bs)) rest.
Proof.
  intros Hoff Hc. pose proof (cursor_size _ _ _ Hc) as Hsz.
  rewrite size_app in Hsz. pose proof (size_nonneg rest). pose proof (size_nonneg bs).
  destruct (read_range_written _ _ _ _ Hc) as [Hr Hc'].
  split; [apply gtb_false; lia|]. split; [exact Hr|].
  replace (Z.to_nat (off + size bs)) with (Z.to_nat off + Z.to_nat (size bs))%nat by lia.
  exact Hc'.
Qed.

Lemma at_u32 (e : Endianness) (data : bytes) (off v : Z) (rest : bytes) :
  0 <= off -> 0 <= v < 2 ^ 32 ->
  cursor data (Z.to_nat off) (raw_u32 e v ++ rest) ->
  (off + 4 >? size data) = false
  /\ u32_at e data off = Some v
  /\ cursor data (Z.to_nat (off + 4)) rest.
Proof.
  intros Hoff Hv Hc.
  destruct (raw_u32_value_raw e v) as [Hval Hsz].
  destruct (at_range _ _ _ _ Hoff Hc) as (Hg & Hr & Hc').
  rewrite Hsz in Hg, Hr, Hc'.
  split; [exact Hg|]. split; [|exact Hc'].
  unfold u32_at. rewrite Hr. cbn [fmap option_fmap option_map].
  rewrite Hval, Z.mod_small by lia. reflexivity.
Qed.



Lemma deserialize_key_layout (e : Endianness) (id : KeyId) (fresh : EncryptedKey)
    (iv' tag' material : bytes) (a s : Z) (rest : bytes) :
  size iv' < 2 ^ 32 -> size tag' < 2 ^ 32 -> size material < 2 ^ 32 ->
  0 <= a < 2 ^ 32 -> 0 <= s < 2 ^ 32 ->
  deserialize_key e id fresh (key_file e iv' tag' material a s rest)
  = (algorithm' ← KeyAlgorithm_of_index a;
     state' ← KeyState_of_index s;
     Some (Ok (read_key id fresh iv' tag' material algorithm' state'))).
Proof.
  intros Hiv Htag Hmat Ha Hs.
  pose proof (size_nonneg iv'). pose proof (size_nonneg tag').
  pose proof (size_nonneg material).
  set (data := key_file e iv' tag' material a s rest).
  assert (Hc0 : cursor data (Z.to_nat 0) data) by apply cursor_start.
  unfold deserialize_key. cbv zeta.
  unfold data at 1, key_file in Hc0.
  destruct (at_u32 e data 0 (size iv') _ ltac:(lia) ltac:(lia) Hc0) as (-> & -> & Hc1).
  cbn [mbind option_bind].
  destruct (at_range data (0 + 4) iv' _ ltac:(lia) Hc1) as (-> & -> & Hc2).
  cbn [mbind option_bind].
  destruct (at_u32 e data (0 + 4 + size iv') (size tag') _ ltac:(lia) ltac:(lia) Hc2)
    as (-> & -> & Hc3).
  cbn [mbind option_bind].
  destruct (at_range data (0 + 4 + size iv' + 4) tag' _ ltac:(lia) Hc3) as (-> & -> & Hc4).
  cbn [mbind option_bind].
  destruct (at_u32 e data (0 + 4 + size iv' + 4 + size tag') (size material) _
              ltac:(lia) ltac:(lia) Hc4) as (-> & -> & Hc5).
  cbn [mbind option_bind].
  destruct (at_range data (0 + 4 + size iv' + 4 + size tag' + 4) material _
              ltac:(lia) Hc5) as (-> & -> & Hc6).
  cbn [mbind option_bind].
  pose proof (cursor_size _ _ _ Hc6) as Hsz.
  rewrite !size_app in Hsz.
  destruct (raw_u32_value_raw e a) as [_ Hsa]. destruct (raw_u32_value_raw e s) as [_ Hss].
  pose proof (size_nonneg rest).
  rewrite gtb_false by lia.
  destruct (at_u32 e data (0 + 4 + size iv' + 4 + size tag' + 4 + size material) a _
              ltac:(lia) ltac:(lia) Hc6) as (_ & -> & Hc7).
  cbn [mbind option_bind].
  destruct (at_u32 e data (0 + 4 + size iv' + 4 + size tag' + 4 + size material + 4) s _
              ltac:(lia) ltac:(lia) Hc7) as (_ & -> & _).
  reflexivity.
Qed.

Lemma KeyAlgorithm_index_named (a : KeyAlgorithm) :
  KeyAlgorithm_of_index (KeyAlgorithm_index a) = Some a
  /\ 0 <= KeyAlgorithm_index a < 2 ^ 32.
Proof. destruct a; split; (reflexivity || (cbn; lia)). Qed.

Lemma KeyState_index_named (s : KeyState) :
  KeyState_of_index (KeyState_index s) = Some s /\ 0 <= KeyState_index s < 2 ^ 32.
Proof. destruct s; split; (reflexivity || (cbn; lia)). Qed.

Lemma serialize_key_file (e : Endianness) (key : EncryptedKey) :
  size (ek_iv key) < 2 ^ 32 -> size (ek_tag key) < 2 ^ 32 ->
  size (encrypted_material key) < 2 ^ 32 ->
  serialize_key e key
  = key_file e (ek_iv key) (ek_tag key) (encrypted_material key)
      (KeyAlgorithm_index (md_algorithm (metadata key)))
      (KeyState_index (md_state (metadata key))) [].
Proof.
  intros Hiv Htag Hmat. unfold serialize_key, key_file, u32.
  pose proof (size_nonneg (ek_iv key)). pose proof (size_nonneg (ek_tag key)).
  pose proof (size_nonneg (encrypted_material key)).
  rewrite !Z.mod_small by lia. now rewrite app_nil_r.
Qed.

Lemma store_settled (id : KeyId) (key : EncryptedKey) (st : LocalKeyStore) :
  mutex_locked st = false -> io_faults st = [] ->
  LocalKeyStore_store id key st
  = Some (Ok tt,
          settled st (<[getKeyPath id st := serialize_key (local_host st) key]> (files st))
            0).
Proof.
  destruct st as [sp mk lk fs faults e cr cp]. cbn. intros -> ->.
  unfold LocalKeyStore_store, lock_guard, settled, getKeyPath. cbn.
  now rewrite insert_insert_eq.
Qed.

Lemma retrieve_settled (id : KeyId) (st : LocalKeyStore) (content : bytes) :
  mutex_locked st = false -> io_faults st = [] ->
  files st !! getKeyPath id st = Some content ->
  LocalKeyStore_retrieve id st
  = (r ← deserialize_key (local_host st) id (fresh_key st) content;
     Some (r, settled st (files st) 2)).
Proof.
  destruct st as [sp mk lk fs faults e cr cp]. cbn. intros -> -> Hfile.
  unfold LocalKeyStore_retrieve, lock_guard, settled, getKeyPath, fresh_key in *.
  cbn in *. rewrite Hfile. cbn.
  destruct (deserialize_key _ _ _ _) as [r|]; reflexivity.
Qed.
Lemma retrieve_stored (st : LocalKeyStore) (a b : KeyId) (key : EncryptedKey) :
  mutex_locked st = false -> io_faults st = [] ->
  size (ek_iv key) < 2 ^ 32 -> size (ek_tag key) < 2 ^ 32 ->
  size (encrypted_material key) < 2 ^ 32 ->
  getKeyPath a st = getKeyPath b st ->
  let st1 := settled st (<[getKeyPath a st := serialize_key (local_host st) key]> (files st))
               0 in
  LocalKeyStore_store a key st = Some (Ok tt, st1)
  /\ LocalKeyStore_retrieve b st1
     = Some (Ok (read_key b (fresh_key st) (ek_iv key) (ek_tag key) (encrypted_material key)
                   (md_algorithm (metadata key)) (md_state (metadata key))),
             settled st1 (files st1) 2).
Proof.
  intros Hfree Hfaults Hiv Htag Hmat Hpath st1.
  destruct (KeyAlgorithm_index_named (md_algorithm (metadata key))) as [Ha Har].
  destruct (KeyState_index_named (md_state (metadata key))) as [Hs Hsr].
  split; [now apply store_settled|].
  rewrite (retrieve_settled b st1 (serialize_key (local_host st) key));
    try reflexivity.
  - change (local_host st1) with (local_host st).
    rewrite serialize_key_file, deserialize_key_layout, Ha, Hs by assumption.
    reflexivity.
  - change (getKeyPath b st1) with (getKeyPath b st). rewrite <- Hpath.
    apply lookup_insert_eq.
Qed.

(** X27. A key stored in a local file is read back in part.  With the
    mutex free, no failure of the file system and a vector, tag and
    material below 4 GiB, [store] writes the file of the key and [retrieve]
    then returns the vector, the tag, the encrypted material, the
    algorithm and the state that were stored, under the identifier asked
    for.  Nothing else of the record is in the file: the key encryption
    key, the type, the dates, the owner, the allowed operations and the
    usage count come back as those of a default-constructed key, so the
    metadata read back allow neither encryption nor decryption. *)
Theorem LocalKeyStore_roundtrip (st : LocalKeyStore) (id : KeyId) (key : EncryptedKey) :
  mutex_locked st = false -> io_faults st = [] ->
  size (ek_iv key) < 2 ^ 32 -> size (ek_tag key) < 2 ^ 32 ->
  size (encrypted_material key) < 2 ^ 32 ->
  exists st1 st2 got,
    LocalKeyStore_store id key st = Some (Ok tt, st1)
    /\ files st1 = <[getKeyPath id st := serialize_key (local_host st) key]> (files st)
    /\ LocalKeyStore_retrieve id st1 = Some (Ok got, st2)
    /\ files st2 = files st1
    /\ encrypted_material got = encrypted_material key
    /\ ek_iv got = ek_iv key
    /\ ek_tag got = ek_tag key
    /\ md_algorithm (metadata got) = md_algorithm (metadata key)
    /\ md_state (metadata got) = md_state (metadata key)
    /\ md_id (metadata got) = id
    /\ kek_id got = mkKeyId "" "" 1
    /\ md_type (metadata got) = SYMMETRIC
    /\ md_created_at (metadata got) = clock_readings st (clock_pos st)
    /\ md_expires_at (metadata got)
       = clock_readings st (S (clock_pos st)) + 24 * 365 * 3600 * ticks_per_second
    /\ md_rotated_at (metadata got) = None
    /\ md_previous_version (metadata got) = None
    /\ md_owner_service (metadata got) = ""
    /\ md_allowed_operations (metadata got) = []
    /\ md_usage_count (metadata got) = 0
    /\ (forall w, canEncrypt (metadata got) w = false
                  /\ canDecrypt (metadata got) w = false).
Proof.
  intros Hfree Hfaults Hiv Htag Hmat.
  destruct (retrieve_stored st id id key Hfree Hfaults Hiv Htag Hmat eq_refl)
    as [Hstore Hget].
  eexists _, _, _.
  split; [exact Hstore|]. split; [reflexivity|]. split; [exact Hget|].
  repeat match goal with |- _ /\ _ => split end; try reflexivity.
  intros w. unfold canEncrypt, canDecrypt, read_key, fresh_key.
  cbn [metadata md_state md_allowed_operations].
  rewrite !(bool_decide_eq_false_2 (_ ∈ [])) by apply not_elem_of_nil.
  split.
  - destruct (negb _); [reflexivity|]. now destruct (isExpired _ _).
  - destruct (_ && _); [reflexivity|]. now destruct (isExpired _ _).
Qed.

Lemma LocalKeyStore_roundtrip_witness :
  let st := mkLocalKeyStore "/var/keys" zero_key false ∅ [] LittleEndian (fun _ => 0) 0 in
  exists st1 st2 got,
    LocalKeyStore_store first_key (sample_record first_key DEPRECATED) st
    = Some (Ok tt, st1)
    /\ LocalKeyStore_retrieve first_key st1 = Some (Ok got, st2)
    /\ encrypted_material got = encrypted_material (sample_record first_key DEPRECATED)
    /\ md_state (metadata got) = DEPRECATED
    /\ md_allowed_operations (metadata got) = [].
Proof.
  intros st.
  destruct (LocalKeyStore_roundtrip st first_key (sample_record first_key DEPRECATED))
    as (st1 & st2 & got & Hstore & _ & Hget & _ & Hmat & _ & _ & _ & Hstate & _ & _ & _
        & _ & _ & _ & _ & _ & Hops & _);
    try reflexivity.
  exists st1, st2, got. repeat split; assumption.
Defined.


Lemma replace_char_app (from to : ascii) (a b : string) :
  replace_char from to (a +:+ b) = replace_char from to a +:+ replace_char from to b.
Proof.
  induction a as [|c a IH]; [reflexivity|].
  rewrite string_app_cons. cbn [replace_char]. now rewrite IH, string_app_cons.
Qed.

Lemma replace_char_inj (x y : string) :
  without_char "_" x = true -> without_char "_" y = true ->
  replace_char ":" "_" x = replace_char ":" "_" y -> x = y.
Proof.
  revert y. induction x as [|c x IH]; intros [|d y] Hx Hy Heq; try discriminate;
    [reflexivity|].
  cbn [without_char replace_char] in *.
  apply andb_true_iff in Hx as [Hc Hx]. apply andb_true_iff in Hy as [Hd Hy].
  apply negb_true_iff, bool_decide_eq_false in Hc, Hd.
  injection Heq as Hhead Htail.
  f_equal; [|now apply IH].
  repeat case_bool_decide; congruence.
Qed.

Lemma string_app_inv_head (a x y : string) : a +:+ x = a +:+ y -> x = y.
Proof.
  induction a as [|c a IH]; [now rewrite !string_app_nil_l|].
  rewrite !string_app_cons. intros [= H]. now apply IH.
Qed.

Lemma string_app_inv_tail (x y s : string) : x +:+ s = y +:+ s -> x = y.
Proof.
  revert y. induction x as [|c x IH]; intros [|d y] Heq.
  - reflexivity.
  - exfalso. apply (f_equal String.length) in Heq.
    rewrite string_app_nil_l, string_app_cons in Heq. cbn [String.length] in Heq.
    rewrite string_length_app in Heq. lia.
  - exfalso. apply (f_equal String.length) in Heq.
    rewrite string_app_nil_l, string_app_cons in Heq. cbn [String.length] in Heq.
    rewrite string_length_app in Heq. lia.
  - rewrite !string_app_cons in Heq. injection Heq as -> Heq. f_equal. now apply IH.
Qed.

Lemma getKeyPath_inv (a b : KeyId) (st : LocalKeyStore) :
  getKeyPath a st = getKeyPath b st ->
  replace_char ":" "_" (KeyId_toString a) = replace_char ":" "_" (KeyId_toString b).
Proof.
  unfold getKeyPath. intros Heq.
  apply string_app_inv_head, (string_app_inv_head "/") in Heq.
  now apply string_app_inv_tail in Heq.
Qed.

Lemma all_digits_no_underscore (s : string) :
  all_digits s = true -> without_char "_" s = true.
Proof.
  induction s as [|c s IH]; [reflexivity|]. simpl. intros H.
  apply andb_true_iff in H as [Hc Hs]. apply bool_decide_eq_true in Hc.
  rewrite IH by assumption. rewrite andb_true_r.
  apply negb_true_iff, bool_decide_eq_false. intros ->.
  destruct Hc as [d Hd]. discriminate.
Qed.

Lemma KeyId_toString_no_underscore (k : KeyId) :
  without_char "_" (namespace_prefix k) = true -> without_char "_" (kid k) = true ->
  0 <= version k ->
  without_char "_" (KeyId_toString k) = true.
Proof.
  intros Hns Hid Hv. unfold KeyId_toString.
  rewrite !without_char_app, Hns, Hid.
  destruct (to_string_digits (version k) Hv) as (Hd & _).
  now rewrite (all_digits_no_underscore _ Hd).
Qed.

(** X29. The file of a key is named after the printed identifier with
    every colon turned into an underscore, so identifiers that differ only
    in where a colon and an underscore stand share a file: a key stored
    under one of them is what [retrieve] returns for the other, under the
    other's name.  Moving an underscore across the colon between
    namespace and id gives such a pair.  Identifiers without underscore
    and without colon in namespace and id, with a version that is a
    [uint32_t], have files of their own. *)
Theorem LocalKeyStore_shared_files (st : LocalKeyStore) :
  (forall a b key,
     mutex_locked st = false -> io_faults st = [] ->
     size (ek_iv key) < 2 ^ 32 -> size (ek_tag key) < 2 ^ 32 ->
     size (encrypted_material key) < 2 ^ 32 ->
     getKeyPath a st = getKeyPath b st ->
     exists st1 st2 got,
       LocalKeyStore_store a key st = Some (Ok tt, st1)
       /\ LocalKeyStore_retrieve b st1 = Some (Ok got, st2)
       /\ encrypted_material got = encrypted_material key
       /\ ek_iv got = ek_iv key /\ ek_tag got = ek_tag key
       /\ md_id (metadata got) = b)
  /\ (forall a b,
        getKeyPath a st = getKeyPath b st
        <-> replace_char ":" "_" (KeyId_toString a)
            = replace_char ":" "_" (KeyId_toString b))
  /\ (forall ns x y v,
        getKeyPath (mkKeyId (ns +:+ "_" +:+ x) y v) st
        = getKeyPath (mkKeyId ns (x +:+ "_" +:+ y) v) st)
  /\ (forall a b,
        without_char "_" (namespace_prefix a) = true -> without_char "_" (kid a) = true ->
        no_colon (namespace_prefix a) = true -> no_colon (kid a) = true ->
        0 <= version a < 2 ^ 32 ->
        without_char "_" (namespace_prefix b) = true -> without_char "_" (kid b) = true ->
        no_colon (namespace_prefix b) = true -> no_colon (kid b) = true ->
        0 <= version b < 2 ^ 32 ->
        getKeyPath a st = getKeyPath b st -> a = b).
Proof.
  split; [|split; [|split]].
  - intros a b key Hfree Hfaults Hiv Htag Hmat Hpath.
    destruct (retrieve_stored st a b key Hfree Hfaults Hiv Htag Hmat Hpath)
      as [Hstore Hget].
    eexists _, _, _. split; [exact Hstore|]. split; [exact Hget|].
    repeat split.
  - intros a b. split; [apply getKeyPath_inv|].
    unfold getKeyPath. now intros ->.
  - intros ns x y v. unfold getKeyPath, KeyId_toString.
    cbn [namespace_prefix kid version].
    do 2 f_equal. rewrite !replace_char_app. cbn [replace_char].
    rewrite !bool_decide_eq_false_2 by discriminate.
    rewrite !bool_decide_eq_true_2 by reflexivity.
    now rewrite !string_app_assoc.
  - intros a b Hua Hia Hca Hka Hva Hub Hib Hcb Hkb Hvb Hpath.
    apply getKeyPath_inv, replace_char_inj in Hpath;
      [|apply KeyId_toString_no_underscore; (assumption || lia)..].
    now apply KeyId_toString_inj.
Qed.

Lemma LocalKeyStore_shared_files_witness :
  let st := mkLocalKeyStore "/var/keys" zero_key false ∅ [] LittleEndian (fun _ => 0) 0 in
  let a := mkKeyId "pay_eu" "k" 1 in
  let b := mkKeyId "pay" "eu_k" 1 in
  a <> b
  /\ exists st1 st2 got,
       LocalKeyStore_store a (sample_record a ACTIVE) st = Some (Ok tt, st1)
       /\ LocalKeyStore_retrieve b st1 = Some (Ok got, st2)
       /\ encrypted_material got = encrypted_material (sample_record a ACTIVE)
       /\ md_id (metadata got) = b.
Proof.
  intros st a b. split; [discriminate|].
  destruct (proj1 (LocalKeyStore_shared_files st) a b (sample_record a ACTIVE))
    as (st1 & st2 & got & Hstore & Hget & Hmat & _ & _ & Hid); try reflexivity.
  exists st1, st2, got. repeat split; assumption.
Defined.

(** X30. [updateMetadata] of the store in local files never returns: it
    takes the mutex and then calls [retrieve], which takes the same mutex
    again, and a thread that locks a mutex it holds waits for itself.  The
    other methods modelled take the mutex once: with the mutex free and no
    failure of the file system, [store], [remove] and [exists] return with
    the mutex free again, [exists] tells whether [remove] will succeed,
    and a removed key is no longer found. *)
Theorem LocalKeyStore_updateMetadata_never_returns
    (st : LocalKeyStore) (id : KeyId) :
  (forall md, LocalKeyStore_updateMetadata id md st = None)
  /\ (mutex_locked st = false -> io_faults st = [] ->
      (forall key, exists st', LocalKeyStore_store id key st = Some (Ok tt, st')
                               /\ mutex_locked st' = false)
      /\ LocalKeyStore_exists id st
         = Some (Ok (bool_decide (is_Some (files st !! getKeyPath id st))), st)
      /\ (files st !! getKeyPath id st = None ->
          LocalKeyStore_remove id st = Some (not_found id, st))
      /\ (is_Some (files st !! getKeyPath id st) ->
          exists st',
            LocalKeyStore_remove id st = Some (Ok tt, st')
            /\ mutex_locked st' = false
            /\ files st' = delete (getKeyPath id st) (files st)
            /\ LocalKeyStore_exists id st' = Some (Ok false, st')
            /\ fst <$> LocalKeyStore_retrieve id st' = Some (not_found id))).
Proof.
  split.
  - intros md. unfold LocalKeyStore_updateMetadata, lock_guard at 1.
    destruct (mutex_locked st); [reflexivity|].
    unfold LocalKeyStore_retrieve, lock_guard. reflexivity.
  - intros Hfree Hfaults.
    destruct st as [sp mk lk fs faults e cr cp]. cbn in Hfree, Hfaults. subst lk faults.
    split; [|split; [|split]].
    + intros key. eexists. split; [now apply store_settled | reflexivity].
    + reflexivity.
    + unfold LocalKeyStore_remove, lock_guard, getKeyPath. cbn. now intros ->.
    + unfold LocalKeyStore_remove, LocalKeyStore_exists, LocalKeyStore_retrieve,
        lock_guard, getKeyPath. cbn.
      intros [content Hfile]. rewrite Hfile. eexists. split; [reflexivity|].
      cbn. rewrite lookup_delete_eq. cbn.
      repeat split.
Qed.
